(** * sequelize-query-parser: the query-string translator, embedded in Rocq

    The development follows [sequelizeQueryParser.js] in its current
    revision, the one whose operator table is called [operators] and whose
    descriptor starts out with [offset] and [limit].  Of the two earlier
    revisions, the first splits a filter value on every colon and the
    second starts the descriptor as [{where: {}}]; what they do otherwise
    than the current one is in [Revision1] and [Revision2].

    JavaScript values are modelled the way the program uses them:

    - strings are [string]s (code units below 256), so the only line
      terminators a string can hold are LF and CR;
    - the numbers of the pagination arithmetic are [JSNum]: an integer or
      [NaN].  The integers stand for the doubles the engine computes with,
      which is exact inside the safe-integer range;
    - objects are property lists in insertion order, keyed by strings or by
      operator symbols;
    - [try]/[catch] and the promise are an error monad, [Completion], and
      the type [Settled].

    The translator is embedded twice.  The first embedding works on
    values: an object is the tree of its properties, and a function returns
    the tree it makes.  The second, [Heap], works on a store of cells, one
    for each object or array, where an assignment changes the object for
    whoever holds its reference.  It is there for what cannot be said of
    trees: that a call leaves the object [req.query] as it found it, and
    that what a call returns does not depend on what else the store holds.
    [pass_agrees] and [parse_agrees] relate the two embeddings.

    The built-ins the program calls ([split], [parseInt], [Math.max],
    [Object.keys], the property read [obj[key]] with its prototype chain)
    are written out; [unescape], [JSON.parse] and the [db] object are
    parameters of the translator, as [db] is a parameter of the module's
    factory function.  [console.debug], with the [JSON.stringify] of the
    descriptor that feeds it, and the limit of the engine's call stack are
    left out: the entities of [db] are taken to serialise without an
    exception.  Line numbers are those of [src/sequelizeQueryParser.js]
    unless [src/unnamed/part_001] is named. *)

From Stdlib Require Import String Ascii List ZArith Lia Bool Arith.
From Stdlib Require Import DecimalString DecimalNat DecimalPos Permutation.
Import ListNotations.

Local Open Scope string_scope.
Local Open Scope list_scope.

(* ================================================================== *)
(** ** String built-ins *)
(* ================================================================== *)

Module JSString.

(** [s.split(sep)] for a separator of one character.  The result is never
    empty: [split] of the empty string is the list holding the empty string. *)
Fixpoint split (sep : ascii) (s : string) : list string :=
  match s with
  | EmptyString => [EmptyString]
  | String c r =>
      if Ascii.eqb c sep then EmptyString :: split sep r
      else match split sep r with
           | h :: t => String c h :: t
           | [] => [String c EmptyString]
           end
  end.

(** [arr.join(sep)], which is also what [toString] of an array of strings
    gives with [sep = ","]. *)
Fixpoint join (sep : string) (l : list string) : string :=
  match l with
  | [] => EmptyString
  | [x] => x
  | x :: r => x ++ sep ++ join sep r
  end.

(** The characters the regular-expression atom [.] does not match. *)
Definition isLineTerminator (c : ascii) : bool :=
  Ascii.eqb c "010"%char || Ascii.eqb c "013"%char.

Definition startsWithNonLT (s : string) : bool :=
  match s with
  | EmptyString => false
  | String d _ => negb (isLineTerminator d)
  end.

(** [s.split(/:(.+)/)].  The pattern matches a colon followed by at least
    one character that is no line terminator, and captures the run of such
    characters (greedily, so up to the next line terminator or the end).
    [split] pushes the text before each match and then the capture, and
    resumes after the match.

    [capturing] tells whether [cur] is the capture being read or the piece
    before the next match. *)
Fixpoint splitColonRest_go (capturing : bool) (cur : string) (s : string)
  : list string :=
  match s with
  | EmptyString => if capturing then [cur; EmptyString] else [cur]
  | String c r =>
      if capturing then
        if isLineTerminator c
        then cur :: splitColonRest_go false (String c EmptyString) r
        else splitColonRest_go true (cur ++ String c EmptyString) r
      else if Ascii.eqb c ":"%char && startsWithNonLT r
        then cur :: splitColonRest_go true EmptyString r
        else splitColonRest_go false (cur ++ String c EmptyString) r
  end.

Definition splitColonRest (s : string) : list string :=
  splitColonRest_go false EmptyString s.

End JSString.

(* ================================================================== *)
(** ** Numbers: [parseInt], [Math.max], [Math.min], [*] *)
(* ================================================================== *)

Inductive JSNum : Type :=
| NaN
| Num (z : Z).

Module JSNumber.

(** White space that [parseInt] skips (the code units below 256 of
    StrWhiteSpaceChar): TAB, LF, VT, FF, CR, SP and NBSP. *)
Definition isWhiteSpace (c : ascii) : bool :=
  let n := nat_of_ascii c in
  (Nat.leb 9 n && Nat.leb n 13) || Nat.eqb n 32 || Nat.eqb n 160.

Fixpoint trimStart (s : string) : string :=
  match s with
  | String c r => if isWhiteSpace c then trimStart r else s
  | EmptyString => s
  end.

(** The value of a digit in the given radix (10 or 16), if it is one. *)
Definition digitValue (radix : Z) (c : ascii) : option Z :=
  let n := Z.of_nat (nat_of_ascii c) in
  let v :=
    if (48 <=? n)%Z && (n <=? 57)%Z then Some (n - 48)%Z
    else if (97 <=? n)%Z && (n <=? 102)%Z then Some (n - 87)%Z
    else if (65 <=? n)%Z && (n <=? 70)%Z then Some (n - 55)%Z
    else None in
  match v with
  | Some d => if (d <? radix)%Z then Some d else None
  | None => None
  end.

(** The longest prefix of digits, read as a number; [None] when there is no
    digit at all. *)
Fixpoint readDigits (radix : Z) (acc : option Z) (s : string) : option Z :=
  match s with
  | EmptyString => acc
  | String c r =>
      match digitValue radix c with
      | Some d =>
          readDigits radix
            (Some (match acc with Some a => a * radix + d | None => d end)%Z) r
      | None => acc
      end
  end.

(** [parseInt(s)] with no radix argument: leading white space, an optional
    sign, an optional [0x]/[0X] prefix, then the digits; [NaN] when no digit
    follows.  What comes after the digits is ignored.  The result is the
    integer that the digits denote; the engine rounds it to a double, which
    is the same number as long as it is at most [2 ^ 53] in absolute
    value. *)
Definition parseInt (s : string) : JSNum :=
  let s1 := trimStart s in
  let '(sign, s2) :=
    match s1 with
    | String "-"%char r => ((-1)%Z, r)
    | String "+"%char r => (1%Z, r)
    | _ => (1%Z, s1)
    end in
  let '(radix, s3) :=
    match s2 with
    | String "0"%char (String "x"%char r) => (16%Z, r)
    | String "0"%char (String "X"%char r) => (16%Z, r)
    | _ => (10%Z, s2)
    end in
  match readDigits radix None s3 with
  | Some v => Num (sign * v)
  | None => NaN
  end.

Definition max (a b : JSNum) : JSNum :=
  match a, b with
  | Num x, Num y => Num (Z.max x y)
  | _, _ => NaN
  end.

Definition min (a b : JSNum) : JSNum :=
  match a, b with
  | Num x, Num y => Num (Z.min x y)
  | _, _ => NaN
  end.

(** [a * b]: the product of the integers, which is what the engine
    computes as long as the product is at most [2 ^ 53] in absolute
    value. *)
Definition mul (a b : JSNum) : JSNum :=
  match a, b with
  | Num x, Num y => Num (x * y)
  | _, _ => NaN
  end.

End JSNumber.

(* ================================================================== *)
(** ** Completions: what [try]/[catch] sees *)
(* ================================================================== *)

Inductive Completion (A : Type) : Type :=
| Normal (a : A)
| Throw (msg : string).

Arguments Normal {A} a.
Arguments Throw {A} msg.

Definition bind {A B : Type} (c : Completion A) (k : A -> Completion B)
  : Completion B :=
  match c with
  | Normal a => k a
  | Throw m => Throw m
  end.

(** A computation that may also run out of fuel ([None]). *)
Definition Fueled (A : Type) : Type := option (Completion A).

Definition bindF {A B : Type} (c : Fueled A) (k : A -> Fueled B) : Fueled B :=
  match c with
  | Some (Normal a) => k a
  | Some (Throw m) => Some (Throw m)
  | None => None
  end.

Definition retF {A : Type} (a : A) : Fueled A := Some (Normal a).

Declare Scope js_scope.
Delimit Scope js_scope with js.
Notation "x <- c ;; k" := (bind c (fun x => k))
  (at level 61, c at next level, right associativity) : js_scope.
Notation "x <~ c ;; k" := (bindF c (fun x => k))
  (at level 61, c at next level, right associativity) : js_scope.
Local Open Scope js_scope.

(* ================================================================== *)
(** ** The operator table *)
(* ================================================================== *)

(** The symbols of [db.Sequelize.Op] the table uses.  They are supplied by
    the storage engine; all the translator needs is that they are symbols,
    pairwise distinct and distinct from every string key. *)
Inductive Op : Type :=
| Op_gt | Op_gte | Op_lt | Op_lte | Op_ne | Op_eq | Op_not
| Op_like | Op_notLike | Op_regexp | Op_notRegexp
| Op_and | Op_or | Op_between | Op_notBetween | Op_in | Op_notIn.

Definition Op_eqb (a b : Op) : bool :=
  match a, b with
  | Op_gt, Op_gt | Op_gte, Op_gte | Op_lt, Op_lt | Op_lte, Op_lte
  | Op_ne, Op_ne | Op_eq, Op_eq | Op_not, Op_not
  | Op_like, Op_like | Op_notLike, Op_notLike
  | Op_regexp, Op_regexp | Op_notRegexp, Op_notRegexp
  | Op_and, Op_and | Op_or, Op_or
  | Op_between, Op_between | Op_notBetween, Op_notBetween
  | Op_in, Op_in | Op_notIn, Op_notIn => true
  | _, _ => false
  end.

(** The own properties of the object literal [operators] (lines 289-316). *)
Definition operatorTable : list (string * Op) :=
  [ ("gt", Op_gt); ("gte", Op_gte); ("lt", Op_lt); ("lte", Op_lte);
    ("ne", Op_ne); ("eq", Op_eq); ("not", Op_not);
    ("like", Op_like); ("notLike", Op_notLike);
    ("regexp", Op_regexp); ("notRegexp", Op_notRegexp);
    ("and", Op_and); ("or", Op_or);
    ("between", Op_between); ("notBetween", Op_notBetween);
    ("in", Op_in); ("notIn", Op_notIn) ].

(** [operators] is a plain object literal, so a property read that finds no
    own property goes on to [Object.prototype]. *)
Definition objectPrototypeMembers : list string :=
  [ "constructor"; "__defineGetter__"; "__defineSetter__"; "hasOwnProperty";
    "__lookupGetter__"; "__lookupSetter__"; "isPrototypeOf";
    "propertyIsEnumerable"; "toString"; "valueOf"; "__proto__";
    "toLocaleString" ].

(** What the property read [operators[key]] evaluates to. *)
Inductive Lookup : Type :=
| Found (op : Op)               (* an entry of the table: a symbol *)
| Inherited (member : string)   (* a member of Object.prototype *)
| Undefined.

Fixpoint assocString {A : Type} (key : string) (l : list (string * A))
  : option A :=
  match l with
  | [] => None
  | (k, v) :: r => if String.eqb key k then Some v else assocString key r
  end.

Definition operators (key : string) : Lookup :=
  match assocString key operatorTable with
  | Some op => Found op
  | None =>
      if existsb (String.eqb key) objectPrototypeMembers
      then Inherited key
      else Undefined
  end.

(** The test [if (op)]: symbols, functions and objects are truthy. *)
Definition truthy (l : Lookup) : bool :=
  match l with
  | Undefined => false
  | _ => true
  end.

(** A property key: a string or a symbol. *)
Inductive PropKey : Type :=
| KStr (s : string)
| KSym (op : Op).

Definition PropKey_eqb (a b : PropKey) : bool :=
  match a, b with
  | KStr s, KStr t => String.eqb s t
  | KSym o, KSym p => Op_eqb o p
  | _, _ => false
  end.

(** The string a member of [Object.prototype] turns into when it is used as
    a property key: the source text of a built-in function as Node.js (V8)
    prints it, and [[object Object]] for the prototype object itself, which
    is what [__proto__] reads. *)
Definition inheritedToString (member : string) : string :=
  if String.eqb member "__proto__" then "[object Object]"
  else "function "
       ++ (if String.eqb member "constructor" then "Object" else member)
       ++ "() { [native code] }".

(** The key that [obj[op]] addresses when [op] is the result of a read of
    [operators]. *)
Definition toPropertyKey (l : Lookup) : PropKey :=
  match l with
  | Found op => KSym op
  | Inherited member => KStr (inheritedToString member)
  | Undefined => KStr "undefined"
  end.

(* ================================================================== *)
(** ** Values and objects *)
(* ================================================================== *)

Section Values.

(** [Number] is the engine's number type as [JSON.parse] produces it and
    [Handle] the type of the entity definitions [db] holds.  The translator
    inspects neither. *)
Context {Number Handle : Type}.

#[local] Set Warnings "-register-all".

(** The values a filter or include tree is made of.  Objects list their
    properties in the order [Object.keys] reports them; a symbol-keyed
    property is never reported. *)
Inductive JSValue : Type :=
| JUndefined
| JNull
| JBool (b : bool)
| JNum (n : Number)
| JStr (s : string)
| JArr (elems : list JSValue)
| JObj (props : list (PropKey * JSValue))
| JHandle (h : Handle).

Definition Props : Type := list (PropKey * JSValue).

(** [obj[k]], when [k] is an own property. *)
Fixpoint get (k : PropKey) (o : Props) : option JSValue :=
  match o with
  | [] => None
  | (k', v) :: r => if PropKey_eqb k k' then Some v else get k r
  end.

(** [obj[k]] as an expression: a missing property reads [undefined]. *)
Definition read (k : PropKey) (o : Props) : JSValue :=
  match get k o with
  | Some v => v
  | None => JUndefined
  end.

(** [delete obj[k]]. *)
Fixpoint delete (k : PropKey) (o : Props) : Props :=
  match o with
  | [] => []
  | (k', v) :: r =>
      if PropKey_eqb k k' then delete k r else (k', v) :: delete k r
  end.

(** [obj[k] = v]: an existing property keeps its place, a new one goes last. *)
Fixpoint set (k : PropKey) (v : JSValue) (o : Props) : Props :=
  match o with
  | [] => [(k, v)]
  | (k', v') :: r =>
      if PropKey_eqb k k' then (k, v) :: r else (k', v') :: set k v r
  end.

(** [Object.keys(obj)]: the string keys, in order. *)
Fixpoint keys (o : Props) : list string :=
  match o with
  | [] => []
  | (KStr s, _) :: r => s :: keys r
  | (KSym _, _) :: r => keys r
  end.

(** [v !== null && typeof v === 'object'].  Entity handles are model
    classes, whose [typeof] is ['function']. *)
Definition isObject (v : JSValue) : bool :=
  match v with
  | JArr _ | JObj _ => true
  | _ => false
  end.

(** The nesting depth of a value; it bounds the recursion of the rewrite
    pass. *)
Fixpoint height (v : JSValue) : nat :=
  match v with
  | JArr elems => S (fold_right (fun e m => Nat.max (height e) m) 0 elems)
  | JObj props =>
      S (fold_right (fun kv m => Nat.max (height (snd kv)) m) 0 props)
  | _ => 0
  end.

End Values.

Arguments JSValue : clear implicits.
Arguments Props : clear implicits.

(** What the translator is given: the engine's [unescape] and [JSON.parse]
    (which throws a [SyntaxError] with a message on malformed text), the
    conversions of numbers and handles to property keys, and the [db]
    object, read as [db[name]] with [None] for [null] or [undefined]. *)
Class Runtime (Number Handle : Type) : Type := {
  numberToString : Number -> string;
  handleToString : Handle -> string;
  db : string -> option Handle;
  unescape : string -> string;
  JSON_parse : string -> Completion (JSValue Number Handle)
}.

(* ================================================================== *)
(** ** The operator-rewrite pass *)
(* ================================================================== *)

Section Rewrite.

Context {Number Handle : Type} `{RT : Runtime Number Handle}.

#[local] Abbreviation Value := (JSValue Number Handle).
#[local] Abbreviation Object := (Props Number Handle).

(** [String(v)], which is how [db[v]] turns [v] into a property name. *)
Fixpoint toString (v : Value) : string :=
  match v with
  | JUndefined => "undefined"
  | JNull => "null"
  | JBool true => "true"
  | JBool false => "false"
  | JNum n => numberToString n
  | JStr s => s
  | JArr elems =>
      JSString.join ","
        (map (fun e => match e with
                       | JUndefined | JNull => EmptyString
                       | _ => toString e
                       end) elems)
  | JObj _ => "[object Object]"
  | JHandle h => handleToString h
  end.

(** [replaceKeyWithOperator(json, key, op)] (lines 364-368): read the
    value, delete the key, store the value under [op]. *)
Definition replaceKeyWithOperator (json : Object) (key : string) (op : Lookup)
  : Object :=
  let value := read (KStr key) json in
  let json := delete (KStr key) json in
  set (toPropertyKey op) value json.

(** The body of the [forEach] callback of [iterativeReplace] (lines
    376-390), run on the object [json] for one [key]; [recur] is
    [iterativeReplace] itself.  A nested object is rewritten in place, which
    the model records by storing the rewritten value back under the key it
    was read from. *)
Definition visitKey (recur : Value -> Fueled Value) (json : Object)
  (key : string) : Fueled Object :=
  if isObject (read (KStr key) json) then
    let op := operators key in
    if truthy op then
      let json := replaceKeyWithOperator json key op in
      v <~ recur (read (toPropertyKey op) json) ;;
      retF (set (toPropertyKey op) v json)
    else
      v <~ recur (read (KStr key) json) ;;
      retF (set (KStr key) v json)
  else
    match (if String.eqb key "model"
           then db (toString (read (KStr key) json)) else None) with
    | Some handle => retF (set (KStr "model") (JHandle handle) json)
    | None =>
        let op := operators key in
        if truthy op then retF (replaceKeyWithOperator json key op)
        else retF json
    end.

(** [keys.forEach(callback)] over the snapshot [ks] of the keys, threading
    the object. *)
Fixpoint forEachKey (visit : Object -> string -> Fueled Object)
  (ks : list string) (json : Object) : Fueled Object :=
  match ks with
  | [] => retF json
  | key :: rest => json' <~ visit json key ;; forEachKey visit rest json'
  end.

(** The same over the elements of an array.  The keys of an array are its
    indices, which name neither an operator nor [model], so an element is
    only ever descended into. *)
Fixpoint forEachElement (recur : Value -> Fueled Value) (elems : list Value)
  : Fueled (list Value) :=
  match elems with
  | [] => retF []
  | e :: rest =>
      e' <~ (if isObject e then recur e else retF e) ;;
      rest' <~ forEachElement recur rest ;;
      retF (e' :: rest')
  end.

(** [iterativeReplace(json)] (lines 374-392), bounded by [fuel] nested
    calls.
    [Object.keys] throws on [null] and [undefined]; on a string it yields
    the indices and on a number or boolean nothing, and neither is changed. *)
Fixpoint iterativeReplace_fuel (fuel : nat) (json : Value) : Fueled Value :=
  match fuel with
  | O => None
  | S fuel' =>
      match json with
      | JUndefined | JNull =>
          Some (Throw "Cannot convert undefined or null to object")
      | JObj props =>
          props' <~ forEachKey (visitKey (iterativeReplace_fuel fuel'))
                      (keys props) props ;;
          retF (JObj props')
      | JArr elems =>
          elems' <~ forEachElement (iterativeReplace_fuel fuel') elems ;;
          retF (JArr elems')
      | _ => retF json
      end
  end.

(** [iterativeReplace(json)].  The fuel [S (height json)] always suffices
    ([iterativeReplace_fuel_enough] below), so the last branch is dead. *)
Definition iterativeReplace (json : Value) : Completion Value :=
  match iterativeReplace_fuel (S (height json)) json with
  | Some c => c
  | None => Throw "Maximum call stack size exceeded"
  end.

(** [unescapeEscapedQuery(query)] (lines 399-402), on the string
    [query.toString()]. *)
Definition unescapeEscapedQuery (queryString : string) : string :=
  unescape queryString.

(** [parseQueryFields(query)] and [parseIncludeFields(query)] (lines
    409-424), on the string [query.toString()]. *)
Definition parseQueryFields (queryString : string) : Completion Value :=
  json <- JSON_parse (unescapeEscapedQuery queryString) ;;
  iterativeReplace json.

Definition parseIncludeFields (queryString : string) : Completion Value :=
  json <- JSON_parse (unescapeEscapedQuery queryString) ;;
  iterativeReplace json.

(** [parseQueryParam(query)] (lines 431-445) on a string.  [elements] has
    a second entry exactly when the pattern matched; the key of the object
    built is whatever [operators[elements[0]]] turns into. *)
Definition parseQueryParam (query : string) : Value :=
  let elements := JSString.splitColonRest query in
  match elements with
  | e0 :: e1 :: _ =>
      let elementsArray := JSString.split ","%char e1 in
      JObj [ (toPropertyKey (operators e0),
              if Nat.ltb 1 (length elementsArray)
              then JArr (map JStr elementsArray)
              else JStr (hd EmptyString elementsArray)) ]
  | _ => JStr (hd EmptyString elements)
  end.

End Rewrite.

(* ================================================================== *)
(** ** The request and the descriptor *)
(* ================================================================== *)

(** A query-string parameter: a string, or the strings of a repeated
    parameter. *)
Inductive ParamValue : Type :=
| PStr (s : string)
| PArr (l : list string).

(** [req.query], in the order [for ... in] enumerates it.  No parameter
    is called [__proto__] (the query-string parser drops such a name), so
    an assignment [where[key] = v] always makes or updates a property. *)
Definition Query : Type := list (string * ParamValue).

(** [req.query[key]]; [None] is [undefined]. *)
Definition param (key : string) (q : Query) : option ParamValue :=
  assocString key q.

(** [String(x)] of a parameter read, as [parseInt] applies it. *)
Definition paramToString (x : option ParamValue) : string :=
  match x with
  | Some (PStr s) => s
  | Some (PArr l) => JSString.join "," l
  | None => "undefined"
  end.

(** [x.toString()]: the same, except that [undefined] has no methods. *)
Definition paramToStringMethod (x : option ParamValue) : Completion string :=
  match x with
  | Some p => Normal (paramToString (Some p))
  | None => Throw "Cannot read properties of undefined (reading 'toString')"
  end.

(** [x.split], which only a string has. *)
Definition paramSplittable (what : string) (x : option ParamValue)
  : Completion string :=
  match x with
  | Some (PStr s) => Normal s
  | Some (PArr _) => Throw (what ++ ".split is not a function")
  | None => Throw "Cannot read properties of undefined (reading 'split')"
  end.

(** [splitStringAndBuildArray(obj, array)] (lines 323-333): returns
    [array] after the pushes. *)
Definition splitStringAndBuildArray (obj : string) (array : list (list string))
  : list (list string) :=
  let elements := JSString.split ","%char obj in
  fold_left
    (fun array element =>
       let fields := JSString.split "."%char element in
       if Nat.ltb 0 (length fields) then array ++ [fields] else array)
    elements array.

(** [parseFields(query)] (lines 340-356).  A parameter is never [null], so
    the result is always the array. *)
Definition parseFields (query : option ParamValue)
  : Completion (list (list string)) :=
  let array := [] in
  match query with
  | Some (PArr l) =>
      Normal (fold_left (fun array obj => splitStringAndBuildArray obj array)
                l array)
  | _ =>
      obj <- paramSplittable "obj" query ;;
      Normal (splitStringAndBuildArray obj array)
  end.

Definition pageSizeLimit : JSNum := Num 200.

Section Translator.

Context {Number Handle : Type} `{RT : Runtime Number Handle}.

#[local] Abbreviation Value := (JSValue Number Handle).
#[local] Abbreviation Object := (Props Number Handle).

(** The descriptor [dbQuery].  [where], [offset] and [limit] are there from
    the start; the other properties are absent until their parameter is
    seen. *)
Record DbQuery : Type := {
  where_ : Object;
  offset : JSNum;
  limit : JSNum;
  attributes : option (list string);
  order : option (list (list string));
  group : option (list (list string));
  include : option Value
}.

(** What the body of [parse] works on: the request, the local variables
    [offset] and [limit], and the descriptor. *)
Record LoopState : Type := {
  request : Query;
  offsetVar : JSNum;
  limitVar : JSNum;
  dbQuery : DbQuery
}.

Definition index (n : nat) : PropKey :=
  KStr (NilEmpty.string_of_uint (Nat.to_uint n)).

Fixpoint charsFrom (n : nat) (s : string) : Object :=
  match s with
  | EmptyString => []
  | String c r => (index n, JStr (String c EmptyString)) :: charsFrom (S n) r
  end.

Fixpoint elementsFrom (n : nat) (l : list Value) : Object :=
  match l with
  | [] => []
  | e :: r => (index n, e) :: elementsFrom (S n) r
  end.

(** The own enumerable properties that [{...v}] copies: the properties of
    an object, the elements of an array, the characters of a string, and
    nothing for a number or a boolean. *)
Definition ownProperties (v : Value) : Object :=
  match v with
  | JObj props => props
  | JArr elems => elementsFrom 0 elems
  | JStr s => charsFrom 0 s
  | _ => []
  end.

(** [{ ...a, ...b }] when [a] is an object. *)
Definition spread (a : Object) (b : Value) : Object :=
  fold_left (fun o kv => set (fst kv) (snd kv) o) (ownProperties b) a.

Definition withWhere (d : DbQuery) (w : Object) : DbQuery :=
  {| where_ := w; offset := offset d; limit := limit d;
     attributes := attributes d; order := order d; group := group d;
     include := include d |}.

Definition withDbQuery (st : LoopState) (d : DbQuery) : LoopState :=
  {| request := request st; offsetVar := offsetVar st;
     limitVar := limitVar st; dbQuery := d |}.

(** One turn of the [for ... in] loop of [parse]: the [switch] on [key]
    (lines 487-533). *)
Definition parseStep (key : string) (st : LoopState) : Completion LoopState :=
  let query := request st in
  let d := dbQuery st in
  if String.eqb key "fields" then
    s <- paramSplittable "req.query.fields" (param "fields" query) ;;
    let fields := JSString.split ","%char s in
    Normal (withDbQuery st
      (if Nat.ltb 0 (length fields)
       then {| where_ := where_ d; offset := offset d; limit := limit d;
               attributes := Some fields; order := order d; group := group d;
               include := include d |}
       else d))
  else if String.eqb key "limit" then
    let l := JSNumber.min
               (JSNumber.max
                  (JSNumber.parseInt (paramToString (param "limit" query)))
                  (Num 1))
               pageSizeLimit in
    Normal {| request := query; offsetVar := offsetVar st; limitVar := l;
              dbQuery := {| where_ := where_ d; offset := offset d; limit := l;
                            attributes := attributes d; order := order d;
                            group := group d; include := include d |} |}
  else if String.eqb key "offset" then
    Normal {| request := query;
              offsetVar :=
                JSNumber.max
                  (JSNumber.parseInt (paramToString (param "offset" query)))
                  (Num 0);
              limitVar := limitVar st; dbQuery := d |}
  else if String.eqb key "sort_by" then
    o <- parseFields (param "sort_by" query) ;;
    Normal (withDbQuery st
      {| where_ := where_ d; offset := offset d; limit := limit d;
         attributes := attributes d; order := Some o; group := group d;
         include := include d |})
  else if String.eqb key "group_by" then
    g <- parseFields (param "group_by" query) ;;
    Normal (withDbQuery st
      {| where_ := where_ d; offset := offset d; limit := limit d;
         attributes := attributes d; order := order d; group := Some g;
         include := include d |})
  else if String.eqb key "query" then
    s <- paramToStringMethod (param "query" query) ;;
    parsed <- parseQueryFields s ;;
    Normal (withDbQuery st (withWhere d (spread (where_ d) parsed)))
  else if String.eqb key "include" then
    s <- paramToStringMethod (param "include" query) ;;
    parsed <- parseIncludeFields s ;;
    Normal (withDbQuery st
      {| where_ := where_ d; offset := offset d; limit := limit d;
         attributes := attributes d; order := order d; group := group d;
         include := Some parsed |})
  else
    s <- paramSplittable "query" (param key query) ;;
    Normal (withDbQuery st
      (withWhere d (set (KStr key) (parseQueryParam s) (where_ d)))).

(** The loop over the keys.  A turn that throws ends the loop; the state is
    the one the last completed turn left, and the message is kept. *)
Fixpoint forIn (ks : list string) (st : LoopState)
  : LoopState * option string :=
  match ks with
  | [] => (st, None)
  | key :: rest =>
      match parseStep key st with
      | Normal st' => forIn rest st'
      | Throw msg => (st, Some msg)
      end
  end.

(** How the promise that [parse] returns settles: [resolve(dbQuery)] or
    [reject([{msg: error.message}])]. *)
Inductive Settled : Type :=
| Resolve (dbQuery : DbQuery)
| Reject (msg : string).

Definition initialState (q : Query) : LoopState :=
  {| request := q; offsetVar := Num 0; limitVar := pageSizeLimit;
     dbQuery := {| where_ := []; offset := Num 0; limit := pageSizeLimit;
                   attributes := None; order := None; group := None;
                   include := None |} |}.

(** [parse(req)] (lines 473-547) as a transition: the request object as
    the call leaves it, and the way the promise settles. *)
Definition run (q : Query) : Query * Settled :=
  let '(st, thrown) := forIn (map fst q) (initialState q) in
  (request st,
   match thrown with
   | Some msg => Reject msg
   | None =>
       let d := dbQuery st in
       Resolve {| where_ := where_ d;
                  offset := JSNumber.mul (offsetVar st) (limitVar st);
                  limit := limit d; attributes := attributes d;
                  order := order d; group := group d; include := include d |}
   end).

(** [parse(req)]: the settlement of the promise. *)
Definition parse (q : Query) : Settled := snd (run q).

End Translator.

(* ================================================================== *)
(** ** A runtime to run the translator on *)
(* ================================================================== *)

(** An instance of [Runtime] for evaluating the translator on concrete
    requests: numbers are integers, a handle is the name the entity is
    registered under, and [db] holds the entities of the README's example
    beside [Sequelize] itself.  [JSON_parse] reads the JSON texts whose
    numbers are integers and whose strings stay below code unit 256, and
    [unescape] decodes the escapes that stay below it; on such input they
    agree with the engine's functions, up to the place of integer-like keys
    in an object. *)
Module Reference.

Definition Value : Type := JSValue Z string.

Definition hexValue (c : ascii) : option Z := JSNumber.digitValue 16 c.

Definition asciiOfZ (z : Z) : ascii := ascii_of_nat (Z.to_nat z).

Definition hex2 (a b : ascii) : option ascii :=
  match hexValue a, hexValue b with
  | Some x, Some y => Some (asciiOfZ (16 * x + y))
  | _, _ => None
  end.

(** [%XX] and [%u00XX] become the character they name. *)
Fixpoint unescapeLatin1 (s : string) : string :=
  match s with
  | EmptyString => EmptyString
  | String c r =>
      if Ascii.eqb c "%"%char then
        match r with
        | String "u"%char (String "0"%char (String "0"%char
            (String a (String b r')))) =>
            match hex2 a b with
            | Some x => String x (unescapeLatin1 r')
            | None => String c (unescapeLatin1 r)
            end
        | String a (String b r') =>
            match hex2 a b with
            | Some x => String x (unescapeLatin1 r')
            | None => String c (unescapeLatin1 r)
            end
        | _ => String c (unescapeLatin1 r)
        end
      else String c (unescapeLatin1 r)
  end.

Definition quote : ascii := "034"%char.
Definition backslash : ascii := "092"%char.

Definition isJsonSpace (c : ascii) : bool :=
  Ascii.eqb c " "%char || Ascii.eqb c "009"%char
  || Ascii.eqb c "010"%char || Ascii.eqb c "013"%char.

Fixpoint skipSpace (s : string) : string :=
  match s with
  | String c r => if isJsonSpace c then skipSpace r else s
  | EmptyString => s
  end.

(** The rest of a string literal, after its opening quote. *)
Fixpoint readString (acc : string) (s : string) : option (string * string) :=
  match s with
  | EmptyString => None
  | String c r =>
      if Ascii.eqb c quote then Some (acc, r)
      else if Ascii.eqb c backslash then
        match r with
        | String "u"%char (String "0"%char (String "0"%char
            (String a (String b r')))) =>
            match hex2 a b with
            | Some x => readString (acc ++ String x EmptyString) r'
            | None => None
            end
        | String e r' =>
            let plain (x : ascii) := readString (acc ++ String x EmptyString) r' in
            if Ascii.eqb e quote then plain quote
            else if Ascii.eqb e backslash then plain backslash
            else if Ascii.eqb e "/"%char then plain "/"%char
            else if Ascii.eqb e "b"%char then plain "008"%char
            else if Ascii.eqb e "f"%char then plain "012"%char
            else if Ascii.eqb e "n"%char then plain "010"%char
            else if Ascii.eqb e "r"%char then plain "013"%char
            else if Ascii.eqb e "t"%char then plain "009"%char
            else None
        | EmptyString => None
        end
      else if Nat.ltb (nat_of_ascii c) 32 then None
      else readString (acc ++ String c EmptyString) r
  end.

Fixpoint readDecimal (acc : Z) (s : string) : Z * string :=
  match s with
  | String c r =>
      match JSNumber.digitValue 10 c with
      | Some d => readDecimal (acc * 10 + d)%Z r
      | None => (acc, s)
      end
  | EmptyString => (acc, s)
  end.

(** An integer literal: digits with no leading zero, and no fraction or
    exponent after them. *)
Definition readNumber (sign : Z) (s : string) : option (Z * string) :=
  match s with
  | String c r =>
      match JSNumber.digitValue 10 c with
      | Some d =>
          let '(v, rest) :=
            if (d =? 0)%Z then (0%Z, r) else readDecimal d r in
          match rest with
          | String x _ =>
              if Ascii.eqb x "."%char || Ascii.eqb x "e"%char
                 || Ascii.eqb x "E"%char
                 || (match JSNumber.digitValue 10 x with
                     | Some _ => true | None => false end)
              then None else Some ((sign * v)%Z, rest)
          | EmptyString => Some ((sign * v)%Z, rest)
          end
      | None => None
      end
  | EmptyString => None
  end.

Fixpoint dropPrefix (p s : string) : option string :=
  match p, s with
  | EmptyString, _ => Some s
  | String a p', String b s' => if Ascii.eqb a b then dropPrefix p' s' else None
  | _, EmptyString => None
  end.

(** One JSON value at the head of [s], and the text after it.  Members and
    elements are read one per call; a repeated key keeps its first place
    and takes the last value, as [JSON.parse] has it. *)
Fixpoint readValue (fuel : nat) (s : string) : option (Value * string) :=
  match fuel with
  | O => None
  | S fuel' =>
      match skipSpace s with
      | String c r =>
          if Ascii.eqb c "{"%char then
            match skipSpace r with
            | String "}"%char r' => Some (JObj [], r')
            | _ => readMembers fuel' [] r
            end
          else if Ascii.eqb c "["%char then
            match skipSpace r with
            | String "]"%char r' => Some (JArr [], r')
            | _ => readElements fuel' [] r
            end
          else if Ascii.eqb c quote then
            match readString EmptyString r with
            | Some (str, r') => Some (JStr str, r')
            | None => None
            end
          else if Ascii.eqb c "-"%char then
            match readNumber (-1) r with
            | Some (z, r') => Some (JNum z, r')
            | None => None
            end
          else
            match dropPrefix "true" (String c r),
                  dropPrefix "false" (String c r),
                  dropPrefix "null" (String c r) with
            | Some r', _, _ => Some (JBool true, r')
            | _, Some r', _ => Some (JBool false, r')
            | _, _, Some r' => Some (JNull, r')
            | _, _, _ =>
                match readNumber 1 (String c r) with
                | Some (z, r') => Some (JNum z, r')
                | None => None
                end
            end
      | EmptyString => None
      end
  end
with readMembers (fuel : nat) (acc : Props Z string) (s : string)
  : option (Value * string) :=
  match fuel with
  | O => None
  | S fuel' =>
      match skipSpace s with
      | String c r =>
          if Ascii.eqb c quote then
            match readString EmptyString r with
            | Some (key, r1) =>
                match skipSpace r1 with
                | String ":"%char r2 =>
                    match readValue fuel' r2 with
                    | Some (v, r3) =>
                        let acc := set (KStr key) v acc in
                        match skipSpace r3 with
                        | String ","%char r4 => readMembers fuel' acc r4
                        | String "}"%char r4 => Some (JObj acc, r4)
                        | _ => None
                        end
                    | None => None
                    end
                | _ => None
                end
            | None => None
            end
          else None
      | EmptyString => None
      end
  end
with readElements (fuel : nat) (acc : list Value) (s : string)
  : option (Value * string) :=
  match fuel with
  | O => None
  | S fuel' =>
      match readValue fuel' s with
      | Some (v, r1) =>
          match skipSpace r1 with
          | String ","%char r2 => readElements fuel' (acc ++ [v]) r2
          | String "]"%char r2 => Some (JArr (acc ++ [v]), r2)
          | _ => None
          end
      | None => None
      end
  end.

Definition parseJSON (s : string) : Completion Value :=
  match readValue (S (String.length s)) s with
  | Some (v, rest) =>
      match skipSpace rest with
      | EmptyString => Normal v
      | _ => Throw "Unexpected non-whitespace character after JSON"
      end
  | None => Throw "Unexpected token in JSON"
  end.

(** JSON text written with apostrophes for its double quotes. *)
Fixpoint quoted (s : string) : string :=
  match s with
  | EmptyString => EmptyString
  | String c r =>
      String (if Ascii.eqb c "'"%char then quote else c) (quoted r)
  end.

Definition decimal (z : Z) : string :=
  NilEmpty.string_of_int (Z.to_int z).

Definition entities : list (string * string) :=
  [ ("Role", "Role"); ("UserRole", "UserRole"); ("User", "User");
    ("Sequelize", "Sequelize") ].

#[export] Instance runtime : Runtime Z string := {
  numberToString := decimal;
  handleToString := fun h => String.append "class " h;
  db := fun name => assocString name entities;
  unescape := unescapeLatin1;
  JSON_parse := parseJSON
}.

End Reference.

(* ================================================================== *)
(** ** Vocabulary of the statements *)
(* ================================================================== *)

(** Whether some character of [s] satisfies [p]. *)
Fixpoint anyChar (p : ascii -> bool) (s : string) : bool :=
  match s with
  | EmptyString => false
  | String c r => p c || anyChar p r
  end.

Definition contains (c : ascii) (s : string) : bool :=
  anyChar (Ascii.eqb c) s.

Definition hasLineTerminator (s : string) : bool :=
  anyChar JSString.isLineTerminator s.

(** The parameter names that [parse] gives a meaning of their own; every
    other name is a filter on the field of that name. *)
Definition reservedKeys : list string :=
  [ "fields"; "limit"; "offset"; "sort_by"; "group_by"; "query"; "include" ].

Definition reserved (key : string) : bool :=
  existsb (String.eqb key) reservedKeys.

(** A key that [operators[key]] finds on [Object.prototype]. *)
Definition inheritedKey (key : string) : bool :=
  match operators key with
  | Inherited _ => true
  | _ => false
  end.

Section Vocabulary.

Context {Number Handle : Type} `{RT : Runtime Number Handle}.

#[local] Abbreviation Value := (JSValue Number Handle).
#[local] Abbreviation Object := (Props Number Handle).

(** The largest [height] among the values of an object, and among the
    elements of an array. *)
Definition maxHeight (o : Object) : nat :=
  fold_right (fun kv m => Nat.max (height (snd kv)) m) 0 o.

Definition maxHeightOf (l : list Value) : nat :=
  fold_right (fun e m => Nat.max (height e) m) 0 l.

(** [recur] returns, without growing its argument, on every object of
    height at most [h]. *)
Definition returnsUpTo (h : nat) (recur : Value -> Fueled Value) : Prop :=
  forall v, isObject v = true -> height v <= h ->
  exists v', recur v = Some (Normal v') /\ height v' <= height v.

(** Two functions agree on the objects of height at most [h]. *)
Definition agreeUpTo (h : nat) (r1 r2 : Value -> Fueled Value) : Prop :=
  forall v, isObject v = true -> height v <= h -> r1 v = r2 v.

(** The recursive call of the pass, as the total function. *)
Definition recurse (v : Value) : Fueled Value := Some (iterativeReplace v).

(** What the pass leaves of a property value: a nested object or array is
    passed through the pass itself, anything else stays. *)
Definition rewritten (v : Value) : Completion Value :=
  if isObject v then iterativeReplace v else Normal v.

End Vocabulary.

(** The [limit] and [offset] a request asks for, as the loop computes
    them. *)
Definition requestedLimit (q : Query) : JSNum :=
  JSNumber.min
    (JSNumber.max (JSNumber.parseInt (paramToString (param "limit" q))) (Num 1))
    pageSizeLimit.

Definition requestedOffset (q : Query) : JSNum :=
  JSNumber.max (JSNumber.parseInt (paramToString (param "offset" q))) (Num 0).

(* ================================================================== *)
(** ** The first revision *)
(* ================================================================== *)

(** The first revision of the file (lines 16-270).  Its operator table,
    [replaceKey], [iterativeReplace] and [parseFields] are those of the
    second revision under other names, and its [parse] is the second
    revision's statement for statement; [parseQueryFields] and
    [parseIncludeFields] hand the text to [JSON.parse] without [unescape].
    What differs beyond that is the filter grammar. *)
Module Revision1.

(** The table [operations] (lines 19-46). *)
Definition operations (key : string) : Lookup := operators key.

Section Filters.

Context {Number Handle : Type}.

(** [parseQueryParam(query)] (lines 161-175) on a string: the split is on
    every colon, and the second piece is the value. *)
Definition parseQueryParam (query : string) : JSValue Number Handle :=
  let elements := JSString.split ":"%char query in
  if Nat.ltb 1 (length elements) then
    JObj [ (toPropertyKey (operations (nth 0 elements EmptyString)),
            JStr (nth 1 elements EmptyString)) ]
  else JStr (nth 0 elements EmptyString).

End Filters.

End Revision1.

(* ================================================================== *)
(** ** The second revision *)
(* ================================================================== *)

(** The second revision ([src/unnamed/part_001], whose line numbers the
    comments of this module give).  Its operator table,
    [replaceKeyWithOperator], [iterativeReplace], [unescapeEscapedQuery],
    [parseQueryFields] and [parseIncludeFields] are, statement for
    statement, those of the current revision and are not repeated. *)
Module Revision2.

(** [splitStringAndBuildArray(obj, array)] (lines 53-64). *)
Definition splitStringAndBuildArray (obj : string) (array : list (list string))
  : list (list string) :=
  let elements := JSString.split ","%char obj in
  if Nat.ltb 0 (length elements) then
    fold_left
      (fun array element =>
         let fields := JSString.split "."%char element in
         if Nat.ltb 0 (length fields) then array ++ [fields] else array)
      elements array
  else array.

(** [parseFields(query)] (lines 71-88). *)
Definition parseFields (query : option ParamValue)
  : Completion (list (list string)) :=
  let array := [] in
  match query with
  | Some (PArr l) =>
      Normal (fold_left (fun array obj => splitStringAndBuildArray obj array)
                l array)
  | _ =>
      obj <- paramSplittable "obj" query ;;
      Normal (splitStringAndBuildArray obj array)
  end.

Section Translator.

Context {Number Handle : Type} `{RT : Runtime Number Handle}.

#[local] Abbreviation Value := (JSValue Number Handle).
#[local] Abbreviation Object := (Props Number Handle).

(** [parseQueryParam(query)] (lines 177-196). *)
Definition parseQueryParam (query : string) : Value :=
  let elements := JSString.splitColonRest query in
  if Nat.ltb 1 (length elements) then
    let elementsArray := JSString.split ","%char (nth 1 elements EmptyString) in
    if Nat.ltb 1 (length elementsArray) then
      JObj [ (toPropertyKey (operators (nth 0 elements EmptyString)),
              JArr (map JStr elementsArray)) ]
    else
      JObj [ (toPropertyKey (operators (nth 0 elements EmptyString)),
              JStr (nth 0 elementsArray EmptyString)) ]
  else JStr (nth 0 elements EmptyString).

(** The descriptor starts out as [{where: {}}]: [limit] is absent until
    the parameter is seen, and [offset] until the loop is over. *)
Record DbQuery : Type := {
  where_ : Object;
  offset : option JSNum;
  limit : option JSNum;
  attributes : option (list string);
  order : option (list (list string));
  group : option (list (list string));
  include : option Value
}.

Record LoopState : Type := {
  request : Query;
  offsetVar : JSNum;
  limitVar : JSNum;
  dbQuery : DbQuery
}.

Definition withDbQuery (st : LoopState) (d : DbQuery) : LoopState :=
  {| request := request st; offsetVar := offsetVar st;
     limitVar := limitVar st; dbQuery := d |}.

(** One turn of the loop (lines 236-282). *)
Definition parseStep (key : string) (st : LoopState) : Completion LoopState :=
  let query := request st in
  let d := dbQuery st in
  if String.eqb key "fields" then
    s <- paramSplittable "req.query.fields" (param "fields" query) ;;
    let fields := JSString.split ","%char s in
    Normal (withDbQuery st
      (if Nat.ltb 0 (length fields)
       then {| where_ := where_ d; offset := offset d; limit := limit d;
               attributes := Some fields; order := order d; group := group d;
               include := include d |}
       else d))
  else if String.eqb key "limit" then
    let l := JSNumber.min
               (JSNumber.max
                  (JSNumber.parseInt (paramToString (param "limit" query)))
                  (Num 1))
               pageSizeLimit in
    Normal {| request := query; offsetVar := offsetVar st; limitVar := l;
              dbQuery := {| where_ := where_ d; offset := offset d;
                            limit := Some l;
                            attributes := attributes d; order := order d;
                            group := group d; include := include d |} |}
  else if String.eqb key "offset" then
    Normal {| request := query;
              offsetVar :=
                JSNumber.max
                  (JSNumber.parseInt (paramToString (param "offset" query)))
                  (Num 0);
              limitVar := limitVar st; dbQuery := d |}
  else if String.eqb key "sort_by" then
    o <- parseFields (param "sort_by" query) ;;
    Normal (withDbQuery st
      {| where_ := where_ d; offset := offset d; limit := limit d;
         attributes := attributes d; order := Some o; group := group d;
         include := include d |})
  else if String.eqb key "group_by" then
    g <- parseFields (param "group_by" query) ;;
    Normal (withDbQuery st
      {| where_ := where_ d; offset := offset d; limit := limit d;
         attributes := attributes d; order := order d; group := Some g;
         include := include d |})
  else if String.eqb key "query" then
    s <- paramToStringMethod (param "query" query) ;;
    parsed <- parseQueryFields s ;;
    Normal (withDbQuery st
      {| where_ := spread (where_ d) parsed; offset := offset d;
         limit := limit d; attributes := attributes d; order := order d;
         group := group d; include := include d |})
  else if String.eqb key "include" then
    s <- paramToStringMethod (param "include" query) ;;
    parsed <- parseIncludeFields s ;;
    Normal (withDbQuery st
      {| where_ := where_ d; offset := offset d; limit := limit d;
         attributes := attributes d; order := order d; group := group d;
         include := Some parsed |})
  else
    s <- paramSplittable "query" (param key query) ;;
    Normal (withDbQuery st
      {| where_ := set (KStr key) (parseQueryParam s) (where_ d);
         offset := offset d; limit := limit d; attributes := attributes d;
         order := order d; group := group d; include := include d |}).

Fixpoint forIn (ks : list string) (st : LoopState)
  : LoopState * option string :=
  match ks with
  | [] => (st, None)
  | key :: rest =>
      match parseStep key st with
      | Normal st' => forIn rest st'
      | Throw msg => (st, Some msg)
      end
  end.

Inductive Settled : Type :=
| Resolve (dbQuery : DbQuery)
| Reject (msg : string).

Definition initialState (q : Query) : LoopState :=
  {| request := q; offsetVar := Num 0; limitVar := pageSizeLimit;
     dbQuery := {| where_ := []; offset := None; limit := None;
                   attributes := None; order := None; group := None;
                   include := None |} |}.

(** [parse(req)] (lines 224-297): the settlement of the promise. *)
Definition parse (q : Query) : Settled :=
  match forIn (map fst q) (initialState q) with
  | (_, Some msg) => Reject msg
  | (st, None) =>
      let d := dbQuery st in
      Resolve {| where_ := where_ d;
                 offset := Some (JSNumber.mul (offsetVar st) (limitVar st));
                 limit := limit d; attributes := attributes d;
                 order := order d; group := group d; include := include d |}
  end.

End Translator.

End Revision2.

(* ================================================================== *)
(** ** The second revision beside the current one *)
(* ================================================================== *)

Section Simulation.

Context {Number Handle : Type} `{RT : Runtime Number Handle}.

Implicit Types (st : @LoopState Number Handle).

(** The state of the second revision's loop that goes with a state of the
    current one; [seen] tells whether the turn of [limit] has been. *)
Definition earlier (seen : bool) st : @Revision2.LoopState Number Handle :=
  {| Revision2.request := request st;
     Revision2.offsetVar := offsetVar st;
     Revision2.limitVar := limitVar st;
     Revision2.dbQuery :=
       {| Revision2.where_ := where_ (dbQuery st);
          Revision2.offset := None;
          Revision2.limit := if seen then Some (limit (dbQuery st)) else None;
          Revision2.attributes := attributes (dbQuery st);
          Revision2.order := order (dbQuery st);
          Revision2.group := group (dbQuery st);
          Revision2.include := include (dbQuery st) |} |}.

End Simulation.

(* ================================================================== *)
(** ** Vocabulary of the statements: filters *)
(* ================================================================== *)

(** Whether the pattern [/:(.+)/] matches somewhere in a string: whether
    some colon of it is followed by a character that is no line
    terminator. *)
Fixpoint hasColonRest (s : string) : bool :=
  match s with
  | EmptyString => false
  | String c r =>
      (Ascii.eqb c ":"%char && JSString.startsWithNonLT r) || hasColonRest r
  end.

(* ================================================================== *)
(** ** Vocabulary of the statements: trees *)
(* ================================================================== *)

(** The strings that the members of [Object.prototype] turn into when
    they are used as keys, such as [function toString() { [native code] }]. *)
Definition inheritedTexts : list string :=
  map inheritedToString objectPrototypeMembers.

(** The keys that the pass moves entries of an object to: for each key
    that the operator read finds, the key the result turns into. *)
Definition targets {Number Handle : Type} (props : Props Number Handle)
  : list PropKey :=
  flat_map (fun kv =>
    match fst kv with
    | KStr key =>
        if truthy (operators key) then [toPropertyKey (operators key)] else []
    | KSym _ => []
    end) props.

(** Whether the strings of a list are pairwise distinct. *)
Fixpoint distinct (l : list string) : bool :=
  match l with
  | [] => true
  | x :: r => negb (existsb (String.eqb x) r) && distinct r
  end.

Section Trees.

Context {Number Handle : Type} `{RT : Runtime Number Handle}.

#[local] Abbreviation Value := (JSValue Number Handle).
#[local] Abbreviation Object := (Props Number Handle).

(** A tree as [JSON.parse] returns it: in every object of it, at any
    depth, the keys are strings and pairwise distinct.  Beyond that, no
    key is one of [inheritedTexts], so that an entry the pass moves never
    lands on a key that is there already. *)
Fixpoint regularTree (v : Value) : bool :=
  match v with
  | JObj props =>
      distinct (keys props)
      && forallb (fun kv =>
           match fst kv with
           | KStr key => negb (existsb (String.eqb key) inheritedTexts)
           | KSym _ => false
           end && regularTree (snd kv)) props
  | JArr elems => forallb regularTree elems
  | _ => true
  end.

(** What the pass leaves of the value [x] of [key], [x'] being what it
    leaves of [x] as a tree: a nested object or array is rewritten, and a
    scalar under [model] that names an entity of [db] becomes that entity. *)
Definition rewriteValue (key : string) (x x' : Value) : Value :=
  if isObject x then x'
  else if String.eqb key "model" then
    match db (toString x) with
    | Some handle => JHandle handle
    | None => x
    end
  else x.

(** The entries of an object that stay where they are: those whose key
    the operator read does not find (and any entry under a symbol, which
    [Object.keys] does not report). *)
Definition keptEntries (rw : Value -> Value) (props : Object) : Object :=
  flat_map (fun kv =>
    match fst kv with
    | KStr key =>
        if truthy (operators key) then []
        else [(KStr key, rewriteValue key (snd kv) (rw (snd kv)))]
    | KSym _ => [kv]
    end) props.

(** The entries that move: those whose key the operator read finds,
    under the key the result of the read turns into. *)
Definition movedEntries (rw : Value -> Value) (props : Object) : Object :=
  flat_map (fun kv =>
    match fst kv with
    | KStr key =>
        if truthy (operators key)
        then [(toPropertyKey (operators key),
               rewriteValue key (snd kv) (rw (snd kv)))]
        else []
    | KSym _ => []
    end) props.

(** The rewrite as a function of the tree: in every object the entries
    that stay, in their order, and then the entries that move, in theirs.
    (The engine enumerates every string key before any symbol; the place
    of a symbol among the strings of the list has no meaning.) *)
Fixpoint rewriteTree (v : Value) : Value :=
  match v with
  | JObj props =>
      JObj (keptEntries rewriteTree props ++ movedEntries rewriteTree props)
  | JArr elems => JArr (map rewriteTree elems)
  | _ => v
  end.

(** Whether no object of a tree, at any depth, has a string key that is
    the name of an operator. *)
Fixpoint operatorFree (v : Value) : bool :=
  match v with
  | JObj props =>
      forallb (fun kv =>
        match fst kv with
        | KStr key => match operators key with Found _ => false | _ => true end
        | KSym _ => true
        end && operatorFree (snd kv)) props
  | JArr elems => forallb operatorFree elems
  | _ => true
  end.

(** A tree on which the pass has nothing left to do: no string key is
    found by the operator read, and no scalar under [model] names an
    entity. *)
Fixpoint settled (v : Value) : bool :=
  match v with
  | JObj props =>
      forallb (fun kv =>
        match fst kv with
        | KStr key =>
            negb (truthy (operators key))
            && (if isObject (snd kv) then settled (snd kv)
                else if String.eqb key "model"
                     then match db (toString (snd kv)) with
                          | Some _ => false
                          | None => true
                          end
                     else true)
        | KSym _ => true
        end) props
  | JArr elems => forallb settled elems
  | _ => true
  end.

End Trees.

(* ================================================================== *)
(** ** Vocabulary of the statements: requests *)
(* ================================================================== *)

(** The properties of the descriptor a request asks for: [attributes]
    from [fields], [order] and [group] from [sort_by] and [group_by], and
    [include] from [include]. *)
Definition requestedAttributes (q : Query) : option (list string) :=
  match param "fields" q with
  | Some (PStr s) => Some (JSString.split ","%char s)
  | _ => None
  end.

Definition requestedFields (key : string) (q : Query)
  : option (list (list string)) :=
  match param key q with
  | Some v =>
      match parseFields (Some v) with
      | Normal array => Some array
      | Throw _ => None
      end
  | None => None
  end.

Section Requested.

Context {Number Handle : Type} `{RT : Runtime Number Handle}.

#[local] Abbreviation Value := (JSValue Number Handle).
#[local] Abbreviation Object := (Props Number Handle).

Definition requestedInclude (q : Query) : option Value :=
  match param "include" q with
  | Some v =>
      match parseIncludeFields (paramToString (Some v)) with
      | Normal parsed => Some parsed
      | Throw _ => None
      end
  | None => None
  end.

(** Whether the turn of [key] throws: [fields] or a filter given as a
    sequence, or a [query] or [include] that [parseQueryFields] throws on
    ([parseIncludeFields] is the same function). *)
Definition turnThrows (q : Query) (key : string) : bool :=
  match param key q with
  | None => false
  | Some v =>
      if String.eqb key "query" || String.eqb key "include" then
        match parseQueryFields (paramToString (Some v)) with
        | Throw _ => true
        | Normal _ => false
        end
      else if String.eqb key "fields" || negb (reserved key) then
        match v with
        | PArr _ => true
        | PStr _ => false
        end
      else false
  end.

(** The filters of a request, in its order: for each parameter that is
    no reserved name and holds a string, the field and what
    [parseQueryParam] makes of the string. *)
Definition filtersOf (q : Query) : Object :=
  flat_map (fun kv =>
    if reserved (fst kv) then []
    else match snd kv with
         | PStr s => [(KStr (fst kv), parseQueryParam s)]
         | PArr _ => []
         end) q.

End Requested.

(* ================================================================== *)
(** ** The translator over a store of objects *)
(* ================================================================== *)

(** The translator once more, with its objects where the program has
    them: in a store, one cell for each object or array, and a variable,
    a property or an element holding a primitive or the reference of a
    cell.  An assignment [json[key] = v], a [delete] or a [push] changes
    the cell its reference names, for whoever else holds that reference;
    an object literal, [split] and [JSON.parse] make new cells.

    The request [req.query] and the arrays of its repeated parameters are
    cells that the caller made.  Of the arrays the program makes, those
    that a function only reads before it returns ([elements], the keys
    that [Object.keys] reports) are lists; [dbQuery] is the record of its
    properties, which [parse] alone reads and writes, by name, until it
    hands it over. *)
Module Heap.

Definition Loc : Type := nat.

Section Properties.

Context {A : Type}.

(** [obj[k]], [delete obj[k]], [obj[k] = v] and [Object.keys(obj)] on the
    properties of a cell, as on the properties of a tree. *)
Fixpoint get (k : PropKey) (o : list (PropKey * A)) : option A :=
  match o with
  | [] => None
  | (k', v) :: r => if PropKey_eqb k k' then Some v else get k r
  end.

Fixpoint delete (k : PropKey) (o : list (PropKey * A)) : list (PropKey * A) :=
  match o with
  | [] => []
  | (k', v) :: r =>
      if PropKey_eqb k k' then delete k r else (k', v) :: delete k r
  end.

Fixpoint set (k : PropKey) (v : A) (o : list (PropKey * A))
  : list (PropKey * A) :=
  match o with
  | [] => [(k, v)]
  | (k', v') :: r =>
      if PropKey_eqb k k' then (k, v) :: r else (k', v') :: set k v r
  end.

Fixpoint keys (o : list (PropKey * A)) : list string :=
  match o with
  | [] => []
  | (KStr s, _) :: r => s :: keys r
  | (KSym _, _) :: r => keys r
  end.

(** The properties [p] copied onto [o], as [{...o, ...p}] does. *)
Definition copy (p o : list (PropKey * A)) : list (PropKey * A) :=
  fold_left (fun o kv => set (fst kv) (snd kv) o) p o.

(** The elements of an array as the properties [{...v}] copies. *)
Fixpoint elementsFrom (n : nat) (l : list A) : list (PropKey * A) :=
  match l with
  | [] => []
  | e :: r => (index n, e) :: elementsFrom (S n) r
  end.

End Properties.

(** The same properties with [f] applied to each value. *)
Definition mapValues {A B : Type} (f : A -> B) (o : list (PropKey * A))
  : list (PropKey * B) :=
  map (fun kv => (fst kv, f (snd kv))) o.

Section Cells.

Context {Number Handle : Type}.

(** A value that is no object.  An entity of [db] is a class, which the
    translator stores and never looks into. *)
Inductive Primitive : Type :=
| PUndefined
| PNull
| PBool (b : bool)
| PNum (n : Number)
| PStr (s : string)
| PHandle (h : Handle).

(** What a variable, a property or an element holds. *)
Inductive Stored : Type :=
| Scalar (p : Primitive)
| Ref (l : Loc).

Definition Properties : Type := list (PropKey * Stored).

Inductive Cell : Type :=
| CObject (props : Properties)
| CArray (elems : list Stored).

(** The store: the cell of reference [l] is the [l]-th. *)
Definition Store : Type := list Cell.

Definition read (k : PropKey) (o : Properties) : Stored :=
  match get k o with
  | Some v => v
  | None => Scalar PUndefined
  end.

Definition str (s : string) : Stored := Scalar (PStr s).

Fixpoint charsFrom (n : nat) (s : string) : Properties :=
  match s with
  | EmptyString => []
  | String c r => (index n, str (String c EmptyString)) :: charsFrom (S n) r
  end.

Fixpoint update (l : Loc) (c : Cell) (sigma : Store) : Store :=
  match sigma, l with
  | [], _ => []
  | _ :: r, O => c :: r
  | x :: r, S l' => x :: update l' c r
  end.

(** A piece of program: it runs on a store and leaves a store, with a
    value or an exception.  [None] stands for no result at all: the fuel
    of the pass is used up, or a reference names no cell of the kind the
    program expects, which no program can bring about. *)
Definition Action (A : Type) : Type := Store -> option (Store * Completion A).

Definition ret {A : Type} (a : A) : Action A :=
  fun sigma => Some (sigma, Normal a).

Definition throw {A : Type} (msg : string) : Action A :=
  fun sigma => Some (sigma, Throw msg).

Definition stuck {A : Type} : Action A := fun _ => None.

Definition andThen {A B : Type} (c : Action A) (k : A -> Action B) : Action B :=
  fun sigma =>
    match c sigma with
    | Some (sigma', Normal a) => k a sigma'
    | Some (sigma', Throw msg) => Some (sigma', Throw msg)
    | None => None
    end.

Definition lift {A : Type} (c : Completion A) : Action A :=
  match c with
  | Normal a => ret a
  | Throw msg => throw msg
  end.

(** A new cell, at the end of the store. *)
Definition alloc (c : Cell) : Action Loc :=
  fun sigma => Some (sigma ++ [c], Normal (length sigma)).

Definition load (l : Loc) : Action Cell :=
  fun sigma =>
    match nth_error sigma l with
    | Some c => Some (sigma, Normal c)
    | None => None
    end.

Definition store (l : Loc) (c : Cell) : Action unit :=
  fun sigma =>
    if Nat.ltb l (length sigma) then Some (update l c sigma, Normal tt)
    else None.

End Cells.

Arguments Primitive : clear implicits.
Arguments Stored : clear implicits.
Arguments Properties : clear implicits.
Arguments Cell : clear implicits.
Arguments Store : clear implicits.
Arguments Action : clear implicits.

Declare Scope heap_scope.
Delimit Scope heap_scope with heap.
Notation "x <== c ;; k" := (andThen c (fun x => k))
  (at level 61, c at next level, right associativity) : heap_scope.
Local Open Scope heap_scope.

Section Translator.

Context {Number Handle : Type} `{RT : Runtime Number Handle}.

#[local] Abbreviation Value := (JSValue Number Handle).
#[local] Abbreviation Primitive := (Primitive Number Handle).
#[local] Abbreviation Stored := (Stored Number Handle).
#[local] Abbreviation Properties := (Properties Number Handle).
#[local] Abbreviation Cell := (Cell Number Handle).
#[local] Abbreviation Store := (Store Number Handle).
#[local] Abbreviation Action := (Action Number Handle).

(** A primitive as a value of a tree. *)
Definition inject (p : Primitive) : Value :=
  match p with
  | PUndefined => JUndefined
  | PNull => JNull
  | PBool b => JBool b
  | PNum n => JNum n
  | PStr s => JStr s
  | PHandle h => JHandle h
  end.

Definition loadObject (l : Loc) : Action Properties :=
  c <== load l ;;
  match c with
  | CObject props => ret props
  | CArray _ => stuck
  end.

Definition loadArray (l : Loc) : Action (list Stored) :=
  c <== load l ;;
  match c with
  | CArray elems => ret elems
  | CObject _ => stuck
  end.

Section Collect.

Context {A B : Type} (f : A -> Action B).

(** The results of [f] on the members of a list, in order. *)
Fixpoint collect (l : list A) : Action (list B) :=
  match l with
  | [] => ret []
  | x :: r => y <== f x ;; ys <== collect r ;; ret (y :: ys)
  end.

End Collect.

(** [l.forEach(visit)] over a list. *)
Fixpoint forEach {A : Type} (visit : A -> Action unit) (l : list A)
  : Action unit :=
  match l with
  | [] => ret tt
  | x :: r => _ <== visit x ;; forEach visit r
  end.

(** [JSON.parse] builds its result from new cells: those of the members
    of an object or array, and then its own. *)
Fixpoint build (v : Value) : Action Stored :=
  match v with
  | JUndefined => ret (Scalar PUndefined)
  | JNull => ret (Scalar PNull)
  | JBool b => ret (Scalar (PBool b))
  | JNum n => ret (Scalar (PNum n))
  | JStr s => ret (Scalar (PStr s))
  | JHandle h => ret (Scalar (PHandle h))
  | JArr elems =>
      es <== collect build elems ;;
      l <== alloc (CArray es) ;;
      ret (Ref l)
  | JObj props =>
      ps <== collect (fun kv => x <== build (snd kv) ;; ret (fst kv, x))
               props ;;
      l <== alloc (CObject ps) ;;
      ret (Ref l)
  end.

(** [replaceKeyWithOperator(json, key, op)] (lines 364-368). *)
Definition replaceKeyWithOperator (json : Loc) (key : string) (op : Lookup)
  : Action unit :=
  props <== loadObject json ;;
  let value := read (KStr key) props in
  _ <== store json (CObject (delete (KStr key) props)) ;;
  props <== loadObject json ;;
  store json (CObject (set (toPropertyKey op) value props)).

(** The callback of [iterativeReplace] (lines 376-390) for a key of the
    object [json]; [recur] is [iterativeReplace] itself. *)
Definition visitKey (recur : Stored -> Action unit) (json : Loc) (key : string)
  : Action unit :=
  props <== loadObject json ;;
  match read (KStr key) props with
  | Ref _ =>
      let op := operators key in
      if truthy op then
        _ <== replaceKeyWithOperator json key op ;;
        props <== loadObject json ;;
        recur (read (toPropertyKey op) props)
      else
        recur (read (KStr key) props)
  | Scalar p =>
      match (if String.eqb key "model"
             then db (toString (inject p)) else None) with
      | Some handle =>
          props <== loadObject json ;;
          store json (CObject (set (KStr "model") (Scalar (PHandle handle))
                                 props))
      | None =>
          let op := operators key in
          if truthy op then replaceKeyWithOperator json key op else ret tt
      end
  end.

(** The same callback for an index of the array [json]: an index names
    neither an operator nor [model]. *)
Definition visitIndex (recur : Stored -> Action unit) (json : Loc) (i : nat)
  : Action unit :=
  elems <== loadArray json ;;
  match nth i elems (Scalar PUndefined) with
  | Ref l => recur (Ref l)
  | Scalar _ => ret tt
  end.

(** [iterativeReplace(json)] (lines 374-392), bounded by [fuel] nested
    calls. *)
Fixpoint iterativeReplace_fuel (fuel : nat) (json : Stored) : Action unit :=
  match fuel with
  | O => stuck
  | S fuel' =>
      match json with
      | Scalar PUndefined | Scalar PNull =>
          throw "Cannot convert undefined or null to object"
      | Scalar _ => ret tt
      | Ref l =>
          c <== load l ;;
          match c with
          | CObject props =>
              forEach (visitKey (iterativeReplace_fuel fuel') l) (keys props)
          | CArray elems =>
              forEach (visitIndex (iterativeReplace_fuel fuel') l)
                (seq 0 (length elems))
          end
      end
  end.

(** [String(x)]; the elements of an array are joined by commas. *)
Definition elementText (e : Stored) : option string :=
  match e with
  | Scalar PUndefined | Scalar PNull => Some EmptyString
  | Scalar p => Some (toString (inject p))
  | Ref _ => None
  end.

Fixpoint elementTexts (l : list Stored) : option (list string) :=
  match l with
  | [] => Some []
  | e :: r =>
      match elementText e, elementTexts r with
      | Some t, Some ts => Some (t :: ts)
      | _, _ => None
      end
  end.

Definition toStringOf (x : Stored) : Action string :=
  match x with
  | Scalar p => ret (toString (inject p))
  | Ref l =>
      c <== load l ;;
      match c with
      | CObject _ => ret "[object Object]"
      | CArray elems =>
          match elementTexts elems with
          | Some ts => ret (JSString.join "," ts)
          | None => stuck
          end
      end
  end.

(** [x.toString()]. *)
Definition toStringMethod (x : Stored) : Action string :=
  match x with
  | Scalar PUndefined =>
      throw "Cannot read properties of undefined (reading 'toString')"
  | Scalar PNull =>
      throw "Cannot read properties of null (reading 'toString')"
  | _ => toStringOf x
  end.

(** [x.split], which only a string has. *)
Definition splittable (what : string) (x : Stored) : Action string :=
  match x with
  | Scalar (PStr s) => ret s
  | Scalar PUndefined =>
      throw "Cannot read properties of undefined (reading 'split')"
  | Scalar PNull =>
      throw "Cannot read properties of null (reading 'split')"
  | _ => throw (what ++ ".split is not a function")
  end.

(** [parseQueryFields(query)] and [parseIncludeFields(query)] (lines
    409-424). *)
Definition parseQueryFields (query : Stored) : Action Stored :=
  queryString <== toStringMethod query ;;
  tree <== lift (JSON_parse (unescapeEscapedQuery queryString)) ;;
  json <== build tree ;;
  _ <== iterativeReplace_fuel (S (height tree)) json ;;
  ret json.

Definition parseIncludeFields (query : Stored) : Action Stored :=
  queryString <== toStringMethod query ;;
  tree <== lift (JSON_parse (unescapeEscapedQuery queryString)) ;;
  json <== build tree ;;
  _ <== iterativeReplace_fuel (S (height tree)) json ;;
  ret json.

(** [array.push(v)]. *)
Definition push (array : Loc) (v : Stored) : Action unit :=
  elems <== loadArray array ;;
  store array (CArray (elems ++ [v])).

(** [splitStringAndBuildArray(obj, array)] (lines 323-333). *)
Definition splitStringAndBuildArray (obj : Stored) (array : Loc) : Action unit :=
  s <== splittable "obj" obj ;;
  forEach
    (fun element =>
       let pieces := JSString.split "."%char element in
       fields <== alloc (CArray (map str pieces)) ;;
       if Nat.ltb 0 (length pieces) then push array (Ref fields) else ret tt)
    (JSString.split ","%char s).

(** [parseFields(query)] (lines 340-356). *)
Definition parseFields (query : Stored) : Action Stored :=
  match query with
  | Scalar PNull => ret (Scalar PNull)
  | _ =>
      array <== alloc (CArray []) ;;
      _ <== match query with
            | Ref a =>
                c <== load a ;;
                match c with
                | CArray elems =>
                    forEach
                      (fun i =>
                         elems <== loadArray a ;;
                         splitStringAndBuildArray
                           (nth i elems (Scalar PUndefined)) array)
                      (seq 0 (length elems))
                | CObject _ => splitStringAndBuildArray query array
                end
            | Scalar _ => splitStringAndBuildArray query array
            end ;;
      ret (Ref array)
  end.

(** [parseQueryParam(query)] (lines 431-445). *)
Definition parseQueryParam (query : Stored) : Action Stored :=
  s <== splittable "query" query ;;
  let elements := JSString.splitColonRest s in
  match elements with
  | e0 :: e1 :: _ =>
      param <== alloc (CObject []) ;;
      let pieces := JSString.split ","%char e1 in
      elementsArray <== alloc (CArray (map str pieces)) ;;
      props <== loadObject param ;;
      _ <== store param
              (CObject (set (toPropertyKey (operators e0))
                          (if Nat.ltb 1 (length pieces)
                           then Ref elementsArray
                           else str (hd EmptyString pieces))
                          props)) ;;
      ret (Ref param)
  | _ => ret (str (hd EmptyString elements))
  end.

(** The own enumerable properties that [{...v}] copies. *)
Definition ownProperties (v : Stored) : Action Properties :=
  match v with
  | Ref l =>
      c <== load l ;;
      match c with
      | CObject props => ret props
      | CArray elems => ret (elementsFrom 0 elems)
      end
  | Scalar (PStr s) => ret (charsFrom 0 s)
  | Scalar _ => ret []
  end.

(** [{ ...a, ...b }]: a new object. *)
Definition spread (a b : Stored) : Action Stored :=
  pa <== ownProperties a ;;
  pb <== ownProperties b ;;
  l <== alloc (CObject (copy pb pa)) ;;
  ret (Ref l).

(** The descriptor [dbQuery]: what each of its properties holds. *)
Record DbQuery : Type := {
  where_ : Stored;
  offset : JSNum;
  limit : JSNum;
  attributes : option Stored;
  order : option Stored;
  group : option Stored;
  include : option Stored
}.

Record LoopState : Type := {
  offsetVar : JSNum;
  limitVar : JSNum;
  dbQuery : DbQuery
}.

Definition withDbQuery (st : LoopState) (d : DbQuery) : LoopState :=
  {| offsetVar := offsetVar st; limitVar := limitVar st; dbQuery := d |}.

(** [req.query[key]]. *)
Definition queryParam (req : Loc) (key : string) : Action Stored :=
  props <== loadObject req ;;
  ret (read (KStr key) props).

(** One turn of the loop of [parse] (lines 487-533). *)
Definition parseStep (req : Loc) (key : string) (st : LoopState)
  : Action LoopState :=
  let d := dbQuery st in
  if String.eqb key "fields" then
    x <== queryParam req "fields" ;;
    s <== splittable "req.query.fields" x ;;
    let pieces := JSString.split ","%char s in
    fields <== alloc (CArray (map str pieces)) ;;
    ret (withDbQuery st
      (if Nat.ltb 0 (length pieces)
       then {| where_ := where_ d; offset := offset d; limit := limit d;
               attributes := Some (Ref fields); order := order d;
               group := group d; include := include d |}
       else d))
  else if String.eqb key "limit" then
    x <== queryParam req "limit" ;;
    s <== toStringOf x ;;
    let l := JSNumber.min (JSNumber.max (JSNumber.parseInt s) (Num 1))
               pageSizeLimit in
    ret {| offsetVar := offsetVar st; limitVar := l;
           dbQuery := {| where_ := where_ d; offset := offset d; limit := l;
                         attributes := attributes d; order := order d;
                         group := group d; include := include d |} |}
  else if String.eqb key "offset" then
    x <== queryParam req "offset" ;;
    s <== toStringOf x ;;
    ret {| offsetVar := JSNumber.max (JSNumber.parseInt s) (Num 0);
           limitVar := limitVar st; dbQuery := d |}
  else if String.eqb key "sort_by" then
    x <== queryParam req "sort_by" ;;
    o <== parseFields x ;;
    ret (withDbQuery st
      {| where_ := where_ d; offset := offset d; limit := limit d;
         attributes := attributes d; order := Some o; group := group d;
         include := include d |})
  else if String.eqb key "group_by" then
    x <== queryParam req "group_by" ;;
    g <== parseFields x ;;
    ret (withDbQuery st
      {| where_ := where_ d; offset := offset d; limit := limit d;
         attributes := attributes d; order := order d; group := Some g;
         include := include d |})
  else if String.eqb key "query" then
    x <== queryParam req "query" ;;
    parsed <== parseQueryFields x ;;
    w <== spread (where_ d) parsed ;;
    ret (withDbQuery st
      {| where_ := w; offset := offset d; limit := limit d;
         attributes := attributes d; order := order d; group := group d;
         include := include d |})
  else if String.eqb key "include" then
    x <== queryParam req "include" ;;
    parsed <== parseIncludeFields x ;;
    ret (withDbQuery st
      {| where_ := where_ d; offset := offset d; limit := limit d;
         attributes := attributes d; order := order d; group := group d;
         include := Some parsed |})
  else
    x <== queryParam req key ;;
    v <== parseQueryParam x ;;
    match where_ d with
    | Ref w =>
        props <== loadObject w ;;
        _ <== store w (CObject (set (KStr key) v props)) ;;
        ret st
    | Scalar _ => stuck
    end.

(** The loop over the keys that [for ... in] found. *)
Fixpoint forIn (req : Loc) (ks : list string) (st : LoopState)
  : Action LoopState :=
  match ks with
  | [] => ret st
  | key :: rest => st' <== parseStep req key st ;; forIn req rest st'
  end.

Inductive Settled : Type :=
| Resolve (dbQuery : DbQuery)
| Reject (msg : string).

(** The body of the [try] of [parse] (lines 477-541). *)
Definition translate (req : Loc) : Action DbQuery :=
  w <== alloc (CObject []) ;;
  props <== loadObject req ;;
  st <== forIn req (keys props)
           {| offsetVar := Num 0; limitVar := pageSizeLimit;
              dbQuery := {| where_ := Ref w; offset := Num 0;
                            limit := pageSizeLimit; attributes := None;
                            order := None; group := None;
                            include := None |} |} ;;
  let d := dbQuery st in
  ret {| where_ := where_ d;
         offset := JSNumber.mul (offsetVar st) (limitVar st);
         limit := limit d; attributes := attributes d; order := order d;
         group := group d; include := include d |}.

(** [parse(req)] (lines 473-547) on a store: the store it leaves and the
    way the promise settles. *)
Definition parse (req : Loc) (sigma : Store) : option (Store * Settled) :=
  match translate req sigma with
  | Some (sigma', Normal d) => Some (sigma', Resolve d)
  | Some (sigma', Throw msg) => Some (sigma', Reject msg)
  | None => None
  end.

End Translator.

End Heap.

(* ================================================================== *)
(** ** Vocabulary of the statements: what a store holds *)
(* ================================================================== *)

Section Located.

Context {Number Handle : Type}.

#[local] Abbreviation Value := (JSValue Number Handle).
#[local] Abbreviation Stored := (Heap.Stored Number Handle).
#[local] Abbreviation Store := (Heap.Store Number Handle).

#[local] Set Warnings "-register-all".

(** A tree with the reference of each of its objects and arrays. *)
Inductive Located : Type :=
| LScalar (p : Heap.Primitive Number Handle)
| LObject (l : Heap.Loc) (props : list (PropKey * Located))
| LArray (l : Heap.Loc) (elems : list Located).

(** The tree without the references. *)
Fixpoint erase (t : Located) : Value :=
  match t with
  | LScalar p => Heap.inject p
  | LObject _ props => JObj (Heap.mapValues erase props)
  | LArray _ elems => JArr (map erase elems)
  end.

(** What a variable that holds the tree holds. *)
Definition root (t : Located) : Stored :=
  match t with
  | LScalar p => Heap.Scalar p
  | LObject l _ | LArray l _ => Heap.Ref l
  end.

(** The references of the tree. *)
Fixpoint cells (t : Located) : list Heap.Loc :=
  match t with
  | LScalar _ => []
  | LObject l props => l :: flat_map (fun kv => cells (snd kv)) props
  | LArray l elems => l :: flat_map cells elems
  end.

Definition cellsOf (props : list (PropKey * Located)) : list Heap.Loc :=
  flat_map (fun kv => cells (snd kv)) props.

(** [l1] is within [l2]: what is in [l1] is in [l2], at least as often. *)
Definition within (l1 l2 : list Heap.Loc) : Prop :=
  exists rest, Permutation (l1 ++ rest) l2.

(** The store holds the tree: the cell of each reference of the tree has
    the keys, or the length, of the object or array there, and holds the
    primitives and the references that the tree has below it. *)
Fixpoint holds (sigma : Store) (t : Located) : Prop :=
  match t with
  | LScalar _ => True
  | LObject l props =>
      nth_error sigma l
      = Some (Heap.CObject (Heap.mapValues root props))
      /\ fold_right (fun kv rest => holds sigma (snd kv) /\ rest) True props
  | LArray l elems =>
      nth_error sigma l = Some (Heap.CArray (map root elems))
      /\ fold_right (fun e rest => holds sigma e /\ rest) True elems
  end.

(** The tree under the key [k] of an object, as [obj[k]] reads it. *)
Definition child (k : PropKey) (o : list (PropKey * Located)) : Located :=
  match Heap.get k o with
  | Some t => t
  | None => LScalar Heap.PUndefined
  end.

(** [sigma'] has the cells of [sigma], changed at most at the references
    of [among]. *)
Definition changedWithin (among : list Heap.Loc) (sigma sigma' : Store)
  : Prop :=
  length sigma' = length sigma
  /\ forall loc, ~ In loc among -> nth_error sigma' loc = nth_error sigma loc.

(** From [sigma] to [sigma'] no cell is lost, and of the cells of [sigma]
    none but those of [among] is changed. *)
Definition grows (among : list Heap.Loc) (sigma sigma' : Store) : Prop :=
  length sigma <= length sigma'
  /\ forall loc, loc < length sigma -> ~ In loc among ->
       nth_error sigma' loc = nth_error sigma loc.

(** The references of the tree are [n] or above; those of a tree that is
    new to [sigma] name no cell of [sigma]. *)
Definition cellsFrom (n : nat) (t : Located) : Prop :=
  forall loc, In loc (cells t) -> n <= loc.

Definition newTo (sigma : Store) (t : Located) : Prop :=
  cellsFrom (length sigma) t.

(** The pass over the store, [onStore], does to a tree that the store
    holds, and that shares no cell between two of its places, what the pass
    [onTree] makes of the tree: it throws when that throws, and otherwise
    leaves the store holding the rewritten tree at the same reference,
    having written to cells of the tree only. *)
Definition passAgrees
  (onTree : Value -> Fueled Value)
  (onStore : Stored -> Heap.Action Number Handle unit) : Prop :=
  forall t sigma, holds sigma t -> NoDup (cells t) ->
  match onTree (erase t) with
  | Some (Normal v') =>
      exists sigma' t',
        onStore (root t) sigma = Some (sigma', Normal tt)
        /\ holds sigma' t' /\ NoDup (cells t')
        /\ erase t' = v' /\ root t' = root t
        /\ within (cells t') (cells t)
        /\ changedWithin (cells t) sigma sigma'
  | Some (Throw msg) =>
      exists sigma',
        onStore (root t) sigma = Some (sigma', Throw msg)
        /\ changedWithin (cells t) sigma sigma'
  | None => True
  end.

(** What is stored in [x] is, read through the store, the value [v]. *)
Definition represents (sigma : Store) (x : Stored) (v : Value) : Prop :=
  exists t, holds sigma t /\ root t = x /\ erase t = v.

(** The same where a property may be absent. *)
Definition representsOption {A : Type} (value : A -> Value) (sigma : Store)
  (x : option Stored) (a : option A) : Prop :=
  match x, a with
  | Some x, Some a => represents sigma x (value a)
  | None, None => True
  | _, _ => False
  end.

(** An array of strings, and an array of such arrays, as values. *)
Definition stringsValue (l : list string) : Value := JArr (map JStr l).

Definition fieldsValue (ll : list (list string)) : Value :=
  JArr (map stringsValue ll).

(** An array of strings at a reference. *)
Definition stringsAt (l : Heap.Loc) (strs : list string) : Located :=
  LArray l (map (fun s => LScalar (Heap.PStr s)) strs).

(** The characters of a string, and the trees that [{...t}] copies. *)
Fixpoint charsAt (n : nat) (s : string) : list (PropKey * Located) :=
  match s with
  | EmptyString => []
  | String c r =>
      (index n, LScalar (Heap.PStr (String c EmptyString))) :: charsAt (S n) r
  end.

Definition ownTrees (t : Located) : list (PropKey * Located) :=
  match t with
  | LObject _ props => props
  | LArray _ elems => Heap.elementsFrom 0 elems
  | LScalar (Heap.PStr s) => charsAt 0 s
  | LScalar _ => []
  end.

(** What [req.query[key]] holds, for the parameter as the request has
    it. *)
Definition paramHeld (sigma : Store) (x : Stored) (p : option ParamValue)
  : Prop :=
  match p with
  | Some (PStr s) => x = Heap.Scalar (Heap.PStr s)
  | Some (PArr l) =>
      exists a, x = Heap.Ref a
                /\ nth_error sigma a = Some (Heap.CArray (map Heap.str l))
  | None => x = Heap.Scalar Heap.PUndefined
  end.

(** The request as a value: an object of strings and arrays of strings. *)
Definition queryValue (q : Query) : Value :=
  JObj (map (fun kv =>
               (KStr (fst kv),
                match snd kv with
                | PStr s => JStr s
                | PArr l => stringsValue l
                end)) q).

Definition representsDescriptor (sigma : Store)
  (h : @Heap.DbQuery Number Handle) (d : @DbQuery Number Handle) : Prop :=
  represents sigma (Heap.where_ h) (JObj (where_ d))
  /\ Heap.offset h = offset d
  /\ Heap.limit h = limit d
  /\ representsOption stringsValue sigma (Heap.attributes h) (attributes d)
  /\ representsOption fieldsValue sigma (Heap.order h) (order d)
  /\ representsOption fieldsValue sigma (Heap.group h) (group d)
  /\ representsOption (fun v => v) sigma (Heap.include h) (include d).

(** The promise over the store settles as [s] says. *)
Definition representsSettled (sigma : Store)
  (h : @Heap.Settled Number Handle) (s : @Settled Number Handle) : Prop :=
  match h, s with
  | Heap.Resolve h, Resolve d => representsDescriptor sigma h d
  | Heap.Reject msg, Reject msg' => msg = msg'
  | _, _ => False
  end.

(** The same of a tree that has no part in the cell [w]. *)
Definition heldApart (w : Heap.Loc) (sigma : Store) (x : Stored) (v : Value)
  : Prop :=
  exists t, holds sigma t /\ root t = x /\ erase t = v /\ ~ In w (cells t).

Definition heldApartOption {A : Type} (value : A -> Value) (w : Heap.Loc)
  (sigma : Store) (x : option Stored) (a : option A) : Prop :=
  match x, a with
  | Some x, Some a => heldApart w sigma x (value a)
  | None, None => True
  | _, _ => False
  end.

(** The cell [w] is the object [where], with the properties [props]. *)
Definition whereHeld (w : Heap.Loc) (sigma : Store)
  (props : Props Number Handle) : Prop :=
  exists o,
    holds sigma (LObject w o)
    /\ Heap.mapValues erase o = props
    /\ Forall (fun kv => ~ In w (cells (snd kv))) o.

(** The state of the loop over the store is the state [st] of the loop
    over the request [q]; the store had [base] cells when the call
    began, and [where] is none of them. *)
Definition stateHeld (base : nat) (q : Query) (sigma : Store)
  (h : @Heap.LoopState Number Handle) (st : @LoopState Number Handle)
  : Prop :=
  request st = q
  /\ Heap.offsetVar h = offsetVar st
  /\ Heap.limitVar h = limitVar st
  /\ Heap.offset (Heap.dbQuery h) = offset (dbQuery st)
  /\ Heap.limit (Heap.dbQuery h) = limit (dbQuery st)
  /\ exists w,
       Heap.where_ (Heap.dbQuery h) = Heap.Ref w
       /\ base <= w
       /\ whereHeld w sigma (where_ (dbQuery st))
       /\ heldApartOption stringsValue w sigma
            (Heap.attributes (Heap.dbQuery h)) (attributes (dbQuery st))
       /\ heldApartOption fieldsValue w sigma
            (Heap.order (Heap.dbQuery h)) (order (dbQuery st))
       /\ heldApartOption fieldsValue w sigma
            (Heap.group (Heap.dbQuery h)) (group (dbQuery st))
       /\ heldApartOption (fun v => v) w sigma
            (Heap.include (Heap.dbQuery h)) (include (dbQuery st)).

(** The request [q] is at [req], in cells that were there when the call
    began. *)
Definition requestHeld (base : nat) (sigma : Store) (req : Heap.Loc)
  (q : Query) : Prop :=
  exists t,
    holds sigma t /\ root t = Heap.Ref req /\ erase t = queryValue q
    /\ forall loc, In loc (cells t) -> loc < base.

(** No cell is lost, and the first [base] cells are as they were. *)
Definition keeps (base : nat) (sigma sigma' : Store) : Prop :=
  length sigma <= length sigma'
  /\ forall loc, loc < base -> nth_error sigma' loc = nth_error sigma loc.

(** Every cell of [sigma] is in [sigma'], as it was. *)
Definition unchanged (sigma sigma' : Store) : Prop :=
  forall l, l < length sigma -> nth_error sigma' l = nth_error sigma l.

End Located.

Arguments Located : clear implicits.

(* ================================================================== *)
(** ** Strings: [split] *)
(* ================================================================== *)

Section StringFacts.

Lemma append_assoc (a b c : string) : ((a ++ b) ++ c = a ++ (b ++ c))%string.
Proof. induction a as [|x a IH]; simpl; [reflexivity | now rewrite IH]. Qed.

Lemma append_empty_r (a : string) : (a ++ "")%string = a.
Proof. induction a as [|x a IH]; simpl; [reflexivity | now rewrite IH]. Qed.

Lemma split_not_nil (sep : ascii) (s : string) : JSString.split sep s <> [].
Proof.
  induction s as [|c r IH]; simpl; [discriminate|].
  destruct (Ascii.eqb c sep); [discriminate|].
  destruct (JSString.split sep r); [contradiction | discriminate].
Qed.

(** Without the separator in it, a string is its own single piece. *)
Lemma split_without (sep : ascii) (s : string) :
  contains sep s = false -> JSString.split sep s = [s].
Proof.
  unfold contains. induction s as [|c r IH]; simpl; [reflexivity|].
  intros H. apply orb_false_iff in H as [Hc Hr].
  rewrite Ascii.eqb_sym, Hc. now rewrite (IH Hr).
Qed.

(** With the separator in it, a string has at least two pieces. *)
Lemma split_with (sep : ascii) (s : string) :
  contains sep s = true -> 1 < length (JSString.split sep s).
Proof.
  unfold contains. induction s as [|c r IH]; simpl; [discriminate|].
  rewrite (Ascii.eqb_sym sep c).
  destruct (Ascii.eqb c sep); simpl.
  - intros _. pose proof (split_not_nil sep r).
    destruct (JSString.split sep r); [contradiction | simpl; lia].
  - intros H. specialize (IH H).
    destruct (JSString.split sep r); simpl in *; lia.
Qed.

(** ** Strings: the split on the first colon *)

Lemma go_scanning_without_colon (cur s : string) :
  contains ":"%char s = false ->
  JSString.splitColonRest_go false cur s = [(cur ++ s)%string].
Proof.
  unfold contains. revert cur.
  induction s as [|c r IH]; cbn [anyChar JSString.splitColonRest_go];
    intros cur H.
  - now rewrite append_empty_r.
  - apply orb_false_iff in H as [Hc Hr].
    rewrite Ascii.eqb_sym, Hc. cbn [andb].
    rewrite (IH _ Hr), append_assoc. reflexivity.
Qed.

Lemma go_capturing_one_line (cur s : string) :
  hasLineTerminator s = false ->
  JSString.splitColonRest_go true cur s = [(cur ++ s)%string; ""].
Proof.
  unfold hasLineTerminator. revert cur.
  induction s as [|c r IH]; simpl; intros cur H.
  - now rewrite append_empty_r.
  - apply orb_false_iff in H as [Hc Hr].
    rewrite Hc, (IH _ Hr), append_assoc. reflexivity.
Qed.

(** A capture ends at the first line terminator. *)
Lemma go_capturing_cut (cur a : string) (c : ascii) (b : string) :
  hasLineTerminator a = false ->
  JSString.isLineTerminator c = true ->
  JSString.splitColonRest_go true cur (a ++ String c b) =
  (cur ++ a)%string :: JSString.splitColonRest_go false (String c "") b.
Proof.
  unfold hasLineTerminator. revert cur.
  induction a as [|x a IH]; simpl; intros cur H Hc.
  - now rewrite Hc, append_empty_r.
  - apply orb_false_iff in H as [Hx Ha].
    rewrite Hx, (IH _ Ha Hc), append_assoc. reflexivity.
Qed.

Lemma go_scanning_to_colon (cur a b : string) :
  contains ":"%char a = false ->
  JSString.startsWithNonLT b = true ->
  JSString.splitColonRest_go false cur (a ++ String ":"%char b) =
  (cur ++ a)%string :: JSString.splitColonRest_go true "" b.
Proof.
  unfold contains. revert cur.
  induction a as [|x a IH];
    cbn [anyChar JSString.splitColonRest_go String.append]; intros cur H Hb.
  - now rewrite Ascii.eqb_refl, Hb, append_empty_r.
  - apply orb_false_iff in H as [Hx Ha].
    rewrite Ascii.eqb_sym, Hx. cbn [andb].
    rewrite (IH _ Ha Hb), append_assoc. reflexivity.
Qed.

(** [name:value] with a colon-free [name] and a non-empty [value] of one
    line splits into [name], [value] and an empty tail. *)
Lemma splitColonRest_first_colon (name value : string) :
  contains ":"%char name = false ->
  value <> "" ->
  hasLineTerminator value = false ->
  JSString.splitColonRest (name ++ String ":"%char value) = [name; value; ""].
Proof.
  intros Hn Hv Hl. unfold JSString.splitColonRest.
  rewrite go_scanning_to_colon; trivial.
  - now rewrite go_capturing_one_line.
  - destruct value as [|c r]; [contradiction|].
    unfold hasLineTerminator in Hl. simpl in *.
    apply orb_false_iff in Hl as [Hc _]. now rewrite Hc.
Qed.


End StringFacts.

(* ================================================================== *)
(** ** The operator table *)
(* ================================================================== *)

Section OperatorFacts.

(** Runs through the seventeen entries of the table in a hypothesis
    [assocString name operatorTable = Some op]. *)
Ltac table_cases H :=
  cbn [assocString operatorTable] in H;
  repeat match goal with
         | G : context [String.eqb ?n ?k] |- _ =>
             let e := fresh "e" in
             destruct (String.eqb_spec n k) as [e | _];
             [ first [ discriminate G | inversion G; subst; clear G ] | ]
         end;
  try match goal with G : None = Some _ |- _ => discriminate G end.

Lemma operators_Found (name : string) (op : Op) :
  operators name = Found op <-> assocString name operatorTable = Some op.
Proof.
  unfold operators. destruct (assocString name operatorTable) as [o|].
  - split; intros H; injection H as ->; reflexivity.
  - split; [|discriminate].
    destruct (existsb _ _); discriminate.
Qed.

Lemma operators_Inherited (key member : string) :
  operators key = Inherited member ->
  member = key /\ In key objectPrototypeMembers.
Proof.
  unfold operators. destruct (assocString key operatorTable); [discriminate|].
  destruct (existsb (String.eqb key) objectPrototypeMembers) eqn:E;
    [|discriminate].
  intros H. injection H as <-. split; [reflexivity|].
  apply existsb_exists in E as (x & Hx & Hk).
  apply String.eqb_eq in Hk. now subst.
Qed.

(** No operator name holds a colon. *)
Lemma operator_name_no_colon (name : string) (op : Op) :
  operators name = Found op -> contains ":"%char name = false.
Proof.
  intros H. apply operators_Found in H.
  table_cases H; reflexivity.
Qed.

(** Distinct names are given distinct symbols. *)
Lemma operators_injective (a b : string) (op : Op) :
  operators a = Found op -> operators b = Found op -> a = b.
Proof.
  intros Ha Hb. apply operators_Found in Ha, Hb.
  table_cases Ha; table_cases Hb; reflexivity.
Qed.

Lemma operators_model : operators "model" = Undefined.
Proof. reflexivity. Qed.

(** What an inherited member turns into is never the key [model], is never
    the name of an operator and is itself no inherited member. *)
Lemma inheritedToString_facts (member : string) :
  In member objectPrototypeMembers ->
  inheritedToString member <> "model" /\
  operators (inheritedToString member) = Undefined.
Proof.
  cbn [In objectPrototypeMembers]. intros H.
  repeat (destruct H as [<- | H]; [split; [discriminate | reflexivity] |]).
  contradiction.
Qed.

Lemma Op_eqb_eq (a b : Op) : Op_eqb a b = true <-> a = b.
Proof.
  split.
  - destruct a, b; simpl; intros H; try discriminate H; reflexivity.
  - intros ->. destruct b; reflexivity.
Qed.

Lemma PropKey_eqb_eq (a b : PropKey) : PropKey_eqb a b = true <-> a = b.
Proof.
  destruct a as [s|o], b as [t|p]; simpl.
  - rewrite String.eqb_eq. split; [intros -> | intros [= ->]]; reflexivity.
  - split; discriminate.
  - split; discriminate.
  - rewrite Op_eqb_eq. split; [intros -> | intros [= ->]]; reflexivity.
Qed.

Lemma PropKey_eqb_refl (a : PropKey) : PropKey_eqb a a = true.
Proof. now apply PropKey_eqb_eq. Qed.

Lemma PropKey_eqb_neq (a b : PropKey) : a <> b -> PropKey_eqb a b = false.
Proof.
  intros H. destruct (PropKey_eqb a b) eqn:E; [|reflexivity].
  apply PropKey_eqb_eq in E. contradiction.
Qed.

Lemma PropKey_eqb_sym (a b : PropKey) : PropKey_eqb a b = PropKey_eqb b a.
Proof.
  destruct (PropKey_eqb b a) eqn:E.
  - apply PropKey_eqb_eq in E as ->. apply PropKey_eqb_refl.
  - apply PropKey_eqb_neq. intros ->. now rewrite PropKey_eqb_refl in E.
Qed.

End OperatorFacts.

(* ================================================================== *)
(** ** Objects: reading, writing and deleting properties *)
(* ================================================================== *)

Section ObjectFacts.

Context {Number Handle : Type}.

#[local] Abbreviation Value := (JSValue Number Handle).
#[local] Abbreviation Object := (Props Number Handle).

Implicit Types (o : Object) (k : PropKey) (v : Value).

Lemma get_set_same k v o : get k (set k v o) = Some v.
Proof.
  induction o as [|[k' v'] r IH]; simpl.
  - now rewrite PropKey_eqb_refl.
  - destruct (PropKey_eqb k k') eqn:E; simpl; rewrite ?PropKey_eqb_refl, ?E;
      auto.
Qed.

Lemma get_set_other k k' v o : k <> k' -> get k (set k' v o) = get k o.
Proof.
  intros H. induction o as [|[k2 v2] r IH]; simpl.
  - now rewrite PropKey_eqb_neq.
  - destruct (PropKey_eqb k' k2) eqn:E; simpl.
    + apply PropKey_eqb_eq in E as <-. now rewrite PropKey_eqb_neq.
    + now rewrite IH.
Qed.

Lemma get_delete_same k o : get k (delete k o) = None.
Proof.
  induction o as [|[k' v'] r IH]; simpl; [reflexivity|].
  destruct (PropKey_eqb k k') eqn:E; simpl; rewrite ?E; auto.
Qed.

Lemma get_delete_other k k' o : k <> k' -> get k (delete k' o) = get k o.
Proof.
  intros H. induction o as [|[k2 v2] r IH]; simpl; [reflexivity|].
  destruct (PropKey_eqb k' k2) eqn:E; simpl.
  - apply PropKey_eqb_eq in E as <-. now rewrite PropKey_eqb_neq.
  - now rewrite IH.
Qed.

Lemma read_set_same k v o : read k (set k v o) = v.
Proof. unfold read. now rewrite get_set_same. Qed.

Lemma get_In_keys (s : string) o v : get (KStr s) o = Some v -> In s (keys o).
Proof.
  induction o as [|[[t|p] v'] r IH]; simpl; [discriminate| |]; auto.
  destruct (String.eqb_spec s t) as [->|]; auto.
Qed.

Lemma In_keys_get (s : string) o : In s (keys o) -> exists v, get (KStr s) o = Some v.
Proof.
  induction o as [|[[t|p] v'] r IH]; simpl; [contradiction| |]; auto.
  destruct (String.eqb_spec s t) as [->|]; eauto.
  intros [->|H]; [contradiction | auto].
Qed.

(** Writing and deleting keep the keys of an object apart. *)
Lemma In_set k k' v o :
  In k (map fst (set k' v o)) <-> k = k' \/ In k (map fst o).
Proof.
  induction o as [|[k2 v2] r IH]; simpl.
  - intuition.
  - destruct (PropKey_eqb k' k2) eqn:E; simpl.
    + apply PropKey_eqb_eq in E as <-. intuition.
    + rewrite IH. intuition.
Qed.

Lemma NoDup_set k v o : NoDup (map fst o) -> NoDup (map fst (set k v o)).
Proof.
  induction o as [|[k2 v2] r IH]; simpl; intros H.
  - constructor; [intros [] | constructor].
  - inversion H as [|? ? Hn Hr]; subst.
    destruct (PropKey_eqb k k2) eqn:E; simpl.
    + apply PropKey_eqb_eq in E as <-. now constructor.
    + constructor; [|auto].
      rewrite In_set. intros [->|Hin]; [|contradiction].
      now rewrite PropKey_eqb_refl in E.
Qed.

Lemma In_delete k k' o :
  In k (map fst (delete k' o)) <-> k <> k' /\ In k (map fst o).
Proof.
  induction o as [|[k2 v2] r IH]; simpl.
  - intuition.
  - destruct (PropKey_eqb k' k2) eqn:E; simpl.
    + apply PropKey_eqb_eq in E as <-. rewrite IH. intuition congruence.
    + rewrite IH. split.
      * intros [<-|[? ?]]; [|now auto].
        split; [|now left]. intros ->. now rewrite PropKey_eqb_refl in E.
      * intuition.
Qed.

Lemma NoDup_delete k o : NoDup (map fst o) -> NoDup (map fst (delete k o)).
Proof.
  induction o as [|[k2 v2] r IH]; simpl; intros H; [constructor|].
  inversion H as [|? ? Hn Hr]; subst.
  destruct (PropKey_eqb k k2); simpl; [auto|].
  constructor; [|auto]. rewrite In_delete. tauto.
Qed.

(** ** Heights *)

Lemma height_obj (o : Object) : height (JObj o) = S (maxHeight o).
Proof. reflexivity. Qed.

Lemma maxHeight_cons k v o :
  maxHeight ((k, v) :: o) = Nat.max (height v) (maxHeight o).
Proof. reflexivity. Qed.

Lemma get_height k o v : get k o = Some v -> height v <= maxHeight o.
Proof.
  induction o as [|[k' v'] r IH]; [discriminate|].
  rewrite maxHeight_cons. simpl.
  destruct (PropKey_eqb k k').
  - intros [= ->]. apply Nat.le_max_l.
  - intros H. specialize (IH H). lia.
Qed.

Lemma read_height k o : height (read k o) <= maxHeight o.
Proof.
  unfold read. destruct (get k o) eqn:E.
  - eapply get_height; eauto.
  - simpl. lia.
Qed.

Lemma maxHeight_delete k o : maxHeight (delete k o) <= maxHeight o.
Proof.
  induction o as [|[k' v'] r IH]; [simpl; lia|].
  rewrite maxHeight_cons. simpl.
  destruct (PropKey_eqb k k'); rewrite ?maxHeight_cons; lia.
Qed.

Lemma maxHeight_set k v o :
  maxHeight (set k v o) <= Nat.max (height v) (maxHeight o).
Proof.
  induction o as [|[k' v'] r IH]; [simpl; lia|].
  rewrite maxHeight_cons. simpl.
  destruct (PropKey_eqb k k'); rewrite ?maxHeight_cons; lia.
Qed.

End ObjectFacts.

(* ================================================================== *)
(** ** The rewrite pass terminates *)
(* ================================================================== *)

Section Termination.

Context {Number Handle : Type} `{RT : Runtime Number Handle}.

#[local] Abbreviation Value := (JSValue Number Handle).
#[local] Abbreviation Object := (Props Number Handle).

Implicit Types (o json : Object) (k : PropKey) (v : Value)
  (recur r : Value -> Fueled Value) (elems : list Value).

Lemma maxHeight_replaceKey json key op :
  maxHeight (replaceKeyWithOperator json key op) <= maxHeight json.
Proof.
  unfold replaceKeyWithOperator.
  pose proof (maxHeight_set (toPropertyKey op) (read (KStr key) json)
                (delete (KStr key) json)).
  pose proof (maxHeight_delete (KStr key) json).
  pose proof (read_height (KStr key) json). lia.
Qed.

Lemma read_replaceKey json key op :
  read (toPropertyKey op) (replaceKeyWithOperator json key op)
  = read (KStr key) json.
Proof. unfold replaceKeyWithOperator. apply read_set_same. Qed.

Lemma visitKey_returns h recur json key :
  returnsUpTo h recur -> maxHeight json <= h ->
  exists json', visitKey recur json key = Some (Normal json')
                /\ maxHeight json' <= maxHeight json.
Proof.
  intros Hr Hh. unfold visitKey.
  pose proof (read_height (KStr key) json) as Hv.
  destruct (isObject (read (KStr key) json)) eqn:Eo.
  - destruct (truthy (operators key)).
    + rewrite read_replaceKey.
      destruct (Hr _ Eo) as (v' & -> & Hv'); [lia|]. simpl.
      eexists; split; [reflexivity|].
      pose proof (maxHeight_set (toPropertyKey (operators key)) v'
                    (replaceKeyWithOperator json key (operators key))).
      pose proof (maxHeight_replaceKey json key (operators key)). lia.
    + destruct (Hr _ Eo) as (v' & -> & Hv'); [lia|]. simpl.
      eexists; split; [reflexivity|].
      pose proof (maxHeight_set (KStr key) v' json). lia.
  - destruct (if String.eqb key "model" then _ else None) as [handle|].
    + eexists; split; [reflexivity|].
      pose proof (maxHeight_set (KStr "model") (JHandle handle) json).
      simpl in *. lia.
    + destruct (truthy (operators key)); eexists; (split; [reflexivity|]).
      * apply maxHeight_replaceKey.
      * lia.
Qed.

Lemma forEachKey_returns h recur ks : forall json,
  returnsUpTo h recur -> maxHeight json <= h ->
  exists json', forEachKey (visitKey recur) ks json = Some (Normal json')
                /\ maxHeight json' <= maxHeight json.
Proof.
  induction ks as [|key rest IH]; intros json Hr Hh; simpl.
  - eexists; split; [reflexivity | lia].
  - destruct (visitKey_returns h recur json key Hr Hh) as (j1 & -> & H1).
    simpl. destruct (IH j1 Hr) as (j2 & -> & H2); [lia|].
    eexists; split; [reflexivity | lia].
Qed.

Lemma visitKey_ext h r1 r2 json key :
  agreeUpTo h r1 r2 -> maxHeight json <= h ->
  visitKey r1 json key = visitKey r2 json key.
Proof.
  intros Ha Hh. unfold visitKey.
  pose proof (read_height (KStr key) json) as Hv.
  destruct (isObject (read (KStr key) json)) eqn:Eo; [|reflexivity].
  destruct (truthy (operators key)).
  - rewrite read_replaceKey, (Ha _ Eo); [reflexivity | lia].
  - rewrite (Ha _ Eo); [reflexivity | lia].
Qed.

Lemma forEachKey_ext h r1 r2 ks : forall json,
  agreeUpTo h r1 r2 -> returnsUpTo h r1 -> maxHeight json <= h ->
  forEachKey (visitKey r1) ks json = forEachKey (visitKey r2) ks json.
Proof.
  induction ks as [|key rest IH]; intros json Ha Hr Hh; simpl; [reflexivity|].
  rewrite <- (visitKey_ext h r1 r2 json key Ha Hh).
  destruct (visitKey_returns h r1 json key Hr Hh) as (j1 & -> & H1).
  simpl. apply IH; auto. lia.
Qed.

(** The same for arrays. *)
Lemma maxHeightOf_cons (e : Value) (l : list Value) :
  maxHeightOf (e :: l) = Nat.max (height e) (maxHeightOf l).
Proof. reflexivity. Qed.

Lemma forEachElement_returns h recur : forall elems,
  returnsUpTo h recur -> maxHeightOf elems <= h ->
  exists elems', forEachElement recur elems = Some (Normal elems')
                 /\ maxHeightOf elems' <= maxHeightOf elems.
Proof.
  induction elems as [|e rest IH]; intros Hr Hh.
  - eexists; split; [reflexivity | lia].
  - rewrite maxHeightOf_cons in *. cbn [forEachElement].
    destruct IH as (r' & -> & H2); [assumption | lia |].
    destruct (isObject e) eqn:Eo.
    + destruct (Hr _ Eo) as (e' & -> & He'); [lia|]. simpl.
      eexists; split; [reflexivity | rewrite maxHeightOf_cons; lia].
    + simpl. eexists; split; [reflexivity | rewrite maxHeightOf_cons; lia].
Qed.

Lemma forEachElement_ext h r1 r2 : forall elems,
  agreeUpTo h r1 r2 -> maxHeightOf elems <= h ->
  forEachElement r1 elems = forEachElement r2 elems.
Proof.
  induction elems as [|e rest IH]; intros Ha Hh; [reflexivity|].
  rewrite maxHeightOf_cons in Hh. cbn [forEachElement].
  rewrite IH by (auto; lia).
  destruct (isObject e) eqn:Eo; [|reflexivity].
  rewrite (Ha _ Eo); [reflexivity | lia].
Qed.

(** With more fuel than the value is high, the pass returns on an object,
    and returns a value that is no higher. *)
Lemma iterativeReplace_fuel_returns (n : nat) : forall v,
  isObject v = true -> height v < n ->
  exists v', iterativeReplace_fuel n v = Some (Normal v')
             /\ height v' <= height v.
Proof.
  induction n as [|n IH]; intros v Ho Hh; [lia|].
  assert (Hr : forall h, h < n -> returnsUpTo h (iterativeReplace_fuel n)).
  { intros h Hlt x Hx Hxh. apply IH; [assumption | lia]. }
  destruct v as [| | | | |elems|props|]; try discriminate Ho; simpl.
  - simpl in Hh.
    destruct (forEachElement_returns (maxHeightOf elems)
                (iterativeReplace_fuel n) elems) as (e' & -> & He');
      [apply Hr; unfold maxHeightOf; lia | lia |].
    simpl. eexists; split; [reflexivity|]. simpl.
    unfold maxHeightOf in He'. lia.
  - simpl in Hh.
    destruct (forEachKey_returns (maxHeight props)
                (iterativeReplace_fuel n) (keys props) props)
      as (p' & -> & Hp'); [apply Hr; unfold maxHeight; lia | lia |].
    simpl. eexists; split; [reflexivity|]. simpl.
    unfold maxHeight in Hp'. lia.
Qed.

(** Past that point the fuel makes no difference. *)
Lemma iterativeReplace_fuel_stable (n : nat) : forall m v,
  height v < n -> height v < m ->
  iterativeReplace_fuel n v = iterativeReplace_fuel m v.
Proof.
  induction n as [|n IH]; intros m v Hn Hm; [lia|].
  destruct m as [|m]; [lia|].
  destruct v as [| | | | |elems|props|]; try reflexivity; simpl in *.
  - rewrite (forEachElement_ext (maxHeightOf elems)
               (iterativeReplace_fuel n) (iterativeReplace_fuel m));
      [reflexivity | | lia].
    intros x _ Hx. unfold maxHeightOf in Hx. apply IH; lia.
  - rewrite (forEachKey_ext (maxHeight props)
               (iterativeReplace_fuel n) (iterativeReplace_fuel m));
      [reflexivity | | | lia].
    + intros x _ Hx. unfold maxHeight in Hx. apply IH; lia.
    + intros x Hx Hxh. unfold maxHeight in Hxh.
      apply iterativeReplace_fuel_returns; [assumption | lia].
Qed.

(** The fuel never runs out: a scalar is answered at once, an object by
    [iterativeReplace_fuel_returns]. *)
Lemma iterativeReplace_fuel_some (n : nat) (v : Value) :
  height v < n -> exists c, iterativeReplace_fuel n v = Some c.
Proof.
  intros Hh. destruct (isObject v) eqn:Eo.
  - destruct (iterativeReplace_fuel_returns n v Eo Hh) as (v' & -> & _).
    eauto.
  - destruct n as [|n]; [lia|].
    destruct v; try discriminate Eo; eexists; reflexivity.
Qed.

(** [iterativeReplace] is what any sufficient fuel computes. *)
Lemma iterativeReplace_fuel_enough (n : nat) (v : Value) :
  height v < n -> iterativeReplace_fuel n v = Some (iterativeReplace v).
Proof.
  intros Hh. unfold iterativeReplace.
  rewrite (iterativeReplace_fuel_stable (S (height v)) n v) by lia.
  destruct (iterativeReplace_fuel_some n v Hh) as (c & ->). reflexivity.
Qed.

Lemma recurse_returns (h : nat) : returnsUpTo h recurse.
Proof.
  intros v Ho _. unfold recurse.
  destruct (iterativeReplace_fuel_returns (S (height v)) v Ho)
    as (v' & E & Hv'); [lia|].
  rewrite iterativeReplace_fuel_enough in E by lia.
  injection E as ->. eauto.
Qed.

(** On an object the pass returns: a nested call never throws. *)
Lemma iterativeReplace_object (v : Value) :
  isObject v = true ->
  exists v', iterativeReplace v = Normal v' /\ height v' <= height v.
Proof.
  intros Ho.
  destruct (recurse_returns (height v) v Ho) as (v' & E & H); [lia|].
  injection E as E. eauto.
Qed.

Lemma iterativeReplace_fuel_JObj (n : nat) (props : Object) :
  iterativeReplace_fuel (S n) (JObj props) =
  (props' <~ forEachKey (visitKey (iterativeReplace_fuel n)) (keys props) props ;;
   retF (JObj props')).
Proof. reflexivity. Qed.

Lemma iterativeReplace_fuel_JArr (n : nat) (elems : list Value) :
  iterativeReplace_fuel (S n) (JArr elems) =
  (elems' <~ forEachElement (iterativeReplace_fuel n) elems ;;
   retF (JArr elems')).
Proof. reflexivity. Qed.

Lemma height_arr (elems : list Value) :
  height (JArr elems) = S (maxHeightOf elems).
Proof. reflexivity. Qed.

(** The unfolding equations of [iterativeReplace]. *)
Lemma iterativeReplace_JObj (props : Object) :
  exists props',
    forEachKey (visitKey recurse) (keys props) props = Some (Normal props')
    /\ iterativeReplace (JObj props) = Normal (JObj props').
Proof.
  destruct (forEachKey_returns (maxHeight props) recurse (keys props) props)
    as (p' & E & _); [apply recurse_returns | lia |].
  exists p'. split; [assumption|].
  unfold iterativeReplace.
  rewrite height_obj, iterativeReplace_fuel_JObj.
  rewrite (forEachKey_ext (maxHeight props) _ recurse).
  - now rewrite E.
  - intros x _ Hx. unfold recurse.
    apply iterativeReplace_fuel_enough. lia.
  - intros x Hx Hxh. apply iterativeReplace_fuel_returns; [assumption|].
    lia.
  - lia.
Qed.

Lemma iterativeReplace_JArr (elems : list Value) :
  exists elems',
    forEachElement recurse elems = Some (Normal elems')
    /\ iterativeReplace (JArr elems) = Normal (JArr elems').
Proof.
  destruct (forEachElement_returns (maxHeightOf elems) recurse elems)
    as (e' & E & _); [apply recurse_returns | lia |].
  exists e'. split; [assumption|].
  unfold iterativeReplace.
  rewrite height_arr, iterativeReplace_fuel_JArr.
  rewrite (forEachElement_ext (maxHeightOf elems) _ recurse).
  - now rewrite E.
  - intros x _ Hx. unfold recurse.
    apply iterativeReplace_fuel_enough. lia.
  - lia.
Qed.

End Termination.

(* ================================================================== *)
(** ** What one visit and one pass do to a property *)
(* ================================================================== *)

Section PassFacts.

Context {Number Handle : Type} `{RT : Runtime Number Handle}.

#[local] Abbreviation Value := (JSValue Number Handle).
#[local] Abbreviation Object := (Props Number Handle).

Implicit Types (o json props : Object) (k t : PropKey) (v : Value)
  (key : string) (ks pre post : list string).

Lemma forEachKey_app (visit : Object -> string -> Fueled Object) pre post json :
  forEachKey visit (pre ++ post) json =
  (json' <~ forEachKey visit pre json ;; forEachKey visit post json').
Proof.
  revert json. induction pre as [|key pre IH]; intros json; simpl.
  - reflexivity.
  - destruct (visit json key) as [[j|m]|]; simpl; auto.
Qed.

(** A pass over [pre ++ key :: post] is a pass over [pre], the visit of
    [key], and a pass over [post]. *)
Lemma forEachKey_split pre key post json json' :
  forEachKey (visitKey recurse) (pre ++ key :: post) json = Some (Normal json') ->
  exists j1 j2,
    forEachKey (visitKey recurse) pre json = Some (Normal j1)
    /\ visitKey recurse j1 key = Some (Normal j2)
    /\ forEachKey (visitKey recurse) post j2 = Some (Normal json').
Proof.
  rewrite forEachKey_app. simpl.
  destruct (forEachKey (visitKey recurse) pre json) as [[j1|m]|] eqn:E1;
    simpl; try discriminate.
  destruct (visitKey recurse j1 key) as [[j2|m]|] eqn:E2; simpl;
    try discriminate.
  intros H. exists j1, j2. auto.
Qed.

(** A visit writes under the key it visits and under the key the operator
    read turns into, and nowhere else. *)
Lemma visitKey_elsewhere t json key json' :
  visitKey recurse json key = Some (Normal json') ->
  t <> KStr key ->
  (truthy (operators key) = true -> t <> toPropertyKey (operators key)) ->
  get t json' = get t json.
Proof.
  unfold visitKey, replaceKeyWithOperator. intros H Hk Hop.
  destruct (isObject (read (KStr key) json)).
  - destruct (truthy (operators key)).
    + destruct (recurse _) as [[v'|m]|]; simpl in H; try discriminate.
      injection H as <-.
      rewrite !get_set_other, get_delete_other; auto.
    + destruct (recurse _) as [[v'|m]|]; simpl in H; try discriminate.
      injection H as <-. rewrite get_set_other; auto.
  - destruct (String.eqb_spec key "model") as [->|Hm].
    + destruct (db _) as [handle|].
      * injection H as <-. rewrite get_set_other; auto.
      * destruct (truthy (operators "model")); injection H as <-; auto.
        rewrite get_set_other, get_delete_other; auto.
    + destruct (truthy (operators key)); injection H as <-; auto.
      rewrite get_set_other, get_delete_other; auto.
Qed.

Lemma forEachKey_elsewhere t ks : forall json json',
  forEachKey (visitKey recurse) ks json = Some (Normal json') ->
  (forall key, In key ks ->
     t <> KStr key /\
     (truthy (operators key) = true -> t <> toPropertyKey (operators key))) ->
  get t json' = get t json.
Proof.
  induction ks as [|key rest IH]; intros json json' H Hks; simpl in H.
  - now injection H as <-.
  - destruct (visitKey recurse json key) as [[j1|m]|] eqn:E; simpl in H;
      try discriminate.
    rewrite (IH _ _ H) by (intros; apply Hks; now right).
    destruct (Hks key) as [? ?]; [now left|].
    eapply visitKey_elsewhere; eauto.
Qed.

(** The key an operator read turns into is never [model]. *)
Lemma toPropertyKey_not_model key :
  truthy (operators key) = true -> KStr "model" <> toPropertyKey (operators key).
Proof.
  destruct (operators key) as [op|member|] eqn:E; simpl; try discriminate.
  intros _ [= H].
  apply operators_Inherited in E as [-> Hin].
  destruct (inheritedToString_facts key Hin) as [Hne _]. congruence.
Qed.

(** A key with a value the pass does not descend into, and with an entity
    under the name the value gives: the visit stores the entity. *)
Lemma visitKey_model json v handle :
  get (KStr "model") json = Some v ->
  isObject v = false ->
  db (toString v) = Some handle ->
  visitKey recurse json "model"
  = Some (Normal (set (KStr "model") (JHandle handle) json)).
Proof.
  intros Hg Ho Hdb. unfold visitKey, read. rewrite Hg, Ho. simpl.
  now rewrite Hdb.
Qed.

(** The visit of a key that names an operator: the value moves under the
    symbol, rewritten if it is an object, and the key is gone. *)
Lemma visitKey_operator json key op v :
  get (KStr key) json = Some v ->
  operators key = Found op ->
  exists v' json',
    rewritten v = Normal v'
    /\ visitKey recurse json key = Some (Normal json')
    /\ get (KSym op) json' = Some v'
    /\ get (KStr key) json' = None.
Proof.
  intros Hg Hop. unfold visitKey, rewritten, replaceKeyWithOperator, read.
  rewrite Hg, Hop. simpl.
  destruct (isObject v) eqn:Ho.
  - rewrite get_set_same.
    destruct (iterativeReplace_object v Ho) as (v' & E & _).
    unfold recurse. rewrite E. simpl.
    exists v', (set (KSym op) v' (set (KSym op) v (delete (KStr key) json))).
    repeat split.
    + apply get_set_same.
    + rewrite !get_set_other, get_delete_same by discriminate. reflexivity.
  - destruct (String.eqb_spec key "model") as [->|_]; [discriminate Hop|].
    exists v, (set (KSym op) v (delete (KStr key) json)).
    repeat split.
    + apply get_set_same.
    + rewrite get_set_other, get_delete_same by discriminate. reflexivity.
Qed.

(** The visit of a key that the operator read does not find: the key
    stays, with its value rewritten if it is an object; a [model] that
    names an entity is the one exception. *)
Lemma visitKey_plain json key v :
  get (KStr key) json = Some v ->
  operators key = Undefined ->
  (key = "model" -> isObject v = false -> db (toString v) = None) ->
  exists v' json',
    rewritten v = Normal v'
    /\ visitKey recurse json key = Some (Normal json')
    /\ get (KStr key) json' = Some v'.
Proof.
  intros Hg Hop Hm. unfold visitKey, rewritten, read.
  rewrite Hg, Hop. simpl.
  destruct (isObject v) eqn:Ho.
  - destruct (iterativeReplace_object v Ho) as (v' & E & _).
    unfold recurse. rewrite E. simpl.
    exists v', (set (KStr key) v' json). repeat split. apply get_set_same.
  - exists v, json. repeat split; [|assumption].
    destruct (String.eqb_spec key "model") as [->|_]; [|reflexivity].
    now rewrite Hm.
Qed.

Lemma NoDup_app_cons {A : Type} (pre post : list A) (x : A) :
  NoDup (pre ++ x :: post) -> ~ In x pre /\ ~ In x post.
Proof.
  intros H. apply NoDup_remove_2 in H. rewrite in_app_iff in H. tauto.
Qed.

End PassFacts.

(* ================================================================== *)
(** ** The rewrite pass, property by property *)
(* ================================================================== *)

Section PassTheorems.

Context {Number Handle : Type} `{RT : Runtime Number Handle}.

#[local] Abbreviation Value := (JSValue Number Handle).
#[local] Abbreviation Object := (Props Number Handle).

Implicit Types (o json props : Object) (k t : PropKey) (v : Value)
  (key : string) (ks pre post : list string).

(** Where the pass stands when it visits [key]: the object [j1] before the
    visit and [j2] after it.  A property that no other key's visit writes
    is in [j1] what it was at the start, and at the end what it is in
    [j2]. *)
Lemma forEachKey_focus props props' key :
  NoDup (keys props) -> In key (keys props) ->
  forEachKey (visitKey recurse) (keys props) props = Some (Normal props') ->
  exists j1 j2,
    visitKey recurse j1 key = Some (Normal j2)
    /\ forall t,
         (forall other, In other (keys props) -> other <> key ->
            t <> KStr other /\
            (truthy (operators other) = true ->
             t <> toPropertyKey (operators other))) ->
         get t j1 = get t props /\ get t props' = get t j2.
Proof.
  intros Hnd Hin E.
  destruct (in_split _ _ Hin) as (pre & post & Hks).
  rewrite Hks in E, Hnd.
  destruct (NoDup_app_cons _ _ _ Hnd) as [Hpre Hpost].
  destruct (forEachKey_split _ _ _ _ _ E) as (j1 & j2 & E1 & E2 & E3).
  exists j1, j2. split; [assumption|].
  intros t Ht. split.
  - apply (forEachKey_elsewhere t pre _ _ E1).
    intros other Ho. apply Ht.
    + rewrite Hks, in_app_iff. now left.
    + intros ->. contradiction.
  - apply (forEachKey_elsewhere t post _ _ E3).
    intros other Ho. apply Ht.
    + rewrite Hks, in_app_iff. right. now right.
    + intros ->. contradiction.
Qed.

(** A key that names an operator is renamed to the operator's symbol,
    whatever else the object holds; its value is passed through the pass
    when it is an object or an array. *)
Theorem iterativeReplace_renames_operator props key op v :
  NoDup (keys props) ->
  get (KStr key) props = Some v ->
  operators key = Found op ->
  exists props' v',
    iterativeReplace (JObj props) = Normal (JObj props')
    /\ rewritten v = Normal v'
    /\ get (KSym op) props' = Some v'
    /\ get (KStr key) props' = None.
Proof.
  intros Hnd Hg Hop.
  destruct (iterativeReplace_JObj props) as (props' & E & Eq).
  destruct (forEachKey_focus props props' key Hnd (get_In_keys _ _ _ Hg) E)
    as (j1 & j2 & Ev & Hframe).
  assert (Hself : forall other, In other (keys props) -> other <> key ->
            KStr key <> KStr other /\
            (truthy (operators other) = true ->
             KStr key <> toPropertyKey (operators other))).
  { intros other _ Hne. split; [congruence|].
    destruct (operators other) as [o|member|] eqn:Eo; simpl;
      try discriminate.
    intros _ [= Hk]. apply operators_Inherited in Eo as [-> Hm].
    destruct (inheritedToString_facts other Hm) as [_ Hu].
    rewrite <- Hk, Hop in Hu. discriminate. }
  assert (Hsym : forall other, In other (keys props) -> other <> key ->
            KSym op <> KStr other /\
            (truthy (operators other) = true ->
             KSym op <> toPropertyKey (operators other))).
  { intros other _ Hne. split; [discriminate|].
    destruct (operators other) as [o|member|] eqn:Eo; simpl;
      try discriminate.
    intros _ [= <-]. apply Hne. eapply operators_injective; eauto. }
  destruct (Hframe _ Hself) as [Hb1 Ha1].
  destruct (Hframe _ Hsym) as [_ Ha2].
  rewrite Hg in Hb1.
  destruct (visitKey_operator j1 key op v Hb1 Hop)
    as (v' & j2' & Hr & Ev' & G1 & G2).
  rewrite Ev in Ev'. injection Ev' as <-.
  exists props', v'. repeat split; congruence.
Qed.

(** A key that the operator read does not find stays, unless [model]
    names an entity; its value is passed through the pass when it is an
    object or an array.  Beside its own visit, the only visit that writes
    under such a key is that of a key which the read finds on
    [Object.prototype] and which turns into it; the object is to hold no
    such key. *)
Theorem iterativeReplace_keeps_sibling props key v :
  NoDup (keys props) ->
  get (KStr key) props = Some v ->
  operators key = Undefined ->
  (forall other, In other (keys props) -> inheritedKey other = true ->
     inheritedToString other <> key) ->
  (key = "model" -> isObject v = false -> db (toString v) = None) ->
  exists props' v',
    iterativeReplace (JObj props) = Normal (JObj props')
    /\ rewritten v = Normal v'
    /\ get (KStr key) props' = Some v'.
Proof.
  intros Hnd Hg Hop Hfree Hm.
  destruct (iterativeReplace_JObj props) as (props' & E & Eq).
  destruct (forEachKey_focus props props' key Hnd (get_In_keys _ _ _ Hg) E)
    as (j1 & j2 & Ev & Hframe).
  destruct (Hframe (KStr key)) as [Hb Ha].
  { intros other Hin Hne. split; [congruence|].
    specialize (Hfree _ Hin). unfold inheritedKey in Hfree.
    destruct (operators other) as [op|member|] eqn:Eo; simpl;
      try discriminate.
    intros _ [= Hk]. apply operators_Inherited in Eo as [-> _].
    now apply Hfree. }
  rewrite Hg in Hb.
  destruct (visitKey_plain j1 key v Hb Hop Hm) as (v' & j2' & Hr & Ev' & G).
  rewrite Ev in Ev'. injection Ev' as <-.
  exists props', v'. repeat split; congruence.
Qed.

(** A [model] whose value is no object and names an entity of [db] is
    replaced by the entity, whatever else the object holds. *)
Theorem iterativeReplace_resolves_model props v handle :
  NoDup (keys props) ->
  get (KStr "model") props = Some v ->
  isObject v = false ->
  db (toString v) = Some handle ->
  exists props',
    iterativeReplace (JObj props) = Normal (JObj props')
    /\ get (KStr "model") props' = Some (JHandle handle).
Proof.
  intros Hnd Hg Ho Hdb.
  destruct (iterativeReplace_JObj props) as (props' & E & Eq).
  destruct (forEachKey_focus props props' "model" Hnd
              (get_In_keys _ _ _ Hg) E) as (j1 & j2 & Ev & Hframe).
  destruct (Hframe (KStr "model")) as [Hb Ha].
  { intros other _ Hne. split; [congruence|].
    apply toPropertyKey_not_model. }
  rewrite Hg in Hb.
  rewrite (visitKey_model j1 v handle Hb Ho Hdb) in Ev.
  injection Ev as <-.
  exists props'. split; [assumption|].
  rewrite Ha. apply get_set_same.
Qed.

(** The pass terminates: whatever fuel exceeds the height of the value
    computes [iterativeReplace], and on an object or an array the result
    is a value, never an exception. *)
Theorem iterativeReplace_terminates (n : nat) v :
  height v < n ->
  iterativeReplace_fuel n v = Some (iterativeReplace v)
  /\ (isObject v = true -> exists v', iterativeReplace v = Normal v').
Proof.
  intros Hh. split; [now apply iterativeReplace_fuel_enough|].
  intros Ho. destruct (iterativeReplace_object v Ho) as (v' & E & _). eauto.
Qed.

(** The elements of an array are passed through the pass one by one. *)
Theorem iterativeReplace_array (elems : list Value) :
  exists elems',
    iterativeReplace (JArr elems) = Normal (JArr elems')
    /\ Forall2 (fun e e' => rewritten e = Normal e') elems elems'.
Proof.
  destruct (iterativeReplace_JArr elems) as (elems' & E & Eq).
  exists elems'. split; [assumption|]. clear Eq.
  revert elems' E. induction elems as [|e rest IH]; intros elems' E.
  - injection E as <-. constructor.
  - cbn [forEachElement] in E. unfold rewritten.
    destruct (isObject e) eqn:Ho.
    + destruct (iterativeReplace_object e Ho) as (e' & Ee & _).
      unfold recurse in E at 1. rewrite Ee in E. simpl in E.
      destruct (forEachElement recurse rest) as [[r'|m]|]; simpl in E;
        try discriminate.
      injection E as <-. constructor; [now rewrite Ho | now apply IH].
    + simpl in E.
      destruct (forEachElement recurse rest) as [[r'|m]|]; simpl in E;
        try discriminate.
      injection E as <-. constructor; [now rewrite Ho | now apply IH].
Qed.

(** The pass keeps the keys of an object apart. *)
Lemma visitKey_NoDup recur json key json' :
  visitKey recur json key = Some (Normal json') ->
  NoDup (map fst json) -> NoDup (map fst json').
Proof.
  unfold visitKey, replaceKeyWithOperator. intros H Hnd.
  destruct (isObject _).
  - destruct (truthy _).
    + destruct (recur _) as [[v'|m]|]; simpl in H; try discriminate.
      injection H as <-. now repeat apply NoDup_set; apply NoDup_delete.
    + destruct (recur _) as [[v'|m]|]; simpl in H; try discriminate.
      injection H as <-. now apply NoDup_set.
  - destruct (if String.eqb key "model" then _ else None).
    + injection H as <-. now apply NoDup_set.
    + destruct (truthy _); injection H as <-; auto.
      now apply NoDup_set, NoDup_delete.
Qed.

Lemma forEachKey_NoDup recur ks : forall json json',
  forEachKey (visitKey recur) ks json = Some (Normal json') ->
  NoDup (map fst json) -> NoDup (map fst json').
Proof.
  induction ks as [|key rest IH]; intros json json' H Hnd; simpl in H.
  - now injection H as <-.
  - destruct (visitKey recur json key) as [[j1|m]|] eqn:E; simpl in H;
      try discriminate.
    eapply IH; eauto. eapply visitKey_NoDup; eauto.
Qed.

Theorem iterativeReplace_NoDup props props' :
  iterativeReplace (JObj props) = Normal (JObj props') ->
  NoDup (map fst props) -> NoDup (map fst props').
Proof.
  intros H Hnd.
  destruct (iterativeReplace_JObj props) as (p & E & Eq).
  rewrite Eq in H. injection H as <-.
  eapply forEachKey_NoDup; eauto.
Qed.

(** What is not an object, an array, [null] or [undefined] is returned as
    it is; the last two make [Object.keys] throw. *)
Lemma iterativeReplace_scalar v :
  isObject v = false -> v <> JNull -> v <> JUndefined ->
  iterativeReplace v = Normal v.
Proof.
  intros Ho Hn Hu. destruct v; try discriminate Ho; try reflexivity;
    contradiction.
Qed.

Lemma iterativeReplace_null :
  iterativeReplace (JNull : Value)
  = Throw "Cannot convert undefined or null to object".
Proof. reflexivity. Qed.

End PassTheorems.

(* ================================================================== *)
(** ** One turn of the loop of [parse] *)
(* ================================================================== *)

Section StepFacts.

Context {Number Handle : Type} `{RT : Runtime Number Handle}.

#[local] Abbreviation Value := (JSValue Number Handle).
#[local] Abbreviation Object := (Props Number Handle).
#[local] Abbreviation State := (@LoopState Number Handle).

Implicit Types (st : State) (key : string) (q : Query) (ks : list string).

(** A key is one of the seven reserved names or none of them. *)
Lemma key_cases key :
  key = "fields" \/ key = "limit" \/ key = "offset" \/ key = "sort_by"
  \/ key = "group_by" \/ key = "query" \/ key = "include"
  \/ reserved key = false.
Proof.
  unfold reserved, reservedKeys. cbn [existsb].
  repeat match goal with
         | |- context [String.eqb key ?k] =>
             destruct (String.eqb_spec key k) as [e | _];
             [ subst key; repeat (first [ left; reflexivity | right ]) | ]
         end.
  repeat right. reflexivity.
Qed.

Lemma reserved_false key :
  reserved key = false ->
  String.eqb key "fields" = false /\ String.eqb key "limit" = false
  /\ String.eqb key "offset" = false /\ String.eqb key "sort_by" = false
  /\ String.eqb key "group_by" = false /\ String.eqb key "query" = false
  /\ String.eqb key "include" = false.
Proof.
  unfold reserved, reservedKeys. cbn [existsb]. intros H.
  repeat (apply orb_false_iff in H as [? H]). tauto.
Qed.

(** The default branch of the [switch]. *)
Lemma parseStep_filter key st :
  reserved key = false ->
  parseStep key st =
  (s <- paramSplittable "query" (param key (request st)) ;;
   Normal (withDbQuery st
     (withWhere (dbQuery st)
        (set (KStr key) (parseQueryParam s) (where_ (dbQuery st)))))).
Proof.
  intros H. apply reserved_false in H as (H1 & H2 & H3 & H4 & H5 & H6 & H7).
  unfold parseStep. now rewrite H1, H2, H3, H4, H5, H6, H7.
Qed.

(** What a turn does to the request and to the pagination. *)
Lemma parseStep_pagination key st st' :
  parseStep key st = Normal st' ->
  request st' = request st
  /\ (if String.eqb key "limit"
      then limitVar st' = requestedLimit (request st)
           /\ limit (dbQuery st') = requestedLimit (request st)
      else limitVar st' = limitVar st
           /\ limit (dbQuery st') = limit (dbQuery st))
  /\ (if String.eqb key "offset"
      then offsetVar st' = requestedOffset (request st)
      else offsetVar st' = offsetVar st).
Proof.
  destruct (key_cases key)
    as [-> | [-> | [-> | [-> | [-> | [-> | [-> | Hr]]]]]]].
  - unfold parseStep; cbn [String.eqb Ascii.eqb Bool.eqb].
    destruct (paramSplittable _ _); simpl; [|discriminate].
    intros [= <-]. destruct (Nat.ltb 0 _); simpl; auto.
  - unfold parseStep; simpl. intros [= <-]. simpl. auto.
  - unfold parseStep; simpl. intros [= <-]. simpl. auto.
  - unfold parseStep; simpl.
    destruct (parseFields _); simpl; [|discriminate].
    intros [= <-]. simpl. auto.
  - unfold parseStep; simpl.
    destruct (parseFields _); simpl; [|discriminate].
    intros [= <-]. simpl. auto.
  - unfold parseStep; simpl.
    destruct (paramToStringMethod _); simpl; [|discriminate].
    destruct (parseQueryFields _); simpl; [|discriminate].
    intros [= <-]. simpl. auto.
  - unfold parseStep; simpl.
    destruct (paramToStringMethod _); simpl; [|discriminate].
    destruct (parseIncludeFields _); simpl; [|discriminate].
    intros [= <-]. simpl. auto.
  - rewrite (parseStep_filter key st Hr).
    apply reserved_false in Hr as (_ & -> & -> & _).
    destruct (paramSplittable _ _); simpl; [|discriminate].
    intros [= <-]. simpl. auto.
Qed.

End StepFacts.

(* ================================================================== *)
(** ** The loop of [parse] *)
(* ================================================================== *)

Section LoopFacts.

Context {Number Handle : Type} `{RT : Runtime Number Handle}.

#[local] Abbreviation Value := (JSValue Number Handle).
#[local] Abbreviation Object := (Props Number Handle).
#[local] Abbreviation State := (@LoopState Number Handle).

Implicit Types (st : State) (key : string) (q : Query)
  (ks pre post : list string).

Lemma forIn_app pre post st :
  forIn (pre ++ post) st =
  match forIn pre st with
  | (st1, None) => forIn post st1
  | thrown => thrown
  end.
Proof.
  revert st. induction pre as [|key pre IH]; intros st; simpl.
  - reflexivity.
  - destruct (parseStep key st); [apply IH | reflexivity].
Qed.

(** The loop only ever reads the request. *)
Lemma forIn_request ks : forall st, request (fst (forIn ks st)) = request st.
Proof.
  induction ks as [|key rest IH]; intros st; simpl; [reflexivity|].
  destruct (parseStep key st) as [st1|m] eqn:E; [|reflexivity].
  rewrite IH. now apply parseStep_pagination in E.
Qed.

(** The first turn that throws ends the loop with its message. *)
Lemma forIn_throw pre key post st st1 msg :
  forIn pre st = (st1, None) ->
  parseStep key st1 = Throw msg ->
  forIn (pre ++ key :: post) st = (st1, Some msg).
Proof.
  intros Hpre Hk. rewrite forIn_app, Hpre. simpl. now rewrite Hk.
Qed.

(** An earlier throw is final. *)
Lemma forIn_thrown pre post st st1 msg :
  forIn pre st = (st1, Some msg) ->
  forIn (pre ++ post) st = (st1, Some msg).
Proof. intros Hpre. now rewrite forIn_app, Hpre. Qed.

(** A key whose turn throws whatever the state makes the loop throw, at
    that key or before. *)
Lemma forIn_must_throw q key ks : forall st,
  In key ks -> request st = q ->
  (forall st1, request st1 = q -> exists msg, parseStep key st1 = Throw msg) ->
  exists st1 msg, forIn ks st = (st1, Some msg).
Proof.
  induction ks as [|k rest IH]; intros st Hin Hq Hthrow; [contradiction|].
  simpl. destruct (parseStep k st) as [st1|m] eqn:E; [|eauto].
  destruct Hin as [->|Hin].
  - destruct (Hthrow st Hq) as (msg & Hm). congruence.
  - apply IH; auto. apply parseStep_pagination in E as (-> & _). assumption.
Qed.

(** The pagination variables after a loop that did not throw. *)
Lemma forIn_pagination ks : forall st st',
  forIn ks st = (st', None) ->
  (if existsb (String.eqb "limit") ks
   then limitVar st' = requestedLimit (request st)
        /\ limit (dbQuery st') = requestedLimit (request st)
   else limitVar st' = limitVar st
        /\ limit (dbQuery st') = limit (dbQuery st))
  /\ (if existsb (String.eqb "offset") ks
      then offsetVar st' = requestedOffset (request st)
      else offsetVar st' = offsetVar st).
Proof.
  induction ks as [|key rest IH]; intros st st' H; simpl in H.
  - injection H as <-. simpl. auto.
  - destruct (parseStep key st) as [st1|m] eqn:E; [|discriminate].
    apply parseStep_pagination in E as (Hq & Hl & Ho).
    specialize (IH _ _ H). rewrite Hq in IH. destruct IH as [IHl IHo].
    cbn [existsb]. rewrite (String.eqb_sym "limit"), (String.eqb_sym "offset").
    split.
    + clear Ho IHo. revert Hl IHl.
      destruct (String.eqb key "limit"), (existsb (String.eqb "limit") rest);
        simpl; intuition congruence.
    + clear Hl IHl. revert Ho IHo.
      destruct (String.eqb key "offset"), (existsb (String.eqb "offset") rest);
        simpl; intuition congruence.
Qed.

(** A parameter is present exactly when its name is among the keys. *)
Lemma param_keys key q :
  existsb (String.eqb key) (map fst q) =
  match param key q with Some _ => true | None => false end.
Proof.
  unfold param. induction q as [|[k v] r IH]; simpl; [reflexivity|].
  destruct (String.eqb key k); simpl; auto.
Qed.

Lemma param_In key q v : param key q = Some v -> In key (map fst q).
Proof.
  unfold param. induction q as [|[k x] r IH]; simpl; [discriminate|].
  destruct (String.eqb_spec key k) as [->|]; auto.
Qed.

(** [parse] in terms of the loop. *)
Lemma parse_loop q :
  parse q =
  match forIn (map fst q) (initialState q) with
  | (_, Some msg) => Reject msg
  | (st, None) =>
      Resolve {| where_ := where_ (dbQuery st);
                 offset := JSNumber.mul (offsetVar st) (limitVar st);
                 limit := limit (dbQuery st);
                 attributes := attributes (dbQuery st);
                 order := order (dbQuery st); group := group (dbQuery st);
                 include := include (dbQuery st) |}
  end.
Proof.
  unfold parse, run. destruct (forIn _ _) as [st [m|]]; reflexivity.
Qed.

(** The request is the same object after the call as before. *)
Lemma run_request q : fst (run q) = q.
Proof.
  unfold run. pose proof (forIn_request (map fst q) (initialState q)) as H.
  destruct (forIn _ _) as [st thrown]. exact H.
Qed.

(** The descriptor's [limit] and [offset], for any request that resolves:
    the defaults where a parameter is absent, and [offset] the product of
    the page index and the page size. *)
Lemma parse_limit_offset q d :
  parse q = Resolve d ->
  limit d = match param "limit" q with
            | Some _ => requestedLimit q
            | None => pageSizeLimit
            end
  /\ offset d =
     JSNumber.mul
       match param "offset" q with
       | Some _ => requestedOffset q
       | None => Num 0
       end
       (limit d).
Proof.
  rewrite parse_loop.
  destruct (forIn (map fst q) (initialState q)) as [st [m|]] eqn:E;
    [discriminate|].
  intros [= <-]. cbn [limit offset].
  apply forIn_pagination in E. cbn [initialState request limitVar offsetVar
    dbQuery limit] in E.
  rewrite !param_keys in E. destruct E as [El Eo].
  destruct (param "limit" q), (param "offset" q);
    destruct El as [-> ->]; rewrite Eo; auto.
Qed.

End LoopFacts.

(* ================================================================== *)
(** ** The filter-expression grammar *)
(* ================================================================== *)

Section FilterGrammar.

Context {Number Handle : Type}.

#[local] Abbreviation Value := (JSValue Number Handle).

(** A value without a colon is the literal string. *)
Theorem parseQueryParam_no_colon (query : string) :
  contains ":"%char query = false ->
  parseQueryParam query = (JStr query : Value).
Proof.
  intros H. unfold parseQueryParam, JSString.splitColonRest.
  now rewrite go_scanning_without_colon.
Qed.

(** [name:value], with a colon-free [name] and a non-empty [value] of one
    line: an object with the one key that [operators[name]] turns into,
    holding the pieces of [value] when it has a comma and [value] itself
    when it has none. *)
Lemma parseQueryParam_colon (name value : string) :
  contains ":"%char name = false ->
  value <> "" ->
  hasLineTerminator value = false ->
  parseQueryParam (name ++ String ":"%char value) =
  (JObj [ (toPropertyKey (operators name),
           if contains ","%char value
           then JArr (map JStr (JSString.split ","%char value))
           else JStr value) ] : Value).
Proof.
  intros Hn Hv Hl. unfold parseQueryParam.
  rewrite splitColonRest_first_colon by assumption.
  destruct (contains ","%char value) eqn:Ec.
  - apply split_with in Ec. apply Nat.ltb_lt in Ec. now rewrite Ec.
  - now rewrite (split_without _ _ Ec).
Qed.


(** And for a name that [operators] does not hold: the key is the string
    [undefined]. *)
Theorem parseQueryParam_unknown (name value : string) :
  operators name = Undefined ->
  contains ":"%char name = false ->
  value <> "" ->
  hasLineTerminator value = false ->
  parseQueryParam (name ++ String ":"%char value) =
  (JObj [ (KStr "undefined",
           if contains ","%char value
           then JArr (map JStr (JSString.split ","%char value))
           else JStr value) ] : Value).
Proof.
  intros Hop Hn Hv Hl. rewrite parseQueryParam_colon; auto. now rewrite Hop.
Qed.

End FilterGrammar.

(* ================================================================== *)
(** ** Merging into [where] *)
(* ================================================================== *)

Section SpreadFacts.

Context {Number Handle : Type} `{RT : Runtime Number Handle}.

#[local] Abbreviation Value := (JSValue Number Handle).
#[local] Abbreviation Object := (Props Number Handle).

(** Reading a merged object: the properties of the second operand win, the
    others are those of the first. *)
Lemma get_spread_other (k : PropKey) (l : Object) : forall (w : Object),
  get k l = None ->
  get k (fold_left (fun o kv => set (fst kv) (snd kv) o) l w) = get k w.
Proof.
  induction l as [|[k1 v1] r IH]; intros w H; simpl in *; [reflexivity|].
  destruct (PropKey_eqb k k1) eqn:E; [discriminate|].
  rewrite IH by assumption. apply get_set_other.
  intros ->. now rewrite PropKey_eqb_refl in E.
Qed.

Lemma get_None_not_In (k : PropKey) (l : Object) :
  ~ In k (map fst l) -> get k l = None.
Proof.
  induction l as [|[k1 v1] r IH]; simpl; [reflexivity|]. intros H.
  destruct (PropKey_eqb k k1) eqn:E.
  - apply PropKey_eqb_eq in E. subst. tauto.
  - apply IH. tauto.
Qed.

Lemma get_spread_same (k : PropKey) (x : Value) (l : Object) :
  forall (w : Object),
  NoDup (map fst l) ->
  get k l = Some x ->
  get k (fold_left (fun o kv => set (fst kv) (snd kv) o) l w) = Some x.
Proof.
  induction l as [|[k1 v1] r IH]; intros w Hnd H; simpl in *; [discriminate|].
  inversion Hnd as [|? ? Hnot Hr]; subst.
  destruct (PropKey_eqb k k1) eqn:E.
  - injection H as ->. apply PropKey_eqb_eq in E as ->.
    rewrite get_spread_other by now apply get_None_not_In.
    apply get_set_same.
  - now apply IH.
Qed.

(** Distinct indices are distinct keys. *)
Lemma index_inj (a b : nat) : index a = index b -> a = b.
Proof.
  unfold index. intros [= H].
  apply DecimalNat.Unsigned.to_uint_inj.
  pose proof (NilEmpty.usu (Nat.to_uint a)) as Ha.
  pose proof (NilEmpty.usu (Nat.to_uint b)) as Hb.
  rewrite H in Ha. congruence.
Qed.

Lemma In_elementsFrom (k : PropKey) (l : list Value) : forall n,
  In k (map fst (elementsFrom n l)) -> exists m, n <= m /\ k = index m.
Proof.
  induction l as [|e r IH]; intros n; simpl; [contradiction|].
  intros [<- | H]; [eauto|].
  destruct (IH _ H) as (m & Hm & ->). exists m. split; [lia | reflexivity].
Qed.

Lemma NoDup_elementsFrom (l : list Value) : forall n,
  NoDup (map fst (elementsFrom n l)).
Proof.
  induction l as [|e r IH]; intros n; simpl; constructor; [|apply IH].
  intros H. apply In_elementsFrom in H as (m & Hm & E).
  apply index_inj in E. lia.
Qed.

Lemma In_charsFrom (k : PropKey) (s : string) : forall n,
  In k (map fst (charsFrom (Number := Number) (Handle := Handle) n s)) ->
  exists m, n <= m /\ k = index m.
Proof.
  induction s as [|c r IH]; intros n; simpl; [contradiction|].
  intros [<- | H]; [eauto|].
  destruct (IH _ H) as (m & Hm & ->). exists m. split; [lia | reflexivity].
Qed.

Lemma NoDup_charsFrom (s : string) : forall n,
  NoDup (map fst (charsFrom (Number := Number) (Handle := Handle) n s)).
Proof.
  induction s as [|c r IH]; intros n; simpl; constructor; [|apply IH].
  intros H. apply In_charsFrom in H as (m & Hm & E).
  apply index_inj in E. lia.
Qed.

(** What the pass returns for a value whose keys, if it is an object, are
    distinct has distinct own properties. *)
Lemma ownProperties_NoDup (json parsed : Value) :
  (forall props, json = JObj props -> NoDup (map fst props)) ->
  iterativeReplace json = Normal parsed ->
  NoDup (map fst (ownProperties parsed)).
Proof.
  intros Hwf Hpass.
  destruct json as [| | b | n | s | elems | props | h];
    try (injection Hpass as <-; simpl; solve [constructor | apply NoDup_charsFrom]);
    try discriminate Hpass.
  - destruct (iterativeReplace_JArr elems) as (e' & _ & E).
    rewrite E in Hpass. injection Hpass as <-. apply NoDup_elementsFrom.
  - destruct (iterativeReplace_JObj props) as (p' & _ & E).
    rewrite E in Hpass. injection Hpass as <-. simpl.
    eapply iterativeReplace_NoDup; eauto.
Qed.

End SpreadFacts.

(* ================================================================== *)
(** ** Two places where the code goes astray *)
(* ================================================================== *)

Section Defects.

Context {Number Handle : Type} `{RT : Runtime Number Handle}.

#[local] Abbreviation Value := (JSValue Number Handle).

(** A value that goes on after a line terminator loses everything from
    the terminator on: only the first line is kept. *)
Theorem parseQueryParam_first_line (name line rest : string) (c : ascii)
  (op : Op) :
  operators name = Found op ->
  line <> "" ->
  hasLineTerminator line = false ->
  JSString.isLineTerminator c = true ->
  parseQueryParam (name ++ String ":"%char (line ++ String c rest)) =
  (JObj [ (KSym op,
           if contains ","%char line
           then JArr (map JStr (JSString.split ","%char line))
           else JStr line) ] : Value).
Proof.
  intros Hop Hne Hl Hc. unfold parseQueryParam, JSString.splitColonRest.
  rewrite go_scanning_to_colon.
  - rewrite go_capturing_cut by assumption. cbn [String.append].
    rewrite Hop. cbn [toPropertyKey].
    destruct (contains ","%char line) eqn:Ec.
    + apply split_with in Ec. apply Nat.ltb_lt in Ec. now rewrite Ec.
    + now rewrite (split_without _ _ Ec).
  - exact (operator_name_no_colon _ _ Hop).
  - destruct line as [|x l]; [contradiction|].
    unfold hasLineTerminator in Hl. cbn [anyChar] in Hl.
    apply orb_false_iff in Hl as [Hx _].
    cbn [String.append JSString.startsWithNonLT]. now rewrite Hx.
Qed.

(** A key that [operators[key]] finds on [Object.prototype], holding a
    value that is no object, is renamed to the string the inherited member
    turns into. *)
Theorem iterativeReplace_inherited_key (key : string) (v : Value) :
  inheritedKey key = true ->
  isObject v = false ->
  iterativeReplace (JObj [(KStr key, v)])
  = Normal (JObj [(KStr (inheritedToString key), v)]).
Proof.
  unfold inheritedKey. intros Hk Ho.
  destruct (operators key) as [op|member|] eqn:Eop; try discriminate Hk.
  pose proof (operators_Inherited _ _ Eop) as [-> Hin].
  assert (Hm : String.eqb key "model" = false).
  { destruct (String.eqb_spec key "model") as [->|]; [|reflexivity].
    discriminate Eop. }
  destruct (iterativeReplace_JObj [(KStr key, v)]) as (props' & E & ->).
  do 2 f_equal.
  cbn [keys forEachKey] in E. unfold visitKey, replaceKeyWithOperator, read in E.
  cbn [get PropKey_eqb] in E. rewrite String.eqb_refl, Ho, Hm, Eop in E.
  cbn [truthy toPropertyKey delete PropKey_eqb set bindF retF] in E.
  rewrite String.eqb_refl in E. cbn [set bindF retF] in E.
  now injection E as <-.
Qed.

End Defects.

(* ================================================================== *)
(** ** The claims *)
(* ================================================================== *)

Section Claims.

Context {Number Handle : Type} `{RT : Runtime Number Handle}.

#[local] Abbreviation Value := (JSValue Number Handle).
#[local] Abbreviation Object := (Props Number Handle).
#[local] Abbreviation State := (@LoopState Number Handle).

Implicit Types (st : State) (key : string) (q : Query)
  (ks pre post : list string).

(** The branches of the [switch] for [query] and [include]. *)
Lemma parseStep_query st :
  parseStep "query" st =
  (s <- paramToStringMethod (param "query" (request st)) ;;
   parsed <- parseQueryFields s ;;
   Normal (withDbQuery st
     (withWhere (dbQuery st) (spread (where_ (dbQuery st)) parsed)))).
Proof. reflexivity. Qed.

Lemma parseStep_include st :
  parseStep "include" st =
  (s <- paramToStringMethod (param "include" (request st)) ;;
   parsed <- parseIncludeFields s ;;
   Normal (withDbQuery st
     {| where_ := where_ (dbQuery st); offset := offset (dbQuery st);
        limit := limit (dbQuery st); attributes := attributes (dbQuery st);
        order := order (dbQuery st); group := group (dbQuery st);
        include := Some parsed |})).
Proof. reflexivity. Qed.

(** C5.  When the [query] or [include] parameter is malformed JSON, the
    call rejects; the turn of that parameter throws the parser's message,
    which is the rejection's message unless an earlier parameter threw
    first.  In general the first turn that throws settles the call: the
    promise rejects with that turn's message, and no descriptor is
    resolved. *)
Theorem parse_fails_atomically q key (v : ParamValue) (msg : string) :
  key = "query" \/ key = "include" ->
  param key q = Some v ->
  JSON_parse (unescape (paramToString (Some v))) = Throw msg ->
  (exists m, parse q = Reject m)
  /\ (forall st, request st = q -> parseStep key st = Throw msg)
  /\ (forall pre post st,
        map fst q = pre ++ key :: post ->
        forIn pre (initialState q) = (st, None) ->
        parse q = Reject msg)
  /\ (forall pre other post st m,
        map fst q = pre ++ other :: post ->
        forIn pre (initialState q) = (st, None) ->
        parseStep other st = Throw m ->
        parse q = Reject m).
Proof.
  intros Hkey Hp Hjson.
  assert (Hstep : forall st, request st = q -> parseStep key st = Throw msg).
  { intros st Hq.
    destruct Hkey as [-> | ->];
      rewrite ?parseStep_query, ?parseStep_include, Hq, Hp;
      cbn [paramToStringMethod bind];
      unfold parseQueryFields, parseIncludeFields, unescapeEscapedQuery;
      now rewrite Hjson. }
  assert (Hany : forall pre other post st m,
            map fst q = pre ++ other :: post ->
            forIn pre (initialState q) = (st, None) ->
            parseStep other st = Throw m ->
            parse q = Reject m).
  { intros pre other post st m Hks Hpre Hthrow.
    rewrite parse_loop, Hks, (forIn_throw _ _ _ _ _ _ Hpre Hthrow).
    reflexivity. }
  repeat split; auto.
  - destruct (forIn_must_throw q key (map fst q) (initialState q))
      as (st1 & m & E); eauto using param_In.
    exists m. now rewrite parse_loop, E.
  - intros pre post st Hks Hpre. eapply Hany; eauto.
    apply Hstep.
    pose proof (forIn_request pre (initialState q)) as Hr.
    now rewrite Hpre in Hr.
Qed.

(** C6.  The turn of the [query] parameter decodes and parses the value and
    runs the rewrite pass; the properties of what that gives replace the
    properties of [where] that have the same key, the other properties of
    [where] stay, and nothing but [where] changes.  The keys of an object
    that [JSON.parse] returns are distinct. *)
Theorem query_merges_into_where st (v : ParamValue) (json parsed : Value) :
  param "query" (request st) = Some v ->
  JSON_parse (unescape (paramToString (Some v))) = Normal json ->
  (forall props, json = JObj props -> NoDup (map fst props)) ->
  iterativeReplace json = Normal parsed ->
  exists st',
    parseStep "query" st = Normal st'
    /\ (forall k x, get k (ownProperties parsed) = Some x ->
          get k (where_ (dbQuery st')) = Some x)
    /\ (forall k, get k (ownProperties parsed) = None ->
          get k (where_ (dbQuery st')) = get k (where_ (dbQuery st)))
    /\ offset (dbQuery st') = offset (dbQuery st)
    /\ limit (dbQuery st') = limit (dbQuery st)
    /\ attributes (dbQuery st') = attributes (dbQuery st)
    /\ order (dbQuery st') = order (dbQuery st)
    /\ group (dbQuery st') = group (dbQuery st)
    /\ include (dbQuery st') = include (dbQuery st)
    /\ request st' = request st
    /\ offsetVar st' = offsetVar st
    /\ limitVar st' = limitVar st.
Proof.
  intros Hp Hjson Hwf Hpass.
  pose proof (ownProperties_NoDup json parsed Hwf Hpass) as Hnd.
  eexists. split.
  - rewrite parseStep_query, Hp. cbn [paramToStringMethod bind].
    unfold parseQueryFields, unescapeEscapedQuery. rewrite Hjson.
    cbn [bind]. rewrite Hpass. reflexivity.
  - simpl. unfold spread. repeat split; try reflexivity.
    + intros k x Hk. now apply get_spread_same.
    + intros k Hk. now apply get_spread_other.
Qed.


(** C7, as amended.  In a mapping with distinct keys, a [model] whose
    value is no object and names an entity of [db] holds that entity after
    the pass.  A sibling whose key the operator read does not find (it
    names no operator and no member of [Object.prototype]) keeps its key,
    as long as no key of the mapping that the read finds on
    [Object.prototype] turns into the sibling's key; its value is left as
    it is when it is a scalar, and passed through the pass when it is an
    object or an array. *)
Theorem include_model_resolved (props : Object) (v : Value) (handle : Handle) :
  NoDup (keys props) ->
  get (KStr "model") props = Some v ->
  isObject v = false ->
  db (toString v) = Some handle ->
  exists props',
    iterativeReplace (JObj props) = Normal (JObj props')
    /\ get (KStr "model") props' = Some (JHandle handle)
    /\ forall (key : string) (x : Value),
         get (KStr key) props = Some x ->
         key <> "model" ->
         operators key = Undefined ->
         (forall other, In other (keys props) -> inheritedKey other = true ->
            inheritedToString other <> key) ->
         (isObject x = false -> get (KStr key) props' = Some x)
         /\ (isObject x = true ->
             exists x', iterativeReplace x = Normal x'
                        /\ get (KStr key) props' = Some x').
Proof.
  intros Hnd Hg Ho Hdb.
  destruct (iterativeReplace_resolves_model props v handle Hnd Hg Ho Hdb)
    as (props' & Hpass & Hmodel).
  exists props'. split; [assumption | split; [assumption|]].
  intros key x Hx Hkey Hop Hfree.
  destruct (iterativeReplace_keeps_sibling props key x Hnd Hx Hop Hfree)
    as (p2 & x' & Hpass2 & Hx' & Hget); [contradiction|].
  rewrite Hpass in Hpass2. injection Hpass2 as <-.
  unfold rewritten in Hx'. split; intros Hobj; rewrite Hobj in Hx'.
  - now injection Hx' as <-.
  - eauto.
Qed.


(** [splitStringAndBuildArray] appends the fields of every element, and
    [parseFields] does so for a string and for each string of a sequence. *)
Lemma splitStringAndBuildArray_app (obj : string) (array : list (list string)) :
  splitStringAndBuildArray obj array =
  array ++ map (JSString.split "."%char) (JSString.split ","%char obj).
Proof.
  unfold splitStringAndBuildArray.
  generalize (JSString.split ","%char obj) as elements. intros elements.
  revert array. induction elements as [|e rest IH]; intros array; simpl.
  - now rewrite app_nil_r.
  - pose proof (split_not_nil "."%char e) as Hne.
    destruct (JSString.split "."%char e) as [|f fs] eqn:E; [contradiction|].
    simpl. rewrite IH, <- app_assoc. reflexivity.
Qed.

Lemma parseFields_string (s : string) :
  parseFields (Some (PStr s)) =
  Normal (map (JSString.split "."%char) (JSString.split ","%char s)).
Proof. unfold parseFields. simpl. now rewrite splitStringAndBuildArray_app. Qed.

Lemma parseFields_sequence (l : list string) :
  parseFields (Some (PArr l)) =
  Normal (concat (map (fun obj =>
            map (JSString.split "."%char) (JSString.split ","%char obj)) l)).
Proof.
  unfold parseFields. f_equal.
  assert (G : forall array,
    fold_left (fun array obj => splitStringAndBuildArray obj array) l array =
    array ++ concat (map (fun obj =>
      map (JSString.split "."%char) (JSString.split ","%char obj)) l)).
  { induction l as [|obj rest IH]; intros array; simpl.
    - now rewrite app_nil_r.
    - rewrite IH, splitStringAndBuildArray_app, <- app_assoc. reflexivity. }
  apply G.
Qed.

(** C9, as amended.  A request whose [fields] parameter, or a parameter
    that is no reserved name, is a sequence of strings rejects.  [sort_by]
    and [group_by] take a sequence string by string.  [limit], [offset],
    [query] and [include] do not fail on a sequence as such: they read it
    as its strings joined by commas. *)
Theorem sequence_parameters q key (l : list string) :
  param key q = Some (PArr l) ->
  ((key = "fields" \/ reserved key = false) -> exists m, parse q = Reject m)
  /\ (forall st, request st = q ->
      (key = "sort_by" ->
         exists st', parseStep key st = Normal st'
           /\ order (dbQuery st') =
              Some (concat (map (fun obj =>
                      map (JSString.split "."%char)
                          (JSString.split ","%char obj)) l)))
      /\ (key = "group_by" ->
         exists st', parseStep key st = Normal st'
           /\ group (dbQuery st') =
              Some (concat (map (fun obj =>
                      map (JSString.split "."%char)
                          (JSString.split ","%char obj)) l)))
      /\ (key = "limit" ->
         exists st', parseStep key st = Normal st'
           /\ limit (dbQuery st') =
              JSNumber.min
                (JSNumber.max (JSNumber.parseInt (JSString.join "," l)) (Num 1))
                pageSizeLimit)
      /\ (key = "offset" ->
         exists st', parseStep key st = Normal st'
           /\ offsetVar st' =
              JSNumber.max (JSNumber.parseInt (JSString.join "," l)) (Num 0))
      /\ (key = "query" ->
         parseStep key st =
         (parsed <- parseQueryFields (JSString.join "," l) ;;
          Normal (withDbQuery st
            (withWhere (dbQuery st) (spread (where_ (dbQuery st)) parsed)))))
      /\ (key = "include" ->
         parseStep key st =
         (parsed <- parseIncludeFields (JSString.join "," l) ;;
          Normal (withDbQuery st
            {| where_ := where_ (dbQuery st); offset := offset (dbQuery st);
               limit := limit (dbQuery st);
               attributes := attributes (dbQuery st);
               order := order (dbQuery st); group := group (dbQuery st);
               include := Some parsed |})))).
Proof.
  intros Hp. split.
  - intros Hkey.
    destruct (forIn_must_throw q key (map fst q) (initialState q))
      as (st1 & m & E); eauto using param_In.
    + intros st Hq. destruct Hkey as [-> | Hr].
      * unfold parseStep; simpl. rewrite Hq, Hp. simpl. eauto.
      * rewrite (parseStep_filter key st Hr), Hq, Hp. simpl. eauto.
    + exists m. now rewrite parse_loop, E.
  - intros st Hq. repeat split; intros ->.
    + unfold parseStep; simpl. rewrite Hq, Hp, parseFields_sequence. simpl.
      eexists. split; reflexivity.
    + unfold parseStep; simpl. rewrite Hq, Hp, parseFields_sequence. simpl.
      eexists. split; reflexivity.
    + unfold parseStep; simpl. rewrite Hq, Hp.
      eexists. split; reflexivity.
    + unfold parseStep; simpl. rewrite Hq, Hp.
      eexists. split; reflexivity.
    + rewrite parseStep_query, Hq, Hp. reflexivity.
    + rewrite parseStep_include, Hq, Hp. reflexivity.
Qed.

End Claims.

(* ================================================================== *)
(** ** Strings: [split] and [join]; the field lists *)
(* ================================================================== *)

Section SplitJoin.

Lemma join_cons (sep x : string) (l : list string) :
  l <> [] -> JSString.join sep (x :: l) = (x ++ sep ++ JSString.join sep l)%string.
Proof. destruct l; [contradiction | reflexivity]. Qed.

(** Joining the pieces of a split with the separator gives the string back. *)
Lemma join_split (sep : ascii) (s : string) :
  JSString.join (String sep "") (JSString.split sep s) = s.
Proof.
  induction s as [|c r IH]; [reflexivity|].
  cbn [JSString.split].
  pose proof (split_not_nil sep r) as Hne.
  destruct (Ascii.eqb_spec c sep) as [->|Hc].
  - rewrite join_cons by assumption. simpl. now rewrite IH.
  - destruct (JSString.split sep r) as [|h t]; [contradiction|].
    destruct t as [|h' t'].
    + simpl in *. now rewrite IH.
    + rewrite (join_cons _ (String c h)) by discriminate.
      rewrite (join_cons _ h) in IH by discriminate.
      cbn [String.append] in *. now rewrite IH.
Qed.

(** No piece of a split holds the separator. *)
Lemma split_pieces (sep : ascii) (s : string) :
  Forall (fun piece => contains sep piece = false) (JSString.split sep s).
Proof.
  induction s as [|c r IH]; [repeat constructor|].
  cbn [JSString.split].
  destruct (Ascii.eqb_spec c sep) as [->|Hc].
  - constructor; [reflexivity | assumption].
  - pose proof (split_not_nil sep r) as Hne.
    destruct (JSString.split sep r) as [|h t]; [contradiction|].
    inversion IH as [|? ? Hh Ht]; subst. constructor; [|assumption].
    unfold contains in *. cbn [anyChar]. rewrite Hh, orb_false_r.
    destruct (Ascii.eqb_spec sep c); [congruence | reflexivity].
Qed.

(** Splitting distributes over a separator: the pieces of [a], then those
    of [b]. *)
Lemma split_app (sep : ascii) (a b : string) :
  JSString.split sep (a ++ String sep b) =
  JSString.split sep a ++ JSString.split sep b.
Proof.
  induction a as [|c a IH]; cbn [String.append JSString.split].
  - now rewrite Ascii.eqb_refl.
  - rewrite IH. destruct (Ascii.eqb c sep); [reflexivity|].
    pose proof (split_not_nil sep a) as Hne.
    destruct (JSString.split sep a); [contradiction | reflexivity].
Qed.

Lemma split_join (sep : ascii) (l : list string) :
  l <> [] ->
  JSString.split sep (JSString.join (String sep "") l) =
  concat (map (JSString.split sep) l).
Proof.
  induction l as [|x r IH]; [contradiction|]. intros _.
  destruct r as [|y r'].
  - simpl. now rewrite app_nil_r.
  - rewrite join_cons by discriminate.
    change (x ++ String sep "" ++ JSString.join (String sep "") (y :: r'))%string
      with (x ++ String sep (JSString.join (String sep "") (y :: r')))%string.
    rewrite split_app, IH by discriminate. reflexivity.
Qed.

End SplitJoin.

Section FieldLists.

Lemma split_keeps_absent (c sep : ascii) (s : string) :
  contains c s = false ->
  Forall (fun piece => contains c piece = false) (JSString.split sep s).
Proof.
  unfold contains. induction s as [|x r IH]; intros H.
  - repeat constructor.
  - cbn [anyChar] in H. apply orb_false_iff in H as [Hx Hr].
    specialize (IH Hr). cbn [JSString.split].
    pose proof (split_not_nil sep r) as Hne.
    destruct (Ascii.eqb x sep).
    + constructor; [reflexivity | assumption].
    + destruct (JSString.split sep r) as [|h t]; [contradiction|].
      inversion IH as [|? ? Hh Ht]; subst. constructor; [|assumption].
      cbn [anyChar]. now rewrite Hx, Hh.
Qed.

Lemma map_join_split (sep : ascii) (l : list string) :
  map (JSString.join (String sep "")) (map (JSString.split sep) l) = l.
Proof.
  induction l as [|x r IH]; [reflexivity|].
  simpl. now rewrite join_split, IH.
Qed.

(** The list [parseFields] makes of a string is never empty and neither
    is any of its entries; no name in it holds a comma or a dot; and the
    string is what joining the names with dots and the entries with commas
    gives back. *)
Theorem parseFields_round_trip (s : string) :
  exists array,
    parseFields (Some (PStr s)) = Normal array
    /\ array <> []
    /\ Forall (fun fields =>
         fields <> []
         /\ Forall (fun name => contains ","%char name = false
                                /\ contains "."%char name = false) fields)
         array
    /\ JSString.join "," (map (JSString.join ".") array) = s.
Proof.
  eexists. split; [apply parseFields_string|]. repeat split.
  - pose proof (split_not_nil ","%char s).
    destruct (JSString.split ","%char s); [contradiction | discriminate].
  - pose proof (split_pieces ","%char s) as Hp.
    induction Hp as [|p l Hc _ IH]; constructor; [|exact IH].
    split; [apply split_not_nil|].
    pose proof (split_keeps_absent ","%char "."%char p Hc) as H1.
    pose proof (split_pieces "."%char p) as H2.
    revert H1 H2. generalize (JSString.split "."%char p). intros fields H1.
    induction H1; intros H2; inversion H2; subst; constructor; auto.
  - now rewrite map_join_split, join_split.
Qed.

(** A repeated parameter is read as the one string that joins its values
    with commas; with no value at all the list is empty. *)
Theorem parseFields_sequence_joined (l : list string) :
  parseFields (Some (PArr l)) =
  match l with
  | [] => Normal []
  | _ => parseFields (Some (PStr (JSString.join "," l)))
  end.
Proof.
  rewrite parseFields_sequence. destruct l as [|x r]; [reflexivity|].
  rewrite parseFields_string, split_join by discriminate.
  now rewrite concat_map, map_map.
Qed.

End FieldLists.

(* ================================================================== *)
(** ** The rewrite pass on a whole tree *)
(* ================================================================== *)

Section ObjectLists.

Context {Number Handle : Type}.

#[local] Abbreviation Value := (JSValue Number Handle).
#[local] Abbreviation Object := (Props Number Handle).

Implicit Types (o a b : Object) (k : PropKey) (v x : Value).

Lemma get_app_notin k a b : ~ In k (map fst a) -> get k (a ++ b) = get k b.
Proof.
  induction a as [|[k' v'] r IH]; simpl; intros H; [reflexivity|].
  rewrite PropKey_eqb_neq by (intros ->; tauto). apply IH. tauto.
Qed.

Lemma delete_notin k o : ~ In k (map fst o) -> delete k o = o.
Proof.
  induction o as [|[k' v'] r IH]; simpl; intros H; [reflexivity|].
  rewrite PropKey_eqb_neq by (intros ->; tauto). f_equal. apply IH. tauto.
Qed.

Lemma delete_app k a b : delete k (a ++ b) = delete k a ++ delete k b.
Proof.
  induction a as [|[k' v'] r IH]; simpl; [reflexivity|].
  destruct (PropKey_eqb k k'); simpl; now rewrite IH.
Qed.

Lemma set_app_notin k v a b :
  ~ In k (map fst a) -> set k v (a ++ b) = a ++ set k v b.
Proof.
  induction a as [|[k' v'] r IH]; simpl; intros H; [reflexivity|].
  rewrite PropKey_eqb_neq by (intros ->; tauto). f_equal. apply IH. tauto.
Qed.

Lemma set_notin k v o : ~ In k (map fst o) -> set k v o = o ++ [(k, v)].
Proof.
  intros H. rewrite <- (app_nil_r o) at 1. now rewrite set_app_notin.
Qed.

Lemma set_last k v x o :
  ~ In k (map fst o) -> set k v (o ++ [(k, x)]) = o ++ [(k, v)].
Proof.
  intros H. rewrite set_app_notin by assumption. simpl.
  now rewrite PropKey_eqb_refl.
Qed.

Lemma get_middle k x a b :
  ~ In k (map fst a) -> get k (a ++ (k, x) :: b) = Some x.
Proof.
  intros H. rewrite get_app_notin by assumption. simpl.
  now rewrite PropKey_eqb_refl.
Qed.

Lemma set_middle k v x a b :
  ~ In k (map fst a) -> set k v (a ++ (k, x) :: b) = a ++ (k, v) :: b.
Proof.
  intros H. rewrite set_app_notin by assumption. simpl.
  now rewrite PropKey_eqb_refl.
Qed.

Lemma delete_middle k x a b :
  ~ In k (map fst a) -> ~ In k (map fst b) ->
  delete k (a ++ (k, x) :: b) = a ++ b.
Proof.
  intros Ha Hb. rewrite delete_app. simpl. rewrite PropKey_eqb_refl.
  now rewrite !delete_notin.
Qed.

End ObjectLists.

Section Regular.

Context {Number Handle : Type} `{RT : Runtime Number Handle}.

#[local] Abbreviation Value := (JSValue Number Handle).
#[local] Abbreviation Object := (Props Number Handle).

Implicit Types (o json props rest K M R : Object) (k t : PropKey) (v x : Value)
  (key : string) (rw : Value -> Value).

(** One visit, at the place of the key in the object. *)
Lemma visitKey_at rw K key x R :
  ~ In (KStr key) (map fst K) ->
  ~ In (KStr key) (map fst R) ->
  (truthy (operators key) = true ->
   ~ In (toPropertyKey (operators key)) (map fst (K ++ R))) ->
  (isObject x = true -> recurse x = Some (Normal (rw x))) ->
  visitKey recurse (K ++ (KStr key, x) :: R) key =
  Some (Normal
    (if truthy (operators key)
     then K ++ R ++ [(toPropertyKey (operators key),
                      rewriteValue key x (rw x))]
     else K ++ (KStr key, rewriteValue key x (rw x)) :: R)).
Proof.
  intros HK HR Ht Hrec.
  assert (Hread : read (KStr key) (K ++ (KStr key, x) :: R) = x).
  { unfold read. now rewrite get_middle. }
  unfold visitKey, rewriteValue. rewrite read_replaceKey, Hread.
  unfold replaceKeyWithOperator. rewrite Hread.
  destruct (isObject x) eqn:Ho.
  - rewrite (Hrec eq_refl). cbn [bindF retF].
    destruct (truthy (operators key)) eqn:Et.
    + rewrite delete_middle by assumption.
      rewrite (set_notin _ _ (K ++ R)) by auto.
      rewrite set_last by auto. now rewrite <- app_assoc.
    + now rewrite set_middle.
  - destruct (truthy (operators key)) eqn:Et.
    + assert (Hm : String.eqb key "model" = false).
      { destruct (String.eqb_spec key "model") as [->|]; [|reflexivity].
        discriminate Et. }
      rewrite Hm. rewrite delete_middle by assumption.
      rewrite (set_notin _ _ (K ++ R)) by auto. now rewrite <- app_assoc.
    + destruct (String.eqb_spec key "model") as [->|Hm]; [|reflexivity].
      destruct (db (toString x)) as [handle|]; [|reflexivity].
      now rewrite set_middle.
Qed.

Lemma keptEntries_cons rw key x rest :
  keptEntries rw ((KStr key, x) :: rest) =
  (if truthy (operators key) then []
   else [(KStr key, rewriteValue key x (rw x))]) ++ keptEntries rw rest.
Proof. reflexivity. Qed.

Lemma movedEntries_cons rw key x rest :
  movedEntries rw ((KStr key, x) :: rest) =
  (if truthy (operators key)
   then [(toPropertyKey (operators key), rewriteValue key x (rw x))]
   else []) ++ movedEntries rw rest.
Proof. reflexivity. Qed.

Lemma targets_cons key x rest :
  targets ((KStr key, x) :: rest) =
  (if truthy (operators key) then [toPropertyKey (operators key)] else [])
  ++ targets rest.
Proof. reflexivity. Qed.

Lemma movedEntries_targets rw props :
  map fst (movedEntries rw props) = targets props.
Proof.
  induction props as [|[[key|op] x] r IH]; [reflexivity| |exact IH].
  rewrite movedEntries_cons, targets_cons, map_app, IH.
  now destruct (truthy (operators key)).
Qed.

Lemma NoDup_before {A : Type} (a b c : list A) (t : A) (rest : list A) :
  NoDup (a ++ b ++ c ++ [t] ++ rest) -> ~ In t (a ++ b ++ c).
Proof.
  intros H.
  replace (a ++ b ++ c ++ [t] ++ rest) with ((a ++ b ++ c) ++ t :: rest) in H
    by (now rewrite <- !app_assoc).
  apply NoDup_remove_2 in H. rewrite in_app_iff in H. tauto.
Qed.

(** The pass over the keys that are left, [K] being the entries that have
    stayed and [M] those that have moved. *)
Lemma forEachKey_regular rw : forall rest K M,
  Forall (fun kv => exists key, fst kv = KStr key) rest ->
  NoDup (map fst K ++ map fst rest ++ map fst M ++ targets rest) ->
  (forall kv, In kv rest -> isObject (snd kv) = true ->
     recurse (snd kv) = Some (Normal (rw (snd kv)))) ->
  forEachKey (visitKey recurse) (keys rest) (K ++ rest ++ M) =
  Some (Normal (K ++ keptEntries rw rest ++ M ++ movedEntries rw rest)).
Proof.
  induction rest as [|[k x] rest IH]; intros K M Hstr Hnd Hrec.
  - simpl. now rewrite app_nil_r.
  - inversion Hstr as [|? ? [key Hk] Hstr']; subst. simpl in Hk. subst k.
    rewrite targets_cons in Hnd. cbn [map fst] in Hnd.
    assert (HK : ~ In (KStr key) (map fst K)).
    { apply NoDup_remove_2 in Hnd. rewrite in_app_iff in Hnd. tauto. }
    assert (HR : ~ In (KStr key) (map fst (rest ++ M))).
    { apply NoDup_remove_2 in Hnd. rewrite map_app, !in_app_iff in *. tauto. }
    assert (Ht : truthy (operators key) = true ->
                 ~ In (toPropertyKey (operators key)) (map fst (K ++ rest ++ M))).
    { intros Et. rewrite Et in Hnd.
      apply (NoDup_before (map fst K) (KStr key :: map fst rest) (map fst M))
        in Hnd.
      rewrite !map_app, !in_app_iff in *. cbn [In] in Hnd. tauto. }
    cbn [keys forEachKey app].
    rewrite (visitKey_at rw K key x (rest ++ M) HK HR Ht)
      by (intros Ho; apply (Hrec (KStr key, x)); [now left | exact Ho]).
    cbn [bindF].
    rewrite keptEntries_cons, movedEntries_cons.
    destruct (truthy (operators key)) eqn:Et; cbn [app] in *.
    + rewrite <- app_assoc.
      rewrite (IH K (M ++ [(toPropertyKey (operators key),
                            rewriteValue key x (rw x))])).
      * now rewrite <- app_assoc.
      * assumption.
      * apply (NoDup_remove_1 (map fst K) _ (KStr key)) in Hnd.
        rewrite map_app, <- !app_assoc. exact Hnd.
      * intros kv Hin. apply Hrec. now right.
    + change (K ++ (KStr key, rewriteValue key x (rw x)) :: rest ++ M)
        with (K ++ [(KStr key, rewriteValue key x (rw x))] ++ rest ++ M).
      rewrite app_assoc.
      rewrite (IH (K ++ [(KStr key, rewriteValue key x (rw x))]) M).
      * now rewrite <- app_assoc.
      * assumption.
      * rewrite map_app, <- !app_assoc. exact Hnd.
      * intros kv Hin. apply Hrec. now right.
Qed.

(** The operator read turns distinct keys into distinct keys. *)
Lemma inheritedToString_injective (a b : string) :
  In a objectPrototypeMembers -> In b objectPrototypeMembers ->
  inheritedToString a = inheritedToString b -> a = b.
Proof.
  cbn [In objectPrototypeMembers]. intros Ha Hb.
  repeat (destruct Ha as [<- | Ha]; [
    repeat (destruct Hb as [<- | Hb];
            [first [reflexivity | discriminate] |]); contradiction |]).
  contradiction.
Qed.

Lemma target_injective (a b : string) :
  truthy (operators a) = true -> truthy (operators b) = true ->
  toPropertyKey (operators a) = toPropertyKey (operators b) -> a = b.
Proof.
  destruct (operators a) as [oa|ma|] eqn:Ea; try discriminate;
    destruct (operators b) as [ob|mb|] eqn:Eb; try discriminate;
    intros _ _ E; simpl in E; try discriminate.
  - injection E as <-. eapply operators_injective; eauto.
  - injection E as E.
    apply operators_Inherited in Ea as [-> Ha], Eb as [-> Hb].
    now apply inheritedToString_injective.
Qed.

Lemma In_targets t props :
  In t (targets props) ->
  exists key x, In (KStr key, x) props
                /\ truthy (operators key) = true
                /\ t = toPropertyKey (operators key).
Proof.
  induction props as [|[[key|op] x] r IH]; [contradiction| |].
  - rewrite targets_cons, in_app_iff. intros [H|H].
    + destruct (truthy (operators key)) eqn:Et; [|contradiction].
      destruct H as [<-|[]]. exists key, x. split; [now left | auto].
    + destruct (IH H) as (k & y & Hin & Hk). exists k, y.
      split; [now right | exact Hk].
  - intros H. destruct (IH H) as (k & y & Hin & Hk). exists k, y.
    split; [now right | exact Hk].
Qed.

Lemma distinct_NoDup (l : list string) : distinct l = true -> NoDup l.
Proof.
  induction l as [|x r IH]; simpl; intros H; [constructor|].
  apply andb_true_iff in H as [Hx Hr]. constructor; [|auto].
  intros Hin. apply negb_true_iff in Hx.
  assert (existsb (String.eqb x) r = true); [|congruence].
  apply existsb_exists. exists x. split; [assumption | apply String.eqb_refl].
Qed.

(** What [regularTree] says of an object. *)
Lemma regularTree_object props :
  regularTree (JObj props) = true ->
  NoDup (keys props)
  /\ Forall (fun kv => exists key,
               fst kv = KStr key /\ ~ In key inheritedTexts
               /\ regularTree (snd kv) = true) props.
Proof.
  cbn [regularTree]. intros H. apply andb_true_iff in H as [Hd Hall].
  split; [now apply distinct_NoDup|].
  apply Forall_forall. intros [k x] Hin.
  rewrite forallb_forall in Hall. specialize (Hall _ Hin). cbn [fst snd] in *.
  apply andb_true_iff in Hall as [Hk Hx].
  destruct k as [key|op]; [|discriminate]. exists key.
  repeat split; [|assumption]. intros Hi. apply negb_true_iff in Hk.
  assert (existsb (String.eqb key) inheritedTexts = true); [|congruence].
  apply existsb_exists. exists key. split; [assumption | apply String.eqb_refl].
Qed.

Lemma keys_strings props :
  Forall (fun kv => exists key, fst kv = KStr key) props ->
  map fst props = map KStr (keys props).
Proof.
  induction 1 as [|[k x] r [key Hk] _ IH]; [reflexivity|].
  simpl in Hk. subst k. simpl. now rewrite IH.
Qed.

Lemma NoDup_map_KStr (l : list string) : NoDup l -> NoDup (map KStr l).
Proof.
  induction 1 as [|x r Hx _ IH]; simpl; constructor; [|assumption].
  rewrite in_map_iff. intros (y & [= ->] & Hy). contradiction.
Qed.

Lemma NoDup_targets props :
  NoDup (map fst props) -> NoDup (targets props).
Proof.
  induction props as [|[[key|op] x] r IH]; simpl; intros H.
  - constructor.
  - inversion H as [|? ? Hk Hr]; subst. specialize (IH Hr).
    change (NoDup (targets ((KStr key, x) :: r))). rewrite targets_cons.
    destruct (truthy (operators key)) eqn:Et; [|exact IH].
    simpl. constructor; [|exact IH].
    intros Hin. apply In_targets in Hin as (k & y & Hy & Hk' & E).
    apply target_injective in E; auto. subst k.
    apply Hk. apply (in_map fst) in Hy. exact Hy.
  - inversion H; subst. auto.
Qed.

(** The keys of a regular object and the keys its entries move to are
    all distinct. *)
Lemma regular_NoDup props :
  regularTree (JObj props) = true ->
  NoDup (map fst props ++ targets props).
Proof.
  intros H. apply regularTree_object in H as [Hnd Hall].
  assert (Hstr : Forall (fun kv => exists key, fst kv = KStr key) props).
  { eapply Forall_impl; [|exact Hall]. intros kv (key & Hk & _). eauto. }
  assert (Hfst : NoDup (map fst props)).
  { rewrite keys_strings by assumption. now apply NoDup_map_KStr. }
  apply NoDup_app; [assumption | now apply NoDup_targets |].
  intros a Ha Ht.
  apply in_map_iff in Ha as ([k x] & <- & Hin).
  rewrite Forall_forall in Hall. destruct (Hall _ Hin) as (key & Hk & Hi & _).
  simpl in Hk. subst k. simpl in Ht.
  apply In_targets in Ht as (key' & y & _ & Et & E).
  destruct (operators key') as [op|member|] eqn:Eo; try discriminate.
  injection E as ->.
  apply operators_Inherited in Eo as [-> Hm].
  apply Hi. unfold inheritedTexts. now apply in_map.
Qed.

Lemma rewriteTree_scalar v : isObject v = false -> rewriteTree v = v.
Proof. destruct v; try discriminate; reflexivity. Qed.

Lemma forEachElement_regular rw : forall (elems : list Value),
  (forall e, In e elems ->
     if isObject e then recurse e = Some (Normal (rw e)) else rw e = e) ->
  forEachElement recurse elems = Some (Normal (map rw elems)).
Proof.
  induction elems as [|e rest IH]; intros H; [reflexivity|].
  cbn [forEachElement map]. rewrite IH by (intros; apply H; now right).
  specialize (H e (or_introl eq_refl)).
  destruct (isObject e); rewrite H; reflexivity.
Qed.

Lemma In_maxHeight (kv : PropKey * Value) props :
  In kv props -> height (snd kv) <= maxHeight props.
Proof.
  induction props as [|[k x] r IH]; [contradiction|].
  rewrite maxHeight_cons. intros [<-|H]; simpl; [lia|].
  specialize (IH H). lia.
Qed.

Lemma In_maxHeightOf (e : Value) (elems : list Value) :
  In e elems -> height e <= maxHeightOf elems.
Proof.
  induction elems as [|y r IH]; [contradiction|].
  rewrite maxHeightOf_cons. intros [<-|H]; [lia|].
  specialize (IH H). lia.
Qed.

(** On a regular tree the pass computes [rewriteTree]. *)
Lemma pass_regular (n : nat) : forall v,
  height v <= n -> regularTree v = true -> isObject v = true ->
  iterativeReplace v = Normal (rewriteTree v).
Proof.
  induction n as [|n IH]; intros v Hh Hreg Ho.
  - destruct v; try discriminate Ho; simpl in Hh; lia.
  - destruct v as [| | | | |elems|props|]; try discriminate Ho.
    + destruct (iterativeReplace_JArr elems) as (elems' & E & ->).
      rewrite height_arr in Hh. cbn [regularTree] in Hreg.
      rewrite forallb_forall in Hreg.
      rewrite (forEachElement_regular rewriteTree) in E.
      * injection E as <-. reflexivity.
      * intros e Hin. destruct (isObject e) eqn:Eo.
        -- unfold recurse. rewrite IH; auto.
           pose proof (In_maxHeightOf e elems Hin). lia.
        -- now apply rewriteTree_scalar.
    + destruct (iterativeReplace_JObj props) as (props' & E & ->).
      rewrite height_obj in Hh.
      pose proof (regular_NoDup props Hreg) as Hnd.
      apply regularTree_object in Hreg as [_ Hall].
      pose proof (forEachKey_regular rewriteTree props [] []) as G.
      cbn [app map] in G. rewrite !app_nil_r in G. rewrite G in E.
      * injection E as <-. reflexivity.
      * eapply Forall_impl; [|exact Hall]. intros kv (key & Hk & _). eauto.
      * exact Hnd.
      * intros kv Hin Hobj. unfold recurse. rewrite IH; auto.
        -- pose proof (In_maxHeight kv props Hin). lia.
        -- rewrite Forall_forall in Hall.
           destruct (Hall _ Hin) as (_ & _ & _ & Hr). exact Hr.
Qed.

(** What the pass leaves of a regular tree holds no operator name. *)
Lemma rewriteTree_operatorFree (n : nat) : forall v,
  height v <= n -> regularTree v = true -> operatorFree (rewriteTree v) = true.
Proof.
  induction n as [|n IH]; intros v Hh Hreg.
  - destruct v; try reflexivity; simpl in Hh; lia.
  - destruct v as [| | | | |elems|props|]; try reflexivity.
    + rewrite height_arr in Hh. cbn [regularTree] in Hreg.
      rewrite forallb_forall in Hreg.
      cbn [rewriteTree operatorFree]. apply forallb_forall.
      intros e' Hin. apply in_map_iff in Hin as (e & <- & Hin).
      apply IH; auto. pose proof (In_maxHeightOf e elems Hin). lia.
    + rewrite height_obj in Hh.
      apply regularTree_object in Hreg as [_ Hall].
      cbn [rewriteTree operatorFree]. apply forallb_forall.
      assert (Hval : forall key x, In (KStr key, x) props ->
                operatorFree (rewriteValue key x (rewriteTree x)) = true).
      { intros key x Hin. unfold rewriteValue.
        destruct (isObject x) eqn:Eo.
        - apply IH.
          + pose proof (In_maxHeight _ props Hin). simpl in *. lia.
          + rewrite Forall_forall in Hall.
            destruct (Hall _ Hin) as (_ & _ & _ & Hr). exact Hr.
        - destruct (String.eqb key "model");
            [destruct (db (toString x)); [reflexivity|]|];
            destruct x; try discriminate Eo; reflexivity. }
      intros [k y] Hin. rewrite in_app_iff in Hin.
      unfold keptEntries, movedEntries in Hin.
      rewrite !in_flat_map in Hin.
      destruct Hin as [([k0 x] & Hin & Hk) | ([k0 x] & Hin & Hk)];
        rewrite Forall_forall in Hall;
        destruct (Hall _ Hin) as (key & Hkey & _); simpl in Hkey; subst k0;
        cbn [fst snd] in Hk;
        destruct (operators key) as [op|member|] eqn:Eop;
        cbn [truthy] in Hk; try contradiction;
        destruct Hk as [[= <- <-]|[]]; cbn [fst snd toPropertyKey].
      * rewrite Eop. now rewrite Hval.
      * now rewrite Hval.
      * apply operators_Inherited in Eop as [-> Hm].
        destruct (inheritedToString_facts key Hm) as [_ ->].
        now rewrite Hval.
Qed.

Lemma set_get_same k x json : get k json = Some x -> set k x json = json.
Proof.
  induction json as [|[k' v'] r IH]; simpl; [discriminate|].
  destruct (PropKey_eqb k k') eqn:E.
  - intros [= ->]. apply PropKey_eqb_eq in E as ->. reflexivity.
  - intros H. now rewrite IH.
Qed.

Lemma get_In k x json : get k json = Some x -> In (k, x) json.
Proof.
  induction json as [|[k' v'] r IH]; simpl; [discriminate|].
  destruct (PropKey_eqb k k') eqn:E.
  - intros [= ->]. apply PropKey_eqb_eq in E as ->. now left.
  - intros H. right. auto.
Qed.

(** The visit of a key of a settled object changes nothing. *)
Lemma visitKey_settled json key :
  In key (keys json) ->
  settled (JObj json) = true ->
  (forall x, In (KStr key, x) json -> isObject x = true -> settled x = true ->
     recurse x = Some (Normal x)) ->
  visitKey recurse json key = Some (Normal json).
Proof.
  intros Hin Hs Hrec.
  destruct (In_keys_get key json Hin) as (x & Hg).
  pose proof (get_In _ _ _ Hg) as Hx.
  cbn [settled] in Hs. rewrite forallb_forall in Hs.
  specialize (Hs _ Hx). cbn [fst snd] in Hs.
  apply andb_true_iff in Hs as [Ht Hv]. apply negb_true_iff in Ht.
  unfold visitKey, read. rewrite Hg, Ht.
  destruct (isObject x) eqn:Eo.
  - rewrite (Hrec x Hx Eo Hv). cbn [bindF retF]. now rewrite set_get_same.
  - destruct (String.eqb key "model"); [|reflexivity].
    destruct (db (toString x)); [discriminate | reflexivity].
Qed.

Lemma forEachKey_settled json : forall ks,
  incl ks (keys json) ->
  settled (JObj json) = true ->
  (forall key x, In (KStr key, x) json -> isObject x = true ->
     settled x = true -> recurse x = Some (Normal x)) ->
  forEachKey (visitKey recurse) ks json = Some (Normal json).
Proof.
  induction ks as [|key rest IH]; intros Hin Hs Hrec; [reflexivity|].
  cbn [forEachKey].
  rewrite visitKey_settled; auto.
  - cbn [bindF]. apply IH; auto. intros k Hk. apply Hin. now right.
  - apply Hin. now left.
  - intros x. apply Hrec.
Qed.

(** On a settled tree the pass is the identity. *)
Lemma pass_settled (n : nat) : forall v,
  height v <= n -> settled v = true -> isObject v = true ->
  iterativeReplace v = Normal v.
Proof.
  induction n as [|n IH]; intros v Hh Hs Ho.
  - destruct v; try discriminate Ho; simpl in Hh; lia.
  - destruct v as [| | | | |elems|props|]; try discriminate Ho.
    + destruct (iterativeReplace_JArr elems) as (elems' & E & ->).
      rewrite height_arr in Hh. cbn [settled] in Hs.
      rewrite forallb_forall in Hs.
      rewrite (forEachElement_regular (fun e => e)) in E.
      * injection E as <-. now rewrite map_id.
      * intros e Hin. destruct (isObject e) eqn:Eo; [|reflexivity].
        unfold recurse. rewrite IH; auto.
        pose proof (In_maxHeightOf e elems Hin). lia.
    + destruct (iterativeReplace_JObj props) as (props' & E & ->).
      rewrite height_obj in Hh.
      rewrite forEachKey_settled in E.
      * now injection E as <-.
      * apply incl_refl.
      * exact Hs.
      * intros key x Hin Hobj Hsx. unfold recurse. rewrite IH; auto.
        pose proof (In_maxHeight _ props Hin). simpl in *. lia.
Qed.

(** What the pass leaves of a regular tree is settled, when no entity in
    [db] is filed under the text of an entity. *)
Lemma rewriteTree_settled (n : nat) :
  (forall h, db (handleToString h) = None) ->
  forall v, height v <= n -> regularTree v = true ->
  settled (rewriteTree v) = true.
Proof.
  intros Hdb. induction n as [|n IH]; intros v Hh Hreg.
  - destruct v; try reflexivity; simpl in Hh; lia.
  - destruct v as [| | | | |elems|props|]; try reflexivity.
    + rewrite height_arr in Hh. cbn [regularTree] in Hreg.
      rewrite forallb_forall in Hreg.
      cbn [rewriteTree settled]. apply forallb_forall.
      intros e' Hin. apply in_map_iff in Hin as (e & <- & Hin).
      apply IH; auto. pose proof (In_maxHeightOf e elems Hin). lia.
    + rewrite height_obj in Hh.
      apply regularTree_object in Hreg as [_ Hall].
      cbn [rewriteTree settled]. apply forallb_forall.
      assert (Hval : forall key x, In (KStr key, x) props ->
                let x' := rewriteValue key x (rewriteTree x) in
                (if isObject x' then settled x'
                 else if String.eqb key "model"
                      then match db (toString x') with
                           | Some _ => false
                           | None => true
                           end
                      else true) = true).
      { intros key x Hin. unfold rewriteValue.
        destruct (isObject x) eqn:Eo.
        - assert (Hs : settled (rewriteTree x) = true).
          { apply IH.
            + pose proof (In_maxHeight _ props Hin). simpl in *. lia.
            + rewrite Forall_forall in Hall.
              destruct (Hall _ Hin) as (_ & _ & _ & Hr). exact Hr. }
          cbv zeta.
          destruct x; try discriminate Eo; cbn [rewriteTree isObject] in *;
            exact Hs.
        - cbv zeta. destruct (String.eqb key "model") eqn:Em.
          + destruct (db (toString x)) as [h|] eqn:Ed.
            * cbn [isObject toString]. now rewrite Hdb.
            * now rewrite Eo, Ed.
          + now rewrite Eo. }
      intros [k y] Hin. rewrite in_app_iff in Hin.
      unfold keptEntries, movedEntries in Hin.
      rewrite !in_flat_map in Hin.
      destruct Hin as [([k0 x] & Hin & Hk) | ([k0 x] & Hin & Hk)];
        rewrite Forall_forall in Hall;
        destruct (Hall _ Hin) as (key & Hkey & _); simpl in Hkey; subst k0;
        cbn [fst snd] in Hk;
        destruct (operators key) as [op|member|] eqn:Eop;
        cbn [truthy] in Hk; try contradiction;
        destruct Hk as [[= <- <-]|[]]; cbn [fst snd toPropertyKey];
        try reflexivity.
      * rewrite Eop. cbn [truthy negb andb]. exact (Hval key x Hin).
      * apply operators_Inherited in Eop as [-> Hm].
        destruct (inheritedToString_facts key Hm) as [Hne Hu].
        rewrite Hu. cbn [truthy negb andb].
        pose proof (Hval key x Hin) as Hv. cbv zeta in Hv.
        assert (Hk : String.eqb key "model" = false).
        { destruct (String.eqb_spec key "model") as [->|]; [|reflexivity].
          destruct Hm as [Hm|Hm]; [discriminate|].
          repeat (destruct Hm as [Hm|Hm]; [discriminate|]). contradiction. }
        rewrite Hk in Hv.
        destruct (String.eqb_spec (inheritedToString key) "model");
          [contradiction|].
        destruct (isObject (rewriteValue key x (rewriteTree x)));
          [exact Hv | reflexivity].
Qed.

(** On a regular tree the pass, with its deletions and insertions in
    place, returns what the structural map [rewriteTree] gives: in every
    object the entries that the operator read does not find, where they
    were, and after them the entries it finds, under the keys the read
    turns into.  Any bound on the nesting of the calls that exceeds the
    height of the tree gives that result. *)
Theorem iterativeReplace_is_rewriteTree v :
  regularTree v = true -> isObject v = true ->
  iterativeReplace v = Normal (rewriteTree v)
  /\ forall n, height v < n ->
       iterativeReplace_fuel n v = Some (Normal (rewriteTree v)).
Proof.
  intros Hreg Ho.
  assert (E : iterativeReplace v = Normal (rewriteTree v))
    by now apply (pass_regular (height v)).
  split; [exact E|].
  intros n Hn. now rewrite iterativeReplace_fuel_enough, E.
Qed.

(** After the pass over a regular tree, no object at any depth has a
    string key that is the name of an operator. *)
Theorem iterativeReplace_leaves_no_operator v :
  regularTree v = true -> isObject v = true ->
  exists v', iterativeReplace v = Normal v' /\ operatorFree v' = true.
Proof.
  intros Hreg Ho. exists (rewriteTree v). split.
  - now apply (pass_regular (height v)).
  - now apply (rewriteTree_operatorFree (height v)).
Qed.

(** A second pass changes nothing: on what the pass returned for a
    regular tree it returns the same value, when [db] holds nothing under
    the text that an entity turns into. *)
Theorem iterativeReplace_idempotent v v' :
  (forall h, db (handleToString h) = None) ->
  regularTree v = true -> isObject v = true ->
  iterativeReplace v = Normal v' ->
  iterativeReplace v' = Normal v'.
Proof.
  intros Hdb Hreg Ho E.
  rewrite (pass_regular (height v)) in E by auto. injection E as <-.
  apply (pass_settled (height (rewriteTree v))); [lia | |].
  - now apply (rewriteTree_settled (height v)).
  - destruct v; try discriminate Ho; reflexivity.
Qed.

End Regular.

(* ================================================================== *)
(** ** The call as a whole: rejections, the descriptor, [where] *)
(* ================================================================== *)

Section Rejections.

Context {Number Handle : Type} `{RT : Runtime Number Handle}.

#[local] Abbreviation Value := (JSValue Number Handle).
#[local] Abbreviation Object := (Props Number Handle).
#[local] Abbreviation State := (@LoopState Number Handle).

Implicit Types (st : State) (key : string) (q : Query)
  (ks pre post : list string).

Lemma param_present key q :
  In key (map fst q) -> exists v, param key q = Some v.
Proof.
  intros H. pose proof (param_keys key q) as E.
  destruct (param key q) as [v|]; [eauto|].
  assert (existsb (String.eqb key) (map fst q) = true); [|congruence].
  apply existsb_exists. exists key. split; [assumption | apply String.eqb_refl].
Qed.

Lemma parseFields_returns (v : ParamValue) :
  exists array, parseFields (Some v) = Normal array.
Proof.
  destruct v as [s|l]; [rewrite parseFields_string | rewrite parseFields_sequence];
    eauto.
Qed.

(** The turns that throw. *)
Lemma parseStep_throws key st :
  In key (map fst (request st)) ->
  (exists m, parseStep key st = Throw m) <-> turnThrows (request st) key = true.
Proof.
  intros Hin. destruct (param_present _ _ Hin) as (v & Hv).
  unfold turnThrows. rewrite Hv.
  destruct (key_cases key)
    as [-> | [-> | [-> | [-> | [-> | [-> | [-> | Hr]]]]]]].
  - unfold parseStep; cbn [String.eqb Ascii.eqb Bool.eqb orb negb reserved].
    rewrite Hv. destruct v as [s|l]; simpl.
    + split; [intros (m & H); discriminate | discriminate].
    + split; eauto.
  - unfold parseStep; simpl. split; [intros (m & H); discriminate | discriminate].
  - unfold parseStep; simpl. split; [intros (m & H); discriminate | discriminate].
  - unfold parseStep; simpl. rewrite Hv.
    destruct (parseFields_returns v) as (a & ->). simpl.
    split; [intros (m & H); discriminate | discriminate].
  - unfold parseStep; simpl. rewrite Hv.
    destruct (parseFields_returns v) as (a & ->). simpl.
    split; [intros (m & H); discriminate | discriminate].
  - rewrite parseStep_query, Hv. cbn [paramToStringMethod bind].
    cbn [String.eqb Ascii.eqb Bool.eqb orb].
    destruct (parseQueryFields _) as [parsed|m]; simpl.
    + split; [intros (m & H); discriminate | discriminate].
    + split; eauto.
  - rewrite parseStep_include, Hv. cbn [paramToStringMethod bind].
    cbn [String.eqb Ascii.eqb Bool.eqb orb].
    change (parseIncludeFields (paramToString (Some v)))
      with (parseQueryFields (paramToString (Some v))).
    destruct (parseQueryFields _) as [parsed|m]; simpl.
    + split; [intros (m & H); discriminate | discriminate].
    + split; eauto.
  - rewrite (parseStep_filter key st Hr), Hv, Hr.
    apply reserved_false in Hr as (_ & _ & _ & _ & _ & -> & ->).
    rewrite orb_true_r. destruct v as [s|l]; simpl.
    + split; [intros (m & H); discriminate | discriminate].
    + split; eauto.
Qed.

(** A loop that throws has a turn that throws. *)
Lemma forIn_thrown_at ks : forall st st' msg,
  forIn ks st = (st', Some msg) ->
  exists key st1,
    In key ks /\ request st1 = request st /\ parseStep key st1 = Throw msg.
Proof.
  induction ks as [|k rest IH]; intros st st' msg H; simpl in H;
    [discriminate|].
  destruct (parseStep k st) as [st1|m] eqn:E.
  - destruct (IH _ _ _ H) as (key & st2 & Hin & Hq & Ht).
    exists key, st2. split; [now right|]. split; [|assumption].
    apply parseStep_pagination in E as (<- & _). assumption.
  - injection H as <- <-. exists k, st. split; [now left | auto].
Qed.

(** The loop throws exactly when one of its turns does. *)
Lemma forIn_throws_iff q :
  (exists st msg, forIn (map fst q) (initialState q) = (st, Some msg))
  <-> exists key, In key (map fst q) /\ turnThrows q key = true.
Proof.
  split.
  - intros (st & msg & E).
    apply forIn_thrown_at in E as (key & st1 & Hin & Hq & Ht).
    simpl in Hq. exists key. split; [assumption|].
    rewrite <- Hq. apply parseStep_throws; [now rewrite Hq | eauto].
  - intros (key & Hin & Ht).
    apply (forIn_must_throw q key); auto.
    intros st Hq. apply parseStep_throws; now rewrite Hq.
Qed.

Lemma param_member key q (v : ParamValue) :
  param key q = Some v -> In (key, v) q.
Proof.
  unfold param. induction q as [|[k x] r IH]; simpl; [discriminate|].
  destruct (String.eqb_spec key k) as [->|_].
  - intros [= ->]. now left.
  - intros H. right. auto.
Qed.

(** What makes the call reject, and nothing else does: [fields] or a
    filter given as a sequence, and a [query] or [include] on which
    [JSON.parse] or the rewrite pass throws.  So a request of strings
    with neither [query] nor [include] in it always resolves.  (The
    serialisation of the descriptor for the debug log is not part of the
    model.) *)
Theorem parse_rejects_iff q :
  ((exists msg, parse q = Reject msg)
   <-> exists key, In key (map fst q) /\ turnThrows q key = true)
  /\ ((forall key v, In (key, v) q -> exists s, v = PStr s) ->
      param "query" q = None ->
      param "include" q = None ->
      exists d, parse q = Resolve d).
Proof.
  assert (Hiff : (exists msg, parse q = Reject msg)
                 <-> exists key, In key (map fst q) /\ turnThrows q key = true).
  { rewrite parse_loop, <- forIn_throws_iff. split.
    - intros (msg & H).
      destruct (forIn (map fst q) (initialState q)) as [st [m|]];
        [eauto | discriminate].
    - intros (st & msg & E). rewrite E. eauto. }
  split; [exact Hiff|].
  intros Hstr Hq Hi.
  destruct (parse q) as [d|msg] eqn:E; [eauto|]. exfalso.
  destruct (proj1 Hiff (ex_intro _ msg eq_refl)) as (key & _ & Ht).
  unfold turnThrows in Ht.
  destruct (param key q) as [v|] eqn:Ev; [|discriminate].
  destruct (Hstr key v (param_member _ _ _ Ev)) as (str & ->).
  destruct (String.eqb_spec key "query") as [->|_]; [congruence|].
  destruct (String.eqb_spec key "include") as [->|_]; [congruence|].
  cbn [orb] in Ht. destruct (_ || _); discriminate.
Qed.

(** [parseQueryFields] throws on malformed text and on [null], and on
    nothing else; [parseIncludeFields] is the same function. *)
Theorem parseQueryFields_throws (s msg : string) :
  (parseQueryFields s = Throw msg
   <-> JSON_parse (unescape s) = Throw msg
       \/ ((JSON_parse (unescape s) = Normal JNull
            \/ JSON_parse (unescape s) = Normal JUndefined)
           /\ msg = "Cannot convert undefined or null to object"))
  /\ parseIncludeFields s = parseQueryFields s.
Proof.
  split; [|reflexivity].
  unfold parseQueryFields, unescapeEscapedQuery.
  destruct (JSON_parse (unescape s)) as [json|m]; cbn [bind].
  - destruct (isObject json) eqn:Eo.
    + destruct (iterativeReplace_object json Eo) as (v' & -> & _).
      split; [discriminate|].
      intros [H | [[H|H] _]]; try discriminate H;
        injection H as ->; discriminate Eo.
    + destruct json; try discriminate Eo; unfold iterativeReplace; cbn;
        (split;
         [ intros H;
           first [ discriminate H
                 | injection H as <-; right;
                   split; [first [left; reflexivity | right; reflexivity]
                          | reflexivity] ]
         | intros [H | [[H|H] Hm]]; try discriminate H; now subst ]).
  - split.
    + intros [= ->]. now left.
    + intros [[= ->] | [[H|H] _]]; [reflexivity | discriminate | discriminate].
Qed.

End Rejections.

(** Runs through the branches of the [switch] in a hypothesis
    [H : parseStep key st = Normal st']. *)
Ltac step_cases key H :=
  destruct (key_cases key)
    as [-> | [-> | [-> | [-> | [-> | [-> | [-> | Hr]]]]]]];
  [ unfold parseStep in H; cbn [String.eqb Ascii.eqb Bool.eqb] in H
  | unfold parseStep in H; cbn [String.eqb Ascii.eqb Bool.eqb] in H
  | unfold parseStep in H; cbn [String.eqb Ascii.eqb Bool.eqb] in H
  | unfold parseStep in H; cbn [String.eqb Ascii.eqb Bool.eqb] in H
  | unfold parseStep in H; cbn [String.eqb Ascii.eqb Bool.eqb] in H
  | unfold parseStep in H; cbn [String.eqb Ascii.eqb Bool.eqb] in H
  | unfold parseStep in H; cbn [String.eqb Ascii.eqb Bool.eqb] in H
  | rewrite (parseStep_filter key _ Hr) in H ].

Section Descriptor.

Context {Number Handle : Type} `{RT : Runtime Number Handle}.

#[local] Abbreviation Value := (JSValue Number Handle).
#[local] Abbreviation Object := (Props Number Handle).
#[local] Abbreviation State := (@LoopState Number Handle).

Implicit Types (st : State) (key : string) (q : Query)
  (ks pre post : list string).

(** A property of the descriptor that only the turn of [k] writes, and
    writes from the request alone, is after the loop what that turn made
    it, if [k] was among the keys. *)
Lemma forIn_property {A : Type} (f : @DbQuery Number Handle -> A) (k : string)
  (val : Query -> A) :
  (forall key st st', parseStep key st = Normal st' ->
     f (dbQuery st') =
     if String.eqb key k then val (request st) else f (dbQuery st)) ->
  forall ks st st', forIn ks st = (st', None) ->
    f (dbQuery st') =
    if existsb (String.eqb k) ks then val (request st) else f (dbQuery st).
Proof.
  intros Hstep. induction ks as [|key rest IH]; intros st st' H; simpl in H.
  - now injection H as <-.
  - destruct (parseStep key st) as [st1|m] eqn:E; [|discriminate].
    rewrite (IH _ _ H). cbn [existsb]. rewrite (String.eqb_sym k key).
    pose proof (parseStep_pagination _ _ _ E) as (-> & _).
    rewrite (Hstep _ _ _ E).
    destruct (String.eqb key k), (existsb (String.eqb k) rest); reflexivity.
Qed.

(** What a turn does to the properties of the descriptor other than
    [where] and the pagination. *)
Lemma parseStep_properties key st st' :
  parseStep key st = Normal st' ->
  attributes (dbQuery st') =
    (if String.eqb key "fields" then requestedAttributes (request st)
     else attributes (dbQuery st))
  /\ order (dbQuery st') =
    (if String.eqb key "sort_by" then requestedFields "sort_by" (request st)
     else order (dbQuery st))
  /\ group (dbQuery st') =
    (if String.eqb key "group_by" then requestedFields "group_by" (request st)
     else group (dbQuery st))
  /\ include (dbQuery st') =
    (if String.eqb key "include" then requestedInclude (request st)
     else include (dbQuery st)).
Proof.
  intros H. unfold requestedAttributes, requestedFields, requestedInclude.
  step_cases key H.
  - destruct (param "fields" (request st)) as [[s|l]|]; simpl in H;
      try discriminate.
    injection H as <-. simpl.
    pose proof (split_not_nil ","%char s).
    destruct (JSString.split ","%char s); [contradiction | auto].
  - injection H as <-. simpl. auto.
  - injection H as <-. simpl. auto.
  - destruct (param "sort_by" (request st)) as [v|]; [|discriminate].
    destruct (parseFields (Some v)); simpl in H; [|discriminate].
    injection H as <-. simpl. auto.
  - destruct (param "group_by" (request st)) as [v|]; [|discriminate].
    destruct (parseFields (Some v)); simpl in H; [|discriminate].
    injection H as <-. simpl. auto.
  - destruct (paramToStringMethod _); simpl in H; [|discriminate].
    destruct (parseQueryFields _); simpl in H; [|discriminate].
    injection H as <-. simpl. auto.
  - destruct (param "include" (request st)) as [v|]; [|discriminate].
    cbn [paramToStringMethod bind] in H.
    destruct (parseIncludeFields _); simpl in H; [|discriminate].
    injection H as <-. simpl. auto.
  - apply reserved_false in Hr as (-> & _ & _ & -> & -> & _ & ->).
    destruct (paramSplittable _ _); simpl in H; [|discriminate].
    injection H as <-. simpl. auto.
Qed.

(** The properties of the descriptor after a loop that did not throw. *)
Lemma forIn_properties q (st : State) :
  forIn (map fst q) (initialState q) = (st, None) ->
  attributes (dbQuery st) = requestedAttributes q
  /\ order (dbQuery st) = requestedFields "sort_by" q
  /\ group (dbQuery st) = requestedFields "group_by" q
  /\ include (dbQuery st) = requestedInclude q.
Proof.
  intros E.
  pose proof (forIn_property attributes "fields" requestedAttributes
                (fun key st st' H =>
                   proj1 (parseStep_properties key st st' H)) _ _ _ E) as H1.
  pose proof (forIn_property order "sort_by" (requestedFields "sort_by")
                (fun key st st' H =>
                   proj1 (proj2 (parseStep_properties key st st' H))) _ _ _ E)
    as H2.
  pose proof (forIn_property group "group_by" (requestedFields "group_by")
                (fun key st st' H =>
                   proj1 (proj2 (proj2 (parseStep_properties key st st' H))))
                _ _ _ E) as H3.
  pose proof (forIn_property include "include" requestedInclude
                (fun key st st' H =>
                   proj2 (proj2 (proj2 (parseStep_properties key st st' H))))
                _ _ _ E) as H4.
  rewrite param_keys in H1, H2, H3, H4.
  cbn [initialState request dbQuery attributes order group include] in *.
  unfold requestedAttributes, requestedFields, requestedInclude in *.
  destruct (param "fields" q), (param "sort_by" q), (param "group_by" q),
    (param "include" q); auto.
Qed.

(** Each of [attributes], [order], [group] and [include] is what the
    parameter of its own makes it: absent when the parameter is, and
    otherwise computed from that parameter alone, wherever it stands in
    the request. *)
Theorem parse_descriptor q (d : @DbQuery Number Handle) :
  parse q = Resolve d ->
  attributes d = requestedAttributes q
  /\ order d = requestedFields "sort_by" q
  /\ group d = requestedFields "group_by" q
  /\ include d = requestedInclude q.
Proof.
  rewrite parse_loop.
  destruct (forIn (map fst q) (initialState q)) as [st [m|]] eqn:E;
    [discriminate|].
  intros [= <-]. cbn [attributes order group include].
  now apply forIn_properties.
Qed.

End Descriptor.

Section Where.

Context {Number Handle : Type} `{RT : Runtime Number Handle}.

#[local] Abbreviation Value := (JSValue Number Handle).
#[local] Abbreviation Object := (Props Number Handle).
#[local] Abbreviation State := (@LoopState Number Handle).

Implicit Types (st : State) (key : string) (q : Query)
  (ks pre post : list string).

(** What a turn does to [where]: the turn of [query] merges, the turn of
    a filter stores, and no other turn touches it. *)
Lemma parseStep_where key st st' :
  parseStep key st = Normal st' ->
  (reserved key = true /\ key <> "query"
   /\ where_ (dbQuery st') = where_ (dbQuery st))
  \/ (key = "query"
      /\ exists v parsed,
           param "query" (request st) = Some v
           /\ parseQueryFields (paramToString (Some v)) = Normal parsed
           /\ where_ (dbQuery st') = spread (where_ (dbQuery st)) parsed)
  \/ (reserved key = false
      /\ exists s,
           param key (request st) = Some (PStr s)
           /\ where_ (dbQuery st') =
              set (KStr key) (parseQueryParam s) (where_ (dbQuery st))).
Proof.
  intros H. step_cases key H.
  - destruct (paramSplittable _ _); simpl in H; [|discriminate].
    injection H as <-. left. repeat split; [discriminate|].
    simpl. now destruct (Nat.ltb 0 _).
  - injection H as <-. left. repeat split. discriminate.
  - injection H as <-. left. repeat split. discriminate.
  - destruct (parseFields _); simpl in H; [|discriminate].
    injection H as <-. left. repeat split. discriminate.
  - destruct (parseFields _); simpl in H; [|discriminate].
    injection H as <-. left. repeat split. discriminate.
  - right. left. split; [reflexivity|].
    destruct (param "query" (request st)) as [v|]; [|discriminate].
    cbn [paramToStringMethod bind] in H.
    destruct (parseQueryFields _) as [parsed|] eqn:Ep; simpl in H;
      [|discriminate].
    injection H as <-. exists v, parsed.
    split; [reflexivity | split; [exact Ep | reflexivity]].
  - destruct (paramToStringMethod _); simpl in H; [|discriminate].
    destruct (parseIncludeFields _); simpl in H; [|discriminate].
    injection H as <-. left. repeat split. discriminate.
  - right. right. split; [assumption|].
    destruct (param key (request st)) as [[s|l]|]; simpl in H;
      try discriminate.
    injection H as <-. exists s. auto.
Qed.

Lemma forIn_split pre post st st' :
  forIn (pre ++ post) st = (st', None) ->
  exists st1, forIn pre st = (st1, None) /\ forIn post st1 = (st', None).
Proof.
  rewrite forIn_app. destruct (forIn pre st) as [st1 [m|]]; [discriminate|].
  eauto.
Qed.

Lemma forIn_cons key post st st' :
  forIn (key :: post) st = (st', None) ->
  exists st1, parseStep key st = Normal st1 /\ forIn post st1 = (st', None).
Proof.
  simpl. destruct (parseStep key st) as [st1|m]; [eauto | discriminate].
Qed.




Lemma param_app_notin key (pre l : Query) :
  ~ In key (map fst pre) -> param key (pre ++ l) = param key l.
Proof.
  unfold param. induction pre as [|[k v] r IH]; simpl; intros H;
    [reflexivity|].
  destruct (String.eqb_spec key k) as [->|]; [tauto|]. apply IH. tauto.
Qed.

Lemma filtersOf_app (a b : Query) :
  filtersOf (a ++ b) = (filtersOf a ++ filtersOf b : Object).
Proof. unfold filtersOf. apply flat_map_app. Qed.

Lemma In_filtersOf (t : PropKey) (l : Query) :
  In t (map fst (filtersOf l : Object)) ->
  exists key, t = KStr key /\ In key (map fst l).
Proof.
  induction l as [|[k v] r IH]; simpl; [contradiction|].
  change (filtersOf ((k, v) :: r) : Object)
    with ((if reserved k then []
           else match v with
                | PStr s => [(KStr k, parseQueryParam s)]
                | PArr _ => []
                end) ++ (filtersOf r : Object)).
  rewrite map_app, in_app_iff. intros [H|H].
  - destruct (reserved k); [contradiction|].
    destruct v as [s|l]; [|contradiction].
    destruct H as [<-|[]]. exists k. simpl. auto.
  - destruct (IH H) as (key & -> & Hin). eauto.
Qed.

(** With no [query] in the request, the loop makes [where] of the
    filters, one by one. *)
Lemma forIn_filters : forall (suf pre : Query) st st',
  request st = pre ++ suf ->
  NoDup (map fst (pre ++ suf)) ->
  param "query" (pre ++ suf) = None ->
  where_ (dbQuery st) = filtersOf pre ->
  forIn (map fst suf) st = (st', None) ->
  where_ (dbQuery st') = filtersOf (pre ++ suf).
Proof.
  induction suf as [|[k v] suf IH]; intros pre st st' Hreq Hnd Hq Hw H.
  - injection H as <-. now rewrite app_nil_r.
  - cbn [map fst] in H. apply forIn_cons in H as (st1 & E & H).
    pose proof (parseStep_pagination _ _ _ E) as (Hreq1 & _).
    assert (Hk : ~ In k (map fst pre)).
    { rewrite map_app in Hnd. simpl in Hnd. apply NoDup_remove_2 in Hnd.
      rewrite in_app_iff in Hnd. tauto. }
    replace (pre ++ (k, v) :: suf) with ((pre ++ [(k, v)]) ++ suf) in *
      by (now rewrite <- app_assoc).
    apply (IH (pre ++ [(k, v)]) st1 st'); auto; [congruence|].
    rewrite filtersOf_app.
    destruct (parseStep_where _ _ _ E)
      as [(Hr & _ & ->) | [(-> & v' & _ & Hv' & _) | (Hr & s & Hs & ->)]].
    + rewrite Hw. unfold filtersOf at 2. simpl. rewrite Hr.
      now rewrite app_nil_r.
    + rewrite Hreq, Hq in Hv'. discriminate.
    + rewrite Hreq, <- app_assoc, param_app_notin in Hs by assumption.
      unfold param in Hs. simpl in Hs. rewrite String.eqb_refl in Hs.
      injection Hs as ->.
      rewrite Hw. unfold filtersOf at 2. simpl. rewrite Hr. simpl.
      apply set_notin. intros Hin.
      apply In_filtersOf in Hin as (key & [= <-] & Hin). contradiction.
Qed.


End Where.

(* ================================================================== *)
(** ** Pagination: numerals, what cannot be read, and the bounds *)
(* ================================================================== *)

Section Decimal.

Ltac digit :=
  match goal with
  | |- context [JSNumber.digitValue 10 ?c] =>
      let d := eval vm_compute in (JSNumber.digitValue 10 c) in
      change (JSNumber.digitValue 10 c) with d
  end; cbv beta iota.

(** Reading the digits of a numeral is the Horner scheme of
    [Pos.of_uint_acc]. *)
Lemma readDigits_acc (u : Decimal.uint) : forall acc : positive,
  JSNumber.readDigits 10 (Some (Zpos acc)) (NilEmpty.string_of_uint u)
  = Some (Zpos (Pos.of_uint_acc u acc)).
Proof.
  induction u; intros acc;
    cbn [NilEmpty.string_of_uint JSNumber.readDigits Pos.of_uint_acc];
    [reflexivity | ..];
    digit; rewrite <- IHu; do 2 f_equal; lia.
Qed.

Lemma readDigits_zero (u : Decimal.uint) :
  JSNumber.readDigits 10 (Some 0%Z) (NilEmpty.string_of_uint u)
  = Some (Z.of_N (Pos.of_uint u)).
Proof.
  induction u;
    cbn [NilEmpty.string_of_uint JSNumber.readDigits Pos.of_uint];
    [reflexivity | ..]; digit;
    first [ exact IHu | apply readDigits_acc ].
Qed.

Lemma readDigits_uint (u : Decimal.uint) :
  u <> Decimal.Nil ->
  JSNumber.readDigits 10 None (NilEmpty.string_of_uint u)
  = Some (Z.of_N (Pos.of_uint u)).
Proof.
  destruct u; intros H; [contradiction | ..];
    cbn [NilEmpty.string_of_uint JSNumber.readDigits Pos.of_uint]; digit;
    first [ apply readDigits_zero | apply readDigits_acc ].
Qed.

(** [parseInt] reads a decimal numeral, with or without a minus sign, as
    the number it writes. *)
Lemma parseInt_uint (u : Decimal.uint) :
  u <> Decimal.Nil ->
  JSNumber.parseInt (NilEmpty.string_of_uint u) = Num (Z.of_N (Pos.of_uint u))
  /\ JSNumber.parseInt (String "-" (NilEmpty.string_of_uint u))
     = Num (- Z.of_N (Pos.of_uint u)).
Proof.
  intros Hu. pose proof (readDigits_uint u Hu) as Hr.
  destruct u as [|u|u|u|u|u|u|u|u|u|u]; [contradiction | ..].
  all: unfold JSNumber.parseInt;
    cbn [NilEmpty.string_of_uint JSNumber.trimStart] in *.
  all: match goal with
       | |- context [JSNumber.isWhiteSpace ?c] =>
           change (JSNumber.isWhiteSpace c) with false
       end; cbv beta iota.
  all: change (JSNumber.isWhiteSpace "-") with false; cbv beta iota.
  2-10: rewrite Hr; split; f_equal; lia.
  destruct u; cbn [NilEmpty.string_of_uint] in *; rewrite Hr; split; f_equal; lia.
Qed.

Lemma parseInt_decimal (n : Z) :
  JSNumber.parseInt (Reference.decimal n) = Num n.
Proof.
  unfold Reference.decimal. destruct n as [|p|p]; [reflexivity | |];
    cbn [Z.to_int NilEmpty.string_of_int];
    destruct (parseInt_uint (Pos.to_uint p)) as [Hpos Hneg];
    try apply DecimalPos.Unsigned.to_uint_nonnil.
  - rewrite Hpos, DecimalPos.Unsigned.of_to. reflexivity.
  - rewrite Hneg, DecimalPos.Unsigned.of_to. reflexivity.
Qed.

End Decimal.

Section Pagination.

Context {Number Handle : Type} `{RT : Runtime Number Handle}.

(** A page size and a page index written as decimal numerals are read as
    the numbers they write: the descriptor's [limit] is the size brought
    into [1, 200], and its [offset] that many times the index, or 0 for a
    negative index.  The bound on the index keeps the product within the
    integers that the engine's numbers hold exactly. *)
Theorem parse_pagination_decimal q (d : @DbQuery Number Handle) (n p : Z) :
  parse q = Resolve d ->
  param "limit" q = Some (PStr (Reference.decimal n)) ->
  param "offset" q = Some (PStr (Reference.decimal p)) ->
  (p < 2 ^ 45)%Z ->
  limit d = Num (Z.min (Z.max n 1) 200)
  /\ offset d = Num (Z.max p 0 * Z.min (Z.max n 1) 200).
Proof.
  intros Hres Hl Ho _.
  destruct (parse_limit_offset q d Hres) as [El Eo].
  rewrite Hl in El. rewrite Ho in Eo.
  unfold requestedLimit in El. unfold requestedOffset in Eo.
  rewrite Hl in El. rewrite Ho in Eo.
  cbn [paramToString] in El, Eo. rewrite parseInt_decimal in El, Eo.
  rewrite Eo, El. split; reflexivity.
Qed.

(** A [limit] that [parseInt] cannot read is no error: the descriptor's
    [limit] and [offset] are both [NaN].  An [offset] that it cannot read
    makes the descriptor's [offset] [NaN]. *)
Theorem parse_unparseable_pagination q (d : @DbQuery Number Handle) :
  parse q = Resolve d ->
  (param "limit" q <> None ->
   JSNumber.parseInt (paramToString (param "limit" q)) = NaN ->
   limit d = NaN /\ offset d = NaN)
  /\ (param "offset" q <> None ->
      JSNumber.parseInt (paramToString (param "offset" q)) = NaN ->
      offset d = NaN).
Proof.
  intros Hres. destruct (parse_limit_offset q d Hres) as [El Eo]. split.
  - intros Hp Hn. destruct (param "limit" q) as [v|] eqn:E; [|contradiction].
    unfold requestedLimit in El. rewrite E, Hn in El. cbn in El.
    rewrite Eo, El. split; [reflexivity|].
    now destruct (match param "offset" q with Some _ => _ | None => _ end).
  - intros Hp Hn. destruct (param "offset" q) as [v|] eqn:E; [|contradiction].
    unfold requestedOffset in Eo. rewrite E, Hn in Eo. cbn in Eo. exact Eo.
Qed.

(** Whatever the request, a descriptor that resolves has a [limit] that
    is [NaN] or lies in [1, 200], and an [offset] that is [NaN] or not
    negative: no value of [limit] or [offset] gets a page size of 0, a
    negative one or one above 200 through, nor a negative offset. *)
Theorem parse_pagination_bounds q (d : @DbQuery Number Handle) :
  parse q = Resolve d ->
  (limit d = NaN \/ exists size, limit d = Num size /\ (1 <= size <= 200)%Z)
  /\ (offset d = NaN \/ exists skip, offset d = Num skip /\ (0 <= skip)%Z).
Proof.
  intros Hres. destruct (parse_limit_offset q d Hres) as [El Eo].
  assert (Hl : limit d = NaN
               \/ exists size, limit d = Num size /\ (1 <= size <= 200)%Z).
  { rewrite El. destruct (param "limit" q) as [v|].
    - unfold requestedLimit, pageSizeLimit.
      destruct (JSNumber.parseInt _) as [|z]; simpl; [now left|].
      right. eexists. split; [reflexivity | lia].
    - right. exists 200%Z. split; [reflexivity | lia]. }
  split; [exact Hl|].
  destruct Hl as [Hn | (size & Hs & Hb)].
  - left. rewrite Eo, Hn.
    now destruct (match param "offset" q with Some _ => _ | None => _ end).
  - rewrite Eo, Hs. destruct (param "offset" q) as [v|].
    + unfold requestedOffset.
      destruct (JSNumber.parseInt _) as [|z]; simpl; [now left|].
      right. eexists. split; [reflexivity | nia].
    + right. eexists. split; [reflexivity | lia].
Qed.

End Pagination.

(* ================================================================== *)
(** ** The earlier revisions against the current one *)
(* ================================================================== *)

Section Revisions.

Context {Number Handle : Type} `{RT : Runtime Number Handle}.

#[local] Abbreviation Value := (JSValue Number Handle).
#[local] Abbreviation Object := (Props Number Handle).
#[local] Abbreviation State := (@LoopState Number Handle).

Implicit Types (st : State) (key : string) (q : Query) (ks : list string).

Lemma split_length (sep : ascii) (s : string) :
  Nat.ltb 0 (length (JSString.split sep s)) = true.
Proof.
  pose proof (split_not_nil sep s).
  destruct (JSString.split sep s); [contradiction | reflexivity].
Qed.

(** The guards of the second revision never fail. *)
Lemma revision2_splitStringAndBuildArray (obj : string) array :
  Revision2.splitStringAndBuildArray obj array
  = splitStringAndBuildArray obj array.
Proof.
  unfold Revision2.splitStringAndBuildArray. now rewrite split_length.
Qed.

Lemma revision2_parseFields (query : option ParamValue) :
  Revision2.parseFields query = parseFields query.
Proof.
  unfold Revision2.parseFields, parseFields.
  destruct query as [[s|l]|]; simpl; try reflexivity.
  - now rewrite revision2_splitStringAndBuildArray.
  - f_equal. generalize (@nil (list string)).
    induction l as [|x r IH]; intros a; simpl; [reflexivity|].
    now rewrite revision2_splitStringAndBuildArray, IH.
Qed.

Lemma revision2_parseQueryParam (query : string) :
  Revision2.parseQueryParam query = (parseQueryParam query : Value).
Proof.
  unfold Revision2.parseQueryParam, parseQueryParam.
  destruct (JSString.splitColonRest query) as [|e0 [|e1 r]]; try reflexivity.
  cbn [length Nat.ltb Nat.leb nth].
  destruct (JSString.split ","%char e1) as [|a [|b t]]; reflexivity.
Qed.

Lemma revision2_parseStep key seen st :
  Revision2.parseStep key (earlier seen st) =
  match parseStep key st with
  | Normal st' => Normal (earlier (seen || String.eqb key "limit") st')
  | Throw msg => Throw msg
  end.
Proof.
  destruct (key_cases key)
    as [-> | [-> | [-> | [-> | [-> | [-> | [-> | Hr]]]]]]].
  - unfold Revision2.parseStep, parseStep;
      cbn [String.eqb Ascii.eqb Bool.eqb earlier Revision2.request].
    destruct (paramSplittable _ _) as [s|m]; [|reflexivity].
    cbn [bind]. rewrite split_length, orb_false_r. reflexivity.
  - unfold Revision2.parseStep, parseStep;
      cbn [String.eqb Ascii.eqb Bool.eqb earlier Revision2.request].
    now rewrite orb_true_r.
  - unfold Revision2.parseStep, parseStep;
      cbn [String.eqb Ascii.eqb Bool.eqb earlier Revision2.request].
    now rewrite orb_false_r.
  - unfold Revision2.parseStep, parseStep;
      cbn [String.eqb Ascii.eqb Bool.eqb earlier Revision2.request].
    rewrite revision2_parseFields.
    destruct (parseFields _) as [o|m]; [|reflexivity].
    cbn [bind]. now rewrite orb_false_r.
  - unfold Revision2.parseStep, parseStep;
      cbn [String.eqb Ascii.eqb Bool.eqb earlier Revision2.request].
    rewrite revision2_parseFields.
    destruct (parseFields _) as [o|m]; [|reflexivity].
    cbn [bind]. now rewrite orb_false_r.
  - unfold Revision2.parseStep, parseStep;
      cbn [String.eqb Ascii.eqb Bool.eqb earlier Revision2.request].
    destruct (paramToStringMethod _) as [s|m]; [|reflexivity]. cbn [bind].
    destruct (parseQueryFields s) as [parsed|m]; [|reflexivity].
    cbn [bind]. now rewrite orb_false_r.
  - unfold Revision2.parseStep, parseStep;
      cbn [String.eqb Ascii.eqb Bool.eqb earlier Revision2.request].
    destruct (paramToStringMethod _) as [s|m]; [|reflexivity]. cbn [bind].
    destruct (parseIncludeFields s) as [parsed|m]; [|reflexivity].
    cbn [bind]. now rewrite orb_false_r.
  - rewrite (parseStep_filter key st Hr).
    unfold Revision2.parseStep.
    apply reserved_false in Hr as (-> & -> & -> & -> & -> & -> & ->).
    cbn [earlier Revision2.request].
    destruct (paramSplittable _ _) as [s|m]; [|reflexivity]. cbn [bind].
    now rewrite revision2_parseQueryParam, orb_false_r.
Qed.

Lemma revision2_forIn ks : forall seen st,
  match forIn ks st with
  | (st', None) =>
      Revision2.forIn ks (earlier seen st)
      = (earlier (seen || existsb (String.eqb "limit") ks) st', None)
  | (_, Some msg) => snd (Revision2.forIn ks (earlier seen st)) = Some msg
  end.
Proof.
  induction ks as [|key rest IH]; intros seen st.
  - simpl. now rewrite orb_false_r.
  - cbn [forIn Revision2.forIn]. rewrite revision2_parseStep.
    destruct (parseStep key st) as [st1|m]; [|reflexivity].
    specialize (IH (seen || String.eqb key "limit") st1).
    destruct (forIn rest st1) as [st' [m|]]; [exact IH|].
    rewrite IH. cbn [existsb]. rewrite (String.eqb_sym "limit" key).
    now rewrite orb_assoc.
Qed.

(** The pagination of the second revision, for any request that resolves:
    [limit] is there only when the request has one, and [offset] is
    computed from the two variables, which have the defaults. *)
Lemma revision2_limit_offset q (d : @Revision2.DbQuery Number Handle) :
  Revision2.parse q = Revision2.Resolve d ->
  Revision2.limit d = match param "limit" q with
                      | Some _ => Some (requestedLimit q)
                      | None => None
                      end
  /\ Revision2.offset d =
     Some (JSNumber.mul
             match param "offset" q with
             | Some _ => requestedOffset q
             | None => Num 0
             end
             match param "limit" q with
             | Some _ => requestedLimit q
             | None => pageSizeLimit
             end).
Proof.
  unfold Revision2.parse.
  pose proof (revision2_forIn (map fst q) false (initialState q)) as H.
  change (earlier false (initialState q))
    with (@Revision2.initialState Number Handle q) in H.
  destruct (forIn (map fst q) (initialState q)) as [st [m|]] eqn:E.
  - destruct (Revision2.forIn _ _) as [st2 r]. simpl in H. subst r.
    discriminate.
  - cbn [orb] in H. rewrite param_keys in H. rewrite H. intros [= <-].
    cbn [Revision2.limit Revision2.offset earlier Revision2.dbQuery
      Revision2.offsetVar Revision2.limitVar].
    apply forIn_pagination in E.
    cbn [initialState request limitVar offsetVar dbQuery limit] in E.
    rewrite !param_keys in E. destruct E as [El Eo].
    destruct (param "limit" q), (param "offset" q);
      destruct El as [El1 El2]; rewrite ?El1, ?El2, Eo; auto.
Qed.

(** The second revision settles as the current one does, with the same
    message or the same descriptor, except that the descriptor has no
    [limit] when the request has none. *)
Theorem revision2_parse q :
  Revision2.parse q =
  match parse q with
  | Resolve d =>
      Revision2.Resolve
        {| Revision2.where_ := where_ d;
           Revision2.offset := Some (offset d);
           Revision2.limit :=
             match param "limit" q with
             | Some _ => Some (limit d)
             | None => None
             end;
           Revision2.attributes := attributes d;
           Revision2.order := order d;
           Revision2.group := group d;
           Revision2.include := include d |}
  | Reject msg => Revision2.Reject msg
  end.
Proof.
  rewrite parse_loop. unfold Revision2.parse.
  pose proof (revision2_forIn (map fst q) false (initialState q)) as H.
  change (earlier false (initialState q))
    with (@Revision2.initialState Number Handle q) in H.
  destruct (forIn (map fst q) (initialState q)) as [st [m|]].
  - destruct (Revision2.forIn _ _) as [st2 r]. simpl in H. now subst r.
  - rewrite H. cbn [orb]. rewrite param_keys.
    destruct (param "limit" q); reflexivity.
Qed.

End Revisions.

Section BothRevisions.

Context {Number Handle : Type} `{RT : Runtime Number Handle}.

(** C2, as amended.  The page size is 200 when the request has no
    [limit], and the requested integer brought to the nearest bound of
    [1, 200] when it has one; the page index is 0 when the request has no
    [offset], and the requested integer, or 0 if that is negative, when it
    has one.  As long as the index times the size is at most 2^53, so that
    the engine's numbers hold every number of the computation exactly: a
    descriptor of the current revision has the page size as its [limit]
    and the index times the size as its [offset]; a descriptor of the
    second revision has the same [offset], and has the page size as its
    [limit] when the request has a [limit], and no [limit] at all when it
    has none. *)
Theorem parse_pagination (q : Query) (size page : Z) :
  (param "limit" q = None /\ size = 200
   \/ exists n,
        param "limit" q <> None
        /\ JSNumber.parseInt (paramToString (param "limit" q)) = Num n
        /\ (n < 1 /\ size = 1
            \/ 1 <= n <= 200 /\ size = n
            \/ 200 < n /\ size = 200))%Z ->
  (param "offset" q = None /\ page = 0
   \/ exists p,
        param "offset" q <> None
        /\ JSNumber.parseInt (paramToString (param "offset" q)) = Num p
        /\ (0 <= p /\ page = p \/ p < 0 /\ page = 0))%Z ->
  (page * size <= 2 ^ 53)%Z ->
  (1 <= size <= 200)%Z
  /\ (forall d : @DbQuery Number Handle,
        parse q = Resolve d ->
        limit d = Num size /\ offset d = Num (page * size))
  /\ (forall d : @Revision2.DbQuery Number Handle,
        Revision2.parse q = Revision2.Resolve d ->
        Revision2.limit d = match param "limit" q with
                            | Some _ => Some (Num size)
                            | None => None
                            end
        /\ Revision2.offset d = Some (Num (page * size))).
Proof.
  intros Hl Ho _.
  assert (Hsize : match param "limit" q with
                  | Some _ => requestedLimit q
                  | None => pageSizeLimit
                  end = Num size /\ (1 <= size <= 200)%Z).
  { destruct Hl as [[-> ->] | (n & Hp & Hn & Hc)].
    - split; [reflexivity | lia].
    - destruct (param "limit" q) as [v|] eqn:E; [|contradiction].
      unfold requestedLimit. rewrite E, Hn. simpl. split; [f_equal|]; lia. }
  assert (Hpage : match param "offset" q with
                  | Some _ => requestedOffset q
                  | None => Num 0
                  end = Num page).
  { destruct Ho as [[-> ->] | (p & Hp & Hn & Hc)].
    - reflexivity.
    - destruct (param "offset" q) as [v|] eqn:E; [|contradiction].
      unfold requestedOffset. rewrite E, Hn. simpl. f_equal. lia. }
  destruct Hsize as [Hs Hb]. split; [exact Hb|]. split.
  - intros d Hres. destruct (parse_limit_offset q d Hres) as [El Eo].
    rewrite Eo, El, Hs, Hpage. split; reflexivity.
  - intros d Hres. destruct (revision2_limit_offset q d Hres) as [El Eo].
    rewrite Eo, El, Hs, Hpage. split; [|reflexivity].
    destruct (param "limit" q); [now rewrite Hs | reflexivity].
Qed.

End BothRevisions.

Section FirstRevision.

Context {Number Handle : Type}.

#[local] Abbreviation Value := (JSValue Number Handle).

Lemma split_join_pieces (sep : ascii) (l : list string) :
  l <> [] ->
  Forall (fun piece => contains sep piece = false) l ->
  JSString.split sep (JSString.join (String sep "") l) = l.
Proof.
  intros Hne Hall. rewrite split_join by assumption.
  clear Hne. induction Hall as [|x r Hx _ IH]; [reflexivity|].
  simpl. now rewrite (split_without _ _ Hx), IH.
Qed.

(** The first revision splits a filter on every colon and looks at the
    first two pieces only: whatever follows a second colon is dropped, an
    empty value is a value, and a value with commas stays one string. *)
Theorem revision1_parseQueryParam (name value : string) (more : list string) :
  Forall (fun piece => contains ":"%char piece = false)
    (name :: value :: more) ->
  Revision1.parseQueryParam (JSString.join ":" (name :: value :: more))
  = (JObj [(toPropertyKey (operators name), JStr value)] : Value).
Proof.
  intros H. unfold Revision1.parseQueryParam.
  rewrite split_join_pieces by (discriminate || assumption).
  reflexivity.
Qed.

(** Where the two grammars agree: on a value without a colon, and on
    [name:value] when [value] is not empty and holds no colon, no comma
    and no line terminator. *)
Theorem revisions_agree_on_filters (query : string) :
  (contains ":"%char query = false ->
   Revision1.parseQueryParam query = (parseQueryParam query : Value))
  /\ (forall name value : string,
        query = (name ++ String ":"%char value)%string ->
        contains ":"%char name = false ->
        value <> "" ->
        contains ":"%char value = false ->
        contains ","%char value = false ->
        hasLineTerminator value = false ->
        Revision1.parseQueryParam query = (parseQueryParam query : Value)).
Proof.
  split.
  - intros H. rewrite parseQueryParam_no_colon by assumption.
    unfold Revision1.parseQueryParam. now rewrite (split_without _ _ H).
  - intros name value -> Hn Hv Hc Hcomma Hl.
    rewrite parseQueryParam_colon by assumption. rewrite Hcomma.
    unfold Revision1.parseQueryParam.
    rewrite split_app, (split_without _ _ Hn), (split_without _ _ Hc).
    reflexivity.
Qed.

End FirstRevision.

(* ================================================================== *)
(** ** The order of the parameters, and two edges *)
(* ================================================================== *)

Section Order.

Context {Number Handle : Type} `{RT : Runtime Number Handle}.

#[local] Abbreviation Value := (JSValue Number Handle).
#[local] Abbreviation Object := (Props Number Handle).
#[local] Abbreviation State := (@LoopState Number Handle).

Implicit Types (st : State) (key : string) (q : Query) (ks : list string).

(** Among distinct names, a parameter is read by membership. *)
Lemma param_In_iff key q (v : ParamValue) :
  NoDup (map fst q) -> (param key q = Some v <-> In (key, v) q).
Proof.
  unfold param. induction q as [|[k x] r IH]; simpl; intros Hnd.
  - split; [discriminate | contradiction].
  - inversion Hnd as [|? ? Hk Hr]; subst.
    destruct (String.eqb_spec key k) as [->|Hne].
    + split.
      * intros [= ->]. now left.
      * intros [[= ->]|Hin]; [reflexivity|].
        exfalso. apply Hk. apply (in_map fst) in Hin. exact Hin.
    + rewrite (IH Hr). split; [now right|].
      intros [[= -> ->]|Hin]; [congruence | assumption].
Qed.

Lemma param_Permutation key q q' :
  NoDup (map fst q) -> Permutation q q' -> param key q = param key q'.
Proof.
  intros Hnd Hp.
  assert (Hnd' : NoDup (map fst q')).
  { eapply Permutation_NoDup; [|exact Hnd]. now apply Permutation_map. }
  destruct (param key q) as [v|] eqn:E.
  - symmetry. apply param_In_iff; [assumption|].
    eapply Permutation_in; [exact Hp|]. now apply param_In_iff.
  - destruct (param key q') as [v|] eqn:E'; [|reflexivity].
    apply param_In_iff in E'; [|assumption].
    apply Permutation_sym in Hp.
    apply (Permutation_in _ Hp) in E'. apply param_In_iff in E'; [|assumption].
    congruence.
Qed.

Lemma get_In_iff (t : PropKey) (o : Object) (x : Value) :
  NoDup (map fst o) -> (get t o = Some x <-> In (t, x) o).
Proof.
  induction o as [|[k y] r IH]; simpl; intros Hnd.
  - split; [discriminate | contradiction].
  - inversion Hnd as [|? ? Hk Hr]; subst.
    destruct (PropKey_eqb t k) eqn:E.
    + apply PropKey_eqb_eq in E as ->. split.
      * intros [= ->]. now left.
      * intros [[= ->]|Hin]; [reflexivity|].
        exfalso. apply Hk. apply (in_map fst) in Hin. exact Hin.
    + rewrite (IH Hr). split; [now right|].
      intros [[= -> ->]|Hin]; [|assumption].
      now rewrite PropKey_eqb_refl in E.
Qed.

Lemma get_Permutation (t : PropKey) (o o' : Object) :
  NoDup (map fst o) -> Permutation o o' -> get t o = get t o'.
Proof.
  intros Hnd Hp.
  assert (Hnd' : NoDup (map fst o')).
  { eapply Permutation_NoDup; [|exact Hnd]. now apply Permutation_map. }
  destruct (get t o) as [x|] eqn:E.
  - symmetry. apply get_In_iff; [assumption|].
    eapply Permutation_in; [exact Hp|]. now apply get_In_iff.
  - destruct (get t o') as [x|] eqn:E'; [|reflexivity].
    apply get_In_iff in E'; [|assumption].
    apply Permutation_sym in Hp.
    apply (Permutation_in _ Hp) in E'. apply get_In_iff in E'; [|assumption].
    congruence.
Qed.

Lemma filtersOf_Permutation q q' :
  Permutation q q' -> Permutation (filtersOf q : Object) (filtersOf q').
Proof. intros H. unfold filtersOf. now apply Permutation_flat_map. Qed.

Lemma filtersOf_NoDup q :
  NoDup (map fst q) -> NoDup (map fst (filtersOf q : Object)).
Proof.
  induction q as [|[k v] r IH]; simpl; intros Hnd; [constructor|].
  inversion Hnd as [|? ? Hk Hr]; subst. specialize (IH Hr).
  change (filtersOf ((k, v) :: r) : Object)
    with ((if reserved k then []
           else match v with
                | PStr s => [(KStr k, parseQueryParam s)]
                | PArr _ => []
                end) ++ (filtersOf r : Object)).
  destruct (reserved k); [exact IH|].
  destruct v as [s|l]; [|exact IH].
  simpl. constructor; [|exact IH].
  intros Hin. apply In_filtersOf in Hin as (key & [= <-] & Hin). contradiction.
Qed.

Lemma turnThrows_Permutation q q' key :
  NoDup (map fst q) -> Permutation q q' ->
  turnThrows q key = turnThrows q' key.
Proof.
  intros Hnd Hp. unfold turnThrows.
  now rewrite (param_Permutation key q q' Hnd Hp).
Qed.

(** The order of the parameters does not matter to whether the call
    resolves, nor to any property of the descriptor but [where]; and
    with no [query] parameter it does not matter to what [where] holds
    either, only to the order of its properties. *)
Theorem parse_order_independent q q' (d : @DbQuery Number Handle) :
  NoDup (map fst q) ->
  Permutation q q' ->
  parse q = Resolve d ->
  exists d',
    parse q' = Resolve d'
    /\ limit d' = limit d /\ offset d' = offset d
    /\ attributes d' = attributes d /\ order d' = order d
    /\ group d' = group d /\ include d' = include d
    /\ (param "query" q = None ->
        forall t, get t (where_ d') = get t (where_ d)).
Proof.
  intros Hnd Hp Hres.
  assert (Hnd' : NoDup (map fst q')).
  { eapply Permutation_NoDup; [|exact Hnd]. now apply Permutation_map. }
  destruct (parse_limit_offset q d Hres) as [Hl Ho].
  rewrite parse_loop in Hres.
  destruct (forIn (map fst q) (initialState q)) as [st [m|]] eqn:E;
    [discriminate|].
  injection Hres as <-. cbn [limit offset attributes order group include
                             where_] in *.
  destruct (forIn (map fst q') (initialState q')) as [st' [m|]] eqn:E'.
  - exfalso.
    assert (Hthrows : exists st msg,
              forIn (map fst q) (initialState q) = (st, Some msg)).
    { apply forIn_throws_iff.
      destruct (proj1 (forIn_throws_iff q')
                  (ex_intro _ st' (ex_intro _ m E'))) as (key & Hin & Ht).
      exists key. split.
      - apply Permutation_sym in Hp.
        eapply Permutation_in; [apply Permutation_map; exact Hp | exact Hin].
      - now rewrite (turnThrows_Permutation q q' key Hnd Hp). }
    destruct Hthrows as (st0 & msg & E0). congruence.
  - assert (Hres' : parse q' =
              Resolve {| where_ := where_ (dbQuery st');
                         offset := JSNumber.mul (offsetVar st') (limitVar st');
                         limit := limit (dbQuery st');
                         attributes := attributes (dbQuery st');
                         order := order (dbQuery st');
                         group := group (dbQuery st');
                         include := include (dbQuery st') |})
      by (now rewrite parse_loop, E').
    eexists. split; [exact Hres'|].
    destruct (parse_limit_offset q' _ Hres') as [Hl' Ho'].
    destruct (forIn_properties q st E) as (Ha & Hor & Hg & Hi).
    destruct (forIn_properties q' st' E') as (Ha' & Hor' & Hg' & Hi').
    cbn [limit offset attributes order group include where_] in *.
    unfold requestedLimit, requestedOffset, requestedAttributes,
      requestedFields, requestedInclude in *.
    rewrite <- !(param_Permutation _ q q' Hnd Hp) in *.
    repeat split; try congruence.
    intros Hq t.
    rewrite (forIn_filters q [] (initialState q) st); auto.
    rewrite (forIn_filters q' [] (initialState q') st'); auto.
    + symmetry. apply get_Permutation.
      * now apply filtersOf_NoDup.
      * now apply filtersOf_Permutation.
    + now rewrite <- (param_Permutation _ q q' Hnd Hp).
Qed.

End Order.

Section Edges.

Context {Number Handle : Type} `{RT : Runtime Number Handle}.

#[local] Abbreviation Value := (JSValue Number Handle).
#[local] Abbreviation State := (@LoopState Number Handle).

Lemma inherited_name_no_colon (name : string) :
  inheritedKey name = true -> contains ":"%char name = false.
Proof.
  unfold inheritedKey. destruct (operators name) as [|member|] eqn:E;
    try discriminate. intros _.
  apply operators_Inherited in E as [_ Hin].
  cbn [In objectPrototypeMembers] in Hin.
  repeat (destruct Hin as [<- | Hin]; [reflexivity|]). contradiction.
Qed.

(** A filter whose prefix is the name of a member of [Object.prototype]
    is stored under the text of that member. *)
Theorem parseQueryParam_inherited (name value : string) :
  inheritedKey name = true ->
  value <> "" ->
  hasLineTerminator value = false ->
  parseQueryParam (name ++ String ":"%char value) =
  (JObj [ (KStr (inheritedToString name),
           if contains ","%char value
           then JArr (map JStr (JSString.split ","%char value))
           else JStr value) ] : Value).
Proof.
  intros Hk Hv Hl.
  rewrite parseQueryParam_colon;
    [| now apply inherited_name_no_colon | assumption | assumption].
  unfold inheritedKey in Hk.
  destruct (operators name) as [|member|] eqn:E; try discriminate.
  apply operators_Inherited in E as [-> _]. reflexivity.
Qed.

(** A [query] that is a JSON number or boolean is no error and changes
    nothing. *)
Theorem query_scalar_changes_nothing st (v : ParamValue) (json : Value) :
  param "query" (request st) = Some v ->
  JSON_parse (unescape (paramToString (Some v))) = Normal json ->
  (exists n, json = JNum n) \/ (exists b, json = JBool b) ->
  parseStep "query" st = Normal st.
Proof.
  intros Hp Hjson Hs. rewrite parseStep_query, Hp.
  cbn [paramToStringMethod bind].
  unfold parseQueryFields, unescapeEscapedQuery. rewrite Hjson. cbn [bind].
  destruct st as [rq ov lv [w o l a od g i]].
  destruct Hs as [[n ->] | [b ->]]; reflexivity.
Qed.

End Edges.

(* ================================================================== *)
(** ** The filter grammar, completely *)
(* ================================================================== *)

Section WholeGrammar.

Context {Number Handle : Type}.

#[local] Abbreviation Value := (JSValue Number Handle).

Lemma go_scanning_no_match (cur s : string) :
  hasColonRest s = false ->
  JSString.splitColonRest_go false cur s = [(cur ++ s)%string].
Proof.
  revert cur. induction s as [|c r IH]; intros cur H;
    cbn [hasColonRest JSString.splitColonRest_go] in *.
  - now rewrite append_empty_r.
  - apply orb_false_iff in H as [Hc Hr]. rewrite Hc.
    rewrite (IH _ Hr), append_assoc. reflexivity.
Qed.

Lemma startsWithNonLT_prefix (name x y : string) :
  JSString.startsWithNonLT (name ++ String ":"%char x) =
  JSString.startsWithNonLT (name ++ String ":"%char y).
Proof. destruct name; reflexivity. Qed.

(** The text before the first match, and the text after its colon. *)
Lemma go_scanning_match (s : string) : forall cur,
  hasColonRest s = true ->
  exists name r,
    s = (name ++ String ":"%char r)%string
    /\ hasColonRest (name ++ ":") = false
    /\ JSString.startsWithNonLT r = true
    /\ JSString.splitColonRest_go false cur s =
       (cur ++ name)%string :: JSString.splitColonRest_go true "" r.
Proof.
  induction s as [|c r IH]; intros cur H;
    cbn [hasColonRest JSString.splitColonRest_go] in *; [discriminate|].
  destruct (Ascii.eqb c ":"%char && JSString.startsWithNonLT r) eqn:E.
  - apply andb_true_iff in E as [Hc Hr]. apply Ascii.eqb_eq in Hc. subst c.
    exists "", r. rewrite append_empty_r. auto.
  - simpl in H. destruct (IH (cur ++ String c "")%string H)
      as (name & r' & -> & Hn & Hr & Hgo).
    exists (String c name), r'. repeat split; auto.
    + cbn [String.append hasColonRest]. rewrite Hn, orb_false_r.
      now rewrite (startsWithNonLT_prefix name "" r').
    + now rewrite Hgo, append_assoc.
Qed.

(** A text is its first line and what follows it. *)
Lemma first_line (r : string) :
  exists line rest,
    r = (line ++ rest)%string
    /\ hasLineTerminator line = false
    /\ (rest = ""
        \/ exists c b, rest = String c b
                       /\ JSString.isLineTerminator c = true).
Proof.
  induction r as [|c r (line & rest & -> & Hl & Hrest)].
  - exists "", "". auto.
  - destruct (JSString.isLineTerminator c) eqn:Ec.
    + exists "", (String c (line ++ rest)). repeat split. right. eauto.
    + exists (String c line), rest. repeat split; auto.
      unfold hasLineTerminator in *. cbn [anyChar]. now rewrite Ec, Hl.
Qed.

(** [parseQueryParam] on every string.  When no colon of the string is
    followed by a character that is no line terminator, the result is the
    string.  Otherwise it is an object with one key: [name] is the text
    before the first such colon, [line] the text after it up to the end
    of the line, and the key is what [operators[name]] turns into. *)
Theorem parseQueryParam_complete (query : string) :
  if hasColonRest query then
    exists name line rest,
      query = (name ++ String ":"%char (line ++ rest))%string
      /\ hasColonRest (name ++ ":") = false
      /\ line <> ""
      /\ hasLineTerminator line = false
      /\ JSString.startsWithNonLT rest = false
      /\ parseQueryParam query =
         (JObj [ (toPropertyKey (operators name),
                  if contains ","%char line
                  then JArr (map JStr (JSString.split ","%char line))
                  else JStr line) ] : Value)
  else parseQueryParam query = (JStr query : Value).
Proof.
  destruct (hasColonRest query) eqn:E.
  - destruct (go_scanning_match query "" E) as (name & r & -> & Hn & Hr & Hgo).
    destruct (first_line r) as (line & rest & -> & Hl & Hrest).
    exists name, line, rest.
    assert (Hne : line <> "").
    { intros ->. destruct Hrest as [-> | (c & b & -> & Hc)]; simpl in Hr;
        [discriminate | now rewrite Hc in Hr]. }
    assert (Hsplit : exists tail,
              JSString.splitColonRest (name ++ String ":"%char (line ++ rest))
              = name :: line :: tail).
    { unfold JSString.splitColonRest. rewrite Hgo. cbn [String.append].
      destruct Hrest as [-> | (c & b & -> & Hc)].
      - rewrite append_empty_r, go_capturing_one_line by assumption. eauto.
      - rewrite go_capturing_cut by assumption. eauto. }
    destruct Hsplit as (tail & Hsplit).
    repeat split; auto.
    + destruct Hrest as [-> | (c & b & -> & Hc)]; simpl;
        [reflexivity | now rewrite Hc].
    + unfold parseQueryParam. rewrite Hsplit.
      destruct (contains ","%char line) eqn:Ec.
      * apply split_with in Ec. apply Nat.ltb_lt in Ec. now rewrite Ec.
      * now rewrite (split_without _ _ Ec).
  - unfold parseQueryParam, JSString.splitColonRest.
    now rewrite go_scanning_no_match.
Qed.

End WholeGrammar.

(* ================================================================== *)
(** ** The filter shorthand and the query, side by side *)
(* ================================================================== *)

Section Shorthand.

Context {Number Handle : Type} `{RT : Runtime Number Handle}.

#[local] Abbreviation Value := (JSValue Number Handle).

Lemma truthy_not_text (name : string) :
  truthy (operators name) = true ->
  existsb (String.eqb name) inheritedTexts = false.
Proof.
  intros Ht. destruct (existsb (String.eqb name) inheritedTexts) eqn:E;
    [|reflexivity].
  apply existsb_exists in E as (x & Hx & Hn). apply String.eqb_eq in Hn.
  subst x. unfold inheritedTexts in Hx.
  apply in_map_iff in Hx as (m & <- & Hm).
  destruct (inheritedToString_facts m Hm) as [_ Hu].
  rewrite Hu in Ht. discriminate.
Qed.

Lemma map_rewriteTree_strings (l : list string) :
  map rewriteTree (map JStr l) = (map JStr l : list Value).
Proof. induction l as [|x r IH]; simpl; [reflexivity | now rewrite IH]. Qed.

Lemma forallb_regular_strings (l : list string) :
  forallb regularTree (map JStr l : list Value) = true.
Proof. induction l as [|x r IH]; simpl; auto. Qed.

(** The filter shorthand and the JSON query say the same: for a name that
    the operator read finds, [field=name:value] stores under the field
    what the rewrite pass makes of [{"name": value}], the value being the
    list of its pieces when it holds a comma. *)
Theorem filter_agrees_with_query (name value : string) :
  truthy (operators name) = true ->
  value <> "" ->
  hasLineTerminator value = false ->
  iterativeReplace
    (JObj [ (KStr name,
             if contains ","%char value
             then JArr (map JStr (JSString.split ","%char value))
             else JStr value) ])
  = Normal (parseQueryParam (name ++ String ":"%char value) : Value).
Proof.
  intros Ht Hv Hl.
  assert (Hn : contains ":"%char name = false).
  { destruct (operators name) as [op|member|] eqn:E; try discriminate Ht.
    - exact (operator_name_no_colon _ _ E).
    - apply inherited_name_no_colon. unfold inheritedKey. now rewrite E. }
  rewrite parseQueryParam_colon by assumption.
  rewrite (pass_regular 2).
  - cbn [rewriteTree keptEntries movedEntries flat_map fst snd app].
    rewrite Ht. cbn [app]. unfold rewriteValue.
    destruct (contains ","%char value).
    + cbn [isObject rewriteTree]. now rewrite map_rewriteTree_strings.
    + cbn [isObject rewriteTree].
      destruct (String.eqb_spec name "model") as [->|]; [discriminate Ht|].
      reflexivity.
  - destruct (contains ","%char value); simpl.
    + assert (G : forall l : list string,
                fold_right (fun (e : Value) m => Nat.max (height e) m) 0
                  (map JStr l) = 0).
      { induction l as [|x r IH]; simpl; auto. }
      rewrite G. simpl. lia.
    + lia.
  - cbn [regularTree keys distinct existsb negb andb forallb fst snd].
    rewrite (truthy_not_text name Ht). cbn [negb andb].
    destruct (contains ","%char value).
    + cbn [regularTree]. now rewrite forallb_regular_strings.
    + reflexivity.
  - reflexivity.
Qed.

End Shorthand.

Section QueryOnly.

Context {Number Handle : Type} `{RT : Runtime Number Handle}.

#[local] Abbreviation Value := (JSValue Number Handle).
#[local] Abbreviation Object := (Props Number Handle).
#[local] Abbreviation State := (@LoopState Number Handle).

Implicit Types (st : State) (key : string) (q : Query) (ks : list string).

(** Merging into an object that has none of the keys appends. *)
Lemma spread_fresh (l : Object) : forall (w : Object),
  NoDup (map fst w ++ map fst l) ->
  fold_left (fun o kv => set (fst kv) (snd kv) o) l w = w ++ l.
Proof.
  induction l as [|[k x] r IH]; intros w Hnd; simpl.
  - now rewrite app_nil_r.
  - rewrite set_notin.
    + rewrite IH.
      * now rewrite <- app_assoc.
      * rewrite map_app, <- app_assoc. exact Hnd.
    + simpl in Hnd. apply NoDup_remove_2 in Hnd.
      rewrite in_app_iff in Hnd. tauto.
Qed.

(** The turns of the reserved names other than [query] leave [where]. *)
Lemma forIn_keeps_where : forall ks st st',
  forIn ks st = (st', None) ->
  (forall key, In key ks -> reserved key = true /\ key <> "query") ->
  where_ (dbQuery st') = where_ (dbQuery st).
Proof.
  induction ks as [|k rest IH]; intros st st' H Hks.
  - now injection H as <-.
  - apply forIn_cons in H as (st1 & E & H).
    rewrite (IH st1 st' H) by (intros; apply Hks; now right).
    destruct (Hks k (or_introl eq_refl)) as [Hr Hq].
    destruct (parseStep_where _ _ _ E)
      as [(_ & _ & ->) | [(-> & _) | (Hr' & _)]];
      [reflexivity | contradiction | congruence].
Qed.

(** With no filter in the request, [where] is what the rewrite pass
    makes of the [query]: for a regular object, the entries that stay
    followed by the entries that move. *)
Theorem parse_where_is_query q (d : @DbQuery Number Handle) (v : ParamValue)
  (props : Object) :
  NoDup (map fst q) ->
  (forall key, In key (map fst q) -> reserved key = true) ->
  param "query" q = Some v ->
  JSON_parse (unescape (paramToString (Some v))) = Normal (JObj props) ->
  regularTree (JObj props) = true ->
  parse q = Resolve d ->
  where_ d = keptEntries rewriteTree props ++ movedEntries rewriteTree props.
Proof.
  intros Hnd Hres Hp Hjson Hreg. rewrite parse_loop.
  destruct (forIn (map fst q) (initialState q)) as [st [m|]] eqn:E;
    [discriminate|].
  intros [= <-]. cbn [where_].
  destruct (in_split _ _ (param_In _ _ _ Hp)) as (pre & post & Hks).
  rewrite Hks in E, Hnd, Hres.
  destruct (NoDup_app_cons _ _ _ Hnd) as [Hpre Hpost].
  apply forIn_split in E as (st1 & E1 & E2).
  apply forIn_cons in E2 as (st2 & E2 & E3).
  pose proof (forIn_request pre (initialState q)) as Hreq1.
  rewrite E1 in Hreq1. simpl in Hreq1.
  rewrite (forIn_keeps_where post st2 st E3).
  2:{ intros key Hin. split.
      - apply Hres. rewrite in_app_iff. right. now right.
      - intros ->. contradiction. }
  assert (Hw1 : where_ (dbQuery st1) = []).
  { rewrite (forIn_keeps_where pre (initialState q) st1 E1); [reflexivity|].
    intros key Hin. split.
    - apply Hres. rewrite in_app_iff. now left.
    - intros ->. contradiction. }
  rewrite parseStep_query, Hreq1, Hp in E2. cbn [paramToStringMethod bind] in E2.
  unfold parseQueryFields, unescapeEscapedQuery in E2. rewrite Hjson in E2.
  cbn [bind] in E2.
  rewrite (pass_regular (height (JObj props))) in E2 by auto.
  cbn [bind] in E2. injection E2 as <-.
  cbn [withDbQuery withWhere dbQuery where_]. rewrite Hw1.
  unfold spread. cbn [rewriteTree ownProperties].
  rewrite spread_fresh; [reflexivity|]. cbn [map app].
  pose proof (iterativeReplace_NoDup props
                (keptEntries rewriteTree props ++ movedEntries rewriteTree props))
    as G.
  apply G.
  - rewrite (pass_regular (height (JObj props))) by auto. reflexivity.
  - apply regular_NoDup in Hreg. now apply NoDup_app_remove_r in Hreg.
Qed.

End QueryOnly.

(* ================================================================== *)
(** ** The store: cells and property lists *)
(* ================================================================== *)

Section StoreFacts.

Context {Number Handle : Type}.

#[local] Abbreviation Value := (JSValue Number Handle).
#[local] Abbreviation Cell := (Heap.Cell Number Handle).
#[local] Abbreviation Store := (Heap.Store Number Handle).

Implicit Types (sigma : Store) (c : Cell) (l : Heap.Loc).

Lemma update_length l c sigma : length (Heap.update l c sigma) = length sigma.
Proof.
  revert l. induction sigma as [|x r IH]; intros [|l]; simpl; auto.
Qed.

Lemma update_same l c sigma :
  l < length sigma -> nth_error (Heap.update l c sigma) l = Some c.
Proof.
  revert l. induction sigma as [|x r IH]; intros [|l] H; simpl in *; try lia.
  - reflexivity.
  - apply IH. lia.
Qed.

Lemma update_other l l' c sigma :
  l' <> l -> nth_error (Heap.update l c sigma) l' = nth_error sigma l'.
Proof.
  revert l l'. induction sigma as [|x r IH]; intros [|l] [|l'] H; simpl;
    try reflexivity; try congruence.
  apply IH. congruence.
Qed.

Lemma update_update l c c' sigma :
  Heap.update l c' (Heap.update l c sigma) = Heap.update l c' sigma.
Proof.
  revert l. induction sigma as [|x r IH]; intros [|l]; simpl; auto.
  now rewrite IH.
Qed.

Lemma nth_error_lt {A : Type} (s : list A) l (x : A) :
  nth_error s l = Some x -> l < length s.
Proof. intros H. apply nth_error_Some. congruence. Qed.

(** The operations on the properties of a cell are those on the
    properties of a tree. *)
Lemma heap_get_tree : @get Number Handle = @Heap.get Value.
Proof. reflexivity. Qed.

Lemma heap_set_tree : @set Number Handle = @Heap.set Value.
Proof. reflexivity. Qed.

Lemma heap_delete_tree : @delete Number Handle = @Heap.delete Value.
Proof. reflexivity. Qed.

Lemma heap_keys_tree : @keys Number Handle = @Heap.keys Value.
Proof. reflexivity. Qed.

End StoreFacts.

Section MapValues.

Context {A B : Type} (f : A -> B).

Implicit Types (o : list (PropKey * A)) (k : PropKey).

Lemma get_mapValues k o :
  Heap.get k (Heap.mapValues f o) = option_map f (Heap.get k o).
Proof.
  induction o as [|[k' v] r IH]; simpl; [reflexivity|].
  now destruct (PropKey_eqb k k').
Qed.

Lemma set_mapValues k (v : A) o :
  Heap.set k (f v) (Heap.mapValues f o) = Heap.mapValues f (Heap.set k v o).
Proof.
  induction o as [|[k' v'] r IH]; simpl; [reflexivity|].
  destruct (PropKey_eqb k k'); simpl; [reflexivity | now rewrite IH].
Qed.

Lemma delete_mapValues k o :
  Heap.delete k (Heap.mapValues f o) = Heap.mapValues f (Heap.delete k o).
Proof.
  induction o as [|[k' v'] r IH]; simpl; [reflexivity|].
  destruct (PropKey_eqb k k'); simpl; [assumption | now rewrite IH].
Qed.

Lemma keys_mapValues o : Heap.keys (Heap.mapValues f o) = Heap.keys o.
Proof.
  induction o as [|[[s|op] v] r IH]; simpl; [reflexivity | now rewrite IH | assumption].
Qed.

Lemma mapValues_app o o' :
  Heap.mapValues f (o ++ o') = Heap.mapValues f o ++ Heap.mapValues f o'.
Proof. apply map_app. Qed.

Lemma elementsFrom_map n (l : list A) :
  Heap.elementsFrom n (map f l) = Heap.mapValues f (Heap.elementsFrom n l).
Proof.
  revert n. induction l as [|e r IH]; intros n; simpl; [reflexivity|].
  now rewrite IH.
Qed.

Lemma copy_mapValues (p o : list (PropKey * A)) :
  Heap.copy (Heap.mapValues f p) (Heap.mapValues f o)
  = Heap.mapValues f (Heap.copy p o).
Proof.
  unfold Heap.copy.
  revert o. induction p as [|[k v] r IH]; intros o; simpl; [reflexivity|].
  now rewrite set_mapValues, IH.
Qed.

End MapValues.

Section Splits.

Context {A : Type}.

Implicit Types (o a b : list (PropKey * A)) (k : PropKey) (x y : A).

(** A property that is there is the first of its key. *)
Lemma get_split k o x :
  Heap.get k o = Some x ->
  exists a b, o = a ++ (k, x) :: b /\ Heap.get k a = None.
Proof.
  induction o as [|[k' v] r IH]; simpl; [discriminate|].
  destruct (PropKey_eqb k k') eqn:E.
  - intros [= ->]. apply PropKey_eqb_eq in E as ->.
    exists [], r. auto.
  - intros H. destruct (IH H) as (a & b & -> & Ha).
    exists ((k', v) :: a), b. split; [reflexivity|]. simpl. now rewrite E.
Qed.

Lemma get_middle_first k a b x :
  Heap.get k a = None -> Heap.get k (a ++ (k, x) :: b) = Some x.
Proof.
  induction a as [|[k' v] r IH]; simpl.
  - now rewrite PropKey_eqb_refl.
  - destruct (PropKey_eqb k k'); [discriminate | assumption].
Qed.

Lemma set_middle_first k a b x y :
  Heap.get k a = None ->
  Heap.set k y (a ++ (k, x) :: b) = a ++ (k, y) :: b.
Proof.
  induction a as [|[k' v] r IH]; simpl.
  - now rewrite PropKey_eqb_refl.
  - destruct (PropKey_eqb k k'); [discriminate|]. intros H. now rewrite IH.
Qed.

Lemma set_absent k o y :
  Heap.get k o = None -> Heap.set k y o = o ++ [(k, y)].
Proof.
  induction o as [|[k' v] r IH]; simpl; [reflexivity|].
  destruct (PropKey_eqb k k'); [discriminate|]. intros H. now rewrite IH.
Qed.

Lemma get_set_first k o y : Heap.get k (Heap.set k y o) = Some y.
Proof.
  induction o as [|[k' v] r IH]; simpl.
  - now rewrite PropKey_eqb_refl.
  - destruct (PropKey_eqb k k') eqn:E; simpl.
    + now rewrite PropKey_eqb_refl.
    + now rewrite E.
Qed.

Lemma set_get_first k o x : Heap.get k o = Some x -> Heap.set k x o = o.
Proof.
  intros H. destruct (get_split _ _ _ H) as (a & b & -> & Ha).
  now apply set_middle_first.
Qed.

Lemma Forall_set (P : PropKey * A -> Prop) k o y :
  (forall k', P (k', y)) -> Forall P o -> Forall P (Heap.set k y o).
Proof.
  intros Hy. induction o as [|[k' v] r IH]; simpl; intros H.
  - constructor; auto.
  - apply Forall_cons_iff in H as [Hv Hr].
    destruct (PropKey_eqb k k'); constructor; auto.
Qed.

Lemma Forall_delete (P : PropKey * A -> Prop) k o :
  Forall P o -> Forall P (Heap.delete k o).
Proof.
  induction o as [|[k' v] r IH]; simpl; intros H; [constructor|].
  apply Forall_cons_iff in H as [Hv Hr].
  destruct (PropKey_eqb k k'); [auto | constructor; auto].
Qed.

Lemma heap_get_In k o x : Heap.get k o = Some x -> In (k, x) o.
Proof.
  intros H. destruct (get_split _ _ _ H) as (a & b & -> & _).
  apply in_elt.
Qed.

End Splits.

(* ================================================================== *)
(** ** Trees in the store *)
(* ================================================================== *)

Section Within.

Implicit Types (a b c : list Heap.Loc).

Lemma within_refl a : within a a.
Proof. exists []. now rewrite app_nil_r. Qed.

Lemma within_trans a b c : within a b -> within b c -> within a c.
Proof.
  intros [r1 H1] [r2 H2]. exists (r1 ++ r2).
  rewrite app_assoc. rewrite <- H2. now apply Permutation_app_tail.
Qed.

Lemma within_app a a' b b' :
  within a a' -> within b b' -> within (a ++ b) (a' ++ b').
Proof.
  intros [ra Ha] [rb Hb]. exists (ra ++ rb).
  rewrite <- Ha, <- Hb. rewrite <- !app_assoc. apply Permutation_app_head.
  rewrite !app_assoc. apply Permutation_app_tail. apply Permutation_app_comm.
Qed.

Lemma within_nil a : within [] a.
Proof. now exists a. Qed.

Lemma within_app_l a b : within a (a ++ b).
Proof. now exists b. Qed.

Lemma within_app_r a b : within b (a ++ b).
Proof. exists a. apply Permutation_app_comm. Qed.

Lemma within_swap a b c : within (a ++ b ++ c) (b ++ a ++ c).
Proof.
  exists []. rewrite app_nil_r, !app_assoc. apply Permutation_app_tail.
  apply Permutation_app_comm.
Qed.

Lemma within_NoDup a b : within a b -> NoDup b -> NoDup a.
Proof.
  intros [r H] Hb. apply (NoDup_app_remove_r a r).
  eapply Permutation_NoDup; [symmetry; exact H | exact Hb].
Qed.

Lemma within_In a b x : within a b -> In x a -> In x b.
Proof.
  intros [r H] Hx. eapply Permutation_in; [exact H|].
  apply in_or_app. now left.
Qed.

(** What is within [b] beside [a] is not in [a]. *)
Lemma within_apart a a' b x :
  within (a ++ a') b -> NoDup b -> In x a -> ~ In x a'.
Proof.
  intros H Hb Hx Hx'. apply (within_NoDup _ _ H) in Hb. clear H.
  revert Hb Hx. induction a as [|y r IH]; simpl; [tauto|].
  intros Hb Hx. apply NoDup_cons_iff in Hb as [Hn Hb].
  destruct Hx as [->|Hx].
  - apply Hn, in_or_app. now right.
  - now apply IH.
Qed.

End Within.

Section StoreTrees.

Context {Number Handle : Type}.

#[local] Abbreviation Value := (JSValue Number Handle).
#[local] Abbreviation Located := (Located Number Handle).
#[local] Abbreviation Store := (Heap.Store Number Handle).

Implicit Types (sigma : Store) (t x y : Located)
  (o : list (PropKey * Located)) (k : PropKey).

Lemma Located_induction (P : Located -> Prop) :
  (forall p, P (LScalar p)) ->
  (forall l props, Forall (fun kv => P (snd kv)) props -> P (LObject l props)) ->
  (forall l elems, Forall P elems -> P (LArray l elems)) ->
  forall t, P t.
Proof.
  intros Hs Ho Ha. fix IH 1. intros [p|l props|l elems].
  - apply Hs.
  - apply Ho. induction props as [|kv r IHr]; constructor; [apply IH | exact IHr].
  - apply Ha. induction elems as [|e r IHr]; constructor; [apply IH | exact IHr].
Qed.

Lemma holds_object sigma l o :
  holds sigma (LObject l o) <->
  nth_error sigma l = Some (Heap.CObject (Heap.mapValues root o))
  /\ Forall (fun kv => holds sigma (snd kv)) o.
Proof.
  cbn [holds]. apply and_iff_compat_l.
  induction o as [|kv r IH]; cbn [fold_right].
  - split; auto.
  - rewrite Forall_cons_iff, IH. reflexivity.
Qed.

Lemma holds_array sigma l (elems : list Located) :
  holds sigma (LArray l elems) <->
  nth_error sigma l = Some (Heap.CArray (map root elems))
  /\ Forall (holds sigma) elems.
Proof.
  cbn [holds]. apply and_iff_compat_l.
  induction elems as [|e r IH]; cbn [fold_right].
  - split; auto.
  - rewrite Forall_cons_iff, IH. reflexivity.
Qed.

Lemma cells_object l o : cells (LObject l o) = l :: cellsOf o.
Proof. reflexivity. Qed.

Lemma cellsOf_app o o' : cellsOf (o ++ o') = cellsOf o ++ cellsOf o'.
Proof. apply flat_map_app. Qed.

Lemma cellsOf_cons k x o : cellsOf ((k, x) :: o) = cells x ++ cellsOf o.
Proof. reflexivity. Qed.

Lemma In_cellsOf o (loc : Heap.Loc) :
  In loc (cellsOf o) <-> exists kv, In kv o /\ In loc (cells (snd kv)).
Proof. apply in_flat_map. Qed.

(** A tree that the store holds is held by a store with the same cells
    at the references of the tree. *)
Lemma holds_frame sigma sigma' t :
  (forall loc, In loc (cells t) -> nth_error sigma' loc = nth_error sigma loc) ->
  holds sigma t -> holds sigma' t.
Proof.
  induction t as [p|l props IH|l elems IH] using Located_induction;
    intros Hsame H.
  - exact I.
  - apply holds_object in H as [Hl Hc]. apply holds_object. split.
    + rewrite Hsame; [assumption | now left].
    + rewrite Forall_forall in *. intros kv Hin.
      apply IH; [assumption | | now apply Hc].
      intros loc Hloc. apply Hsame. right.
      apply in_flat_map. eauto.
  - apply holds_array in H as [Hl Hc]. apply holds_array. split.
    + rewrite Hsame; [assumption | now left].
    + rewrite Forall_forall in *. intros e Hin.
      apply IH; [assumption | | now apply Hc].
      intros loc Hloc. apply Hsame. right.
      apply in_flat_map. eauto.
Qed.

(** The references of a tree that the store holds name cells of it. *)
Lemma holds_bound sigma t :
  holds sigma t -> forall loc, In loc (cells t) -> loc < length sigma.
Proof.
  induction t as [p|l props IH|l elems IH] using Located_induction;
    intros H loc Hloc.
  - destruct Hloc.
  - apply holds_object in H as [Hl Hc]. destruct Hloc as [<-|Hloc].
    + eapply nth_error_lt; eauto.
    + apply in_flat_map in Hloc as (kv & Hin & Hloc).
      rewrite Forall_forall in *. eapply IH; eauto.
  - apply holds_array in H as [Hl Hc]. destruct Hloc as [<-|Hloc].
    + eapply nth_error_lt; eauto.
    + apply in_flat_map in Hloc as (e & Hin & Hloc).
      rewrite Forall_forall in *. eapply IH; eauto.
Qed.

Lemma holds_unchanged sigma sigma' t :
  unchanged sigma sigma' -> holds sigma t -> holds sigma' t.
Proof.
  intros Hu H. apply (holds_frame sigma); [|assumption].
  intros loc Hloc. apply Hu. eapply holds_bound; eauto.
Qed.

(** A store holds at most one tree at a reference. *)
Lemma holds_unique sigma t : forall t',
  holds sigma t -> holds sigma t' -> root t = root t' -> t = t'.
Proof.
  induction t as [p|l props IH|l elems IH] using Located_induction;
    intros [p'|l' props'|l' elems'] H H' Hr; try discriminate Hr.
  - now injection Hr as ->.
  - injection Hr as <-.
    apply holds_object in H as [Hl Hc], H' as [Hl' Hc'].
    rewrite Hl in Hl'. injection Hl' as E. f_equal. clear Hl.
    revert props' E Hc'. induction props as [|[k x] r IHr];
      intros [|[k' x'] r'] E Hc'; try discriminate E; [reflexivity|].
    cbn in E. injection E as -> Ex Er.
    apply Forall_cons_iff in IH as [IHx IHrest], Hc as [Hx Hrest],
      Hc' as [Hx' Hrest'].
    f_equal; [f_equal; now apply IHx | now apply IHr].
  - injection Hr as <-.
    apply holds_object in H as [Hl _]. apply holds_array in H' as [Hl' _].
    congruence.
  - injection Hr as <-.
    apply holds_array in H as [Hl _]. apply holds_object in H' as [Hl' _].
    congruence.
  - injection Hr as <-.
    apply holds_array in H as [Hl Hc], H' as [Hl' Hc'].
    rewrite Hl in Hl'. injection Hl' as E. f_equal. clear Hl.
    revert elems' E Hc'. induction elems as [|x r IHr];
      intros [|x' r'] E Hc'; try discriminate E; [reflexivity|].
    cbn in E. injection E as Ex Er.
    apply Forall_cons_iff in IH as [IHx IHrest], Hc as [Hx Hrest],
      Hc' as [Hx' Hrest'].
    f_equal; [now apply IHx | now apply IHr].
Qed.

(** What a store holds at a reference is one value. *)
Lemma represents_unique sigma (x : Heap.Stored Number Handle) (v v' : Value) :
  represents sigma x v -> represents sigma x v' -> v = v'.
Proof.
  intros (t & H & Hr & <-) (t' & H' & Hr' & <-).
  f_equal. apply (holds_unique sigma); congruence.
Qed.

(** The references below a property, through [delete] and [set]. *)
Lemma cellsOf_delete k o : within (cellsOf (Heap.delete k o)) (cellsOf o).
Proof.
  induction o as [|[k' v] r IH]; simpl; [apply within_refl|].
  destruct (PropKey_eqb k k').
  - eapply within_trans; [exact IH | apply within_app_r].
  - rewrite cellsOf_cons. apply within_app; [apply within_refl | exact IH].
Qed.

Lemma cellsOf_get_delete k o x :
  Heap.get k o = Some x ->
  within (cells x ++ cellsOf (Heap.delete k o)) (cellsOf o).
Proof.
  induction o as [|[k' v] r IH]; simpl; [discriminate|].
  destruct (PropKey_eqb k k').
  - intros [= ->]. apply within_app; [apply within_refl | apply cellsOf_delete].
  - intros H. rewrite cellsOf_cons.
    eapply within_trans; [apply within_swap|].
    apply within_app; [apply within_refl | now apply IH].
Qed.

Lemma cellsOf_get k o x : Heap.get k o = Some x -> within (cells x) (cellsOf o).
Proof.
  intros H. eapply within_trans; [apply within_app_l|].
  apply (cellsOf_get_delete _ _ _ H).
Qed.

Lemma cellsOf_set k o y :
  within (cellsOf (Heap.set k y o)) (cells y ++ cellsOf o).
Proof.
  induction o as [|[k' v] r IH]; simpl.
  - apply within_refl.
  - destruct (PropKey_eqb k k'); rewrite !cellsOf_cons.
    + apply within_app; [apply within_refl | apply within_app_r].
    + eapply within_trans; [|apply within_swap].
      apply within_app; [apply within_refl | exact IH].
Qed.

Lemma cellsOf_replace k o x x' :
  Heap.get k o = Some x -> within (cells x') (cells x) ->
  within (cellsOf (Heap.set k x' o)) (cellsOf o).
Proof.
  intros Hg Hw. destruct (get_split _ _ _ Hg) as (a & b & -> & Ha).
  rewrite (set_middle_first _ _ _ _ _ Ha), !cellsOf_app, !cellsOf_cons.
  apply within_app; [apply within_refl|].
  apply within_app; [exact Hw | apply within_refl].
Qed.

End StoreTrees.

(* ================================================================== *)
(** ** The rewrite pass over the store *)
(* ================================================================== *)

Section StorePass.

Context {Number Handle : Type} `{RT : Runtime Number Handle}.

#[local] Abbreviation Value := (JSValue Number Handle).
#[local] Abbreviation Located := (Located Number Handle).
#[local] Abbreviation Stored := (Heap.Stored Number Handle).
#[local] Abbreviation Store := (Heap.Store Number Handle).

Implicit Types (sigma : Store) (t x y : Located) (l : Heap.Loc)
  (o : list (PropKey * Located)) (k : PropKey) (key : string).

(** Reads and writes on the tree and on the cell, side by side. *)
Lemma read_erase k o : read k (Heap.mapValues erase o) = erase (child k o).
Proof.
  unfold read, child. rewrite heap_get_tree, get_mapValues.
  now destruct (Heap.get k o).
Qed.

Lemma read_root k o :
  Heap.read k (Heap.mapValues root o) = root (child k o).
Proof.
  unfold Heap.read, child. rewrite get_mapValues.
  now destruct (Heap.get k o).
Qed.

Lemma set_erase k x o :
  set k (erase x) (Heap.mapValues erase o) = Heap.mapValues erase (Heap.set k x o).
Proof. rewrite heap_set_tree. apply set_mapValues. Qed.

Lemma keys_erase o : keys (Heap.mapValues erase o) = Heap.keys o.
Proof. rewrite heap_keys_tree. apply keys_mapValues. Qed.

Lemma replaceKey_erase o key op :
  replaceKeyWithOperator (Heap.mapValues erase o) key op
  = Heap.mapValues erase
      (Heap.set (toPropertyKey op) (child (KStr key) o)
         (Heap.delete (KStr key) o)).
Proof.
  unfold replaceKeyWithOperator. rewrite read_erase.
  rewrite heap_delete_tree, delete_mapValues. apply set_erase.
Qed.

Lemma isObject_erase t :
  isObject (erase t) = match root t with Heap.Ref _ => true | _ => false end.
Proof. destruct t as [[]| |]; reflexivity. Qed.

Lemma child_cells k o : within (cells (child k o)) (cellsOf o).
Proof.
  unfold child. destruct (Heap.get k o) eqn:E.
  - eapply cellsOf_get; eauto.
  - apply within_nil.
Qed.

Lemma child_delete_cells k o :
  within (cells (child k o) ++ cellsOf (Heap.delete k o)) (cellsOf o).
Proof.
  unfold child. destruct (Heap.get k o) eqn:E.
  - now apply cellsOf_get_delete.
  - apply cellsOf_delete.
Qed.

Lemma child_holds sigma k o :
  Forall (fun kv => holds sigma (snd kv)) o -> holds sigma (child k o).
Proof.
  intros H. unfold child. destruct (Heap.get k o) eqn:E; [|exact I].
  rewrite Forall_forall in H. apply (H _ (heap_get_In _ _ _ E)).
Qed.

(** Running an action whose first step is known. *)
Lemma andThen_normal {A B : Type} (c : Heap.Action Number Handle A)
  (k : A -> Heap.Action Number Handle B) sigma sigma' a :
  c sigma = Some (sigma', Normal a) -> Heap.andThen c k sigma = k a sigma'.
Proof. unfold Heap.andThen. now intros ->. Qed.

Lemma andThen_throw {A B : Type} (c : Heap.Action Number Handle A)
  (k : A -> Heap.Action Number Handle B) sigma sigma' msg :
  c sigma = Some (sigma', Throw msg) ->
  Heap.andThen c k sigma = Some (sigma', Throw msg).
Proof. unfold Heap.andThen. now intros ->. Qed.

Lemma andThen_inner {A B C : Type} (c : Heap.Action Number Handle A)
  (k0 : A -> Heap.Action Number Handle B)
  (k : B -> Heap.Action Number Handle C) sigma sigma' a :
  c sigma = Some (sigma', Normal a) ->
  Heap.andThen (Heap.andThen c k0) k sigma = Heap.andThen (k0 a) k sigma'.
Proof. unfold Heap.andThen. now intros ->. Qed.

Lemma load_run sigma l c :
  nth_error sigma l = Some c -> Heap.load l sigma = Some (sigma, Normal c).
Proof. intros Hl. unfold Heap.load. now rewrite Hl. Qed.

Lemma loadObject_run sigma l props :
  nth_error sigma l = Some (Heap.CObject props) ->
  Heap.loadObject l sigma = Some (sigma, Normal props).
Proof.
  intros Hl. unfold Heap.loadObject, Heap.andThen, Heap.load. now rewrite Hl.
Qed.

Lemma loadArray_run sigma l elems :
  nth_error sigma l = Some (Heap.CArray elems) ->
  Heap.loadArray l sigma = Some (sigma, Normal elems).
Proof.
  intros Hl. unfold Heap.loadArray, Heap.andThen, Heap.load. now rewrite Hl.
Qed.

Lemma store_run sigma l c :
  l < length sigma ->
  Heap.store l c sigma = Some (Heap.update l c sigma, Normal tt).
Proof.
  intros Hlt. unfold Heap.store. apply Nat.ltb_lt in Hlt. now rewrite Hlt.
Qed.

Lemma loadObject_holds sigma l o :
  holds sigma (LObject l o) ->
  Heap.loadObject l sigma = Some (sigma, Normal (Heap.mapValues root o)).
Proof.
  intros H. apply holds_object in H as [Hl _]. now apply loadObject_run.
Qed.

Lemma loadArray_holds sigma l (elems : list Located) :
  holds sigma (LArray l elems) ->
  Heap.loadArray l sigma = Some (sigma, Normal (map root elems)).
Proof.
  intros H. apply holds_array in H as [Hl _]. now apply loadArray_run.
Qed.

Lemma changedWithin_refl among sigma : changedWithin among sigma sigma.
Proof. split; auto. Qed.

Lemma changedWithin_trans a1 a2 a sigma sigma1 sigma2 :
  changedWithin a1 sigma sigma1 -> changedWithin a2 sigma1 sigma2 ->
  incl a1 a -> incl a2 a ->
  changedWithin a sigma sigma2.
Proof.
  intros [L1 H1] [L2 H2] I1 I2. split; [congruence|].
  intros loc Hloc. rewrite H2, H1; auto.
Qed.

(** The cell of an object is given other properties, each a tree that
    the store holds, with references from those it had. *)
Lemma store_object sigma l o o1 :
  holds sigma (LObject l o) -> NoDup (cells (LObject l o)) ->
  within (cellsOf o1) (cellsOf o) ->
  Forall (fun kv => holds sigma (snd kv)) o1 ->
  let sigma1 := Heap.update l (Heap.CObject (Heap.mapValues root o1)) sigma in
  Heap.store l (Heap.CObject (Heap.mapValues root o1)) sigma
  = Some (sigma1, Normal tt)
  /\ holds sigma1 (LObject l o1)
  /\ NoDup (cells (LObject l o1))
  /\ changedWithin [l] sigma sigma1.
Proof.
  intros H Hnd Hw Hc sigma1.
  pose proof H as H0. apply holds_object in H0 as [Hl _].
  pose proof (nth_error_lt _ _ _ Hl) as Hlt.
  rewrite cells_object in *. apply NoDup_cons_iff in Hnd as [Hnl Hnd].
  assert (Hnl1 : ~ In l (cellsOf o1)).
  { intros Hin. apply Hnl. eapply within_In; eauto. }
  split; [|split; [|split; [|split]]].
  - now apply store_run.
  - apply holds_object. split; [now apply update_same|].
    rewrite Forall_forall in *. intros kv Hin.
    apply (holds_frame sigma); [|now apply Hc].
    intros loc Hloc. apply update_other. intros ->.
    apply Hnl1. apply In_cellsOf. eauto.
  - constructor; [assumption|]. eapply within_NoDup; eauto.
  - apply update_length.
  - intros loc Hloc. apply update_other. intros ->. apply Hloc. now left.
Qed.

(** [replaceKeyWithOperator] on the cell and on the tree. *)
Lemma replaceKeyWithOperator_agrees sigma l o key op :
  holds sigma (LObject l o) -> NoDup (cells (LObject l o)) ->
  let o1 := Heap.set (toPropertyKey op) (child (KStr key) o)
              (Heap.delete (KStr key) o) in
  exists sigma1,
    Heap.replaceKeyWithOperator l key op sigma = Some (sigma1, Normal tt)
    /\ holds sigma1 (LObject l o1)
    /\ NoDup (cells (LObject l o1))
    /\ within (cellsOf o1) (cellsOf o)
    /\ changedWithin [l] sigma sigma1.
Proof.
  intros H Hnd o1.
  pose proof H as H0. apply holds_object in H0 as [Hl Hc].
  assert (Hw : within (cellsOf o1) (cellsOf o)).
  { eapply within_trans; [apply cellsOf_set | apply child_delete_cells]. }
  assert (Hc1 : Forall (fun kv => holds sigma (snd kv)) o1).
  { apply Forall_set; [intros; now apply child_holds|].
    now apply Forall_delete. }
  destruct (store_object sigma l o o1 H Hnd Hw Hc1) as (Hs & Hh & Hn & Hch).
  eexists. split; [|split; [exact Hh | split; [exact Hn | split; [exact Hw | exact Hch]]]].
  unfold Heap.replaceKeyWithOperator.
  pose proof (nth_error_lt _ _ _ Hl) as Hlt.
  rewrite (andThen_normal _ _ _ _ _ (loadObject_holds _ _ _ H)).
  rewrite read_root.
  rewrite (andThen_normal _ _ _ _ _ (store_run _ _ _ Hlt)).
  rewrite (andThen_normal _ _ _ _ _
             (loadObject_run _ _ _ (update_same _ _ _ Hlt))).
  rewrite store_run by now rewrite update_length.
  rewrite update_update, delete_mapValues, set_mapValues. reflexivity.
Qed.

(** The pass on the tree under a key of an object: the cell of the object
    and the trees under its other keys are as they were. *)
Lemma descend_agrees onTree onStore sigma l o k x :
  passAgrees onTree onStore ->
  holds sigma (LObject l o) -> NoDup (cells (LObject l o)) ->
  Heap.get k o = Some x ->
  match onTree (erase x) with
  | Some (Normal v') =>
      exists sigma' x',
        onStore (root x) sigma = Some (sigma', Normal tt)
        /\ erase x' = v'
        /\ holds sigma' (LObject l (Heap.set k x' o))
        /\ NoDup (cells (LObject l (Heap.set k x' o)))
        /\ within (cellsOf (Heap.set k x' o)) (cellsOf o)
        /\ changedWithin (cellsOf o) sigma sigma'
  | Some (Throw msg) =>
      exists sigma',
        onStore (root x) sigma = Some (sigma', Throw msg)
        /\ changedWithin (cellsOf o) sigma sigma'
  | None => True
  end.
Proof.
  intros Hagree H Hnd Hg.
  pose proof H as H0. apply holds_object in H0 as [Hl Hc].
  rewrite cells_object in Hnd. apply NoDup_cons_iff in Hnd as [Hnl Hnd].
  pose proof (cellsOf_get _ _ _ Hg) as Hwx.
  assert (Hx : holds sigma x).
  { rewrite Forall_forall in Hc. apply (Hc _ (heap_get_In _ _ _ Hg)). }
  specialize (Hagree x sigma Hx (within_NoDup _ _ Hwx Hnd)).
  destruct (onTree (erase x)) as [[v'|msg]|]; [| |exact I].
  - destruct Hagree as (sigma' & x' & Hrun & Hx' & Hnx' & He & Hr & Hw & Hch).
    exists sigma', x'. split; [exact Hrun | split; [exact He|]].
    pose proof (cellsOf_replace _ _ _ _ Hg Hw) as Hw'.
    destruct Hch as [Hlen Hsame].
    destruct (get_split _ _ _ Hg) as (a & b & -> & Ha).
    rewrite (set_middle_first _ _ _ _ _ Ha) in *.
    rewrite cellsOf_app, cellsOf_cons in Hnd, Hnl.
    split; [|split; [|split; [exact Hw'|]]].
    + apply holds_object. split.
      * rewrite Hsame.
        -- rewrite Hl. unfold Heap.mapValues. rewrite !map_app. cbn [map fst snd].
           now rewrite Hr.
        -- intros Hin. apply Hnl. apply in_or_app. right. apply in_or_app.
           now left.
      * apply Forall_app in Hc as [Hca Hcb].
        apply Forall_cons_iff in Hcb as [_ Hcb].
        apply Forall_app. split; [|constructor; [exact Hx'|]].
        -- rewrite Forall_forall in *. intros kv Hin.
           apply (holds_frame sigma); [|now apply Hca].
           intros loc Hloc. apply Hsame. intros Hinx.
           apply (within_apart (cellsOf a) (cells x ++ cellsOf b)
                    (cellsOf a ++ cells x ++ cellsOf b) loc
                    (within_refl _) Hnd).
           ++ apply In_cellsOf. eauto.
           ++ apply in_or_app. now left.
        -- rewrite Forall_forall in *. intros kv Hin.
           apply (holds_frame sigma); [|now apply Hcb].
           intros loc Hloc. apply Hsame. intros Hinx.
           apply (within_apart (cells x) (cellsOf b)
                    (cellsOf a ++ cells x ++ cellsOf b) loc
                    (within_app_r _ _) Hnd Hinx).
           apply In_cellsOf. eauto.
    + rewrite cells_object. constructor.
      * intros Hin. apply Hnl.
        rewrite <- (cellsOf_cons k), <- cellsOf_app.
        eapply within_In; eauto.
      * eapply within_NoDup; [exact Hw'|].
        now rewrite cellsOf_app, cellsOf_cons.
    + split; [exact Hlen|]. intros loc Hloc. apply Hsame. intros Hin.
      apply Hloc. exact (within_In _ _ _ Hwx Hin).
  - destruct Hagree as (sigma' & Hrun & Hlen & Hsame).
    exists sigma'. split; [exact Hrun|]. split; [exact Hlen|].
    intros loc Hloc. apply Hsame. intros Hin.
    apply Hloc. exact (within_In _ _ _ Hwx Hin).
Qed.

Lemma changedWithin_incl a b sigma sigma' :
  changedWithin a sigma sigma' -> incl a b -> changedWithin b sigma sigma'.
Proof.
  intros [Hlen Hsame] Hi. split; [exact Hlen|].
  intros loc Hloc. apply Hsame. auto.
Qed.

Lemma within_incl a b : within a b -> incl a b.
Proof. intros H x. now apply within_In. Qed.

Lemma child_object k o x :
  child k o = x -> (exists c, root x = Heap.Ref c) -> Heap.get k o = Some x.
Proof.
  unfold child. destruct (Heap.get k o); intros <- [c Hc];
    [reflexivity | discriminate].
Qed.

(** One visit of the callback, on the cell and on the tree. *)
Lemma visitKey_agrees onTree onStore sigma l o key :
  passAgrees onTree onStore ->
  holds sigma (LObject l o) -> NoDup (cells (LObject l o)) ->
  match visitKey onTree (Heap.mapValues erase o) key with
  | Some (Normal json') =>
      exists sigma' o',
        Heap.visitKey onStore l key sigma = Some (sigma', Normal tt)
        /\ Heap.mapValues erase o' = json'
        /\ holds sigma' (LObject l o')
        /\ NoDup (cells (LObject l o'))
        /\ within (cellsOf o') (cellsOf o)
        /\ changedWithin (cells (LObject l o)) sigma sigma'
  | Some (Throw msg) =>
      exists sigma',
        Heap.visitKey onStore l key sigma = Some (sigma', Throw msg)
        /\ changedWithin (cells (LObject l o)) sigma sigma'
  | None => True
  end.
Proof.
  intros Hagree H Hnd.
  unfold visitKey, Heap.visitKey.
  rewrite (andThen_normal _ _ _ _ _ (loadObject_holds _ _ _ H)).
  rewrite !read_erase, read_root, isObject_erase.
  destruct (root (child (KStr key) o)) as [p|c] eqn:Er.
  - (* a value that is no object *)
    assert (Ex : child (KStr key) o = LScalar p)
      by (destruct (child (KStr key) o); cbn in Er; try discriminate Er;
          congruence).
    rewrite Ex. cbn [erase].
    destruct (if String.eqb key "model" then db (toString (Heap.inject p))
              else None) as [handle|].
    + pose proof H as H0. apply holds_object in H0 as [Hl Hc].
      destruct (store_object sigma l o
                  (Heap.set (KStr "model") (LScalar (Heap.PHandle handle)) o)
                  H Hnd) as (Hs & Hh & Hn & Hch).
      { apply (cellsOf_set (KStr "model") o (LScalar (Heap.PHandle handle))). }
      { apply Forall_set; [intros; exact I | exact Hc]. }
      eexists _, _. split; [|split; [|split; [exact Hh | split; [exact Hn|split]]]].
      * rewrite (andThen_normal _ _ _ _ _ (loadObject_holds _ _ _ H)).
        rewrite <- Hs. f_equal. f_equal.
        apply (set_mapValues root (KStr "model") (LScalar (Heap.PHandle handle))).
      * symmetry.
        apply (set_erase (KStr "model") (LScalar (Heap.PHandle handle))).
      * apply (cellsOf_set (KStr "model") o (LScalar (Heap.PHandle handle))).
      * eapply changedWithin_incl; [exact Hch|].
        intros loc [<-|[]]. now left.
    + destruct (truthy (operators key)).
      * destruct (replaceKeyWithOperator_agrees sigma l o key (operators key)
                    H Hnd) as (sigma1 & Hrun & Hh & Hn & Hw & Hch).
        rewrite Ex in *.
        eexists _, _. split; [exact Hrun|].
        split; [|split; [exact Hh | split; [exact Hn|split; [exact Hw|]]]].
        -- rewrite replaceKey_erase, Ex. reflexivity.
        -- eapply changedWithin_incl; [exact Hch|].
           intros loc [<-|[]]. now left.
      * exists sigma, o. split; [reflexivity|]. split; [reflexivity|].
        split; [exact H|]. split; [exact Hnd|].
        split; [apply within_refl | apply changedWithin_refl].
  - (* an object or an array *)
    assert (Hg : Heap.get (KStr key) o = Some (child (KStr key) o))
      by (eapply child_object; eauto).
    set (x := child (KStr key) o) in *.
    destruct (truthy (operators key)).
    + destruct (replaceKeyWithOperator_agrees sigma l o key (operators key)
                  H Hnd) as (sigma1 & Hrun & Hh & Hn & Hw & Hch).
      fold x in Hrun, Hh, Hn, Hw.
      set (o1 := Heap.set (toPropertyKey (operators key)) x
                   (Heap.delete (KStr key) o)) in *.
      rewrite (andThen_normal _ _ _ _ _ Hrun).
      rewrite (andThen_normal _ _ _ _ _ (loadObject_holds _ _ _ Hh)).
      rewrite replaceKey_erase. fold x. fold o1.
      rewrite read_erase, read_root.
      assert (Hg1 : Heap.get (toPropertyKey (operators key)) o1 = Some x)
        by apply get_set_first.
      assert (Ec : child (toPropertyKey (operators key)) o1 = x)
        by (unfold child; now rewrite Hg1).
      rewrite Ec.
      pose proof (descend_agrees onTree onStore sigma1 l o1 _ x
                    Hagree Hh Hn Hg1) as D.
      destruct (onTree (erase x)) as [[v'|msg]|]; cbn [bindF retF];
        [| |exact I].
      * destruct D as (sigma' & x' & Hrun' & He & Hh' & Hn' & Hw' & Hch').
        eexists sigma', _. split; [exact Hrun'|].
        split; [|split; [exact Hh' | split; [exact Hn'|split]]].
        -- rewrite <- He. symmetry. apply set_erase.
        -- eapply within_trans; eauto.
        -- eapply changedWithin_trans; [exact Hch | exact Hch' | |].
           ++ intros loc [<-|[]]. now left.
           ++ intros loc Hloc. right. eapply within_In; eauto.
      * destruct D as (sigma' & Hrun' & Hch').
        exists sigma'. split; [exact Hrun'|].
        eapply changedWithin_trans; [exact Hch | exact Hch' | |].
        -- intros loc [<-|[]]. now left.
        -- intros loc Hloc. right. eapply within_In; eauto.
    + pose proof (descend_agrees onTree onStore sigma l o _ x
                    Hagree H Hnd Hg) as D.
      rewrite Er in D.
      destruct (onTree (erase x)) as [[v'|msg]|]; cbn [bindF retF];
        [| |exact I].
      * destruct D as (sigma' & x' & Hrun' & He & Hh' & Hn' & Hw' & Hch').
        eexists sigma', _. split; [exact Hrun'|].
        split; [|split; [exact Hh' | split; [exact Hn'|split; [exact Hw'|]]]].
        -- rewrite <- He. symmetry. apply set_erase.
        -- eapply changedWithin_incl; [exact Hch'|].
           intros loc Hloc. now right.
      * destruct D as (sigma' & Hrun' & Hch').
        exists sigma'. split; [exact Hrun'|].
        eapply changedWithin_incl; [exact Hch'|].
        intros loc Hloc. now right.
Qed.

(** The loop over the keys. *)
Lemma forEachKey_agrees onTree onStore l :
  passAgrees onTree onStore ->
  forall ks o sigma,
  holds sigma (LObject l o) -> NoDup (cells (LObject l o)) ->
  match forEachKey (visitKey onTree) ks (Heap.mapValues erase o) with
  | Some (Normal json') =>
      exists sigma' o',
        Heap.forEach (Heap.visitKey onStore l) ks sigma
        = Some (sigma', Normal tt)
        /\ Heap.mapValues erase o' = json'
        /\ holds sigma' (LObject l o')
        /\ NoDup (cells (LObject l o'))
        /\ within (cellsOf o') (cellsOf o)
        /\ changedWithin (cells (LObject l o)) sigma sigma'
  | Some (Throw msg) =>
      exists sigma',
        Heap.forEach (Heap.visitKey onStore l) ks sigma
        = Some (sigma', Throw msg)
        /\ changedWithin (cells (LObject l o)) sigma sigma'
  | None => True
  end.
Proof.
  intros Hagree. induction ks as [|key rest IH]; intros o sigma H Hnd.
  - cbn. exists sigma, o. split; [reflexivity|]. split; [reflexivity|].
    split; [exact H|]. split; [exact Hnd|].
    split; [apply within_refl | apply changedWithin_refl].
  - cbn [forEachKey Heap.forEach].
    pose proof (visitKey_agrees onTree onStore sigma l o key Hagree H Hnd) as V.
    destruct (visitKey onTree (Heap.mapValues erase o) key) as [[json1|msg]|];
      cbn [bindF]; [| |exact I].
    + destruct V as (sigma1 & o1 & Hrun & He & Hh & Hn & Hw & Hch).
      rewrite (andThen_normal _ _ _ _ _ Hrun). subst json1.
      specialize (IH o1 sigma1 Hh Hn).
      assert (Hi : incl (cells (LObject l o1)) (cells (LObject l o))).
      { rewrite !cells_object. intros loc [<-|Hloc]; [now left|].
        right. eapply within_In; eauto. }
      destruct (forEachKey (visitKey onTree) rest (Heap.mapValues erase o1))
        as [[json'|msg]|]; [| |exact I].
      * destruct IH as (sigma' & o' & Hrun' & He' & Hh' & Hn' & Hw' & Hch').
        exists sigma', o'. split; [exact Hrun'|]. split; [exact He'|].
        split; [exact Hh'|]. split; [exact Hn'|].
        split; [eapply within_trans; eauto|].
        eapply changedWithin_trans; [exact Hch | exact Hch' | | exact Hi].
        apply incl_refl.
      * destruct IH as (sigma' & Hrun' & Hch').
        exists sigma'. split; [exact Hrun'|].
        eapply changedWithin_trans; [exact Hch | exact Hch' | | exact Hi].
        apply incl_refl.
    + destruct V as (sigma1 & Hrun & Hch).
      exists sigma1. split; [|exact Hch].
      now apply andThen_throw.
Qed.

Lemma cells_array l (elems : list Located) :
  cells (LArray l elems) = l :: flat_map cells elems.
Proof. reflexivity. Qed.

(** The pass on an element of an array: the cell of the array and the
    other elements are as they were. *)
Lemma descendElement_agrees onTree onStore sigma l (a b : list Located) x :
  passAgrees onTree onStore ->
  holds sigma (LArray l (a ++ x :: b)) ->
  NoDup (cells (LArray l (a ++ x :: b))) ->
  match onTree (erase x) with
  | Some (Normal v') =>
      exists sigma' x',
        onStore (root x) sigma = Some (sigma', Normal tt)
        /\ erase x' = v'
        /\ holds sigma' (LArray l (a ++ x' :: b))
        /\ NoDup (cells (LArray l (a ++ x' :: b)))
        /\ within (cells x') (cells x)
        /\ changedWithin (cells x) sigma sigma'
  | Some (Throw msg) =>
      exists sigma',
        onStore (root x) sigma = Some (sigma', Throw msg)
        /\ changedWithin (cells x) sigma sigma'
  | None => True
  end.
Proof.
  intros Hagree H Hnd.
  pose proof H as H0. apply holds_array in H0 as [Hl Hc].
  rewrite cells_array in Hnd. apply NoDup_cons_iff in Hnd as [Hnl Hnd].
  rewrite flat_map_app in Hnd, Hnl. cbn [flat_map] in Hnd, Hnl.
  apply Forall_app in Hc as [Hca Hcb].
  apply Forall_cons_iff in Hcb as [Hx Hcb].
  assert (Hndx : NoDup (cells x)).
  { apply NoDup_app_remove_l in Hnd. now apply NoDup_app_remove_r in Hnd. }
  specialize (Hagree x sigma Hx Hndx).
  destruct (onTree (erase x)) as [[v'|msg]|]; [|exact Hagree|exact I].
  destruct Hagree as (sigma' & x' & Hrun & Hx' & Hnx' & He & Hr & Hw & Hch).
  exists sigma', x'. split; [exact Hrun | split; [exact He|]].
  destruct Hch as [Hlen Hsame].
  split; [|split; [|split; [exact Hw | split; assumption]]].
  - apply holds_array. split.
    + rewrite Hsame.
      * rewrite Hl, !map_app. cbn [map]. now rewrite Hr.
      * intros Hin. apply Hnl. apply in_or_app. right. apply in_or_app.
        now left.
    + apply Forall_app. split; [|constructor; [exact Hx'|]].
      * rewrite Forall_forall in *. intros e Hin.
        apply (holds_frame sigma); [|now apply Hca].
        intros loc Hloc. apply Hsame. intros Hinx.
        apply (within_apart (flat_map cells a) (cells x ++ flat_map cells b)
                 _ loc (within_refl _) Hnd).
        -- apply in_flat_map. eauto.
        -- apply in_or_app. now left.
      * rewrite Forall_forall in *. intros e Hin.
        apply (holds_frame sigma); [|now apply Hcb].
        intros loc Hloc. apply Hsame. intros Hinx.
        apply (within_apart (cells x) (flat_map cells b)
                 _ loc (within_app_r _ _) Hnd Hinx).
        apply in_flat_map. eauto.
  - assert (Hw' : within (flat_map cells a ++ cells x' ++ flat_map cells b)
                    (flat_map cells a ++ cells x ++ flat_map cells b)).
    { apply within_app; [apply within_refl|].
      apply within_app; [exact Hw | apply within_refl]. }
    rewrite cells_array, flat_map_app. cbn [flat_map]. constructor.
    + intros Hin. apply Hnl. eapply within_In; eauto.
    + eapply within_NoDup; eauto.
Qed.

(** The loop over the elements. *)
Lemma forEachElement_agrees onTree onStore l :
  passAgrees onTree onStore ->
  forall (rest done : list Located) sigma,
  holds sigma (LArray l (done ++ rest)) ->
  NoDup (cells (LArray l (done ++ rest))) ->
  match forEachElement onTree (map erase rest) with
  | Some (Normal vs) =>
      exists sigma' rest',
        Heap.forEach (Heap.visitIndex onStore l)
          (seq (length done) (length rest)) sigma
        = Some (sigma', Normal tt)
        /\ map erase rest' = vs
        /\ holds sigma' (LArray l (done ++ rest'))
        /\ NoDup (cells (LArray l (done ++ rest')))
        /\ within (flat_map cells rest') (flat_map cells rest)
        /\ changedWithin (flat_map cells rest) sigma sigma'
  | Some (Throw msg) =>
      exists sigma',
        Heap.forEach (Heap.visitIndex onStore l)
          (seq (length done) (length rest)) sigma
        = Some (sigma', Throw msg)
        /\ changedWithin (flat_map cells rest) sigma sigma'
  | None => True
  end.
Proof.
  intros Hagree. induction rest as [|e r IH]; intros done sigma H Hnd.
  - cbn. exists sigma, []. split; [reflexivity|]. split; [reflexivity|].
    split; [exact H|]. split; [exact Hnd|].
    split; [apply within_refl | apply changedWithin_refl].
  - cbn [map forEachElement length seq Heap.forEach].
    assert (Hnth : nth (length done) (map root (done ++ e :: r))
                     (Heap.Scalar Heap.PUndefined) = root e).
    { rewrite map_app. cbn [map]. rewrite <- (length_map root done).
      apply nth_middle. }
    assert (Hstep : forall (e' : Located) sigma1,
              holds sigma1 (LArray l (done ++ e' :: r)) ->
              NoDup (cells (LArray l (done ++ e' :: r))) ->
              holds sigma1 (LArray l ((done ++ [e']) ++ r))
              /\ NoDup (cells (LArray l ((done ++ [e']) ++ r)))
              /\ seq (S (length done)) (length r)
                 = seq (length (done ++ [e'])) (length r)).
    { intros e' sigma1 H1 H2. rewrite <- app_assoc. cbn [app].
      split; [assumption | split; [assumption|]].
      rewrite length_app. cbn [length]. f_equal. lia. }
    assert (Hvisit : Heap.visitIndex onStore l (length done) sigma
                     = match root e with
                       | Heap.Ref c => onStore (Heap.Ref c) sigma
                       | Heap.Scalar _ => Some (sigma, Normal tt)
                       end).
    { unfold Heap.visitIndex.
      rewrite (andThen_normal _ _ _ _ _ (loadArray_holds _ _ _ H)), Hnth.
      now destruct (root e). }
    rewrite isObject_erase.
    destruct (root e) as [p|c] eqn:Er.
    + cbn [bindF retF]. rewrite (andThen_normal _ _ _ _ _ Hvisit).
      destruct (Hstep e sigma H Hnd) as (H1 & H2 & E).
      specialize (IH (done ++ [e]) sigma H1 H2). rewrite <- E in IH.
      destruct (forEachElement onTree (map erase r)) as [[vs|msg]|];
        cbn [bindF]; [| |exact I].
      * destruct IH as (sigma' & r' & Hrun & He & Hh & Hn & Hw & Hch).
        exists sigma', (e :: r'). rewrite <- app_assoc in Hh, Hn.
        split; [exact Hrun|]. split; [cbn [map]; now rewrite He|].
        split; [exact Hh|]. split; [exact Hn|]. cbn [flat_map].
        split; [apply within_app; [apply within_refl | exact Hw]|].
        eapply changedWithin_incl; [exact Hch|]. apply incl_appr, incl_refl.
      * destruct IH as (sigma' & Hrun & Hch).
        exists sigma'. split; [exact Hrun|]. cbn [flat_map].
        eapply changedWithin_incl; [exact Hch|]. apply incl_appr, incl_refl.
    + pose proof (descendElement_agrees onTree onStore sigma l done r e
                    Hagree H Hnd) as D.
      rewrite Er in D.
      destruct (onTree (erase e)) as [[v'|msg]|]; cbn [bindF];
        [| |exact I].
      * destruct D as (sigma1 & e' & Hrun1 & He1 & Hh1 & Hn1 & Hw1 & Hch1).
        rewrite <- Hvisit in Hrun1.
        rewrite (andThen_normal _ _ _ _ _ Hrun1).
        destruct (Hstep e' sigma1 Hh1 Hn1) as (H1 & H2 & E).
        specialize (IH (done ++ [e']) sigma1 H1 H2). rewrite <- E in IH.
        destruct (forEachElement onTree (map erase r)) as [[vs|msg]|];
          cbn [bindF retF]; [| |exact I].
        -- destruct IH as (sigma' & r' & Hrun & He & Hh & Hn & Hw & Hch).
           exists sigma', (e' :: r'). rewrite <- app_assoc in Hh, Hn.
           split; [exact Hrun|]. split; [cbn [map]; now rewrite He, He1|].
           split; [exact Hh|]. split; [exact Hn|]. cbn [flat_map].
           split; [apply within_app; assumption|].
           eapply changedWithin_trans; [exact Hch1 | exact Hch | |].
           ++ apply incl_appl, incl_refl.
           ++ apply incl_appr, incl_refl.
        -- destruct IH as (sigma' & Hrun & Hch).
           exists sigma'. split; [exact Hrun|]. cbn [flat_map].
           eapply changedWithin_trans; [exact Hch1 | exact Hch | |].
           ++ apply incl_appl, incl_refl.
           ++ apply incl_appr, incl_refl.
      * destruct D as (sigma1 & Hrun1 & Hch1).
        rewrite <- Hvisit in Hrun1.
        exists sigma1. split; [now apply andThen_throw|]. cbn [flat_map].
        eapply changedWithin_incl; [exact Hch1|]. apply incl_appl, incl_refl.
Qed.

(** The pass over the store is the pass over the tree. *)
Lemma pass_agrees (n : nat) :
  passAgrees (iterativeReplace_fuel n) (Heap.iterativeReplace_fuel n).
Proof.
  induction n as [|n IH]; intros t sigma H Hnd; [exact I|].
  destruct t as [p|l o|l elems].
  - destruct p; cbn [erase Heap.inject iterativeReplace_fuel root
                      Heap.iterativeReplace_fuel retF cells];
      try (exists sigma; split; [reflexivity | apply changedWithin_refl]);
      match goal with
      | |- context [Heap.Scalar ?q] => exists sigma, (LScalar q)
      end;
      (split; [reflexivity|]; split; [exact I|];
       split; [constructor|]; split; [reflexivity|];
       split; [reflexivity|];
       split; [apply within_refl | apply changedWithin_refl]).
  - cbn [erase root iterativeReplace_fuel Heap.iterativeReplace_fuel].
    pose proof H as H0. apply holds_object in H0 as [Hl _].
    rewrite (andThen_normal _ _ _ _ _ (load_run _ _ _ Hl)). cbv beta iota.
    rewrite keys_erase, keys_mapValues.
    pose proof (forEachKey_agrees _ _ l IH (Heap.keys o) o sigma H Hnd) as L.
    destruct (forEachKey (visitKey (iterativeReplace_fuel n)) (Heap.keys o)
                (Heap.mapValues erase o)) as [[json'|msg]|];
      cbn [bindF retF]; [| |exact I].
    + destruct L as (sigma' & o' & Hrun & He & Hh & Hn & Hw & Hch).
      exists sigma', (LObject l o'). split; [exact Hrun|].
      split; [exact Hh|]. split; [exact Hn|].
      split; [cbn [erase]; now rewrite He|]. split; [reflexivity|].
      split; [|exact Hch].
      rewrite !cells_object. apply (within_app [l] [l]);
        [apply within_refl | exact Hw].
    + exact L.
  - cbn [erase root iterativeReplace_fuel Heap.iterativeReplace_fuel].
    pose proof H as H0. apply holds_array in H0 as [Hl _].
    rewrite (andThen_normal _ _ _ _ _ (load_run _ _ _ Hl)). cbv beta iota.
    rewrite length_map.
    pose proof (forEachElement_agrees _ _ l IH elems [] sigma H Hnd) as L.
    cbn [length app] in L.
    destruct (forEachElement (iterativeReplace_fuel n) (map erase elems))
      as [[vs|msg]|]; cbn [bindF retF]; [| |exact I].
    + destruct L as (sigma' & elems' & Hrun & He & Hh & Hn & Hw & Hch).
      exists sigma', (LArray l elems'). split; [exact Hrun|].
      split; [exact Hh|]. split; [exact Hn|].
      split; [cbn [erase]; now rewrite He|]. split; [reflexivity|].
      split.
      * rewrite !cells_array. apply (within_app [l] [l]);
          [apply within_refl | exact Hw].
      * eapply changedWithin_incl; [exact Hch|].
        rewrite cells_array. apply incl_tl, incl_refl.
    + destruct L as (sigma' & Hrun & Hch).
      exists sigma'. split; [exact Hrun|].
      eapply changedWithin_incl; [exact Hch|].
      rewrite cells_array. apply incl_tl, incl_refl.
Qed.

End StorePass.

(* ================================================================== *)
(** ** What the translator makes in the store *)
(* ================================================================== *)

Section StoreGrowth.

Context {Number Handle : Type} `{RT : Runtime Number Handle}.

#[local] Abbreviation Value := (JSValue Number Handle).
#[local] Abbreviation Located := (Located Number Handle).
#[local] Abbreviation Stored := (Heap.Stored Number Handle).
#[local] Abbreviation Store := (Heap.Store Number Handle).
#[local] Abbreviation Cell := (Heap.Cell Number Handle).

Implicit Types (sigma : Store) (t x y : Located) (l : Heap.Loc)
  (o : list (PropKey * Located)) (k : PropKey) (key : string).

Lemma grows_refl among sigma : grows among sigma sigma.
Proof. split; auto. Qed.

Lemma grows_trans a b c sigma sigma1 sigma2 :
  grows a sigma sigma1 -> grows b sigma1 sigma2 ->
  incl a c -> incl b c ->
  grows c sigma sigma2.
Proof.
  intros [L1 H1] [L2 H2] Ia Ib. split; [lia|].
  intros loc Hlt Hloc. rewrite H2, H1; auto. lia.
Qed.

Lemma grows_incl a b sigma sigma' :
  grows a sigma sigma' -> incl a b -> grows b sigma sigma'.
Proof.
  intros [L H] Hi. split; [exact L|]. intros loc Hlt Hloc. apply H; auto.
Qed.

Lemma grows_alloc sigma (c : Cell) : grows [] sigma (sigma ++ [c]).
Proof.
  split; [rewrite length_app; lia|].
  intros loc Hlt _. now apply nth_error_app1.
Qed.

Lemma grows_update sigma l (c : Cell) : grows [l] sigma (Heap.update l c sigma).
Proof.
  split; [now rewrite update_length|].
  intros loc _ Hloc. apply update_other. intros ->. apply Hloc. now left.
Qed.

(** Cells that were not there are not among the changed ones. *)
Lemma grows_changed a b sigma sigma1 sigma2 :
  grows a sigma sigma1 -> changedWithin b sigma1 sigma2 ->
  (forall loc, In loc b -> length sigma <= loc) ->
  grows a sigma sigma2.
Proof.
  intros [L1 H1] [L2 H2] Hb. split; [lia|].
  intros loc Hlt Hloc. rewrite H2, H1; auto.
  intros Hin. apply Hb in Hin. lia.
Qed.

Lemma grows_holds among sigma sigma' t :
  grows among sigma sigma' -> holds sigma t ->
  (forall loc, In loc among -> ~ In loc (cells t)) ->
  holds sigma' t.
Proof.
  intros [L H] Ht Hd. apply (holds_frame sigma); [|exact Ht].
  intros loc Hloc. apply H; [eapply holds_bound; eauto|].
  intros Hin. now apply (Hd loc).
Qed.

Lemma grows_nil_holds sigma sigma' t :
  grows [] sigma sigma' -> holds sigma t -> holds sigma' t.
Proof. intros G H. apply (grows_holds [] sigma); auto. Qed.

Lemma alloc_run sigma (c : Cell) :
  Heap.alloc c sigma = Some (sigma ++ [c], Normal (length sigma)).
Proof. reflexivity. Qed.

Lemma nth_error_new sigma (c : Cell) :
  nth_error (sigma ++ [c]) (length sigma) = Some c.
Proof. rewrite nth_error_app2, Nat.sub_diag; [reflexivity | lia]. Qed.

Lemma Value_induction (P : Value -> Prop) :
  (forall v, isObject v = false -> P v) ->
  (forall elems, Forall P elems -> P (JArr elems)) ->
  (forall props, Forall (fun kv => P (snd kv)) props -> P (JObj props)) ->
  forall v, P v.
Proof.
  intros Hs Ha Ho. fix IH 1. intros v.
  destruct v as [| | | | |elems|props|]; try (apply Hs; reflexivity).
  - apply Ha. induction elems as [|e r IHr]; constructor; [apply IH | exact IHr].
  - apply Ho. induction props as [|kv r IHr]; constructor; [apply IH | exact IHr].
Qed.

(** [JSON.parse] leaves its result in cells of its own, none of them
    used twice. *)
Lemma build_holds (v : Value) : forall sigma,
  exists sigma' t,
    Heap.build v sigma = Some (sigma', Normal (root t))
    /\ grows [] sigma sigma'
    /\ holds sigma' t /\ NoDup (cells t) /\ erase t = v /\ newTo sigma t.
Proof.
  induction v as [v Hv|elems IH|props IH] using Value_induction; intros sigma.
  - destruct v; try discriminate Hv;
      match goal with
      | |- context [Heap.build ?v] =>
          match v with
          | JUndefined => exists sigma, (LScalar Heap.PUndefined)
          | JNull => exists sigma, (LScalar Heap.PNull)
          | JBool ?b => exists sigma, (LScalar (Heap.PBool b))
          | JNum ?n => exists sigma, (LScalar (Heap.PNum n))
          | JStr ?s => exists sigma, (LScalar (Heap.PStr s))
          | JHandle ?h => exists sigma, (LScalar (Heap.PHandle h))
          end
      end;
      (split; [reflexivity|]; split; [apply grows_refl|];
       split; [exact I|]; split; [constructor|]; split; [reflexivity|];
       intros loc []).
  - assert (G : forall sigma, exists sigma' (ts : list Located),
              Heap.collect Heap.build elems sigma
              = Some (sigma', Normal (map root ts))
              /\ grows [] sigma sigma'
              /\ Forall (holds sigma') ts /\ NoDup (flat_map cells ts)
              /\ map erase ts = elems
              /\ forall loc, In loc (flat_map cells ts) -> length sigma <= loc).
    { clear sigma. induction elems as [|e r IHr]; intros sigma.
      - exists sigma, []. cbn. repeat split; auto using grows_refl.
        + constructor.
        + intros loc [].
      - apply Forall_cons_iff in IH as [IHe IHrest].
        destruct (IHe sigma) as (sigma1 & t & Hrun & Hg & Hh & Hn & He & Hnew).
        destruct (IHr IHrest sigma1)
          as (sigma2 & ts & Hrun2 & Hg2 & Hh2 & Hn2 & He2 & Hnew2).
        exists sigma2, (t :: ts). cbn [Heap.collect].
        rewrite (andThen_normal _ _ _ _ _ Hrun).
        rewrite (andThen_normal _ _ _ _ _ Hrun2).
        split; [reflexivity|].
        split; [eapply grows_trans; eauto; apply incl_refl|].
        split; [constructor; [eapply grows_nil_holds; eauto | exact Hh2]|].
        split; [|split; [cbn [map]; now rewrite He, He2|]].
        + cbn [flat_map]. apply NoDup_app; auto.
          intros loc Hin Hin2. apply Hnew2 in Hin2.
          pose proof (holds_bound _ _ Hh _ Hin). lia.
        + cbn [flat_map]. intros loc Hin. apply in_app_or in Hin as [Hin|Hin].
          * now apply Hnew.
          * apply Hnew2 in Hin. destruct Hg as [Hg _]. lia. }
    destruct (G sigma) as (sigma1 & ts & Hrun & Hg & Hh & Hn & He & Hnew).
    exists (sigma1 ++ [Heap.CArray (map root ts)]), (LArray (length sigma1) ts).
    cbn [Heap.build]. rewrite (andThen_normal _ _ _ _ _ Hrun).
    rewrite (andThen_normal _ _ _ _ _ (alloc_run _ _)).
    split; [reflexivity|].
    split; [eapply grows_trans; [exact Hg | apply grows_alloc | |];
            apply incl_refl|].
    split; [|split; [|split; [cbn [erase]; now rewrite He|]]].
    + apply holds_array. split; [apply nth_error_new|].
      rewrite Forall_forall in *. intros e Hin.
      eapply grows_nil_holds; [apply grows_alloc | now apply Hh].
    + rewrite cells_array. constructor; [|exact Hn].
      intros Hin. apply in_flat_map in Hin as (e & Hine & Hin).
      rewrite Forall_forall in Hh.
      pose proof (holds_bound _ _ (Hh _ Hine) _ Hin). lia.
    + intros loc [<-|Hin]; [destruct Hg; lia | now apply Hnew].
  - assert (G : forall sigma, exists sigma' (o : list (PropKey * Located)),
              Heap.collect
                (fun kv => Heap.andThen (Heap.build (snd kv))
                             (fun stored => Heap.ret (fst kv, stored)))
                props sigma
              = Some (sigma', Normal (Heap.mapValues root o))
              /\ grows [] sigma sigma'
              /\ Forall (fun kv => holds sigma' (snd kv)) o
              /\ NoDup (cellsOf o)
              /\ Heap.mapValues erase o = props
              /\ forall loc, In loc (cellsOf o) -> length sigma <= loc).
    { clear sigma. induction props as [|[k e] r IHr]; intros sigma.
      - exists sigma, []. cbn. repeat split; auto using grows_refl.
        + constructor.
        + intros loc [].
      - apply Forall_cons_iff in IH as [IHe IHrest]. cbn [snd] in IHe.
        destruct (IHe sigma) as (sigma1 & t & Hrun & Hg & Hh & Hn & He & Hnew).
        destruct (IHr IHrest sigma1)
          as (sigma2 & o & Hrun2 & Hg2 & Hh2 & Hn2 & He2 & Hnew2).
        exists sigma2, ((k, t) :: o). cbn [Heap.collect fst snd].
        rewrite (andThen_inner _ _ _ _ _ _ Hrun).
        unfold Heap.ret at 1. unfold Heap.andThen at 1.
        rewrite (andThen_normal _ _ _ _ _ Hrun2).
        split; [reflexivity|].
        split; [eapply grows_trans; eauto; apply incl_refl|].
        split; [constructor; [eapply grows_nil_holds; eauto | exact Hh2]|].
        split; [|split; [|]].
        2: { change (Heap.mapValues erase ((k, t) :: o))
               with ((k, erase t) :: Heap.mapValues erase o).
             now rewrite He, He2. }
        + rewrite cellsOf_cons. apply NoDup_app; auto.
          intros loc Hin Hin2. apply Hnew2 in Hin2.
          pose proof (holds_bound _ _ Hh _ Hin). lia.
        + rewrite cellsOf_cons. intros loc Hin.
          apply in_app_or in Hin as [Hin|Hin].
          * now apply Hnew.
          * apply Hnew2 in Hin. destruct Hg as [Hg _]. lia. }
    destruct (G sigma) as (sigma1 & o & Hrun & Hg & Hh & Hn & He & Hnew).
    exists (sigma1 ++ [Heap.CObject (Heap.mapValues root o)]),
      (LObject (length sigma1) o).
    cbn [Heap.build]. rewrite (andThen_normal _ _ _ _ _ Hrun).
    rewrite (andThen_normal _ _ _ _ _ (alloc_run _ _)).
    split; [reflexivity|].
    split; [eapply grows_trans; [exact Hg | apply grows_alloc | |];
            apply incl_refl|].
    split; [|split; [|split; [cbn [erase]; now rewrite He|]]].
    + apply holds_object. split; [apply nth_error_new|].
      rewrite Forall_forall in *. intros kv Hin.
      eapply grows_nil_holds; [apply grows_alloc | now apply Hh].
    + rewrite cells_object. constructor; [|exact Hn].
      intros Hin. apply In_cellsOf in Hin as (kv & Hine & Hin).
      rewrite Forall_forall in Hh.
      pose proof (holds_bound _ _ (Hh _ Hine) _ Hin). lia.
    + intros loc [<-|Hin]; [destruct Hg; lia | now apply Hnew].
Qed.

End StoreGrowth.

(* ================================================================== *)
(** ** The functions of the translator over the store *)
(* ================================================================== *)

Section StoreFunctions.

Context {Number Handle : Type} `{RT : Runtime Number Handle}.

#[local] Abbreviation Value := (JSValue Number Handle).
#[local] Abbreviation Located := (Located Number Handle).
#[local] Abbreviation Stored := (Heap.Stored Number Handle).
#[local] Abbreviation Store := (Heap.Store Number Handle).
#[local] Abbreviation Cell := (Heap.Cell Number Handle).

Implicit Types (sigma : Store) (t : Located) (l : Heap.Loc)
  (o : list (PropKey * Located)) (k : PropKey) (key : string)
  (p : option ParamValue) (x : Stored).

(** [parseQueryFields] (and [parseIncludeFields], which is the same
    function) on the store and on the text. *)
Lemma parseQueryFields_agrees sigma x (s : string) :
  Heap.toStringMethod x sigma = Some (sigma, Normal s) ->
  match parseQueryFields s with
  | Normal v' =>
      exists sigma' t',
        Heap.parseQueryFields x sigma = Some (sigma', Normal (root t'))
        /\ grows [] sigma sigma'
        /\ holds sigma' t' /\ erase t' = v' /\ newTo sigma t'
  | Throw msg =>
      exists sigma',
        Heap.parseQueryFields x sigma = Some (sigma', Throw msg)
        /\ grows [] sigma sigma'
  end.
Proof.
  intros Hs. unfold parseQueryFields.
  assert (Hheap : forall tree sigma1 (t : Located),
            JSON_parse (unescapeEscapedQuery s) = Normal tree ->
            Heap.build tree sigma = Some (sigma1, Normal (root t)) ->
            Heap.parseQueryFields x sigma
            = Heap.andThen
                (Heap.iterativeReplace_fuel (S (height tree)) (root t))
                (fun _ => Heap.ret (root t)) sigma1).
  { intros tree sigma1 t E Hrun. unfold Heap.parseQueryFields.
    rewrite (andThen_normal _ _ _ _ _ Hs), E. cbn [Heap.lift].
    rewrite (andThen_normal (Heap.ret tree) _ sigma sigma tree eq_refl).
    now rewrite (andThen_normal _ _ _ _ _ Hrun). }
  destruct (JSON_parse (unescapeEscapedQuery s)) as [tree|msg] eqn:E;
    cbn [bind].
  - destruct (build_holds tree sigma)
      as (sigma1 & t & Hrun & Hg & Hh & Hn & He & Hnew).
    rewrite (Hheap tree sigma1 t eq_refl Hrun).
    pose proof (pass_agrees (S (height tree)) t sigma1 Hh Hn) as P.
    rewrite He in P.
    rewrite (iterativeReplace_fuel_enough (S (height tree)) tree) in P by lia.
    destruct (iterativeReplace tree) as [v'|msg].
    + destruct P as (sigma' & t' & Hrun' & Hh' & Hn' & He' & Hr' & Hw' & Hch').
      exists sigma', t'. rewrite (andThen_normal _ _ _ _ _ Hrun').
      rewrite Hr'. split; [reflexivity|].
      split; [eapply grows_changed; eauto|].
      split; [exact Hh'|]. split; [exact He'|].
      intros loc Hloc. apply Hnew. eapply within_In; eauto.
    + destruct P as (sigma' & Hrun' & Hch').
      exists sigma'. rewrite (andThen_throw _ _ _ _ _ Hrun').
      split; [reflexivity|]. eapply grows_changed; eauto.
  - exists sigma. split; [|apply grows_refl].
    unfold Heap.parseQueryFields.
    rewrite (andThen_normal _ _ _ _ _ Hs), E. reflexivity.
Qed.

(** What the program reads of a parameter. *)
Lemma toStringOf_param sigma x p :
  paramHeld sigma x p ->
  Heap.toStringOf x sigma = Some (sigma, Normal (paramToString p)).
Proof.
  destruct p as [[s|strs]|]; cbn [paramHeld].
  - intros ->. reflexivity.
  - intros (a & -> & Ha). cbn [Heap.toStringOf].
    rewrite (andThen_normal _ _ _ _ _ (load_run _ _ _ Ha)). cbv beta iota.
    assert (E : Heap.elementTexts (map Heap.str strs) = Some strs).
    { clear Ha. induction strs as [|s r IH]; [reflexivity|].
      cbn [map Heap.elementTexts]. now rewrite IH. }
    rewrite E. reflexivity.
  - intros ->. reflexivity.
Qed.

Lemma toStringMethod_param sigma x p :
  paramHeld sigma x p ->
  Heap.toStringMethod x sigma
  = Some (sigma, paramToStringMethod p).
Proof.
  intros H. pose proof (toStringOf_param _ _ _ H) as E.
  destruct p as [[s|strs]|]; cbn [paramHeld] in H.
  - subst x. reflexivity.
  - destruct H as (a & -> & Ha). exact E.
  - subst x. reflexivity.
Qed.

Lemma splittable_param sigma (what : string) x p :
  paramHeld sigma x p ->
  Heap.splittable what x sigma = Some (sigma, paramSplittable what p).
Proof.
  destruct p as [[s|strs]|]; cbn [paramHeld].
  - intros ->. reflexivity.
  - intros (a & -> & Ha). reflexivity.
  - intros ->. reflexivity.
Qed.

(** Arrays of strings. *)
Lemma stringsAt_erase l (strs : list string) :
  erase (stringsAt l strs : Located) = stringsValue strs.
Proof.
  unfold stringsAt, stringsValue. cbn [erase]. now rewrite map_map.
Qed.

Lemma stringsAt_cells l (strs : list string) :
  cells (stringsAt l strs : Located) = [l].
Proof.
  unfold stringsAt. rewrite cells_array. f_equal.
  induction strs as [|s r IH]; [reflexivity | exact IH].
Qed.

Lemma stringsAt_holds sigma l (strs : list string) :
  nth_error sigma l = Some (Heap.CArray (map Heap.str strs)) ->
  holds sigma (stringsAt l strs).
Proof.
  intros H. unfold stringsAt. apply holds_array. split.
  - now rewrite map_map.
  - apply Forall_forall. intros t Hin. apply in_map_iff in Hin as (s & <- & _).
    exact I.
Qed.

Lemma newTo_grows among sigma sigma' t :
  grows among sigma sigma' -> newTo sigma' t -> newTo sigma t.
Proof. intros [L _] H loc Hloc. specialize (H loc Hloc). lia. Qed.

(** The pushes of [splitStringAndBuildArray]. *)
Lemma pushes_run (array : Heap.Loc) : forall (elements : list string) sigma
    (ts : list Located),
  holds sigma (LArray array ts) ->
  Forall (fun t => ~ In array (cells t)) ts ->
  exists sigma' (ts' : list Located),
    Heap.forEach
      (fun element =>
         Heap.andThen
           (Heap.alloc
              (Heap.CArray (map Heap.str (JSString.split "."%char element))))
           (fun fields =>
              if Nat.ltb 0 (length (JSString.split "."%char element))
              then Heap.push array (Heap.Ref fields)
              else Heap.ret tt))
      elements sigma
    = Some (sigma', Normal tt)
    /\ holds sigma' (LArray array (ts ++ ts'))
    /\ Forall (fun t => ~ In array (cells t)) ts'
    /\ Forall (newTo sigma) ts'
    /\ map erase ts'
       = map stringsValue (map (JSString.split "."%char) elements)
    /\ grows [array] sigma sigma'.
Proof.
  induction elements as [|e r IH]; intros sigma ts H Hav.
  - exists sigma, []. rewrite app_nil_r.
    split; [reflexivity|]. split; [exact H|]. split; [constructor|].
    split; [constructor|]. split; [reflexivity | apply grows_refl].
  - pose proof H as H0. apply holds_array in H0 as [Hl Hc].
    pose proof (nth_error_lt _ _ _ Hl) as Hlt.
    set (pieces := JSString.split "."%char e).
    set (c := Heap.CArray (map Heap.str pieces) : Cell).
    set (new := stringsAt (length sigma) pieces : Located).
    set (sigma2 := Heap.update array (Heap.CArray (map root (ts ++ [new])))
                     (sigma ++ [c])).
    assert (Hg : grows [array] sigma sigma2).
    { eapply grows_trans; [apply (grows_alloc sigma c) | apply grows_update | |].
      - intros loc [].
      - apply incl_refl. }
    assert (Hnew : holds sigma2 new).
    { apply stringsAt_holds. unfold sigma2.
      rewrite update_other by lia. apply nth_error_new. }
    assert (H2 : holds sigma2 (LArray array (ts ++ [new]))).
    { apply holds_array. split.
      - apply update_same. rewrite length_app. lia.
      - apply Forall_app. split; [|now constructor].
        rewrite Forall_forall in *. intros t Hin.
        apply (grows_holds [array] sigma); auto.
        intros loc [<-|[]]. now apply Hav. }
    assert (Hav2 : Forall (fun t => ~ In array (cells t)) (ts ++ [new])).
    { apply Forall_app. split; [exact Hav|]. constructor; [|constructor].
      unfold new. rewrite stringsAt_cells. intros [E|[]]. lia. }
    destruct (IH sigma2 (ts ++ [new]) H2 Hav2)
      as (sigma' & ts' & Hrun & Hh & Hav' & Hn' & He & Hg').
    exists sigma', (new :: ts'). rewrite <- app_assoc in Hh.
    split; [|split; [exact Hh|split; [|split; [|split]]]].
    + cbn [Heap.forEach]. fold pieces. fold c.
      rewrite (andThen_inner _ _ _ _ _ _ (alloc_run sigma c)).
      unfold pieces at 1. rewrite split_length. unfold Heap.push.
      assert (Hl1 : nth_error (sigma ++ [c]) array
                    = Some (Heap.CArray (map root ts)))
        by (rewrite nth_error_app1; assumption).
      rewrite (andThen_inner _ _ _ _ _ _ (loadArray_run _ _ _ Hl1)).
      rewrite (andThen_normal _ _ _ _ _
                 (store_run (sigma ++ [c]) array _
                    ltac:(rewrite length_app; lia))).
      rewrite <- Hrun. unfold sigma2. rewrite map_app. reflexivity.
    + constructor; [|exact Hav'].
      apply Forall_app in Hav2 as [_ Hx]. now apply Forall_cons_iff in Hx.
    + constructor.
      * unfold new. intros loc. rewrite stringsAt_cells. intros [<-|[]]. lia.
      * rewrite Forall_forall in *. intros t Hin.
        eapply newTo_grows; [exact Hg | now apply Hn'].
    + cbn [map]. rewrite He. f_equal. apply stringsAt_erase.
    + eapply grows_trans; [exact Hg | exact Hg' | |]; apply incl_refl.
Qed.

Lemma cellsFrom_le n m t : m <= n -> cellsFrom n t -> cellsFrom m t.
Proof. intros Hle H loc Hloc. specialize (H loc Hloc). lia. Qed.

(** One call of [splitStringAndBuildArray] on a string. *)
Lemma splitStringAndBuildArray_run (array : Heap.Loc) (s : string) sigma
    (ts : list Located) (fields : list (list string)) (n : nat) :
  holds sigma (LArray array ts) ->
  Forall (fun t => ~ In array (cells t)) ts ->
  Forall (cellsFrom n) ts -> n <= length sigma ->
  map erase ts = map stringsValue fields ->
  exists sigma' (ts' : list Located),
    Heap.splitStringAndBuildArray (Heap.str s) array sigma
    = Some (sigma', Normal tt)
    /\ holds sigma' (LArray array ts')
    /\ Forall (fun t => ~ In array (cells t)) ts'
    /\ Forall (cellsFrom n) ts'
    /\ map erase ts' = map stringsValue (splitStringAndBuildArray s fields)
    /\ grows [array] sigma sigma'.
Proof.
  intros H Hav Hfrom Hn He.
  destruct (pushes_run array (JSString.split ","%char s) sigma ts H Hav)
    as (sigma' & ts' & Hrun & Hh & Hav' & Hn' & He' & Hg).
  exists sigma', (ts ++ ts').
  split; [exact Hrun|]. split; [exact Hh|].
  split; [apply Forall_app; split; assumption|].
  split; [|split; [|exact Hg]].
  - apply Forall_app. split; [exact Hfrom|].
    rewrite Forall_forall in *. intros t Hin.
    eapply cellsFrom_le; [exact Hn | now apply Hn'].
  - rewrite splitStringAndBuildArray_app, !map_app, He, He'. reflexivity.
Qed.

(** The calls for the strings of a repeated parameter, which is read
    anew for each. *)
Lemma sequence_run (array a : Heap.Loc) (n : nat) :
  a <> array ->
  forall (rest done : list string) sigma (ts : list Located)
    (fields : list (list string)),
  holds sigma (LArray array ts) ->
  Forall (fun t => ~ In array (cells t)) ts ->
  Forall (cellsFrom n) ts -> n <= length sigma ->
  map erase ts = map stringsValue fields ->
  nth_error sigma a = Some (Heap.CArray (map Heap.str (done ++ rest))) ->
  exists sigma' (ts' : list Located),
    Heap.forEach
      (fun i =>
         Heap.andThen (Heap.loadArray a)
           (fun elems =>
              Heap.splitStringAndBuildArray
                (nth i elems (Heap.Scalar Heap.PUndefined)) array))
      (seq (length done) (length rest)) sigma
    = Some (sigma', Normal tt)
    /\ holds sigma' (LArray array ts')
    /\ Forall (cellsFrom n) ts'
    /\ map erase ts'
       = map stringsValue
           (fold_left (fun array obj => splitStringAndBuildArray obj array)
              rest fields)
    /\ grows [array] sigma sigma'.
Proof.
  intros Hne. induction rest as [|s r IH];
    intros done sigma ts fields H Hav Hfrom Hn He Ha.
  - exists sigma, ts. split; [reflexivity|]. split; [exact H|].
    split; [exact Hfrom|]. split; [exact He | apply grows_refl].
  - destruct (splitStringAndBuildArray_run array s sigma ts fields n
                H Hav Hfrom Hn He)
      as (sigma1 & ts1 & Hrun & Hh & Hav1 & Hfrom1 & He1 & Hg).
    assert (Ha1 : nth_error sigma1 a
                  = Some (Heap.CArray (map Heap.str ((done ++ [s]) ++ r))
                          : Cell)).
    { destruct Hg as [_ Hsame]. rewrite Hsame.
      - now rewrite <- app_assoc.
      - eapply nth_error_lt; eauto.
      - intros [E|[]]. congruence. }
    destruct (IH (done ++ [s]) sigma1 ts1 _ Hh Hav1 Hfrom1
                ltac:(destruct Hg; lia) He1 Ha1)
      as (sigma' & ts' & Hrun' & Hh' & Hfrom' & He' & Hg').
    exists sigma', ts'.
    split; [|split; [exact Hh'|split; [exact Hfrom'|split; [exact He'|]]]].
    + cbn [length seq Heap.forEach].
      rewrite (andThen_inner _ _ _ _ _ _ (loadArray_run _ _ _ Ha)).
      assert (Hnth : nth (length done) (map Heap.str (done ++ s :: r))
                       (Heap.Scalar Heap.PUndefined) = (Heap.str s : Stored)).
      { rewrite map_app. cbn [map].
        rewrite <- (length_map (@Heap.str Number Handle) done).
        apply nth_middle. }
      rewrite Hnth, (andThen_normal _ _ _ _ _ Hrun).
      rewrite <- Hrun'. rewrite length_app. cbn [length].
      now rewrite Nat.add_1_r.
    + eapply grows_trans; [exact Hg | exact Hg' | |]; apply incl_refl.
Qed.

(** [parseFields] on the store and on the parameter. *)
Lemma parseFields_agrees sigma x p :
  paramHeld sigma x p ->
  match parseFields p with
  | Normal fields =>
      exists sigma' t,
        Heap.parseFields x sigma = Some (sigma', Normal (root t))
        /\ grows [] sigma sigma'
        /\ holds sigma' t /\ erase t = fieldsValue fields /\ newTo sigma t
  | Throw msg =>
      exists sigma',
        Heap.parseFields x sigma = Some (sigma', Throw msg)
        /\ grows [] sigma sigma'
  end.
Proof.
  intros Hp.
  set (array := length sigma).
  set (sigma1 := sigma ++ [Heap.CArray [] : Cell]).
  assert (H1 : holds sigma1 (LArray array [])).
  { apply holds_array. split; [apply nth_error_new | constructor]. }
  assert (Hg1 : grows [] sigma sigma1) by apply grows_alloc.
  assert (Hfinish : forall sigma' (ts : list Located) fields,
            holds sigma' (LArray array ts) ->
            Forall (cellsFrom (length sigma)) ts ->
            map erase ts = map stringsValue fields ->
            grows [array] sigma1 sigma' ->
            grows [] sigma sigma'
            /\ holds sigma' (LArray array ts)
            /\ erase (LArray array ts) = fieldsValue fields
            /\ newTo sigma (LArray array ts)).
  { intros sigma' ts fields Hh Hfrom He Hg.
    split; [|split; [exact Hh|split]].
    - destruct Hg1 as [L1 S1], Hg as [L2 S2]. split; [lia|].
      intros loc Hlt _. rewrite S2, S1; auto.
      + lia.
      + intros [E|[]]. unfold array in E. lia.
    - cbn [erase]. unfold fieldsValue. now rewrite He.
    - intros loc. rewrite cells_array. intros [<-|Hin]; [unfold array; lia|].
      apply in_flat_map in Hin as (t & Hin & Hloc).
      rewrite Forall_forall in Hfrom. apply (Hfrom _ Hin _ Hloc). }
  destruct p as [[s|strs]|]; cbn [paramHeld] in Hp.
  - subst x. cbn [parseFields paramSplittable bind].
    destruct (splitStringAndBuildArray_run array s sigma1 [] [] (length sigma)
                H1 ltac:(constructor) ltac:(constructor)
                ltac:(destruct Hg1; lia) eq_refl)
      as (sigma' & ts & Hrun & Hh & _ & Hfrom & He & Hg).
    exists sigma', (LArray array ts).
    split; [|now apply (Hfinish sigma' ts _ Hh Hfrom He Hg)].
    cbn [Heap.parseFields].
    rewrite (andThen_normal _ _ _ _ _ (alloc_run sigma _)).
    fold array. fold sigma1.
    now rewrite (andThen_normal _ _ _ _ _ Hrun).
  - destruct Hp as (a & -> & Ha). cbn [parseFields].
    assert (Ha1 : nth_error sigma1 a
                  = Some (Heap.CArray (map Heap.str ([] ++ strs)) : Cell)).
    { unfold sigma1. rewrite nth_error_app1; [exact Ha|].
      eapply nth_error_lt; eauto. }
    assert (Hne : a <> array).
    { pose proof (nth_error_lt _ _ _ Ha). unfold array. lia. }
    destruct (sequence_run array a (length sigma) Hne strs [] sigma1 [] []
                H1 ltac:(constructor) ltac:(constructor)
                ltac:(destruct Hg1; lia) eq_refl Ha1)
      as (sigma' & ts & Hrun & Hh & Hfrom & He & Hg).
    exists sigma', (LArray array ts).
    split; [|now apply (Hfinish sigma' ts _ Hh Hfrom He Hg)].
    cbn [Heap.parseFields].
    rewrite (andThen_normal _ _ _ _ _ (alloc_run sigma _)).
    fold array. fold sigma1.
    rewrite (andThen_inner _ _ _ _ _ _ (load_run _ _ _ Ha1)). cbv beta iota.
    rewrite length_map. cbn [app length] in Hrun.
    now rewrite (andThen_normal _ _ _ _ _ Hrun).
  - subst x. cbn [parseFields paramSplittable bind].
    exists sigma1. split; [reflexivity | exact Hg1].
Qed.

(** [parseQueryParam] on the store and on the string. *)
Lemma parseQueryParam_run sigma (s : string) :
  exists sigma' t,
    Heap.parseQueryParam (Heap.str s) sigma = Some (sigma', Normal (root t))
    /\ grows [] sigma sigma'
    /\ holds sigma' t /\ erase t = parseQueryParam s /\ newTo sigma t.
Proof.
  unfold Heap.parseQueryParam, parseQueryParam.
  rewrite (andThen_normal (Heap.splittable "query" (Heap.str s)) _
             sigma sigma s eq_refl).
  destruct (JSString.splitColonRest s) as [|e0 [|e1 r]].
  - exists sigma, (LScalar (Heap.PStr EmptyString)).
    split; [reflexivity|]. split; [apply grows_refl|].
    split; [exact I|]. split; [reflexivity|]. intros loc [].
  - exists sigma, (LScalar (Heap.PStr e0)).
    split; [reflexivity|]. split; [apply grows_refl|].
    split; [exact I|]. split; [reflexivity|]. intros loc [].
  - set (pieces := JSString.split ","%char e1).
    set (param := length sigma).
    set (a := S (length sigma)).
    set (tv := (if Nat.ltb 1 (length pieces) then stringsAt a pieces
                else LScalar (Heap.PStr (hd EmptyString pieces))) : Located).
    set (k := toPropertyKey (operators e0)).
    set (sigma1 := sigma ++ [Heap.CObject [] : Cell]).
    set (sigma2 := sigma1 ++ [Heap.CArray (map Heap.str pieces) : Cell]).
    set (sigma3 := Heap.update param (Heap.CObject [(k, root tv)]) sigma2).
    assert (L1 : length sigma1 = a)
      by (unfold sigma1, a; rewrite length_app; cbn; lia).
    assert (L2 : length sigma2 = S a)
      by (unfold sigma2; rewrite length_app, L1; cbn; lia).
    assert (Hp2 : nth_error sigma2 param = Some (Heap.CObject [] : Cell)).
    { unfold sigma2. rewrite nth_error_app1 by (rewrite L1; unfold a, param; lia).
      apply nth_error_new. }
    assert (Ha3 : nth_error sigma3 a
                  = Some (Heap.CArray (map Heap.str pieces) : Cell)).
    { unfold sigma3. rewrite update_other by (unfold a, param; lia).
      unfold sigma2. rewrite <- L1. apply nth_error_new. }
    exists sigma3, (LObject param [(k, tv)]).
    split; [|split; [|split; [|split]]].
    + rewrite (andThen_normal _ _ _ _ _ (alloc_run sigma _)).
      fold param. fold sigma1.
      rewrite (andThen_normal _ _ _ _ _ (alloc_run sigma1 _)).
      rewrite L1. fold sigma2.
      rewrite (andThen_normal _ _ _ _ _ (loadObject_run _ _ _ Hp2)).
      rewrite (andThen_normal _ _ _ _ _
                 (store_run sigma2 param _ ltac:(rewrite L2; unfold param, a; lia))).
      unfold Heap.ret, sigma3. do 4 f_equal. cbn [Heap.set]. do 2 f_equal.
      unfold tv. now destruct (Nat.ltb 1 (length pieces)).
    + split; [unfold sigma3; rewrite update_length, L2; unfold a; lia|].
      intros loc Hlt _. unfold sigma3, sigma2, sigma1.
      rewrite update_other by (unfold param; lia).
      rewrite nth_error_app1 by (rewrite length_app; lia).
      now rewrite nth_error_app1.
    + apply holds_object. split.
      * unfold sigma3. apply update_same. rewrite L2. unfold param, a. lia.
      * constructor; [|constructor]. cbn [snd]. unfold tv.
        destruct (Nat.ltb 1 (length pieces)); [|exact I].
        now apply stringsAt_holds.
    + cbn [erase]. unfold Heap.mapValues. cbn [map fst snd]. do 3 f_equal.
      unfold tv. fold pieces.
      destruct (Nat.ltb 1 (length pieces)); [|reflexivity].
      apply stringsAt_erase.
    + intros loc. rewrite cells_object, cellsOf_cons. cbn [cellsOf flat_map].
      rewrite app_nil_r. intros [<-|Hin]; [unfold param; lia|].
      unfold tv in Hin. destruct (Nat.ltb 1 (length pieces)).
      * rewrite stringsAt_cells in Hin. destruct Hin as [<-|[]]. unfold a. lia.
      * destruct Hin.
Qed.

(** The properties that [{...t}] copies. *)
Lemma charsAt_root n (s : string) :
  Heap.mapValues root (charsAt n s)
  = (Heap.charsFrom n s : Heap.Properties Number Handle).
Proof.
  revert n. induction s as [|c r IH]; intros n; [reflexivity|].
  cbn. f_equal. apply IH.
Qed.

Lemma charsAt_erase n (s : string) :
  Heap.mapValues erase (charsAt n s)
  = (charsFrom n s : Props Number Handle).
Proof.
  revert n. induction s as [|c r IH]; intros n; [reflexivity|].
  cbn. f_equal. apply IH.
Qed.

Lemma ownTrees_erase t :
  ownProperties (erase t) = Heap.mapValues erase (ownTrees t).
Proof.
  destruct t as [[| | | |s|]|l o|l elems]; try reflexivity.
  - symmetry. apply charsAt_erase.
  - cbn [erase ownProperties ownTrees]. apply (elementsFrom_map erase).
Qed.

Lemma ownTrees_root sigma t :
  holds sigma t ->
  Heap.ownProperties (root t) sigma
  = Some (sigma, Normal (Heap.mapValues root (ownTrees t))).
Proof.
  intros H. destruct t as [[| | | |s|]|l o|l elems]; try reflexivity.
  - cbn [root Heap.ownProperties ownTrees]. now rewrite charsAt_root.
  - apply holds_object in H as [Hl _]. cbn [root Heap.ownProperties].
    now rewrite (andThen_normal _ _ _ _ _ (load_run _ _ _ Hl)).
  - apply holds_array in H as [Hl _]. cbn [root Heap.ownProperties ownTrees].
    rewrite (andThen_normal _ _ _ _ _ (load_run _ _ _ Hl)). cbv beta iota.
    now rewrite (elementsFrom_map root).
Qed.

Lemma charsAt_holds sigma (s : string) : forall n,
  Forall (fun kv : PropKey * Located => holds sigma (snd kv)) (charsAt n s).
Proof.
  induction s as [|c r IH]; intros n; cbn [charsAt]; constructor.
  - exact I.
  - apply IH.
Qed.

Lemma elementsFrom_holds sigma (elems : list Located) : forall n,
  Forall (holds sigma) elems ->
  Forall (fun kv => holds sigma (snd kv)) (Heap.elementsFrom n elems).
Proof.
  induction elems as [|e r IH]; intros n H; cbn [Heap.elementsFrom];
    constructor.
  - now apply Forall_cons_iff in H.
  - apply IH. now apply Forall_cons_iff in H.
Qed.

Lemma ownTrees_holds sigma t :
  holds sigma t -> Forall (fun kv => holds sigma (snd kv)) (ownTrees t).
Proof.
  intros H. destruct t as [p|l o|l elems].
  - destruct p; try constructor. apply charsAt_holds.
  - now apply holds_object in H as [_ Hc].
  - apply holds_array in H as [_ Hc]. now apply elementsFrom_holds.
Qed.

Lemma Forall_copy (P : PropKey * Located -> Prop) (p o : list (PropKey * Located)) :
  (forall k k' (t : Located), P (k, t) -> P (k', t)) ->
  Forall P p -> Forall P o -> Forall P (Heap.copy p o).
Proof.
  intros Hk Hp. unfold Heap.copy. revert o.
  induction Hp as [|[k t] r Hx Hr IH]; intros o Ho; [exact Ho|].
  cbn [fold_left fst snd]. apply IH. apply Forall_set; [|exact Ho].
  intros k'. eapply Hk; eauto.
Qed.

(** [{ ...where, ...parsed }]: a new object of the trees of the two. *)
Lemma spread_run sigma (w : Heap.Loc) o t :
  holds sigma (LObject w o) -> holds sigma t ->
  let o' := Heap.copy (ownTrees t) o in
  Heap.spread (Heap.Ref w) (root t) sigma
  = Some (sigma ++ [Heap.CObject (Heap.mapValues root o')],
          Normal (Heap.Ref (length sigma)))
  /\ holds (sigma ++ [Heap.CObject (Heap.mapValues root o')])
       (LObject (length sigma) o')
  /\ Heap.mapValues erase o' = spread (Heap.mapValues erase o) (erase t)
  /\ Forall (fun kv => holds sigma (snd kv)) o'.
Proof.
  intros H Ht o'. pose proof H as H0. apply holds_object in H0 as [Hl Hc].
  assert (F : Forall (fun kv => holds sigma (snd kv)) o').
  { apply Forall_copy; auto using ownTrees_holds. }
  split; [|split; [|split; [|exact F]]].
  - unfold Heap.spread. cbn [Heap.ownProperties].
    rewrite (andThen_inner _ _ _ _ _ _ (load_run _ _ _ Hl)). cbv beta iota.
    rewrite (andThen_normal (Heap.ret (Heap.mapValues root o)) _
               sigma sigma _ eq_refl).
    rewrite (andThen_normal _ _ _ _ _ (ownTrees_root _ _ Ht)).
    rewrite (andThen_normal _ _ _ _ _ (alloc_run sigma _)).
    unfold o'. now rewrite copy_mapValues.
  - apply holds_object. split; [apply nth_error_new|].
    rewrite Forall_forall in *. intros kv Hin.
    eapply grows_nil_holds; [apply grows_alloc | now apply F].
  - unfold spread, o'. rewrite ownTrees_erase.
    symmetry. apply (copy_mapValues erase).
Qed.

End StoreFunctions.

(* ================================================================== *)
(** ** The call over the store *)
(* ================================================================== *)

Section StoreCall.

Context {Number Handle : Type} `{RT : Runtime Number Handle}.

#[local] Abbreviation Value := (JSValue Number Handle).
#[local] Abbreviation Located := (Located Number Handle).
#[local] Abbreviation Stored := (Heap.Stored Number Handle).
#[local] Abbreviation Store := (Heap.Store Number Handle).
#[local] Abbreviation Cell := (Heap.Cell Number Handle).
#[local] Abbreviation State := (@LoopState Number Handle).

Implicit Types (sigma : Store) (t : Located) (l w req : Heap.Loc)
  (o : list (PropKey * Located)) (k : PropKey) (key : string)
  (p : option ParamValue) (x : Stored) (q : Query) (st : State)
  (h : @Heap.LoopState Number Handle) (base : nat).

Lemma keeps_refl base sigma : keeps base sigma sigma.
Proof. split; auto. Qed.

Lemma keeps_trans base sigma sigma1 sigma2 :
  keeps base sigma sigma1 -> keeps base sigma1 sigma2 ->
  keeps base sigma sigma2.
Proof.
  intros [L1 H1] [L2 H2]. split; [lia|].
  intros loc Hloc. rewrite H2, H1; auto.
Qed.

Lemma grows_keeps base among sigma sigma' :
  grows among sigma sigma' -> base <= length sigma ->
  (forall loc, In loc among -> base <= loc) ->
  keeps base sigma sigma'.
Proof.
  intros [L H] Hb Ha. split; [exact L|].
  intros loc Hloc. apply H; [lia|]. intros Hin. apply Ha in Hin. lia.
Qed.

Lemma requestHeld_keeps base sigma sigma' req q :
  keeps base sigma sigma' -> requestHeld base sigma req q ->
  requestHeld base sigma' req q.
Proof.
  intros [L H] (t & Hh & Hr & He & Hb). exists t.
  split; [|auto]. apply (holds_frame sigma); [|exact Hh].
  intros loc Hloc. apply H. now apply Hb.
Qed.

(** What a tree that erases to a string, or to an array of strings, is. *)
Lemma erase_string t (s : string) :
  erase t = JStr s -> t = LScalar (Heap.PStr s).
Proof.
  destruct t as [[]| |]; cbn; intros E; try discriminate E. congruence.
Qed.

Lemma erase_strings sigma t (strs : list string) :
  erase t = stringsValue strs -> holds sigma t ->
  exists a, root t = Heap.Ref a
            /\ nth_error sigma a = Some (Heap.CArray (map Heap.str strs)).
Proof.
  destruct t as [[]|l o|l elems]; cbn [erase Heap.inject]; intros E H;
    try discriminate E.
  injection E as E. apply holds_array in H as [Hl _].
  exists l. split; [reflexivity|]. rewrite Hl. do 2 f_equal. clear Hl.
  revert strs E. induction elems as [|e r IH]; intros [|s strs] E;
    try discriminate E; [reflexivity|].
  cbn [map] in *. injection E as E1 E2.
  apply erase_string in E1 as ->. f_equal. now apply IH.
Qed.

(** [req.query[key]] is the parameter of the request. *)
Lemma queryParam_run base sigma req q key :
  requestHeld base sigma req q ->
  exists x,
    Heap.queryParam req key sigma = Some (sigma, Normal x)
    /\ paramHeld sigma x (param key q).
Proof.
  intros (t & Hh & Hr & He & _).
  destruct t as [|l o|]; try discriminate Hr; try discriminate He.
  injection Hr as ->. cbn [erase] in He. injection He as He.
  exists (root (child (KStr key) o)). split.
  - unfold Heap.queryParam.
    rewrite (andThen_normal _ _ _ _ _ (loadObject_holds _ _ _ Hh)).
    now rewrite read_root.
  - apply holds_object in Hh as [_ Hc]. clear base.
    unfold child, param. revert o He Hc.
    induction q as [|[name v] r IH]; intros [|[k t] o] He Hc;
      try discriminate He; [reflexivity|].
    cbn [map fst snd Heap.mapValues] in He. injection He as -> Et Er.
    apply Forall_cons_iff in Hc as [Ht Hc]. cbn [snd] in Ht.
    cbn [Heap.get assocString PropKey_eqb].
    destruct (String.eqb key name).
    + destruct v as [s|strs]; cbn [paramHeld].
      * apply erase_string in Et as ->. reflexivity.
      * apply (erase_strings sigma t strs Et Ht).
    + now apply IH.
Qed.

(** What the store holds stays held when cells are added. *)
Lemma heldApart_grows w sigma sigma' x (v : Value) :
  grows [] sigma sigma' -> heldApart w sigma x v -> heldApart w sigma' x v.
Proof.
  intros G (t & Hh & Hr & He & Hw). exists t.
  split; [eapply grows_nil_holds; eauto | auto].
Qed.

Lemma heldApartOption_grows {A : Type} (value : A -> Value) w sigma sigma'
    (x : option Stored) (a : option A) :
  grows [] sigma sigma' ->
  heldApartOption value w sigma x a -> heldApartOption value w sigma' x a.
Proof.
  intros G. destruct x, a; cbn; auto. now apply heldApart_grows.
Qed.

Lemma whereHeld_grows w sigma sigma' (props : Props Number Handle) :
  grows [] sigma sigma' -> whereHeld w sigma props -> whereHeld w sigma' props.
Proof.
  intros G (o & Hh & He & Hw). exists o.
  split; [eapply grows_nil_holds; eauto | auto].
Qed.

Lemma whereHeld_lt w sigma (props : Props Number Handle) :
  whereHeld w sigma props -> w < length sigma.
Proof.
  intros (o & Hh & _). apply (holds_bound _ _ Hh). now left.
Qed.

Lemma stateHeld_grows base q sigma sigma' h st :
  grows [] sigma sigma' -> stateHeld base q sigma h st ->
  stateHeld base q sigma' h st.
Proof.
  intros G (Hq & Ho & Hl & Hdo & Hdl & w & Hw & Hb & Hwh & Ha & Hor & Hg & Hi).
  repeat (split; [assumption|]). exists w.
  repeat (split; [assumption|]).
  split; [eapply whereHeld_grows; eauto|].
  repeat (split; [eapply heldApartOption_grows; eauto|]).
  eapply heldApartOption_grows; eauto.
Qed.

(** A tree of new cells has no part in a cell that was there. *)
Lemma heldApart_new w sigma sigma' t :
  holds sigma' t -> newTo sigma t -> w < length sigma ->
  heldApart w sigma' (root t) (erase t).
Proof.
  intros Hh Hn Hw. exists t. repeat split; auto.
  intros Hin. apply Hn in Hin. lia.
Qed.

(** A tree that the store holds has no part in a cell that is not yet
    there. *)
Lemma heldApart_old w sigma x (v : Value) w' :
  heldApart w sigma x v -> length sigma <= w' -> heldApart w' sigma x v.
Proof.
  intros (t & Hh & Hr & He & _) Hw. exists t. repeat split; auto.
  intros Hin. pose proof (holds_bound _ _ Hh _ Hin). lia.
Qed.

Lemma heldApartOption_old {A : Type} (value : A -> Value) w sigma
    (x : option Stored) (a : option A) w' :
  heldApartOption value w sigma x a -> length sigma <= w' ->
  heldApartOption value w' sigma x a.
Proof.
  destruct x, a; cbn; auto. apply heldApart_old.
Qed.

(** What has no part in [where] is held after a write to it. *)
Lemma heldApart_update w sigma (c : Cell) x (v : Value) :
  heldApart w sigma x v -> heldApart w (Heap.update w c sigma) x v.
Proof.
  intros (t & Hh & Hr & He & Hw). exists t. repeat split; auto.
  apply (grows_holds [w] sigma); [apply grows_update | exact Hh|].
  intros loc [<-|[]]. exact Hw.
Qed.

Lemma heldApartOption_update {A : Type} (value : A -> Value) w sigma
    (c : Cell) (x : option Stored) (a : option A) :
  heldApartOption value w sigma x a ->
  heldApartOption value w (Heap.update w c sigma) x a.
Proof.
  destruct x, a; cbn; auto. apply heldApart_update.
Qed.

Ltac held_rest :=
  repeat match goal with
         | |- _ /\ _ => split
         | |- whereHeld _ _ _ => eapply whereHeld_grows; eassumption
         | |- heldApartOption _ _ _ _ _ =>
             eapply heldApartOption_grows; eassumption
         | |- _ = _ => assumption || reflexivity
         | |- _ <= _ => assumption
         end.

(** One turn of the loop, over the store and over the request. *)
Lemma parseStep_agrees base sigma req q key h st :
  requestHeld base sigma req q -> base <= length sigma ->
  stateHeld base q sigma h st ->
  match parseStep key st with
  | Normal st' =>
      exists sigma' h',
        Heap.parseStep req key h sigma = Some (sigma', Normal h')
        /\ stateHeld base q sigma' h' st'
        /\ keeps base sigma sigma'
  | Throw msg =>
      exists sigma',
        Heap.parseStep req key h sigma = Some (sigma', Throw msg)
        /\ keeps base sigma sigma'
  end.
Proof.
  intros Hreq Hbase Hst.
  pose proof Hst as
    (Hq & Ho & Hl & Hdo & Hdl & w & Hw & Hb & Hwh & Ha & Hor & Hg & Hi).
  pose proof (whereHeld_lt _ _ _ Hwh) as Hwlt.
  destruct (queryParam_run base sigma req q key Hreq) as (x & Hx & Hp).
  destruct (key_cases key)
    as [-> | [-> | [-> | [-> | [-> | [-> | [-> | Hr]]]]]]].
  - (* fields *)
    unfold parseStep, Heap.parseStep; cbn [String.eqb Ascii.eqb Bool.eqb].
    rewrite Hq, (andThen_normal _ _ _ _ _ Hx).
    pose proof (splittable_param sigma "req.query.fields" x _ Hp) as Hs.
    destruct (paramSplittable "req.query.fields" (param "fields" q))
      as [s|msg]; cbn [bind].
    + rewrite (andThen_normal _ _ _ _ _ Hs).
      rewrite (andThen_normal _ _ _ _ _ (alloc_run sigma _)).
      rewrite !split_length.
      pose proof (grows_alloc sigma
                    (Heap.CArray (map Heap.str (JSString.split ","%char s))))
        as G.
      eexists _, _. split; [reflexivity|].
      split; [|eapply grows_keeps; eauto; intros loc []].
      split; [exact Hq|]. cbn.
      repeat (split; [assumption|]). exists w.
      split; [exact Hw|]. split; [exact Hb|].
      split; [eapply whereHeld_grows; eauto|].
      split; [|held_rest].
      exists (stringsAt (length sigma) (JSString.split ","%char s)).
      split; [apply stringsAt_holds, nth_error_new|].
      split; [reflexivity|]. split; [apply stringsAt_erase|].
      rewrite stringsAt_cells. intros [E|[]]. lia.
    + exists sigma. split; [now apply andThen_throw | apply keeps_refl].
  - (* limit *)
    unfold parseStep, Heap.parseStep; cbn [String.eqb Ascii.eqb Bool.eqb].
    rewrite Hq, (andThen_normal _ _ _ _ _ Hx).
    rewrite (andThen_normal _ _ _ _ _ (toStringOf_param _ _ _ Hp)).
    eexists _, _. split; [reflexivity|]. split; [|apply keeps_refl].
    split; [reflexivity|]. cbn.
    repeat (split; [assumption || reflexivity|]). exists w.
    repeat (split; [assumption|]). assumption.
  - (* offset *)
    unfold parseStep, Heap.parseStep; cbn [String.eqb Ascii.eqb Bool.eqb].
    rewrite Hq, (andThen_normal _ _ _ _ _ Hx).
    rewrite (andThen_normal _ _ _ _ _ (toStringOf_param _ _ _ Hp)).
    eexists _, _. split; [reflexivity|]. split; [|apply keeps_refl].
    split; [reflexivity|]. cbn.
    repeat (split; [assumption || reflexivity|]). exists w.
    repeat (split; [assumption|]). assumption.
  - (* sort_by *)
    unfold parseStep, Heap.parseStep; cbn [String.eqb Ascii.eqb Bool.eqb].
    rewrite Hq, (andThen_normal _ _ _ _ _ Hx).
    pose proof (parseFields_agrees sigma x _ Hp) as F.
    destruct (parseFields (param "sort_by" q)) as [fields|msg]; cbn [bind].
    + destruct F as (sigma' & t & Hrun & G & Hh & He & Hn).
      rewrite (andThen_normal _ _ _ _ _ Hrun).
      eexists _, _. split; [reflexivity|].
      split; [|eapply grows_keeps; eauto; intros loc []].
      split; [exact Hq|]. cbn.
      repeat (split; [assumption|]). exists w.
      split; [exact Hw|]. split; [exact Hb|].
      split; [eapply whereHeld_grows; eauto|].
      split; [eapply heldApartOption_grows; eauto|].
      split; [|held_rest].
      rewrite <- He. now apply (heldApart_new w sigma).
    + destruct F as (sigma' & Hrun & G).
      exists sigma'. split; [now apply andThen_throw|].
      eapply grows_keeps; eauto. intros loc [].
  - (* group_by *)
    unfold parseStep, Heap.parseStep; cbn [String.eqb Ascii.eqb Bool.eqb].
    rewrite Hq, (andThen_normal _ _ _ _ _ Hx).
    pose proof (parseFields_agrees sigma x _ Hp) as F.
    destruct (parseFields (param "group_by" q)) as [fields|msg]; cbn [bind].
    + destruct F as (sigma' & t & Hrun & G & Hh & He & Hn).
      rewrite (andThen_normal _ _ _ _ _ Hrun).
      eexists _, _. split; [reflexivity|].
      split; [|eapply grows_keeps; eauto; intros loc []].
      split; [exact Hq|]. cbn.
      repeat (split; [assumption|]). exists w.
      split; [exact Hw|]. split; [exact Hb|].
      split; [eapply whereHeld_grows; eauto|].
      split; [eapply heldApartOption_grows; eauto|].
      split; [eapply heldApartOption_grows; eauto|].
      split; [|held_rest].
      rewrite <- He. now apply (heldApart_new w sigma).
    + destruct F as (sigma' & Hrun & G).
      exists sigma'. split; [now apply andThen_throw|].
      eapply grows_keeps; eauto. intros loc [].
  - (* query *)
    unfold parseStep, Heap.parseStep; cbn [String.eqb Ascii.eqb Bool.eqb].
    rewrite Hq, (andThen_normal _ _ _ _ _ Hx).
    pose proof (toStringMethod_param _ _ _ Hp) as Hs.
    destruct (paramToStringMethod (param "query" q)) as [s|msg]; cbn [bind].
    + pose proof (parseQueryFields_agrees sigma x s Hs) as P.
      destruct (parseQueryFields s) as [v'|msg]; cbn [bind].
      * destruct P as (sigma1 & t' & Hrun & G & Hh & He & Hn).
        rewrite (andThen_normal _ _ _ _ _ Hrun), Hw.
        destruct (whereHeld_grows _ _ _ _ G Hwh) as (o & Hho & Heo & Havo).
        destruct (spread_run sigma1 w o t' Hho Hh) as (Hsp & Hh2 & He2 & Hc2).
        rewrite (andThen_normal _ _ _ _ _ Hsp).
        pose proof (grows_alloc sigma1
                      (Heap.CObject
                         (Heap.mapValues root (Heap.copy (ownTrees t') o))))
          as G2.
        eexists _, _. split; [reflexivity|].
        split; [|eapply keeps_trans; eapply grows_keeps; eauto;
                 [intros loc [] | destruct G; lia | intros loc []]].
        split; [exact Hq|]. cbn.
        repeat (split; [assumption|]). exists (length sigma1).
        split; [reflexivity|]. split; [destruct G; lia|].
        split.
        { exists (Heap.copy (ownTrees t') o). split; [exact Hh2|].
          split; [now rewrite He2, Heo, He|].
          rewrite Forall_forall in *. intros kv Hin Hloc.
          pose proof (holds_bound _ _ (Hc2 _ Hin) _ Hloc). lia. }
        repeat split;
          (eapply heldApartOption_grows; [exact G2|];
           eapply heldApartOption_old; [|apply Nat.le_refl];
           eapply heldApartOption_grows; eassumption).
      * destruct P as (sigma1 & Hrun & G).
        exists sigma1. split; [now apply andThen_throw|].
        eapply grows_keeps; eauto. intros loc [].
    + exists sigma. split; [|apply keeps_refl].
      apply andThen_throw. unfold Heap.parseQueryFields.
      now apply andThen_throw.
  - (* include *)
    unfold parseStep, Heap.parseStep; cbn [String.eqb Ascii.eqb Bool.eqb].
    rewrite Hq, (andThen_normal _ _ _ _ _ Hx).
    change (Heap.parseIncludeFields x) with (Heap.parseQueryFields x).
    pose proof (toStringMethod_param _ _ _ Hp) as Hs.
    destruct (paramToStringMethod (param "include" q)) as [s|msg]; cbn [bind].
    + pose proof (parseQueryFields_agrees sigma x s Hs) as P.
      change (parseIncludeFields s) with (parseQueryFields s).
      destruct (parseQueryFields s) as [v'|msg]; cbn [bind].
      * destruct P as (sigma' & t & Hrun & G & Hh & He & Hn).
        rewrite (andThen_normal _ _ _ _ _ Hrun).
        eexists _, _. split; [reflexivity|].
        split; [|eapply grows_keeps; eauto; intros loc []].
        split; [exact Hq|]. cbn.
        repeat (split; [assumption|]). exists w.
        split; [exact Hw|]. split; [exact Hb|].
        split; [eapply whereHeld_grows; eauto|].
        split; [eapply heldApartOption_grows; eauto|].
        split; [eapply heldApartOption_grows; eauto|].
        split; [eapply heldApartOption_grows; eauto|].
        rewrite <- He. now apply (heldApart_new w sigma).
      * destruct P as (sigma1 & Hrun & G).
        exists sigma1. split; [now apply andThen_throw|].
        eapply grows_keeps; eauto. intros loc [].
    + exists sigma. split; [|apply keeps_refl].
      apply andThen_throw. unfold Heap.parseQueryFields.
      now apply andThen_throw.
  - (* a filter *)
    rewrite (parseStep_filter key st Hr).
    unfold Heap.parseStep.
    apply reserved_false in Hr as (-> & -> & -> & -> & -> & -> & ->).
    rewrite Hq, (andThen_normal _ _ _ _ _ Hx).
    pose proof (splittable_param sigma "query" x _ Hp) as Hs.
    destruct (paramSplittable "query" (param key q)) as [s|msg] eqn:Es;
      cbn [bind].
    + assert (Ex : x = Heap.str s).
      { destruct (param key q) as [[s'|strs]|]; try discriminate Es.
        injection Es as ->. exact Hp. }
      subst x.
      destruct (parseQueryParam_run sigma s)
        as (sigma1 & t & Hrun & G & Hh & He & Hn).
      rewrite (andThen_normal _ _ _ _ _ Hrun), Hw.
      destruct (whereHeld_grows _ _ _ _ G Hwh) as (o & Hho & Heo & Havo).
      rewrite (andThen_normal _ _ _ _ _ (loadObject_holds _ _ _ Hho)).
      assert (Hw1 : w < length sigma1) by (destruct G; lia).
      rewrite (andThen_normal _ _ _ _ _ (store_run sigma1 w _ Hw1)).
      rewrite (set_mapValues root (KStr key) t o).
      set (sigma2 := Heap.update w _ sigma1).
      assert (Hnw : ~ In w (cells t)).
      { intros Hin. apply Hn in Hin. lia. }
      exists sigma2, h. split; [reflexivity|]. split.
      * split; [exact Hq|]. cbn.
        repeat (split; [assumption|]). exists w.
        split; [exact Hw|]. split; [exact Hb|].
        split.
        { exists (Heap.set (KStr key) t o). split; [|split].
          - apply holds_object. split; [now apply update_same|].
            apply holds_object in Hho as [_ Hco].
            assert (F : Forall (fun kv => holds sigma1 (snd kv)
                                          /\ ~ In w (cells (snd kv)))
                          (Heap.set (KStr key) t o)).
            { apply Forall_set; [intros; now split|].
              rewrite Forall_forall in *. intros kv Hin. split; auto. }
            rewrite Forall_forall in *. intros kv Hin.
            destruct (F _ Hin) as [F1 F2].
            apply (grows_holds [w] sigma1); [apply grows_update | exact F1|].
            intros loc [<-|[]]. exact F2.
          - rewrite <- Heo, <- He. symmetry. apply set_erase.
          - apply Forall_set; [intros; exact Hnw | exact Havo]. }
        repeat split;
          (apply heldApartOption_update;
           eapply heldApartOption_grows; eassumption).
      * eapply keeps_trans; [eapply grows_keeps; eauto; intros loc []|].
        eapply grows_keeps; [apply grows_update | destruct G; lia|].
        intros loc [<-|[]]. exact Hb.
    + exists sigma. split; [|apply keeps_refl].
      apply andThen_throw. unfold Heap.parseQueryParam.
      now apply andThen_throw.
Qed.

End StoreCall.

(* ================================================================== *)
(** ** The call over the store, as a whole *)
(* ================================================================== *)

Section StoreParse.

Context {Number Handle : Type} `{RT : Runtime Number Handle}.

#[local] Abbreviation Value := (JSValue Number Handle).
#[local] Abbreviation Located := (Located Number Handle).
#[local] Abbreviation Stored := (Heap.Stored Number Handle).
#[local] Abbreviation Store := (Heap.Store Number Handle).
#[local] Abbreviation Cell := (Heap.Cell Number Handle).
#[local] Abbreviation State := (@LoopState Number Handle).

Implicit Types (sigma : Store) (t : Located) (l w req : Heap.Loc)
  (o : list (PropKey * Located)) (k : PropKey) (key : string)
  (p : option ParamValue) (x : Stored) (q : Query) (st : State)
  (h : @Heap.LoopState Number Handle) (base : nat).

(** The loop, over the store and over the request. *)
Lemma forIn_agrees base req q : forall (ks : list string) sigma h st,
  requestHeld base sigma req q -> base <= length sigma ->
  stateHeld base q sigma h st ->
  match forIn ks st with
  | (st', None) =>
      exists sigma' h',
        Heap.forIn req ks h sigma = Some (sigma', Normal h')
        /\ stateHeld base q sigma' h' st'
        /\ keeps base sigma sigma'
  | (_, Some msg) =>
      exists sigma',
        Heap.forIn req ks h sigma = Some (sigma', Throw msg)
        /\ keeps base sigma sigma'
  end.
Proof.
  induction ks as [|key rest IH]; intros sigma h st Hreq Hbase Hst.
  - cbn. exists sigma, h. split; [reflexivity|].
    split; [exact Hst | apply keeps_refl].
  - cbn [forIn Heap.forIn].
    pose proof (parseStep_agrees base sigma req q key h st Hreq Hbase Hst) as S.
    destruct (parseStep key st) as [st1|msg].
    + destruct S as (sigma1 & h1 & Hrun & Hst1 & K).
      specialize (IH sigma1 h1 st1 (requestHeld_keeps _ _ _ _ _ K Hreq)
                    ltac:(destruct K; lia) Hst1).
      destruct (forIn rest st1) as [st' [msg|]].
      * destruct IH as (sigma' & Hrun' & K').
        exists sigma'. rewrite (andThen_normal _ _ _ _ _ Hrun).
        split; [exact Hrun' | eapply keeps_trans; eauto].
      * destruct IH as (sigma' & h' & Hrun' & Hst' & K').
        exists sigma', h'. rewrite (andThen_normal _ _ _ _ _ Hrun).
        split; [exact Hrun'|]. split; [exact Hst' | eapply keeps_trans; eauto].
    + destruct S as (sigma1 & Hrun & K).
      exists sigma1. split; [now apply andThen_throw | exact K].
Qed.

Lemma heldApart_represents w sigma x (v : Value) :
  heldApart w sigma x v -> represents sigma x v.
Proof. intros (t & Hh & Hr & He & _). exists t. auto. Qed.

Lemma heldApartOption_represents {A : Type} (value : A -> Value) w sigma
    (x : option Stored) (a : option A) :
  heldApartOption value w sigma x a -> representsOption value sigma x a.
Proof. destruct x, a; cbn; auto. apply heldApart_represents. Qed.

Lemma queryValue_keys q (o : list (PropKey * Located)) :
  Heap.mapValues erase o
  = map (fun kv => (KStr (fst kv),
                    match snd kv with
                    | PStr s => JStr s
                    | PArr strs => stringsValue strs
                    end)) q ->
  Heap.keys o = map fst q.
Proof.
  revert o. induction q as [|[name v] r IH]; intros [|[k t] o] E;
    try discriminate E; [reflexivity|].
  cbn in E. injection E as -> _ E. cbn. f_equal. now apply IH.
Qed.

(** The call over the store settles as the call over the request does,
    and leaves every cell that was there as it was. *)
Lemma parse_agrees sigma req q :
  represents sigma (Heap.Ref req) (queryValue q) ->
  exists sigma' s,
    Heap.parse req sigma = Some (sigma', s)
    /\ representsSettled sigma' s (parse q)
    /\ unchanged sigma sigma'.
Proof.
  intros (tq & Hhq & Hrq & Heq).
  set (base := length sigma).
  set (sigma1 := sigma ++ [Heap.CObject [] : Cell]).
  assert (G : grows [] sigma sigma1) by apply grows_alloc.
  assert (Hreq : requestHeld base sigma1 req q).
  { exists tq. split; [eapply grows_nil_holds; eauto|].
    split; [exact Hrq|]. split; [exact Heq|].
    intros loc Hloc. eapply holds_bound; eauto. }
  assert (Hb1 : base <= length sigma1) by (destruct G; assumption).
  assert (Hkeys : exists props,
            Heap.loadObject req sigma1 = Some (sigma1, Normal props)
            /\ Heap.keys props = map fst q).
  { destruct Hreq as (t & Hh & Hr & He & _).
    destruct t as [|l o|]; try discriminate Hr; try discriminate He.
    injection Hr as ->. cbn [erase] in He. injection He as He.
    exists (Heap.mapValues root o).
    split; [now apply loadObject_holds|].
    rewrite keys_mapValues. now apply queryValue_keys. }
  destruct Hkeys as (props & Hload & Hkeys).
  set (h0 := {| Heap.offsetVar := Num 0; Heap.limitVar := pageSizeLimit;
                Heap.dbQuery :=
                  {| Heap.where_ := Heap.Ref base; Heap.offset := Num 0;
                     Heap.limit := pageSizeLimit; Heap.attributes := None;
                     Heap.order := None; Heap.group := None;
                     Heap.include := None |} |}
             : @Heap.LoopState Number Handle).
  assert (Hst : stateHeld base q sigma1 h0 (initialState q)).
  { repeat (split; [reflexivity|]). exists base.
    split; [reflexivity|]. split; [apply Nat.le_refl|].
    split; [|repeat split].
    exists []. split; [|split; [reflexivity | constructor]].
    apply holds_object. split; [apply nth_error_new | constructor]. }
  pose proof (forIn_agrees base req q (map fst q) sigma1 h0 (initialState q)
                Hreq Hb1 Hst) as L.
  assert (Hrun : forall c,
            Heap.forIn req (map fst q) h0 sigma1 = c ->
            Heap.translate req sigma
            = match c with
              | Some (sigma', Normal h') =>
                  Some (sigma',
                        Normal
                          {| Heap.where_ := Heap.where_ (Heap.dbQuery h');
                             Heap.offset :=
                               JSNumber.mul (Heap.offsetVar h')
                                 (Heap.limitVar h');
                             Heap.limit := Heap.limit (Heap.dbQuery h');
                             Heap.attributes :=
                               Heap.attributes (Heap.dbQuery h');
                             Heap.order := Heap.order (Heap.dbQuery h');
                             Heap.group := Heap.group (Heap.dbQuery h');
                             Heap.include := Heap.include (Heap.dbQuery h') |})
              | Some (sigma', Throw msg) => Some (sigma', Throw msg)
              | None => None
              end).
  { intros c Hc. unfold Heap.translate.
    rewrite (andThen_normal _ _ _ _ _ (alloc_run sigma _)).
    fold base. fold sigma1.
    rewrite (andThen_normal _ _ _ _ _ Hload), Hkeys.
    fold h0. unfold Heap.andThen. rewrite Hc.
    destruct c as [[sigma' [h'|msg]]|]; reflexivity. }
  rewrite parse_loop. unfold Heap.parse.
  destruct (forIn (map fst q) (initialState q)) as [st' [msg|]].
  - destruct L as (sigma' & Hl & K).
    rewrite (Hrun _ Hl). exists sigma', (Heap.Reject msg).
    split; [reflexivity|]. split; [reflexivity|].
    intros loc Hloc. destruct K as [_ K], G as [_ G].
    rewrite K by exact Hloc. apply G; auto.
  - destruct L as (sigma' & h' & Hl & Hst' & K).
    rewrite (Hrun _ Hl). eexists sigma', (Heap.Resolve _).
    split; [reflexivity|]. split.
    + destruct Hst' as
        (Hq & Ho & Hlv & Hdo & Hdl & w & Hw & Hbw & Hwh & Ha & Hor & Hg & Hi).
      cbn. split; [|split; [now rewrite Ho, Hlv|split; [exact Hdl|]]].
      * destruct Hwh as (o & Hho & Heo & _). exists (LObject w o).
        split; [exact Hho|]. split; [now rewrite Hw|].
        cbn [erase]. now rewrite Heo.
      * repeat split; eapply heldApartOption_represents; eauto.
    + intros loc Hloc. destruct K as [_ K], G as [_ G].
      rewrite K by exact Hloc. apply G; auto.
Qed.

End StoreParse.

Section StoreClaims.

Context {Number Handle : Type} `{RT : Runtime Number Handle}.

#[local] Abbreviation Value := (JSValue Number Handle).
#[local] Abbreviation Located := (Located Number Handle).
#[local] Abbreviation Stored := (Heap.Stored Number Handle).
#[local] Abbreviation Store := (Heap.Store Number Handle).
#[local] Abbreviation Cell := (Heap.Cell Number Handle).

Implicit Types (sigma : Store) (t : Located) (req : Heap.Loc)
  (x : Stored) (q : Query).

Lemma represents_unchanged sigma sigma' x (v : Value) :
  unchanged sigma sigma' -> represents sigma x v -> represents sigma' x v.
Proof.
  intros U (t & H & Hr & He). exists t.
  split; [eapply holds_unchanged; eauto | now split].
Qed.

Lemma representsOption_unchanged {A : Type} (value : A -> Value) sigma sigma'
    (x : option Stored) (a : option A) :
  unchanged sigma sigma' ->
  representsOption value sigma x a -> representsOption value sigma' x a.
Proof. intros U. destruct x, a; cbn; auto. now apply represents_unchanged. Qed.

Lemma representsSettled_unchanged sigma sigma' s (r : @Settled Number Handle) :
  unchanged sigma sigma' ->
  representsSettled sigma s r -> representsSettled sigma' s r.
Proof.
  intros U. destruct s as [h|msg], r as [d|msg']; cbn; auto.
  intros (Hw & Ho & Hl & Ha & Hor & Hg & Hi).
  split; [eapply represents_unchanged; eauto|].
  repeat (split; [assumption|]).
  repeat split; eapply representsOption_unchanged; eauto.
Qed.

Lemma stringsValue_injective (l l' : list string) :
  (stringsValue l : Value) = stringsValue l' -> l = l'.
Proof.
  unfold stringsValue. intros E. injection E as E. revert l' E.
  induction l as [|s l IH]; intros [|s' l'] E; try discriminate E;
    [reflexivity|].
  cbn in E. injection E as -> E. f_equal. now apply IH.
Qed.

Lemma fieldsValue_injective (ll ll' : list (list string)) :
  (fieldsValue ll : Value) = fieldsValue ll' -> ll = ll'.
Proof.
  unfold fieldsValue. intros E. injection E as E. revert ll' E.
  induction ll as [|l ll IH]; intros [|l' ll'] E; try discriminate E;
    [reflexivity|].
  cbn [map] in E. injection E as E1 E. f_equal.
  - apply stringsValue_injective. unfold stringsValue. now f_equal.
  - now apply IH.
Qed.

Lemma representsOption_unique {A : Type} (value : A -> Value) sigma
    (x : option Stored) (a a' : option A) :
  (forall b b', value b = value b' -> b = b') ->
  representsOption value sigma x a -> representsOption value sigma x a' ->
  a = a'.
Proof.
  intros Hinj. destruct x, a, a'; cbn; try tauto.
  intros H H'. f_equal. apply Hinj. eapply represents_unique; eauto.
Qed.

(** What a settled promise stands for is read off the store. *)
Lemma representsSettled_unique sigma s (r r' : @Settled Number Handle) :
  representsSettled sigma s r -> representsSettled sigma s r' -> r = r'.
Proof.
  destruct s as [h|msg], r as [d|m], r' as [d'|m']; cbn; try tauto;
    [|congruence].
  intros (Hw & Ho & Hl & Ha & Hor & Hg & Hi)
         (Hw' & Ho' & Hl' & Ha' & Hor' & Hg' & Hi').
  pose proof (represents_unique _ _ _ _ Hw Hw') as Ew.
  injection Ew as Ew.
  pose proof (representsOption_unique _ _ _ _ _ stringsValue_injective Ha Ha').
  pose proof (representsOption_unique _ _ _ _ _ fieldsValue_injective Hor Hor').
  pose proof (representsOption_unique _ _ _ _ _ fieldsValue_injective Hg Hg').
  pose proof (representsOption_unique (fun v => v) _ _ _ _
                ltac:(auto) Hi Hi').
  destruct d, d'; cbn in *. f_equal. congruence.
Qed.

(** C8.  Translation is a deterministic function of the request that
    leaves the request alone.  In any store where [req] holds a request
    object that reads as the parameter mapping [q] --- a string or an
    array of strings under each name --- a call of [parse] settles, and so
    does a second call made in the store the first one leaves.  Every cell
    that was there before a call, the cells of the request among them, is
    after it what it was before, so that the request reads as [q] after
    each call.  Both promises settle as [parse q] says, the first one
    still after the second call, and hence the two descriptors, read from
    their stores, are the same value. *)
Theorem parse_pure sigma req q :
  represents sigma (Heap.Ref req) (queryValue q) ->
  exists sigma1 s1 sigma2 s2,
    Heap.parse req sigma = Some (sigma1, s1)
    /\ Heap.parse req sigma1 = Some (sigma2, s2)
    /\ unchanged sigma sigma1
    /\ unchanged sigma1 sigma2
    /\ represents sigma1 (Heap.Ref req) (queryValue q)
    /\ represents sigma2 (Heap.Ref req) (queryValue q)
    /\ representsSettled sigma1 s1 (parse q)
    /\ representsSettled sigma2 s2 (parse q)
    /\ representsSettled sigma2 s1 (parse q)
    /\ forall r1 r2 : @Settled Number Handle,
         representsSettled sigma1 s1 r1 -> representsSettled sigma2 s2 r2 ->
         r1 = r2.
Proof.
  intros H.
  destruct (parse_agrees sigma req q H) as (sigma1 & s1 & R1 & S1 & U1).
  pose proof (represents_unchanged _ _ _ _ U1 H) as H1.
  destruct (parse_agrees sigma1 req q H1) as (sigma2 & s2 & R2 & S2 & U2).
  exists sigma1, s1, sigma2, s2.
  repeat (split; [assumption|]).
  split; [eapply represents_unchanged; eauto|].
  repeat (split; [assumption|]).
  split; [eapply representsSettled_unchanged; eauto|].
  intros r1 r2 Hr1 Hr2.
  rewrite (representsSettled_unique _ _ _ _ Hr1 S1).
  now rewrite (representsSettled_unique _ _ _ _ Hr2 S2).
Qed.

End StoreClaims.

(* ================================================================== *)
(** ** The translator at work *)
(* ================================================================== *)

Section Evaluations.

Context {Number Handle : Type} `{RT : Runtime Number Handle}.

(** C1.  [constructor] is no entry of the operator table, and yet the pass
    renames it: [operators["constructor"]] reads the function [Object]
    from [Object.prototype], which is truthy, and the value moves under the
    string that function turns into. *)
Theorem inherited_key_is_renamed (n : Number) :
  assocString "constructor" operatorTable = None
  /\ iterativeReplace (JObj [(KStr "constructor", JNum n)])
     = Normal (JObj [(KStr "function Object() { [native code] }", JNum n)]).
Proof. split; reflexivity. Qed.

(** C4.  A prefix that names no operator is not given up: the value after
    the colon is stored under the key that [undefined] turns into. *)
Theorem filter_unknown_operator_key :
  operators "12" = Undefined
  /\ parseQueryParam "12:30"
     = (JObj [(KStr "undefined", JStr "30")] : JSValue Number Handle).
Proof. split; reflexivity. Qed.

End Evaluations.

(** C2, as it was stated: a descriptor does not always carry the default
    [limit].  That of the second revision has no [limit] when the request
    has none, while its [offset] is computed with the page size 200. *)
Lemma earlier_revision_has_no_default_limit :
  exists d,
    Revision2.parse (RT := Reference.runtime) [("offset", PStr "2")]
    = Revision2.Resolve d
    /\ Revision2.offset d = Some (Num 400)
    /\ Revision2.limit d = None
    /\ Revision2.limit d <> Some (Num 200).
Proof.
  eexists. split; [vm_compute; reflexivity|].
  repeat split. discriminate.
Qed.

(** C7, as it was stated: a sibling of [model] whose key names no operator
    is not always left as the pair it was.  Its value is passed through the
    pass, so an operator name nested in it is replaced. *)
Lemma include_sibling_is_rewritten :
  exists props',
    parseIncludeFields (RT := Reference.runtime)
      (Reference.quoted "{'model':'Role','where':{'id':{'gt':1}}}")
    = Normal (JObj props')
    /\ get (KStr "model") props' = Some (JHandle "Role")
    /\ get (KStr "where") props'
       = Some (JObj [(KStr "id", JObj [(KSym Op_gt, JNum 1%Z)])])
    /\ get (KStr "where") props'
       <> Some (JObj [(KStr "id", JObj [(KStr "gt", JNum 1%Z)])]).
Proof.
  eexists. split; [vm_compute; reflexivity|].
  repeat split. discriminate.
Qed.

(** C9, as it was stated: it is not only [sort_by] and [group_by] that
    accept a sequence.  A repeated [limit] resolves. *)
Lemma sequence_limit_resolves :
  ~ (forall (key : string) (l : list string),
       key <> "sort_by" -> key <> "group_by" ->
       exists m, parse (RT := Reference.runtime) [(key, PArr l)] = Reject m).
Proof.
  intros H. destruct (H "limit" ["5"; "10"]) as (m & E); try discriminate.
Qed.


(** The request of the spec's examples, translated. *)
Example parse_example :
  parse (RT := Reference.runtime)
    [ ("fields", PStr "id,name"); ("limit", PStr "500"); ("offset", PStr "3");
      ("sort_by", PStr "id.asc,name.desc"); ("group_by", PStr "id");
      ("firstName", PStr "like:Reza%"); ("id", PStr "in:1,2,3");
      ("status", PStr "active");
      ("query", PStr (Reference.quoted
         "{'or':[{'and':[{'firstName':'A'},{'id':1}]}]}"));
      ("include", PStr (Reference.quoted
         "{'model':'Role','where':{'name':'admin'}}")) ]
  = Resolve
      {| where_ :=
           [ (KStr "firstName", JObj [(KSym Op_like, JStr "Reza%")]);
             (KStr "id",
              JObj [(KSym Op_in, JArr [JStr "1"; JStr "2"; JStr "3"])]);
             (KStr "status", JStr "active");
             (KSym Op_or,
              JArr [ JObj [ (KSym Op_and,
                             JArr [ JObj [(KStr "firstName", JStr "A")];
                                    JObj [(KStr "id", JNum 1%Z)] ]) ] ]) ];
         offset := Num 600;
         limit := Num 200;
         attributes := Some ["id"; "name"];
         order := Some [["id"; "asc"]; ["name"; "desc"]];
         group := Some [["id"]];
         include :=
           Some (JObj [ (KStr "model", JHandle "Role");
                        (KStr "where", JObj [(KStr "name", JStr "admin")]) ])
      |}.
Proof. vm_compute. reflexivity. Qed.

(* ------------------------------------------------------------------ *)
(** *** Instances of the theorems *)

Lemma parse_pagination_witness :
  (1 <= 200 <= 200)%Z
  /\ (forall d : @DbQuery Z string,
        parse (RT := Reference.runtime)
          [("limit", PStr "500"); ("offset", PStr "3")] = Resolve d ->
        limit d = Num 200 /\ offset d = Num (3 * 200))
  /\ (forall d : @Revision2.DbQuery Z string,
        Revision2.parse (RT := Reference.runtime)
          [("limit", PStr "500"); ("offset", PStr "3")]
        = Revision2.Resolve d ->
        Revision2.limit d = Some (Num 200)
        /\ Revision2.offset d = Some (Num (3 * 200))).
Proof.
  apply (parse_pagination (RT := Reference.runtime)
           [("limit", PStr "500"); ("offset", PStr "3")]).
  - right. exists 500%Z.
    split; [discriminate | split; [reflexivity | right; right; lia]].
  - right. exists 3%Z.
    split; [discriminate | split; [reflexivity | left; lia]].
  - vm_compute. discriminate.
Defined.

Lemma parse_fails_atomically_witness :
  param "query" [("query", PStr "{not valid json")]
    = Some (PStr "{not valid json")
  /\ @JSON_parse _ _ Reference.runtime
       (@unescape _ _ Reference.runtime
          (paramToString (Some (PStr "{not valid json"))))
     = Throw "Unexpected token in JSON"
  /\ parse (RT := Reference.runtime) [("query", PStr "{not valid json")]
     = Reject "Unexpected token in JSON".
Proof.
  split; [reflexivity | split; [vm_compute; reflexivity |]].
  destruct (parse_fails_atomically (RT := Reference.runtime)
              [("query", PStr "{not valid json")] "query"
              (PStr "{not valid json") "Unexpected token in JSON")
    as (_ & _ & Hfirst & _).
  - left. reflexivity.
  - reflexivity.
  - vm_compute. reflexivity.
  - apply (Hfirst [] []
             (initialState [("query", PStr "{not valid json")])); reflexivity.
Defined.

Lemma query_merges_into_where_witness :
  exists st',
    parseStep (RT := Reference.runtime) "query"
      {| request := [("query", PStr (Reference.quoted
                        "{'a':2,'b':{'in':[1,2]}}"))];
         offsetVar := Num 0; limitVar := Num 200;
         dbQuery := {| where_ := [ (KStr "a", JStr "1");
                                   (KStr "c", JStr "3") ];
                       offset := Num 0; limit := Num 200;
                       attributes := None; order := None; group := None;
                       include := None |} |}
    = Normal st'
    /\ get (KStr "a") (where_ (dbQuery st')) = Some (JNum 2%Z)
    /\ get (KStr "b") (where_ (dbQuery st'))
       = Some (JObj [(KSym Op_in, JArr [JNum 1%Z; JNum 2%Z])])
    /\ get (KStr "c") (where_ (dbQuery st')) = Some (JStr "3")
    /\ limit (dbQuery st') = Num 200.
Proof.
  destruct (query_merges_into_where (RT := Reference.runtime)
     {| request := [("query", PStr (Reference.quoted
                       "{'a':2,'b':{'in':[1,2]}}"))];
        offsetVar := Num 0; limitVar := Num 200;
        dbQuery := {| where_ := [ (KStr "a", JStr "1");
                                  (KStr "c", JStr "3") ];
                      offset := Num 0; limit := Num 200;
                      attributes := None; order := None; group := None;
                      include := None |} |}
     (PStr (Reference.quoted "{'a':2,'b':{'in':[1,2]}}"))
     (JObj [ (KStr "a", JNum 2%Z);
             (KStr "b", JObj [(KStr "in", JArr [JNum 1%Z; JNum 2%Z])]) ])
     (JObj [ (KStr "a", JNum 2%Z);
             (KStr "b", JObj [(KSym Op_in, JArr [JNum 1%Z; JNum 2%Z])]) ]))
    as (st' & Hstep & Hnew & Hold & _ & Hlimit & _).
  - reflexivity.
  - vm_compute. reflexivity.
  - intros props [= <-]. simpl.
    repeat constructor; simpl; intuition discriminate.
  - vm_compute. reflexivity.
  - exists st'. split; [exact Hstep|].
    split; [apply Hnew; reflexivity|].
    split; [apply Hnew; reflexivity|].
    split; [rewrite Hold; reflexivity | exact Hlimit].
Defined.

Lemma sequence_parameters_witness :
  exists m,
    parse (RT := Reference.runtime) [("fields", PArr ["id"; "name"])]
    = Reject m.
Proof.
  destruct (sequence_parameters (RT := Reference.runtime)
              [("fields", PArr ["id"; "name"])] "fields" ["id"; "name"])
    as [Hrejects _].
  - reflexivity.
  - apply Hrejects. left. reflexivity.
Defined.


Lemma iterativeReplace_renames_operator_witness :
  exists props',
    iterativeReplace (RT := Reference.runtime)
      (JObj [ (KStr "or", JArr [ JObj [(KStr "gt", JNum 1%Z)] ]);
              (KStr "and", JNum 2%Z) ])
    = Normal (JObj props')
    /\ get (KSym Op_or) props' = Some (JArr [ JObj [(KSym Op_gt, JNum 1%Z)] ])
    /\ get (KStr "or") props' = None.
Proof.
  destruct (iterativeReplace_renames_operator (RT := Reference.runtime)
              [ (KStr "or", JArr [ JObj [(KStr "gt", JNum 1%Z)] ]);
                (KStr "and", JNum 2%Z) ]
              "or" Op_or (JArr [ JObj [(KStr "gt", JNum 1%Z)] ]))
    as (props' & v' & Hpass & Hv & Hsym & Hkey).
  - simpl. repeat constructor; simpl; intuition discriminate.
  - reflexivity.
  - reflexivity.
  - exists props'. split; [exact Hpass|]. split; [|exact Hkey].
    rewrite Hsym. f_equal.
    assert (E : Normal v' =
                Normal (JArr [ JObj [(KSym Op_gt, JNum 1%Z)] ]
                        : Reference.Value))
      by (rewrite <- Hv; vm_compute; reflexivity).
    injection E as ->. reflexivity.
Defined.

Lemma parseQueryParam_unknown_witness :
  parseQueryParam "http://example.org"
  = (JObj [(KStr "undefined", JStr "//example.org")] : Reference.Value).
Proof.
  apply (parseQueryParam_unknown "http" "//example.org");
    [reflexivity | reflexivity | discriminate | reflexivity].
Defined.

Lemma iterativeReplace_terminates_witness :
  iterativeReplace_fuel (RT := Reference.runtime) 7
    (JObj [(KStr "or", JArr [JObj [(KStr "id", JNum 1%Z)]])])
  = Some (iterativeReplace (RT := Reference.runtime)
            (JObj [(KStr "or", JArr [JObj [(KStr "id", JNum 1%Z)]])])).
Proof.
  apply (iterativeReplace_terminates (RT := Reference.runtime) 7).
  simpl. lia.
Defined.

Lemma parseQueryParam_first_line_witness :
  parseQueryParam ("like:a" ++ String "010"%char "b")
  = (JObj [(KSym Op_like, JStr "a")] : Reference.Value).
Proof.
  apply (parseQueryParam_first_line "like" "a" "b" "010"%char Op_like);
    [reflexivity | discriminate | reflexivity | reflexivity].
Defined.

Lemma iterativeReplace_inherited_key_witness :
  iterativeReplace (RT := Reference.runtime)
    (JObj [(KStr "toString", JStr "x")])
  = Normal (JObj [(KStr "function toString() { [native code] }", JStr "x")]).
Proof.
  apply (iterativeReplace_inherited_key (RT := Reference.runtime)
           "toString" (JStr "x")); reflexivity.
Defined.


Lemma include_model_resolved_witness :
  exists props',
    iterativeReplace (RT := Reference.runtime)
      (JObj [ (KStr "model", JStr "Role");
              (KStr "toString", JNum 1%Z);
              (KStr "where", JObj [(KStr "name", JStr "admin")]) ])
    = Normal (JObj props')
    /\ get (KStr "model") props' = Some (JHandle "Role")
    /\ get (KStr "where") props' = Some (JObj [(KStr "name", JStr "admin")]).
Proof.
  destruct (include_model_resolved (RT := Reference.runtime)
              [ (KStr "model", JStr "Role");
                (KStr "toString", JNum 1%Z);
                (KStr "where", JObj [(KStr "name", JStr "admin")]) ]
              (JStr "Role") "Role")
    as (props' & Hpass & Hmodel & Hsiblings).
  - simpl. repeat constructor; simpl; intuition discriminate.
  - reflexivity.
  - reflexivity.
  - reflexivity.
  - exists props'. split; [exact Hpass | split; [exact Hmodel|]].
    destruct (Hsiblings "where" (JObj [(KStr "name", JStr "admin")]))
      as [_ Hobject]; [reflexivity | discriminate | reflexivity | |].
    { simpl. intros other [<-|[<-|[<-|[]]]]; intros H; try discriminate H.
      vm_compute. discriminate. }
    destruct (Hobject eq_refl) as (x' & Hx' & Hget).
    rewrite Hget. f_equal.
    assert (E : Normal x' =
                Normal (JObj [(KStr "name", JStr "admin")] : Reference.Value))
      by (rewrite <- Hx'; vm_compute; reflexivity).
    now injection E as ->.
Defined.

Lemma iterativeReplace_is_rewriteTree_witness :
  iterativeReplace (RT := Reference.runtime)
    (JObj [ (KStr "or", JArr [ JObj [(KStr "id", JObj [(KStr "gt", JNum 1%Z)])] ]);
            (KStr "model", JStr "Role");
            (KStr "toString", JStr "x");
            (KStr "name", JStr "admin") ])
  = Normal
      (JObj [ (KStr "model", JHandle "Role");
              (KStr "name", JStr "admin");
              (KSym Op_or,
               JArr [ JObj [(KStr "id", JObj [(KSym Op_gt, JNum 1%Z)])] ]);
              (KStr "function toString() { [native code] }", JStr "x") ]).
Proof.
  refine (proj1 (iterativeReplace_is_rewriteTree (RT := Reference.runtime)
           (JObj [ (KStr "or",
                    JArr [ JObj [(KStr "id", JObj [(KStr "gt", JNum 1%Z)])] ]);
                   (KStr "model", JStr "Role");
                   (KStr "toString", JStr "x");
                   (KStr "name", JStr "admin") ]) _ _)); reflexivity.
Defined.

Lemma iterativeReplace_leaves_no_operator_witness :
  exists v',
    iterativeReplace (RT := Reference.runtime)
      (JObj [(KStr "and", JArr [ JObj [(KStr "id", JObj [(KStr "in", JArr [JNum 1%Z])])] ])])
    = Normal v'
    /\ operatorFree v' = true.
Proof.
  apply (iterativeReplace_leaves_no_operator (RT := Reference.runtime));
    reflexivity.
Defined.

Lemma iterativeReplace_idempotent_witness :
  iterativeReplace (RT := Reference.runtime)
    (JObj [ (KStr "model", JHandle "Role");
            (KSym Op_or, JArr [ JObj [(KSym Op_gt, JNum 1%Z)] ]) ])
  = Normal
      (JObj [ (KStr "model", JHandle "Role");
              (KSym Op_or, JArr [ JObj [(KSym Op_gt, JNum 1%Z)] ]) ]).
Proof.
  apply (iterativeReplace_idempotent (RT := Reference.runtime)
           (JObj [ (KStr "or", JArr [ JObj [(KStr "gt", JNum 1%Z)] ]);
                   (KStr "model", JStr "Role") ])).
  - intros h. reflexivity.
  - reflexivity.
  - reflexivity.
  - vm_compute. reflexivity.
Defined.

Lemma parse_descriptor_witness :
  attributes {| where_ := []; offset := Num 0; limit := Num 200;
                attributes := Some ["id"; "name"];
                order := Some [["id"; "asc"]]; group := None;
                include := @None Reference.Value |}
  = Some ["id"; "name"]
  /\ order {| where_ := []; offset := Num 0; limit := Num 200;
              attributes := Some ["id"; "name"];
              order := Some [["id"; "asc"]]; group := None;
              include := @None Reference.Value |}
     = Some [["id"; "asc"]].
Proof.
  destruct (parse_descriptor (RT := Reference.runtime)
              [("sort_by", PStr "id.asc"); ("fields", PStr "id,name")]
              {| where_ := []; offset := Num 0; limit := Num 200;
                 attributes := Some ["id"; "name"];
                 order := Some [["id"; "asc"]]; group := None;
                 include := None |})
    as (Ha & Ho & _).
  - vm_compute. reflexivity.
  - split; [exact Ha | exact Ho].
Defined.



Lemma parse_pagination_decimal_witness :
  limit {| where_ := []; offset := Num 600; limit := Num 200;
           attributes := None; order := None; group := None;
           include := @None Reference.Value |}
  = Num (Z.min (Z.max 500 1) 200)
  /\ offset {| where_ := []; offset := Num 600; limit := Num 200;
               attributes := None; order := None; group := None;
               include := @None Reference.Value |}
     = Num (Z.max 3 0 * Z.min (Z.max 500 1) 200).
Proof.
  apply (parse_pagination_decimal (RT := Reference.runtime)
           [("limit", PStr "500"); ("offset", PStr "3")]).
  - vm_compute. reflexivity.
  - reflexivity.
  - reflexivity.
  - reflexivity.
Defined.

Lemma parse_unparseable_pagination_witness :
  limit {| where_ := []; offset := NaN; limit := NaN;
           attributes := None; order := None; group := None;
           include := @None Reference.Value |} = NaN
  /\ offset {| where_ := []; offset := NaN; limit := NaN;
               attributes := None; order := None; group := None;
               include := @None Reference.Value |} = NaN.
Proof.
  destruct (parse_unparseable_pagination (RT := Reference.runtime)
              [("limit", PStr "ten"); ("offset", PStr "2")]
              {| where_ := []; offset := NaN; limit := NaN;
                 attributes := None; order := None; group := None;
                 include := None |})
    as [Hlimit _].
  - vm_compute. reflexivity.
  - apply Hlimit; [discriminate | reflexivity].
Defined.

Lemma revision1_parseQueryParam_witness :
  Revision1.parseQueryParam "between:1:5"
  = (JObj [(KSym Op_between, JStr "1")] : Reference.Value).
Proof.
  apply (revision1_parseQueryParam "between" "1" ["5"]).
  repeat constructor.
Defined.

Lemma parse_order_independent_witness :
  exists d',
    parse (RT := Reference.runtime)
      [("offset", PStr "2"); ("id", PStr "gt:5"); ("limit", PStr "10")]
    = Resolve d'
    /\ limit d' = Num 10 /\ offset d' = Num 20
    /\ get (KStr "id") (where_ d') = Some (JObj [(KSym Op_gt, JStr "5")]).
Proof.
  destruct (parse_order_independent (RT := Reference.runtime)
              [("limit", PStr "10"); ("offset", PStr "2"); ("id", PStr "gt:5")]
              [("offset", PStr "2"); ("id", PStr "gt:5"); ("limit", PStr "10")]
              {| where_ := [(KStr "id", JObj [(KSym Op_gt, JStr "5")])];
                 offset := Num 20; limit := Num 10;
                 attributes := None; order := None; group := None;
                 include := None |})
    as (d' & Hres & Hl & Ho & _ & _ & _ & _ & Hw).
  - simpl. repeat constructor; simpl; intuition discriminate.
  - apply Permutation_cons_app with (l1 := [("offset", PStr "2"); ("id", PStr "gt:5")]) (l2 := []).
    rewrite app_nil_r. apply Permutation_refl.
  - vm_compute. reflexivity.
  - exists d'. split; [exact Hres|]. split; [exact Hl|]. split; [exact Ho|].
    rewrite Hw; reflexivity.
Defined.

Lemma parseQueryParam_inherited_witness :
  parseQueryParam "valueOf:5"
  = (JObj [(KStr "function valueOf() { [native code] }", JStr "5")]
     : Reference.Value).
Proof.
  apply (parseQueryParam_inherited "valueOf" "5");
    [reflexivity | discriminate | reflexivity].
Defined.

Lemma query_scalar_changes_nothing_witness :
  parseStep (RT := Reference.runtime) "query"
    (initialState [("query", PStr "5")])
  = Normal (initialState [("query", PStr "5")]).
Proof.
  apply (query_scalar_changes_nothing (RT := Reference.runtime)
           (initialState [("query", PStr "5")]) (PStr "5") (JNum 5%Z)).
  - reflexivity.
  - vm_compute. reflexivity.
  - left. exists 5%Z. reflexivity.
Defined.

Lemma filter_agrees_with_query_witness :
  iterativeReplace (RT := Reference.runtime)
    (JObj [(KStr "in", JArr [JStr "1"; JStr "2"; JStr "3"])])
  = Normal (parseQueryParam "in:1,2,3").
Proof.
  apply (filter_agrees_with_query (RT := Reference.runtime) "in" "1,2,3");
    [reflexivity | discriminate | reflexivity].
Defined.

Lemma parse_where_is_query_witness :
  where_ {| where_ := [ (KStr "status", JStr "active");
                        (KSym Op_or, JArr [ JObj [(KStr "id", JNum 1%Z)];
                                            JObj [(KStr "id", JNum 2%Z)] ]) ];
            offset := Num 0; limit := Num 200;
            attributes := None; order := None; group := None;
            include := @None Reference.Value |}
  = [ (KStr "status", JStr "active");
      (KSym Op_or, JArr [ JObj [(KStr "id", JNum 1%Z)];
                          JObj [(KStr "id", JNum 2%Z)] ]) ].
Proof.
  apply (parse_where_is_query (RT := Reference.runtime)
           [("query", PStr (Reference.quoted
               "{'or':[{'id':1},{'id':2}],'status':'active'}"))]
           _
           (PStr (Reference.quoted
               "{'or':[{'id':1},{'id':2}],'status':'active'}"))
           [ (KStr "or", JArr [ JObj [(KStr "id", JNum 1%Z)];
                                JObj [(KStr "id", JNum 2%Z)] ]);
             (KStr "status", JStr "active") ]).
  - simpl. repeat constructor. simpl. tauto.
  - intros key [<-|[]]. reflexivity.
  - reflexivity.
  - vm_compute. reflexivity.
  - reflexivity.
  - vm_compute. reflexivity.
Defined.

Lemma parse_pagination_bounds_witness :
  exists size skip,
    limit {| where_ := []; offset := Num 60; limit := Num 20;
             attributes := None; order := None; group := None;
             include := @None Reference.Value |} = Num size
    /\ (1 <= size <= 200)%Z
    /\ offset {| where_ := []; offset := Num 60; limit := Num 20;
                 attributes := None; order := None; group := None;
                 include := @None Reference.Value |} = Num skip
    /\ (0 <= skip)%Z.
Proof.
  destruct (parse_pagination_bounds (RT := Reference.runtime)
              [("offset", PStr "3 pages"); ("limit", PStr "20px")]
              {| where_ := []; offset := Num 60; limit := Num 20;
                 attributes := None; order := None; group := None;
                 include := None |})
    as [Hl Ho].
  - vm_compute. reflexivity.
  - destruct Hl as [Hl | (size & Hl & Hb)]; [discriminate Hl|].
    destruct Ho as [Ho | (skip & Ho & Hs)]; [discriminate Ho|].
    exists size, skip. auto.
Defined.

Lemma parse_pure_witness :
  let sigma : Heap.Store Z string :=
    [ Heap.CObject [ (KStr "limit", Heap.Scalar (Heap.PStr "5"));
                     (KStr "sort_by", Heap.Ref 1);
                     (KStr "age", Heap.Scalar (Heap.PStr "gt:30")) ];
      Heap.CArray [ Heap.Scalar (Heap.PStr "name.asc");
                    Heap.Scalar (Heap.PStr "id") ] ] in
  let q := [ ("limit", PStr "5"); ("sort_by", PArr ["name.asc"; "id"]);
             ("age", PStr "gt:30") ] in
  represents sigma (Heap.Ref 0) (queryValue q)
  /\ exists sigma1 s1 sigma2 s2,
       Heap.parse (RT := Reference.runtime) 0 sigma = Some (sigma1, s1)
       /\ Heap.parse (RT := Reference.runtime) 0 sigma1 = Some (sigma2, s2)
       /\ unchanged sigma sigma1
       /\ unchanged sigma1 sigma2
       /\ represents sigma1 (Heap.Ref 0) (queryValue q)
       /\ represents sigma2 (Heap.Ref 0) (queryValue q)
       /\ representsSettled sigma1 s1 (parse (RT := Reference.runtime) q)
       /\ representsSettled sigma2 s2 (parse (RT := Reference.runtime) q)
       /\ representsSettled sigma2 s1 (parse (RT := Reference.runtime) q)
       /\ forall r1 r2 : @Settled Z string,
            representsSettled sigma1 s1 r1 ->
            representsSettled sigma2 s2 r2 -> r1 = r2.
Proof.
  intros sigma q.
  assert (H : represents sigma (Heap.Ref 0) (queryValue q)).
  { exists (LObject 0
              [ (KStr "limit", LScalar (Heap.PStr "5"));
                (KStr "sort_by",
                 LArray 1 [ LScalar (Heap.PStr "name.asc");
                            LScalar (Heap.PStr "id") ]);
                (KStr "age", LScalar (Heap.PStr "gt:30")) ]).
    cbn. repeat split. }
  split; [exact H | exact (parse_pure sigma 0 q H)].
Defined.
